(** * makeDebuggable: the AXML manifest patcher of [makeDebuggable.py]

    A shallow embedding of the manifest patcher ([patchManifest] and the
    functions it calls, and [patchManifestByFilename]) and the properties
    of it that the specification states.

    Conventions of the embedding.
    - The input stream [fIn] is a binary file opened for reading
      ([open(fn, "rb")]): an immutable byte string and a position. It is
      seekable, a seek to a negative absolute position raises [OSError],
      [read(n)] returns the bytes that are left when fewer than [n] are,
      [read(-1)] reads to the end and [read(n)] with [n < -1] raises
      [ValueError].
    - The output stream [fOut] is only ever appended to.
    - [print] appends a message to [stdout].
    - Python integers are unbounded: they are [Z]. [struct.pack] raises
      [struct.error] when a value does not fit its field and
      [struct.unpack] raises it when the buffer has the wrong length.
    - The two [while] loops of the program take fuel; running out of it
      is the result [OutOfFuel], distinct from every exception.
    - A decoded string is only ever compared with an ASCII literal, so
      the embedding keeps the bytes that were decoded and their encoding
      (see [str_eq]). *)

From stdpp Require Import base list strings gmap.
From Stdlib Require Import ZArith Lia.
From Stdlib.Strings Require Import Byte.

Local Open Scope Z_scope.

(** ** Bytes and little-endian integers *)

Global Instance byte_eq_decision : EqDecision byte := Byte.byte_eq_dec.

Definition byte_val (b : byte) : Z := Z.of_N (Byte.to_N b).

Definition byte_of (z : Z) : byte :=
  default x00 (Byte.of_N (Z.to_N (z `mod` 256))).

Fixpoint le_decode (bs : list byte) : Z :=
  match bs with
  | [] => 0
  | b :: bs => byte_val b + 256 * le_decode bs
  end.

Fixpoint le_encode (n : nat) (v : Z) : list byte :=
  match n with
  | O => []
  | S n => byte_of v :: le_encode n (v `div` 256)
  end.

(** ** Exceptions and results *)

Inductive exn :=
  | struct_error
  | TypeError
  | ValueError
  | OSError
  | IndexError
  | UnboundLocalError
  | AssertionError
  | FileNotFoundError
  | Exception (msg : string).

Inductive result (A : Type) :=
  | Ok (a : A)
  | Raise (e : exn)
  | OutOfFuel.
Arguments Ok {A} a.
Arguments Raise {A} e.
Arguments OutOfFuel {A}.

Global Instance result_ret : MRet result := λ A a, Ok a.
Global Instance result_bind : MBind result := λ A B f m,
  match m with
  | Ok a => f a
  | Raise e => Raise e
  | OutOfFuel => OutOfFuel
  end.

(** ** [struct]: format characters of little-endian, unpadded formats *)

Inductive fmt := uB | uH | uI | uL.

Definition fmt_size (c : fmt) : nat :=
  match c with uB => 1 | uH => 2 | uI => 4 | uL => 4 end%nat.

Definition calcsize (fs : list fmt) : nat := sum_list (fmt_size <$> fs).

Fixpoint unpack_fields (fs : list fmt) (bs : list byte) : list Z :=
  match fs with
  | [] => []
  | c :: fs =>
      le_decode (take (fmt_size c) bs) :: unpack_fields fs (drop (fmt_size c) bs)
  end.

Definition unpack (fs : list fmt) (bs : list byte) : result (list Z) :=
  if decide (length bs = calcsize fs) then Ok (unpack_fields fs bs)
  else Raise struct_error.

Definition fits (c : fmt) (v : Z) : bool :=
  (0 <=? v) && (v <? 2 ^ (8 * Z.of_nat (fmt_size c))).

Fixpoint pack (fs : list fmt) (vs : list Z) : result (list byte) :=
  match fs, vs with
  | [], [] => Ok []
  | c :: fs, v :: vs =>
      if fits c v then
        rest ← pack fs vs; Ok (le_encode (fmt_size c) v ++ rest)
      else Raise struct_error
  | _, _ => Raise struct_error
  end.

(** ** Constants *)

Definition COMMON_HEADER_LEN : Z := 8.
Definition CHUNK_TYPE_STRINGPOOL : Z := 0x1.
Definition CHUNK_TYPE_RESMAP : Z := 0x180.
Definition CHUNK_TYPE_START_ELEMENT : Z := 0x0102.
Definition DEBUGGABLE_RES_ID : Z := 0x0101000f.
Definition DEBUGGABLE_STRING : string := "debuggable".
Definition DEBUGGABLE_STRING_LENGTH_UTF8 : Z := 12.
Definition DEBUGGABLE_STRING_LENGTH_UTF16 : Z := 24.
Definition DEBUGGABLE_STRING_DATA_UTF8 : list byte :=
  byte_of <$> [10; 100; 101; 98; 117; 103; 103; 97; 98; 108; 101; 0].
Definition DEBUGGABLE_STRING_DATA_UTF16 : list byte :=
  byte_of <$> [10; 0; 100; 0; 101; 0; 98; 0; 117; 0; 103; 0; 103; 0; 97; 0;
               98; 0; 108; 0; 101; 0; 0; 0].
Definition ANDROID_NS_STRING : string :=
  "http://schemas.android.com/apk/res/android".
Definition APPLICATION_STRING : string := "application".
Definition UINT32_LENGTH : Z := 4.
Definition UINT16_LENGTH : Z := 2.
Definition UINT8_LENGTH : Z := 1.
Definition DEBUGGABLE_VALUE_TRUE : list byte := [xff; xff; xff; xff].
Definition ATTRIBUTE_LENGTH : Z := 20.

(** ** The streams: [fIn], [fOut] and the standard output *)

Inductive message :=
  | SkippingLast (n : Z)
  | FoundApplicationTag (offset : Z)
  | FoundDebuggable
  | CopyingFile
  | DebuggableNotPresent
  | Injecting (idx : Z).

Record state := State {
  fIn_pos : Z;
  fOut : list byte;
  stdout : list message
}.

Definition M (A : Type) : Type := state → result (A * state).

Global Instance M_ret : MRet M := λ A a s, Ok (a, s).
Global Instance M_bind : MBind M := λ A B f m s,
  match m s with
  | Ok (a, s') => f a s'
  | Raise e => Raise e
  | OutOfFuel => OutOfFuel
  end.

Definition raise {A} (e : exn) : M A := λ _, Raise e.
Definition out_of_fuel {A} : M A := λ _, OutOfFuel.
Definition lift {A} (r : result A) : M A := λ s,
  match r with
  | Ok a => Ok (a, s)
  | Raise e => Raise e
  | OutOfFuel => OutOfFuel
  end.

Definition len {A} (l : list A) : Z := Z.of_nat (length l).

Definition SEEK_SET : Z := 0.
Definition SEEK_CUR : Z := 1.

Definition tell : M Z := λ s, Ok (fIn_pos s, s).

Definition seek (offset whence : Z) : M unit := λ s,
  let target := if decide (whence = SEEK_CUR) then fIn_pos s + offset else offset in
  if decide (target < 0) then Raise OSError
  else Ok ((), State target (fOut s) (stdout s)).

Definition write (bs : list byte) : M unit := λ s,
  Ok ((), State (fIn_pos s) (fOut s ++ bs) (stdout s)).

Definition print (m : message) : M unit := λ s,
  Ok ((), State (fIn_pos s) (fOut s) (stdout s ++ [m])).

(** ** Decoded records *)

Record CommonHeader := {
  type : Z;
  headerSize : Z;
  chunkSize : Z
}.

Record ChunkInfo := {
  startOffset : Z;
  commonHeader : CommonHeader
}.

Record StrPoolInfo := {
  sp_chunkInfo : ChunkInfo;
  stringCount : Z;
  styleCount : Z;
  flags : Z;
  stringsStart : Z;
  stylesStart : Z;
  isUtf8 : bool
}.

Record ResmapInfo := {
  rm_chunkInfo : option ChunkInfo;
  rm_len : Z
}.

Record Attribute := {
  attr_startOffset : Z;
  nsId : Z;
  nameId : Z;
  rawVal : Z;
  size : Z;
  dataType : Z;
  data : Z
}.

(** A [str] produced by [bytes.decode(encoding, "replace")]: the bytes
    and the codec they were decoded with. *)
Inductive codec := utf_8 | utf_16.

Record str := Decoded { str_codec : codec; str_bytes : list byte }.

Definition utf16le (s : string) : list byte :=
  b ← String.list_byte_of_string s; [b; x00].

Definition utf16be (s : string) : list byte :=
  b ← String.list_byte_of_string s; [x00; b].

(** [s == literal] for an ASCII literal. Decoding with ["replace"] never
    fails; it yields the characters of an ASCII literal exactly when the
    bytes are the literal's encoding: for UTF-8 the literal's bytes, for
    UTF-16 its little-endian encoding (the byte order of the host when
    there is no byte-order mark), or a byte-order mark followed by the
    encoding in the order it announces. *)
Definition str_eq (s : str) (literal : string) : bool :=
  match str_codec s with
  | utf_8 => bool_decide (str_bytes s = String.list_byte_of_string literal)
  | utf_16 =>
      bool_decide (str_bytes s = utf16le literal)
      || bool_decide (str_bytes s = [xff; xfe] ++ utf16le literal)
      || bool_decide (str_bytes s = [xfe; xff] ++ utf16be literal)
  end.

(** [name == literal] where [name] may be [None]. *)
Definition opt_str_eq (name : option str) (literal : string) : bool :=
  match name with
  | Some s => str_eq s literal
  | None => false
  end.

Section Stream.

(** The bytes of the file behind [fIn]. *)
Variable input : list byte.

Definition read (n : Z) : M (list byte) := λ s,
  if decide (n < -1) then Raise ValueError
  else
    let rest := drop (Z.to_nat (fIn_pos s)) input in
    let bs := if decide (n = -1) then rest else take (Z.to_nat n) rest in
    Ok (bs, State (fIn_pos s + len bs) (fOut s) (stdout s)).

(** [readType(f, 1, fmtType, typeLen)]: one value. *)
Definition readType1 (c : fmt) (typeLen : Z) : M Z :=
  bs ← read (1 * typeLen);
  data ← lift (unpack [c] bs);
  match data with
  | v :: _ => mret v
  | [] => raise IndexError
  end.

(** [readType(f, n, fmtType, typeLen)] for [n ≠ 1]: a tuple. *)
Definition readTypeN (n : nat) (c : fmt) (typeLen : Z) : M (list Z) :=
  bs ← read (Z.of_nat n * typeLen);
  lift (unpack (replicate n c) bs).

Definition readInt : M Z := readType1 uI UINT32_LENGTH.
Definition readInts (n : nat) : M (list Z) := readTypeN n uI UINT32_LENGTH.
Definition readShorts (n : nat) : M (list Z) := readTypeN n uH UINT16_LENGTH.

Definition isInt32NotNegative (v : Z) : bool :=
  bool_decide (Z.land (Z.shiftl 1 31) v = 0).

Definition readCommonHeader : M (option CommonHeader) :=
  data ← read COMMON_HEADER_LEN;
  if decide (len data < COMMON_HEADER_LEN) then
    (if decide (len data > 0) then print (SkippingLast (len data)) else mret ());;
    mret None
  else
    fields ← lift (unpack [uH; uH; uI] data);
    match fields with
    | [type; headerSize; size] =>
        mret (Some {| type := type; headerSize := headerSize; chunkSize := size |})
    | _ => raise ValueError
    end.

Definition writeCommonHeader (type headerSize size : Z) : M unit :=
  bs ← lift (pack [uH; uH; uI] [type; headerSize; size]);
  write bs.

(** The [while header := readCommonHeader(inStream)] loop. *)
Fixpoint readChunks_loop (fuel : nat) (chunk : list ChunkInfo) (currPos : Z)
  : M (list ChunkInfo) :=
  match fuel with
  | O => out_of_fuel
  | S fuel =>
      header ← readCommonHeader;
      match header with
      | Some header =>
          let chunk := chunk ++ [{| startOffset := currPos; commonHeader := header |}] in
          seek (chunkSize header - COMMON_HEADER_LEN) SEEK_CUR;;
          currPos ← tell;
          readChunks_loop fuel chunk currPos
      | None => mret chunk
      end
  end.

Definition readChunks (fuel : nat) : M (list ChunkInfo) :=
  currPos ← tell;
  readChunks_loop fuel [] currPos.

Fixpoint findStringpoolAndResmap_loop (chunks : list ChunkInfo)
  (i stringPoolIdx resmapIdx : Z) : result (Z * Z) :=
  match chunks with
  | [] => Ok (stringPoolIdx, resmapIdx)
  | chunkInfo :: chunks =>
      let chunkType := type (commonHeader chunkInfo) in
      if decide (chunkType = CHUNK_TYPE_STRINGPOOL) then
        if decide (stringPoolIdx >= 0) then Raise (Exception "More than one string pool!")
        else findStringpoolAndResmap_loop chunks (i + 1) i resmapIdx
      else if decide (chunkType = CHUNK_TYPE_RESMAP) then
        if decide (resmapIdx >= 0) then Raise (Exception "More than one resmap!")
        else findStringpoolAndResmap_loop chunks (i + 1) stringPoolIdx i
      else findStringpoolAndResmap_loop chunks (i + 1) stringPoolIdx resmapIdx
  end.

Definition findStringpoolAndResmap (chunks : list ChunkInfo) : result (Z * Z) :=
  '(stringPoolIdx, resmapIdx) ← findStringpoolAndResmap_loop chunks 0 (-1) (-1);
  if decide (stringPoolIdx < 0) then Raise (Exception "No string pool found!")
  else Ok (stringPoolIdx, resmapIdx).

Definition decodeStringPoolInfo (chunkInfo : ChunkInfo) : M StrPoolInfo :=
  let offset := startOffset chunkInfo in
  seek (offset + COMMON_HEADER_LEN) SEEK_SET;;
  fields ← readInts 5;
  match fields with
  | [stringCount; styleCount; flags; stringsStart; stylesStart] =>
      mret {| sp_chunkInfo := chunkInfo;
              stringCount := stringCount;
              styleCount := styleCount;
              flags := flags;
              stringsStart := stringsStart;
              stylesStart := stylesStart;
              isUtf8 := bool_decide (Z.land flags (Z.shiftl 1 8) ≠ 0) |}
  | _ => raise ValueError
  end.

Definition assert (b : bool) : M unit :=
  if b then mret () else raise AssertionError.

Definition decodeLength (sizeof_char : Z) : M (Z * Z) :=
  let fmt := replicate 2 (if decide (sizeof_char = 1) then uB else uH) in
  let highbit := Z.shiftl 0x80 (8 * (sizeof_char - 1)) in
  bs ← read (sizeof_char * 2);
  fields ← lift (unpack fmt bs);
  match fields with
  | [length1; length2] =>
      '(length, bytesRead) ←
        (if decide (Z.land length1 highbit ≠ 0) then
           mret (Z.lor (Z.shiftl (Z.land length1 (Z.lnot highbit)) (8 * sizeof_char))
                       length2,
                 sizeof_char * 2)
         else
           seek (- sizeof_char) SEEK_CUR;;
           mret (length1, sizeof_char));
      (if decide (sizeof_char = 1) then assert (bool_decide (length <= 0x7FFF))
       else assert (bool_decide (length <= 0x7FFFFFFF)));;
      mret (length, bytesRead)
  | _ => raise ValueError
  end.

Definition decode8 : M (str * Z) :=
  '(str_len, bytesRead) ← decodeLength 1;
  '(strBytes, bytesRead2) ← decodeLength 1;
  raw ← read strBytes;
  let str := Decoded utf_8 raw in
  terminator ← read 1;
  if decide (terminator ≠ [x00]) then
    raise (Exception "String not terminated by NULL")
  else mret (str, bytesRead + bytesRead2 + strBytes + 1).

Definition decode16 : M (str * Z) :=
  '(str_len, bytesRead) ← decodeLength 2;
  let strBytes := str_len * 2 in
  raw ← read strBytes;
  let str := Decoded utf_16 raw in
  terminator ← read 2;
  if decide (terminator ≠ [x00; x00]) then
    raise (Exception "String not terminated by NULL")
  else mret (str, bytesRead + strBytes + 2).

Definition readString (strPoolInfo : StrPoolInfo) (idx : Z) : M (option str) :=
  pos ← tell;
  if negb (isInt32NotNegative idx) || bool_decide (idx >= stringCount strPoolInfo)
  then mret None
  else
    let chunkInfo := sp_chunkInfo strPoolInfo in
    let stringOffsetsTableOffset :=
      startOffset chunkInfo + headerSize (commonHeader chunkInfo) in
    seek (stringOffsetsTableOffset + idx * UINT32_LENGTH) SEEK_SET;;
    stringOffset ← readInt;
    let stringAbsoluteOffset :=
      startOffset chunkInfo + stringsStart strPoolInfo + stringOffset in
    seek stringAbsoluteOffset SEEK_SET;;
    decoded ← (if isUtf8 strPoolInfo then decode8 else decode16);
    let strVal := decoded.1 in
    seek pos SEEK_SET;;
    mret (Some strVal).

Fixpoint findApplication_loop (strPoolInfo : StrPoolInfo) (chunks : list ChunkInfo)
  (i applicationIdx : Z) : M Z :=
  match chunks with
  | [] => mret applicationIdx
  | chunkInfo :: chunks =>
      let chunkType := type (commonHeader chunkInfo) in
      if decide (chunkType ≠ CHUNK_TYPE_START_ELEMENT) then
        findApplication_loop strPoolInfo chunks (i + 1) applicationIdx
      else
        seek (startOffset chunkInfo + headerSize (commonHeader chunkInfo) + 4) SEEK_SET;;
        nameId ← readInt;
        name ← readString strPoolInfo nameId;
        if negb (opt_str_eq name APPLICATION_STRING) then
          findApplication_loop strPoolInfo chunks (i + 1) applicationIdx
        else if decide (applicationIdx >= 0) then
          raise (Exception "Multiple application elements!")
        else findApplication_loop strPoolInfo chunks (i + 1) i
  end.

Definition findApplication (chunks : list ChunkInfo) (strPoolInfo : StrPoolInfo)
  : M Z :=
  applicationIdx ← findApplication_loop strPoolInfo chunks 0 (-1);
  if decide (applicationIdx < 0) then raise (Exception "No application element found!")
  else mret applicationIdx.

Fixpoint decodeAttributes_loop (n : nat) (attrs : list Attribute)
  : M (list Attribute) :=
  match n with
  | O => mret attrs
  | S n =>
      attrOffset ← tell;
      bs ← read ATTRIBUTE_LENGTH;
      fields ← lift (unpack [uI; uI; uI; uH; uB; uB; uI] bs);
      match fields with
      | [ns; name; rawVal; size; _; dataType; data] =>
          decodeAttributes_loop n
            (attrs ++ [{| attr_startOffset := attrOffset;
                          nsId := ns;
                          nameId := name;
                          rawVal := rawVal;
                          size := size;
                          dataType := dataType;
                          data := data |}])
      | _ => raise ValueError
      end
  end.

Definition decodeAttributes (applicationChunk : ChunkInfo) : M (list Attribute) :=
  let chunkDataStart :=
    startOffset applicationChunk + headerSize (commonHeader applicationChunk) in
  seek (chunkDataStart + 8) SEEK_SET;;
  fields ← readShorts 6;
  match fields with
  | [attributeStart; attributeSize; attributeCount; idIndex; classIndex; styleIndex] =>
      if decide (attributeSize ≠ ATTRIBUTE_LENGTH) then
        raise (Exception "Cannot decode attribute length != 20!")
      else
        seek (chunkDataStart + attributeStart) SEEK_SET;;
        decodeAttributes_loop (Z.to_nat attributeCount) []
  | _ => raise ValueError
  end.

Definition readResId (resmapInfo : ResmapInfo) (idx : Z) : M (option Z) :=
  if decide (idx >= rm_len resmapInfo) then mret None
  else
    pos ← tell;
    match rm_chunkInfo resmapInfo with
    | None => raise TypeError
    | Some chunkInfo =>
        seek (startOffset chunkInfo + headerSize (commonHeader chunkInfo)
              + idx * UINT32_LENGTH) SEEK_SET;;
        resId ← readInt;
        seek pos SEEK_SET;;
        mret (Some resId)
    end.

Fixpoint findDebuggableAttribute_loop (strPoolInfo : StrPoolInfo)
  (resmapInfo : ResmapInfo) (attrs : list Attribute) (i : Z) : M Z :=
  match attrs with
  | [] => mret (-1)
  | attr :: attrs =>
      name ← readString strPoolInfo (nameId attr);
      resId ← readResId resmapInfo (nameId attr);
      if opt_str_eq name DEBUGGABLE_STRING
         && bool_decide (resId = Some DEBUGGABLE_RES_ID)
      then mret i
      else findDebuggableAttribute_loop strPoolInfo resmapInfo attrs (i + 1)
  end.

Definition findDebuggableAttribute (strPoolInfo : StrPoolInfo)
  (resmapInfo : ResmapInfo) (attrs : list Attribute) : M Z :=
  findDebuggableAttribute_loop strPoolInfo resmapInfo attrs 0.

(** ** The slow path: rewriting chunks *)

(** [fOut.write(pack(fmt, values...))] *)
Definition write_pack (fs : list fmt) (vs : list Z) : M unit :=
  bs ← lift (pack fs vs);
  write bs.

(** [for _ in range(n): body] *)
Fixpoint for_range (n : nat) (body : M unit) : M unit :=
  match n with
  | O => mret ()
  | S n => body;; for_range n body
  end.

Definition patchStringRef (cmp : Z) : M unit :=
  n ← readInt;
  let n := if decide (n ≠ 0xFFFFFFFF ∧ n >= cmp) then n + 1 else n in
  write_pack [uI] [n].

Definition patchNode (debuggableStringId : Z) : M unit :=
  read UINT32_LENGTH ≫= write;;
  patchStringRef debuggableStringId.

Definition patchCDataExt (debuggableStringId : Z) : M unit :=
  patchStringRef debuggableStringId;;
  read (2 * UINT32_LENGTH) ≫= write.

Definition patchNamespaceExt (debuggableStringId : Z) : M unit :=
  patchStringRef debuggableStringId;;
  patchStringRef debuggableStringId.

Definition patchEndElementExt (debuggableStringId : Z) : M unit :=
  patchStringRef debuggableStringId;;
  patchStringRef debuggableStringId.

Definition patchAttribute (debuggableStringId : Z) : M unit :=
  patchStringRef debuggableStringId;;
  patchStringRef debuggableStringId;;
  patchStringRef debuggableStringId;;
  bs ← read 4;
  fields ← lift (unpack [uH; uB; uB] bs);
  match fields with
  | [size; res0; type] =>
      write_pack [uH; uB; uB] [size; res0; type];;
      if decide (type = 0x03) then patchStringRef debuggableStringId
      else read UINT32_LENGTH ≫= write
  | _ => raise ValueError
  end.

Definition patchAttrExt (chunkInfo : ChunkInfo) (debuggableStringId : Z) : M unit :=
  let startOffset := startOffset chunkInfo in
  let end_ := startOffset + chunkSize (commonHeader chunkInfo) in
  patchStringRef debuggableStringId;;
  patchStringRef debuggableStringId;;
  fields ← readShorts 3;
  match fields with
  | [attrStart; attrSize; currAttrCount] =>
      write_pack [uH; uH; uH] [attrStart; attrSize; currAttrCount];;
      read (UINT16_LENGTH * 3) ≫= write;;
      pos ← tell;
      read (startOffset + headerSize (commonHeader chunkInfo) + attrStart - pos) ≫= write;;
      for_range (Z.to_nat currAttrCount) (patchAttribute debuggableStringId);;
      pos ← tell;
      read (end_ - pos) ≫= write
  | _ => raise ValueError
  end.

Definition patchChunk (chunkInfo : ChunkInfo) (debuggableStringId : Z) : M unit :=
  seek (startOffset chunkInfo) SEEK_SET;;
  read COMMON_HEADER_LEN ≫= write;;
  let header := commonHeader chunkInfo in
  let type := type header in
  if decide (type >= 0x0100 ∧ type <= 0x17f) then
    patchNode debuggableStringId;;
    if decide (type = 0x100 ∨ type = 0x101) then patchNamespaceExt debuggableStringId
    else if decide (type = 0x102) then patchAttrExt chunkInfo debuggableStringId
    else if decide (type = 0x103) then patchEndElementExt debuggableStringId
    else if decide (type = 0x104) then patchCDataExt debuggableStringId
    else read (chunkSize header - headerSize header) ≫= write
  else read (chunkSize header - COMMON_HEADER_LEN) ≫= write.

(** [unpack(readInt(f, 3))]: [struct.unpack] takes a format and a buffer;
    called with one argument it raises [TypeError]. *)
Definition unpack_without_format (buffer : list Z) : result (list Z) :=
  Raise TypeError.

Definition patchStringPool (strPoolInfo : StrPoolInfo) (insertionIdx : Z) : M unit :=
  let chunkInfo := sp_chunkInfo strPoolInfo in
  let header := commonHeader chunkInfo in
  let startOffset := startOffset chunkInfo in
  seek (startOffset + COMMON_HEADER_LEN) SEEK_SET;;
  let isUtf8 := isUtf8 strPoolInfo in
  let debuggableStrLength :=
    if isUtf8 then DEBUGGABLE_STRING_LENGTH_UTF8 else DEBUGGABLE_STRING_LENGTH_UTF16 in
  let newStrCount := stringCount strPoolInfo + 1 in
  let newStringsStart := stringsStart strPoolInfo + UINT32_LENGTH in
  let newStylesStart :=
    if decide (styleCount strPoolInfo > 0)
    then stylesStart strPoolInfo + UINT32_LENGTH + debuggableStrLength
    else 0 in
  let newChunkSize := chunkSize header + debuggableStrLength + UINT32_LENGTH in
  writeCommonHeader (type header) (headerSize header) newChunkSize;;
  write_pack (replicate 5 uI)
    [newStrCount; styleCount strPoolInfo; flags strPoolInfo; newStringsStart;
     newStylesStart];;
  seek (startOffset + headerSize header) SEEK_SET;;
  read (insertionIdx * UINT32_LENGTH) ≫= write;;
  insertionStringsOffset ← readInt;
  write_pack [uI] [insertionStringsOffset];;
  write_pack [uI] [insertionStringsOffset + debuggableStrLength];;
  for_range (Z.to_nat (stringCount strPoolInfo - (insertionIdx + 1)))
    (offset ← readInt; write_pack [uI] [offset + debuggableStrLength]);;
  pos ← tell;
  if decide (pos ≠ startOffset + headerSize header
                   + UINT32_LENGTH * stringCount strPoolInfo)
  then raise (Exception "sanity check")
  else
    (if decide (styleCount strPoolInfo > 0)
     then read (styleCount strPoolInfo * UINT32_LENGTH) ≫= write
     else mret ());;
    pos ← tell;
    read (startOffset + stringsStart strPoolInfo - pos) ≫= write;;
    read insertionStringsOffset ≫= write;;
    write (if isUtf8 then DEBUGGABLE_STRING_DATA_UTF8 else DEBUGGABLE_STRING_DATA_UTF16);;
    (if decide (styleCount strPoolInfo > 0) then
       pos ← tell;
       read (startOffset + stylesStart strPoolInfo - pos) ≫= write;;
       for_range (Z.to_nat (styleCount strPoolInfo))
         (values ← readInts 3;
          fields ← lift (unpack_without_format values);
          match fields with
          | [name; firstChar; lastChar] =>
              let name :=
                if decide (name ≠ 0xFFFFFFFF ∧ name >= insertionIdx)
                then name + 1 else name in
              write_pack (replicate 3 uI) [name; firstChar; lastChar]
          | _ => raise ValueError
          end)
     else mret ());;
    pos ← tell;
    read (startOffset + chunkSize header - pos) ≫= write.

Definition calculateResMapLength (chunkInfo : ChunkInfo) : Z :=
  (chunkSize (commonHeader chunkInfo) - headerSize (commonHeader chunkInfo))
    `div` UINT32_LENGTH.

Definition patchResmap (resmapInfo : ResmapInfo) : M unit :=
  match rm_chunkInfo resmapInfo with
  | None => raise TypeError
  | Some chunkInfo =>
      let header := commonHeader chunkInfo in
      seek (startOffset chunkInfo + COMMON_HEADER_LEN) SEEK_SET;;
      let newChunkSize := chunkSize header + UINT32_LENGTH in
      writeCommonHeader (type header) (headerSize header) newChunkSize;;
      let toCopy := chunkSize header - COMMON_HEADER_LEN in
      read toCopy ≫= write;;
      write_pack [uI] [DEBUGGABLE_RES_ID]
  end.

Definition injectResmap : M unit :=
  writeCommonHeader CHUNK_TYPE_RESMAP COMMON_HEADER_LEN
    (COMMON_HEADER_LEN + UINT32_LENGTH);;
  write_pack [uI] [DEBUGGABLE_RES_ID].

(** [a > b] where [a] may be [None]: ordering [None] against an [int]
    raises [TypeError]. *)
Definition gt (a : option Z) (b : Z) : result bool :=
  match a with
  | Some a => Ok (bool_decide (a > b))
  | None => Raise TypeError
  end.

(** The 20 bytes of the new attribute. *)
Definition write_debuggable_attribute (androidNsId debuggableStringId : Z) : M unit :=
  write_pack (replicate 5 uL)
    [androidNsId; debuggableStringId; 0xFFFFFFFF; 0x12000008; 0xFFFFFFFF].

Fixpoint patchApplicationAttributes_loop (n : nat) (resmapInfo : ResmapInfo)
  (debuggableStringId androidNsId : Z) (inserted : bool) : M bool :=
  match n with
  | O => mret inserted
  | S n =>
      seek UINT32_LENGTH SEEK_CUR;;
      name ← readInt;
      resId ← readResId resmapInfo name;
      greater ← lift (gt resId DEBUGGABLE_RES_ID);
      inserted ←
        (if greater && negb inserted then
           write_debuggable_attribute androidNsId debuggableStringId;;
           mret true
         else mret inserted);
      seek (-2 * UINT32_LENGTH) SEEK_CUR;;
      patchAttribute debuggableStringId;;
      patchApplicationAttributes_loop n resmapInfo debuggableStringId androidNsId
        inserted
  end.

Definition patchApplicationAttributes (attrCount : Z) (resmapInfo : ResmapInfo)
  (debuggableStringId androidNsId : Z) : M unit :=
  inserted ← patchApplicationAttributes_loop (Z.to_nat attrCount) resmapInfo
               debuggableStringId androidNsId false;
  if negb inserted then write_debuggable_attribute androidNsId debuggableStringId
  else mret ().

Definition patchApplicationElement (chunkInfo : ChunkInfo)
  (androidNsId debuggableStringId : Z) (resmapInfo : ResmapInfo) : M unit :=
  let startOffset := startOffset chunkInfo in
  let header := commonHeader chunkInfo in
  let headerSize := headerSize header in
  seek (startOffset + COMMON_HEADER_LEN) SEEK_SET;;
  let newChunkSize := chunkSize header + ATTRIBUTE_LENGTH in
  writeCommonHeader (type header) headerSize newChunkSize;;
  patchNode debuggableStringId;;
  patchStringRef debuggableStringId;;
  patchStringRef debuggableStringId;;
  fields ← readShorts 3;
  match fields with
  | [attrStart; attrSize; currAttrCount] =>
      write_pack [uH; uH; uH] [attrStart; attrSize; currAttrCount + 1];;
      read (UINT16_LENGTH * 3) ≫= write;;
      pos ← tell;
      read (startOffset + headerSize + attrStart - pos) ≫= write;;
      patchApplicationAttributes currAttrCount resmapInfo debuggableStringId
        androidNsId;;
      pos ← tell;
      read (startOffset + chunkSize header - pos) ≫= write
  | _ => raise ValueError
  end.

Fixpoint findAndroidNsIdx_loop (strPoolInfo : StrPoolInfo) (n : nat) (i pos : Z)
  : M Z :=
  match n with
  | O => raise (Exception "No android ns found ...")
  | S n =>
      name ← readString strPoolInfo i;
      if opt_str_eq name ANDROID_NS_STRING then
        seek pos SEEK_SET;;
        mret i
      else findAndroidNsIdx_loop strPoolInfo n (i + 1) pos
  end.

Definition findAndroidNsIdx (strPoolInfo : StrPoolInfo) : M Z :=
  pos ← tell;
  findAndroidNsIdx_loop strPoolInfo (Z.to_nat (stringCount strPoolInfo)) 0 pos.

(** ** [patchManifest] *)

(** [l[i]] *)
Definition getitem {A} (l : list A) (i : Z) : result A :=
  let j := if decide (i < 0) then i + len l else i in
  if decide (j < 0) then Raise IndexError
  else match l !! Z.to_nat j with
       | Some x => Ok x
       | None => Raise IndexError
       end.

(** The local variables of [patchManifest] when it reaches its [if]. *)
Record Locals := {
  fileHeader : CommonHeader;
  chunks : list ChunkInfo;
  stringPoolIdx : Z;
  resmapIdx : Z;
  strPoolInfo : StrPoolInfo;
  resmapInfo : ResmapInfo;
  applicationIdx : Z;
  applicationAttributes : list Attribute;
  debuggableAttributeIdx : Z
}.

(** [patchManifest] up to the call of [findDebuggableAttribute]. *)
Definition locateDebuggable (fuel : nat) : M Locals :=
  fileHeader ← readCommonHeader;
  fileHeader ←
    match fileHeader with
    | Some fileHeader => mret fileHeader
    | None => raise TypeError
    end;
  if decide (headerSize fileHeader ≠ COMMON_HEADER_LEN) then
    raise (Exception "File header not of size 8!")
  else
    chunks ← readChunks fuel;
    '(stringPoolIdx, resmapIdx) ← lift (findStringpoolAndResmap chunks);
    stringPoolChunk ← lift (getitem chunks stringPoolIdx);
    strPoolInfo ← decodeStringPoolInfo stringPoolChunk;
    resmapInfo ←
      (if decide (resmapIdx = -1) then
         mret {| rm_chunkInfo := None; rm_len := 0 |}
       else if decide (resmapIdx >= 0) then
         resmapChunk ← lift (getitem chunks resmapIdx);
         let resMapLen := calculateResMapLength resmapChunk in
         mret {| rm_chunkInfo := Some resmapChunk; rm_len := resMapLen |}
       else raise UnboundLocalError);
    applicationIdx ← findApplication chunks strPoolInfo;
    applicationChunk ← lift (getitem chunks applicationIdx);
    print (FoundApplicationTag (startOffset applicationChunk));;
    applicationAttributes ← decodeAttributes applicationChunk;
    debuggableAttributeIdx ←
      findDebuggableAttribute strPoolInfo resmapInfo applicationAttributes;
    mret {| fileHeader := fileHeader;
            chunks := chunks;
            stringPoolIdx := stringPoolIdx;
            resmapIdx := resmapIdx;
            strPoolInfo := strPoolInfo;
            resmapInfo := resmapInfo;
            applicationIdx := applicationIdx;
            applicationAttributes := applicationAttributes;
            debuggableAttributeIdx := debuggableAttributeIdx |}.

(** The branch [debuggableAttributeIdx >= 0]. *)
Definition fastPath (v : Locals) : M unit :=
  print FoundDebuggable;;
  attr ← lift (getitem (applicationAttributes v) (debuggableAttributeIdx v));
  let debuggableValueAbsoluteOffset := attr_startOffset attr + 16 in
  print CopyingFile;;
  seek 0 SEEK_SET;;
  read debuggableValueAbsoluteOffset ≫= write;;
  write DEBUGGABLE_VALUE_TRUE;;
  seek 4 SEEK_CUR;;
  read (-1) ≫= write.

(** The [while i < chunkLen] loop of the [else] branch. *)
Fixpoint rebuild_loop (fuel : nat) (v : Locals) (androidNsId debuggableStringId : Z)
  (i : Z) : M unit :=
  match fuel with
  | O => out_of_fuel
  | S fuel =>
      let chunkLen := len (chunks v) in
      if decide (i < chunkLen) then
        chunkInfo ← lift (getitem (chunks v) i);
        i ←
          (if decide (i = stringPoolIdx v + 1 ∧ resmapIdx v < 0) then
             injectResmap;;
             mret (i - 1)
           else if decide (i = stringPoolIdx v) then
             patchStringPool (strPoolInfo v) debuggableStringId;;
             mret i
           else if decide (i = resmapIdx v) then
             patchResmap (resmapInfo v);;
             mret i
           else if decide (i = applicationIdx v) then
             patchApplicationElement chunkInfo androidNsId debuggableStringId
               (resmapInfo v);;
             mret i
           else
             patchChunk chunkInfo debuggableStringId;;
             mret i);
        rebuild_loop fuel v androidNsId debuggableStringId (i + 1)
      else mret ()
  end.

(** The [else] branch. *)
Definition slowPath (fuel : nat) (v : Locals) : M unit :=
  print DebuggableNotPresent;;
  let totalSizeIncrement :=
    if isUtf8 (strPoolInfo v) then DEBUGGABLE_STRING_LENGTH_UTF8
    else DEBUGGABLE_STRING_LENGTH_UTF16 in
  let totalSizeIncrement := totalSizeIncrement + UINT32_LENGTH in
  let totalSizeIncrement := totalSizeIncrement + UINT32_LENGTH in
  let totalSizeIncrement :=
    if decide (resmapIdx v = -1) then totalSizeIncrement + COMMON_HEADER_LEN
    else totalSizeIncrement in
  let totalSizeIncrement := totalSizeIncrement + ATTRIBUTE_LENGTH in
  writeCommonHeader (type (fileHeader v)) (headerSize (fileHeader v))
    (chunkSize (fileHeader v) + totalSizeIncrement);;
  androidNsId ← findAndroidNsIdx (strPoolInfo v);
  let debuggableStringId := rm_len (resmapInfo v) in
  let androidNsId :=
    if decide (androidNsId >= debuggableStringId) then androidNsId + 1
    else androidNsId in
  print (Injecting debuggableStringId);;
  rebuild_loop fuel v androidNsId debuggableStringId 0.

Definition patchManifest (fuel : nat) : M unit :=
  v ← locateDebuggable fuel;
  if decide (debuggableAttributeIdx v >= 0) then fastPath v
  else slowPath fuel v.

End Stream.

(** The state in which [patchManifest(fIn, fOut)] is called: [fIn] just
    opened, [fOut] empty. *)
Definition initial : state := State 0 [] [].

(** [patchManifest] from the initial state: the bytes written to [fOut]. *)
Definition run_patchManifest (fuel : nat) (input : list byte) : result (list byte) :=
  '(_, s) ← patchManifest input fuel initial; Ok (fOut s).

(** ** [patchManifestByFilename]

    The file system maps a path to the contents of the file there. An
    operation on it returns its result, or the exception it raises, and
    the file system it leaves. *)
Definition IO (A : Type) : Type :=
  gmap string (list byte) → result A * gmap string (list byte).

Global Instance IO_ret : MRet IO := λ A a fs, (Ok a, fs).
Global Instance IO_bind : MBind IO := λ A B f m fs,
  match m fs with
  | (Ok a, fs') => f a fs'
  | (Raise e, fs') => (Raise e, fs')
  | (OutOfFuel, fs') => (OutOfFuel, fs')
  end.

(** [open(fn, "rb")] and reading through the handle: the file's bytes. *)
Definition open_rb (fn : string) : IO (list byte) := λ fs,
  match fs !! fn with
  | Some contents => (Ok contents, fs)
  | None => (Raise FileNotFoundError, fs)
  end.

(** [open(fn, "wb")]: the file is created, or truncated if it exists. *)
Definition open_wb (fn : string) : IO unit := λ fs,
  (Ok (), <[fn := []]> fs).

(** [fOut.write(bs)] on a handle opened on [fn]. *)
Definition file_write (fn : string) (bs : list byte) : IO unit := λ fs,
  (Ok (), <[fn := default [] (fs !! fn) ++ bs]> fs).

(** A computation on in-memory streams only: the files are untouched. *)
Definition in_memory {A} (r : result A) : IO A := λ fs, (r, fs).

Definition patchManifestByFilename (fuel : nat) (fnIn fnOut : string) : IO unit :=
  input ← open_rb fnIn;
  tmp ← in_memory (run_patchManifest fuel input);
  open_wb fnOut;;
  file_write fnOut tmp.

(** ** Observations on a manifest, made with the program's own decoders *)

(** The attribute record at an offset, as [decodeAttributes] decodes it. *)
Definition attribute_at (bs : list byte) (offset : Z) : option Attribute :=
  match decodeAttributes_loop bs 1 [] (State offset [] []) with
  | Ok ([attr], _) => Some attr
  | _ => None
  end.

(** The two conditions of [findDebuggableAttribute] on one attribute. *)
Definition named_debuggable (input : list byte) (strPoolInfo : StrPoolInfo)
  (resmapInfo : ResmapInfo) (attr : Attribute) : M bool :=
  name ← readString input strPoolInfo (nameId attr);
  resId ← readResId input resmapInfo (nameId attr);
  mret (opt_str_eq name DEBUGGABLE_STRING
        && bool_decide (resId = Some DEBUGGABLE_RES_ID)).

Fixpoint any_attribute (p : Attribute → M bool) (attrs : list Attribute) : M bool :=
  match attrs with
  | [] => mret false
  | attr :: attrs =>
      b ← p attr;
      if b : bool then mret true else any_attribute p attrs
  end.

(** Does the application element of [manifest] hold an attribute named
    "debuggable" with resource id 0x0101000F, data 0xFFFFFFFF and
    dataType 0x12? *)
Definition application_debuggable_true (fuel : nat) (manifest : list byte)
  : result bool :=
  '(b, _) ←
    (v ← locateDebuggable manifest fuel;
     any_attribute
       (λ attr,
          named ← named_debuggable manifest (strPoolInfo v) (resmapInfo v) attr;
          mret (named && bool_decide (data attr = 0xFFFFFFFF)
                && bool_decide (dataType attr = 0x12)))
       (applicationAttributes v)) initial;
  Ok b.

(** The [chunkSize] field of the chunk that a byte string starts with. *)
Definition chunkSize_field (bs : list byte) : Z :=
  le_decode (take 4 (drop 4 bs)).

(** The chunks that [readChunks] finds in a manifest, file header skipped. *)
Definition scan (fuel : nat) (manifest : list byte) : result (list ChunkInfo) :=
  '(chunks, _) ← readChunks manifest fuel (State COMMON_HEADER_LEN [] []);
  Ok chunks.

(** ** Manifests used as concrete inputs *)

Module Examples.

Definition u8 (v : Z) : list byte := le_encode 1 v.
Definition u16 (v : Z) : list byte := le_encode 2 v.
Definition u32 (v : Z) : list byte := le_encode 4 v.

(** A chunk: common header, then the rest of the header and the body. *)
Definition chunk (type headerSize : Z) (rest : list byte) : list byte :=
  u16 type ++ u16 headerSize ++ u32 (8 + len rest) ++ rest.

Definition encode_string (utf8 : bool) (s : string) : list byte :=
  let bs := String.list_byte_of_string s in
  if utf8 then u8 (len bs) ++ u8 (len bs) ++ bs ++ [x00]
  else u16 (len bs) ++ utf16le s ++ [x00; x00].

Fixpoint offsets (start : Z) (encoded : list (list byte)) : list Z :=
  match encoded with
  | [] => []
  | e :: encoded => start :: offsets (start + len e) encoded
  end.

Definition padding (n : Z) : list byte :=
  replicate (Z.to_nat ((4 - n `mod` 4) `mod` 4)) x00.

(** A string pool without styles. *)
Definition string_pool (utf8 : bool) (strings : list string) : list byte :=
  let encoded := encode_string utf8 <$> strings in
  let blob := concat encoded in
  chunk 0x0001 28
    (u32 (len strings) ++ u32 0 ++ u32 (if utf8 then 0x100 else 0)
     ++ u32 (28 + 4 * len strings) ++ u32 0
     ++ (offsets 0 encoded ≫= u32) ++ blob ++ padding (len blob)).

(** A string pool with one style, a span on the string [styled]. *)
Definition styled_string_pool (utf8 : bool) (strings : list string) (styled : Z)
  : list byte :=
  let encoded := encode_string utf8 <$> strings in
  let blob := concat encoded in
  let blob := blob ++ padding (len blob) in
  let stringsStart := 28 + 4 * len strings + 4 in
  chunk 0x0001 28
    (u32 (len strings) ++ u32 1 ++ u32 (if utf8 then 0x100 else 0)
     ++ u32 stringsStart ++ u32 (stringsStart + len blob)
     ++ (offsets 0 encoded ≫= u32) ++ u32 0 ++ blob
     ++ u32 styled ++ u32 0 ++ u32 1 ++ u32 0xFFFFFFFF).

Definition resource_map (ids : list Z) : list byte :=
  chunk 0x0180 8 (ids ≫= u32).

Definition attribute (ns name rawValue dataType data : Z) : list byte :=
  u32 ns ++ u32 name ++ u32 rawValue ++ u16 8 ++ u8 0 ++ u8 dataType ++ u32 data.

Definition start_element (line ns name : Z) (attrs : list (list byte)) : list byte :=
  chunk 0x0102 16
    (u32 line ++ u32 0xFFFFFFFF ++ u32 ns ++ u32 name
     ++ u16 20 ++ u16 20 ++ u16 (len attrs) ++ u16 0 ++ u16 0 ++ u16 0
     ++ concat attrs).

Definition end_element (line ns name : Z) : list byte :=
  chunk 0x0103 16 (u32 line ++ u32 0xFFFFFFFF ++ u32 ns ++ u32 name).

Definition xml_file (chunks : list (list byte)) : list byte :=
  chunk 0x0003 8 (concat chunks).

(** Already debuggable: pool ["debuggable"; namespace; "application"],
    UTF-16, the attribute typed [dataType] with value [data]. *)
Definition already_debuggable (dataType data : Z) : list byte :=
  xml_file
    [ string_pool false ["debuggable"; ANDROID_NS_STRING; "application"];
      resource_map [0x0101000f];
      start_element 1 0xFFFFFFFF 2 [attribute 1 0 0xFFFFFFFF dataType data];
      end_element 1 0xFFFFFFFF 2 ].

(** As [already_debuggable], with two debuggable attributes on the
    application element, both typed 0x12, with the values [first] and
    [second]. *)
Definition debuggable_twice (first second : Z) : list byte :=
  xml_file
    [ string_pool false ["debuggable"; ANDROID_NS_STRING; "application"];
      resource_map [0x0101000f];
      start_element 1 0xFFFFFFFF 2
        [attribute 1 0 0xFFFFFFFF 0x12 first;
         attribute 1 0 0xFFFFFFFF 0x12 second];
      end_element 1 0xFFFFFFFF 2 ].

(** Not debuggable, with a resource map; the application has a label. *)
Definition not_debuggable (utf8 : bool) : list byte :=
  xml_file
    [ string_pool utf8 ["label"; ANDROID_NS_STRING; "application"];
      resource_map [0x01010001];
      start_element 1 0xFFFFFFFF 2 [attribute 1 0 0xFFFFFFFF 0x03 0];
      end_element 1 0xFFFFFFFF 2 ].

(** What a decoder of the format reads as [not_debuggable utf8] with
    [android:debuggable="true"] added. *)
Definition made_debuggable (utf8 : bool) : list byte :=
  xml_file
    [ string_pool utf8 ["label"; "debuggable"; ANDROID_NS_STRING; "application"];
      resource_map [0x01010001; 0x0101000f];
      start_element 1 0xFFFFFFFF 3
        [attribute 2 0 0xFFFFFFFF 0x03 0;
         attribute 2 1 0xFFFFFFFF 0x12 0xFFFFFFFF];
      end_element 1 0xFFFFFFFF 3 ].

(** Minimal manifest: UTF-8 pool, no resource map, an application
    element without attributes. *)
Definition minimal_no_resmap : list byte :=
  xml_file
    [ string_pool true [ANDROID_NS_STRING; "application"];
      start_element 1 0xFFFFFFFF 1 [];
      end_element 1 0xFFFFFFFF 1 ].

(** No resource map, and the string pool is the last chunk. *)
Definition pool_last_no_resmap : list byte :=
  xml_file
    [ start_element 1 0xFFFFFFFF 1 [];
      string_pool true [ANDROID_NS_STRING; "application"] ].

(** The application has an attribute, "custom", outside the resource map. *)
Definition unmapped_attribute : list byte :=
  xml_file
    [ string_pool false ["label"; ANDROID_NS_STRING; "application"; "custom"];
      resource_map [0x01010001];
      start_element 1 0xFFFFFFFF 2
        [attribute 1 0 0xFFFFFFFF 0x03 0;
         attribute 0xFFFFFFFF 3 0xFFFFFFFF 0x03 3];
      end_element 1 0xFFFFFFFF 2 ].

(** Attributes with resource ids below and above 0x0101000F. *)
Definition mapped_attributes : list byte :=
  xml_file
    [ string_pool false ["label"; "icon"; "name"; ANDROID_NS_STRING; "application"];
      resource_map [0x01010001; 0x0101000e; 0x01010010];
      start_element 1 0xFFFFFFFF 4
        [attribute 3 0 0xFFFFFFFF 0x03 0;
         attribute 3 1 0xFFFFFFFF 0x03 1;
         attribute 3 2 0xFFFFFFFF 0x03 2];
      end_element 1 0xFFFFFFFF 4 ].

Definition mapped_attributes_patched : list byte :=
  xml_file
    [ string_pool false
        ["label"; "icon"; "name"; "debuggable"; ANDROID_NS_STRING; "application"];
      resource_map [0x01010001; 0x0101000e; 0x01010010; 0x0101000f];
      start_element 1 0xFFFFFFFF 5
        [attribute 4 0 0xFFFFFFFF 0x03 0;
         attribute 4 1 0xFFFFFFFF 0x03 1;
         attribute 4 3 0xFFFFFFFF 0x12 0xFFFFFFFF;
         attribute 4 2 0xFFFFFFFF 0x03 2];
      end_element 1 0xFFFFFFFF 5 ].

(** A string pool with one style. *)
Definition styled : list byte :=
  xml_file
    [ styled_string_pool false ["label"; ANDROID_NS_STRING; "application"] 0;
      resource_map [0x01010001];
      start_element 1 0xFFFFFFFF 2 [attribute 1 0 0xFFFFFFFF 0x03 0];
      end_element 1 0xFFFFFFFF 2 ].

(** [already_debuggable] with a chunk whose headerSize (100) exceeds its
    chunkSize (8), and a last chunk whose chunkSize (1000) runs past the
    end of the stream. *)
Definition odd_sizes (dataType data : Z) : list byte :=
  xml_file
    [ string_pool false ["debuggable"; ANDROID_NS_STRING; "application"];
      resource_map [0x0101000f];
      start_element 1 0xFFFFFFFF 2 [attribute 1 0 0xFFFFFFFF dataType data];
      (u16 0x0200 ++ u16 100 ++ u32 8);
      (u16 0x0103 ++ u16 16 ++ u32 1000
         ++ u32 1 ++ u32 0xFFFFFFFF ++ u32 0xFFFFFFFF ++ u32 2) ].

(** The application has an attribute named "debuggable" whose name index
    has another resource id. *)
Definition wrong_resource_id : list byte :=
  xml_file
    [ string_pool false ["debuggable"; ANDROID_NS_STRING; "application"];
      resource_map [0x01010001];
      start_element 1 0xFFFFFFFF 2 [attribute 1 0 0xFFFFFFFF 0x12 0xFFFFFFFF];
      end_element 1 0xFFFFFFFF 2 ].

(** An already debuggable manifest followed by three stray bytes. *)
Definition trailing_fragment : list byte :=
  already_debuggable 0x12 0 ++ [x01; x02; x03].

(** No resource map, and a UTF-16 string pool that is the last chunk. *)
Definition pool_last_no_resmap_utf16 : list byte :=
  xml_file
    [ start_element 1 0xFFFFFFFF 1 [];
      string_pool false [ANDROID_NS_STRING; "application"] ].

(** [not_debuggable false] with a namespace chunk before the application
    element whose chunkSize, 28, counts four bytes more than its fields;
    the application element stands at line 72. *)
Definition long_namespace_chunk : list byte :=
  xml_file
    [ string_pool false ["label"; ANDROID_NS_STRING; "application"];
      resource_map [0x01010001];
      chunk 0x0100 16 (u32 1 ++ u32 0xFFFFFFFF ++ u32 0xFFFFFFFF ++ u32 1 ++ u32 0);
      start_element 72 0xFFFFFFFF 2 [attribute 1 0 0xFFFFFFFF 0x03 0];
      end_element 1 0xFFFFFFFF 2 ].

(** [not_debuggable false] with a resource map of one entry followed by
    two more bytes. *)
Definition resmap_with_fragment : list byte :=
  xml_file
    [ string_pool false ["label"; ANDROID_NS_STRING; "application"];
      chunk 0x0180 8 (u32 0x01010001 ++ u16 0);
      start_element 1 0xFFFFFFFF 2 [attribute 1 0 0xFFFFFFFF 0x03 0];
      end_element 1 0xFFFFFFFF 2 ].

End Examples.

(** ** Notions used in the proofs *)

(** [m] leaves the part [proj] of the state as it was. *)
Definition preserves {A X} (proj : state → X) (m : M A) : Prop :=
  ∀ s a s', m s = Ok (a, s') → proj s' = proj s.

(** [attr] is what [decodeAttributes] decodes at [attr]'s own offset. *)
Definition decoded_at (input : list byte) (attr : Attribute) : Prop :=
  0 ≤ attr_startOffset attr
  ∧ attribute_at input (attr_startOffset attr) = Some attr.

(** The attribute that the 20 bytes [bs], found at [offset], decode to. *)
Definition attribute_of_bytes (offset : Z) (bs : list byte) : Attribute :=
  {| attr_startOffset := offset;
     nsId := le_decode (take 4 bs);
     nameId := le_decode (take 4 (drop 4 bs));
     rawVal := le_decode (take 4 (drop 8 bs));
     size := le_decode (take 2 (drop 12 bs));
     dataType := le_decode (take 1 (drop 15 bs));
     data := le_decode (take 4 (drop 16 bs)) |}.

(** The common header that the 8 bytes [bs] decode to. *)
Definition header_of_bytes (bs : list byte) : CommonHeader :=
  {| type := le_decode (take 2 bs);
     headerSize := le_decode (take 2 (drop 2 bs));
     chunkSize := le_decode (take 4 (drop 4 bs)) |}.

(** [m] only appends to [fOut]. *)
Definition appends {A} (m : M A) : Prop :=
  ∀ s a s', m s = Ok (a, s') → ∃ w, fOut s' = fOut s ++ w.

(** What one round of the loop of [slowPath] does with chunk [i], when
    it is not the round that injects a resource map. *)
Definition rebuild_chunk (input : list byte) (v : Locals)
  (androidNsId debuggableStringId : Z) (i : Z) (chunkInfo : ChunkInfo) : M unit :=
  if decide (i = stringPoolIdx v) then
    patchStringPool input (strPoolInfo v) debuggableStringId
  else if decide (i = resmapIdx v) then
    patchResmap input (resmapInfo v)
  else if decide (i = applicationIdx v) then
    patchApplicationElement input chunkInfo androidNsId debuggableStringId
      (resmapInfo v)
  else patchChunk input chunkInfo debuggableStringId.

(** The 20 bytes that [write_debuggable_attribute] writes. *)
Definition debuggable_record (androidNsId debuggableStringId : Z) : list byte :=
  le_encode 4 androidNsId ++ le_encode 4 debuggableStringId
  ++ le_encode 4 0xFFFFFFFF ++ le_encode 4 0x12000008 ++ le_encode 4 0xFFFFFFFF.

(** The 8 bytes that [writeCommonHeader] writes. *)
Definition header_bytes (type headerSize size : Z) : list byte :=
  le_encode 2 type ++ le_encode 2 headerSize ++ le_encode 4 size.

(** [attr] with its data word set to 0xFFFFFFFF. *)
Definition with_data_true (attr : Attribute) : Attribute :=
  {| attr_startOffset := attr_startOffset attr;
     nsId := nsId attr;
     nameId := nameId attr;
     rawVal := rawVal attr;
     size := size attr;
     dataType := dataType attr;
     data := 0xFFFFFFFF |}.

(** The 16-bit and the 32-bit word of a byte string at an offset. *)
Definition u16_at (input : list byte) (offset : Z) : Z :=
  le_decode (take 2 (drop (Z.to_nat offset) input)).

Definition u32_at (input : list byte) (offset : Z) : Z :=
  le_decode (take 4 (drop (Z.to_nat offset) input)).

(** [chunkInfo] is a chunk that [readChunks] recorded on [input]: its
    header is the 8 bytes at its offset. *)
Definition chunk_in (input : list byte) (chunkInfo : ChunkInfo) : Prop :=
  0 ≤ startOffset chunkInfo
  ∧ (8 ≤ length (drop (Z.to_nat (startOffset chunkInfo)) input))%nat
  ∧ commonHeader chunkInfo
    = header_of_bytes (drop (Z.to_nat (startOffset chunkInfo)) input).

(** In state [s] the input stands at [p], and [n] bytes have been written
    after [base]. *)
Definition reached (base : list byte) (s : state) (p n : Z) : Prop :=
  fIn_pos s = p ∧ ∃ w, fOut s = base ++ w ∧ len w = n.

(** The number of bytes that the slow path inserts into chunk [i]. *)
Definition inserted_bytes (v : Locals) (i : Z) : Z :=
  if decide (i = stringPoolIdx v) then
    (if isUtf8 (strPoolInfo v) then DEBUGGABLE_STRING_LENGTH_UTF8
     else DEBUGGABLE_STRING_LENGTH_UTF16) + UINT32_LENGTH
  else if decide (i = resmapIdx v) then UINT32_LENGTH
  else if decide (i = applicationIdx v) then ATTRIBUTE_LENGTH
  else 0.

(** A start element is laid out as its header says: a node header of 16
    bytes; the attributes, 20 bytes each, begin after the attribute
    header and end inside the chunk. *)
Definition element_laid_out (input : list byte) (c : ChunkInfo) : Prop :=
  let start := startOffset c in
  headerSize (commonHeader c) = 16
  ∧ 20 ≤ u16_at input (start + 24)
  ∧ 16 + u16_at input (start + 24) + 20 * u16_at input (start + 28)
    ≤ chunkSize (commonHeader c).

(** A chunk that [patchChunk] copies is laid out as its header says.
    - Start element: see [element_laid_out].
    - Namespace and end element: 24 bytes; CDATA: 28 bytes; another XML
      node: a node header of 16 bytes.
    - Any other chunk: at least the common header. *)
Definition node_laid_out (input : list byte) (c : ChunkInfo) : Prop :=
  let header := commonHeader c in
  if decide (type header = 0x102) then element_laid_out input c
  else if decide (0x100 ≤ type header ≤ 0x17f) then
    if decide (type header = 0x100 ∨ type header = 0x101 ∨ type header = 0x103)
    then chunkSize header = 24
    else if decide (type header = 0x104) then chunkSize header = 28
    else headerSize header = 16 ∧ 16 ≤ chunkSize header
  else 8 ≤ chunkSize header.

(** The string pool is laid out as its header says: a header of 28
    bytes, no styles, the index [D] where the string is inserted inside
    the pool, the offset table before the strings, and the string at [D]
    inside the chunk. *)
Definition pool_laid_out (input : list byte) (pool : StrPoolInfo) (D : Z) : Prop :=
  let start := startOffset (sp_chunkInfo pool) in
  let header := commonHeader (sp_chunkInfo pool) in
  headerSize header = 28
  ∧ styleCount pool = 0
  ∧ 0 ≤ D < stringCount pool
  ∧ 28 + 4 * stringCount pool ≤ stringsStart pool
  ∧ stringsStart pool + u32_at input (start + 28 + 4 * D) ≤ chunkSize header.

(** Chunk [i] of the input is laid out as its header says: it lies
    inside the stream and its fields fill its chunkSize (a resource map
    has at least the common header). *)
Definition laid_out (input : list byte) (v : Locals) (i : Z) (c : ChunkInfo) : Prop :=
  startOffset c + chunkSize (commonHeader c) ≤ len input
  ∧ if decide (i = stringPoolIdx v) then
      pool_laid_out input (strPoolInfo v) (rm_len (resmapInfo v))
    else if decide (i = resmapIdx v) then 8 ≤ chunkSize (commonHeader c)
    else node_laid_out input c.

(** The sum of a list of integers. *)
Definition total (zs : list Z) : Z := foldr Z.add 0 zs.

(** ** Notions used in the properties of the single functions *)

(** What [patchStringRef] makes of a string reference [n] when a string
    is inserted at index [cmp]. *)
Definition shifted (cmp n : Z) : Z :=
  if decide (n ≠ 0xFFFFFFFF ∧ n >= cmp) then n + 1 else n.

(** [attr] after [patchAttribute]: the references to strings shifted,
    the data word too when it is typed as a string. *)
Definition patched (cmp : Z) (attr : Attribute) : Attribute :=
  {| attr_startOffset := attr_startOffset attr;
     nsId := shifted cmp (nsId attr);
     nameId := shifted cmp (nameId attr);
     rawVal := shifted cmp (rawVal attr);
     size := size attr;
     dataType := dataType attr;
     data := if decide (dataType attr = 0x03) then shifted cmp (data attr)
             else data attr |}.

(** The indices, counted from [i], of the chunks of type [t]. *)
Fixpoint indices_of (t : Z) (i : Z) (chunks : list ChunkInfo) : list Z :=
  match chunks with
  | [] => []
  | c :: chunks =>
      (if decide (type (commonHeader c) = t) then [i] else [])
      ++ indices_of t (i + 1) chunks
  end.

(** The chunks lie one after the other from [p] on. *)
Fixpoint tiled (p : Z) (chunks : list ChunkInfo) : Prop :=
  match chunks with
  | [] => True
  | c :: chunks =>
      startOffset c = p ∧ tiled (p + chunkSize (commonHeader c)) chunks
  end.

(** Where chunks that lie one after the other from [p] on end. *)
Fixpoint chunks_end (p : Z) (chunks : list ChunkInfo) : Z :=
  match chunks with
  | [] => p
  | c :: chunks => chunks_end (p + chunkSize (commonHeader c)) chunks
  end.

(** Going from header to header from [p] on, as [readChunks] does, one
    comes to a header whose chunkSize is 0. *)
Inductive meets_empty_chunk (input : list byte) : Z → Prop :=
  | empty_here p :
      p + 8 ≤ len input → u32_at input (p + 4) = 0 →
      meets_empty_chunk input p
  | empty_later p :
      p + 8 ≤ len input →
      meets_empty_chunk input (p + u32_at input (p + 4)) →
      meets_empty_chunk input p.

(** The integer that the [n] bytes at [offset] encode, least significant
    byte first. *)
Definition uint_at (n : Z) (input : list byte) (offset : Z) : Z :=
  le_decode (take (Z.to_nat n) (drop (Z.to_nat offset) input)).

(** The 20 bytes of an attribute after [patchAttribute]. *)
Definition patched_bytes (cmp : Z) (bs : list byte) : list byte :=
  le_encode 4 (shifted cmp (le_decode (take 4 bs)))
  ++ le_encode 4 (shifted cmp (le_decode (take 4 (drop 4 bs))))
  ++ le_encode 4 (shifted cmp (le_decode (take 4 (drop 8 bs))))
  ++ take 4 (drop 12 bs)
  ++ (if decide (le_decode (take 1 (drop 15 bs)) = 0x03)
      then le_encode 4 (shifted cmp (le_decode (take 4 (drop 16 bs))))
      else take 4 (drop 16 bs)).

(** The [n] attribute records of 20 bytes that stand at [p]. *)
Definition attribute_records (input : list byte) (p : Z) (n : nat)
  : list (list byte) :=
  (λ i : nat, take 20 (drop (Z.to_nat p + 20 * i) input)) <$> seq 0 n.

(** The name index of an attribute record. *)
Definition record_name (record : list byte) : Z :=
  le_decode (take 4 (drop 4 record)).

(** The word of the resource map [c] at the name index of a record. *)
Definition record_resId (input : list byte) (c : ChunkInfo) (record : list byte) : Z :=
  u32_at input (startOffset c + headerSize (commonHeader c) + 4 * record_name record).

(** The name index of a record has an entry in a resource map of length
    [l] that lies inside the input. *)
Definition mapped (input : list byte) (c : ChunkInfo) (l : Z) (record : list byte)
  : Prop :=
  record_name record < l
  ∧ startOffset c + headerSize (commonHeader c) + 4 * record_name record + 4
    ≤ len input.

(** How many resource ids come before the first one that is greater than
    the one of debuggable. *)
Fixpoint insertion_index (resIds : list Z) : nat :=
  match resIds with
  | [] => 0
  | resId :: resIds =>
      if decide (resId > DEBUGGABLE_RES_ID) then 0 else S (insertion_index resIds)
  end.

(** The attribute that stands at [offset]. *)
Definition attribute_here (input : list byte) (offset : Z) : Attribute :=
  attribute_of_bytes offset (take 20 (drop (Z.to_nat offset) input)).

(** The state [s] with other contents of [fOut] and of the standard output. *)
Definition with_outputs (out : list byte) (printed : list message) (s : state)
  : state :=
  State (fIn_pos s) out printed.

(** [m] only reads [fIn]: it runs the same way whatever has been written. *)
Definition reads_only {A} (m : M A) : Prop :=
  ∀ s out printed,
    m (with_outputs out printed s)
    = match m s with
      | Ok (a, s') => Ok (a, with_outputs out printed s')
      | Raise e => Raise e
      | OutOfFuel => OutOfFuel
      end.

(** The name of the element that the chunk [chunkInfo] starts, read as
    [findApplication] reads it. *)
Definition element_name (input : list byte) (strPoolInfo : StrPoolInfo)
  (chunkInfo : ChunkInfo) : M (option str) :=
  seek (startOffset chunkInfo + headerSize (commonHeader chunkInfo) + 4) SEEK_SET;;
  nameId ← readInt input;
  readString input strPoolInfo nameId.

(** [chunkInfo] starts an element whose name reads as "application". *)
Definition is_application (input : list byte) (strPoolInfo : StrPoolInfo)
  (chunkInfo : ChunkInfo) : bool :=
  bool_decide (type (commonHeader chunkInfo) = CHUNK_TYPE_START_ELEMENT)
  && match element_name input strPoolInfo chunkInfo initial with
     | Ok (name, _) => opt_str_eq name APPLICATION_STRING
     | _ => false
     end.

(** The indices, counted from [i], of the application elements of [chunks]. *)
Fixpoint application_indices (input : list byte) (strPoolInfo : StrPoolInfo)
  (i : Z) (chunks : list ChunkInfo) : list Z :=
  match chunks with
  | [] => []
  | chunkInfo :: chunks =>
      (if is_application input strPoolInfo chunkInfo then [i] else [])
      ++ application_indices input strPoolInfo (i + 1) chunks
  end.

(** The name of every start element of [chunks] can be read. *)
Definition names_readable (input : list byte) (strPoolInfo : StrPoolInfo)
  (chunks : list ChunkInfo) : Prop :=
  ∀ chunkInfo, chunkInfo ∈ chunks →
    type (commonHeader chunkInfo) = CHUNK_TYPE_START_ELEMENT →
    ∃ name s', element_name input strPoolInfo chunkInfo initial = Ok (name, s').

(** The bytes [p, p + n) of [input]. *)
Definition bytes_at (input : list byte) (p n : Z) : list byte :=
  take (Z.to_nat n) (drop (Z.to_nat p) input).

(** The [n] offsets that stand at [p] in [input], each moved by [delta]. *)
Fixpoint moved_offsets (input : list byte) (p delta : Z) (n : nat) : list byte :=
  match n with
  | O => []
  | S n => le_encode 4 (u32_at input p + delta) ++ moved_offsets input (p + 4) delta n
  end.

(** The string pool [strPoolInfo] of [input] with the string "debuggable"
    put in at index [insertionIdx]: the header with the new sizes and
    counts, the offsets with the new one and with the following ones moved
    by the length of the new string, the strings with the new one in
    front of the one that had this index. *)
Definition patched_pool (input : list byte) (strPoolInfo : StrPoolInfo)
  (insertionIdx : Z) : list byte :=
  let chunkInfo := sp_chunkInfo strPoolInfo in
  let header := commonHeader chunkInfo in
  let start := startOffset chunkInfo in
  let table := start + headerSize header in
  let strings := start + stringsStart strPoolInfo in
  let debuggableStrLength :=
    if isUtf8 strPoolInfo then DEBUGGABLE_STRING_LENGTH_UTF8
    else DEBUGGABLE_STRING_LENGTH_UTF16 in
  let insertionStringsOffset := u32_at input (table + 4 * insertionIdx) in
  header_bytes (type header) (headerSize header)
    (chunkSize header + debuggableStrLength + 4)
  ++ (le_encode 4 (stringCount strPoolInfo + 1)
      ++ le_encode 4 (styleCount strPoolInfo)
      ++ le_encode 4 (flags strPoolInfo)
      ++ le_encode 4 (stringsStart strPoolInfo + 4)
      ++ le_encode 4 0)
  ++ bytes_at input table (4 * insertionIdx)
  ++ le_encode 4 insertionStringsOffset
  ++ le_encode 4 (insertionStringsOffset + debuggableStrLength)
  ++ moved_offsets input (table + 4 * (insertionIdx + 1)) debuggableStrLength
       (Z.to_nat (stringCount strPoolInfo - (insertionIdx + 1)))
  ++ bytes_at input (table + 4 * stringCount strPoolInfo)
       (strings - (table + 4 * stringCount strPoolInfo))
  ++ bytes_at input strings insertionStringsOffset
  ++ (if isUtf8 strPoolInfo then DEBUGGABLE_STRING_DATA_UTF8
      else DEBUGGABLE_STRING_DATA_UTF16)
  ++ bytes_at input (strings + insertionStringsOffset)
       (chunkSize header - stringsStart strPoolInfo - insertionStringsOffset).

(** What [decodeStringPoolInfo] decodes for the chunk [chunkInfo]: the
    five words behind the common header. *)
Definition pool_at (input : list byte) (chunkInfo : ChunkInfo) : StrPoolInfo :=
  let fields := startOffset chunkInfo + COMMON_HEADER_LEN in
  {| sp_chunkInfo := chunkInfo;
     stringCount := u32_at input fields;
     styleCount := u32_at input (fields + 4);
     flags := u32_at input (fields + 8);
     stringsStart := u32_at input (fields + 12);
     stylesStart := u32_at input (fields + 16);
     isUtf8 := bool_decide (Z.land (u32_at input (fields + 8)) (Z.shiftl 1 8) ≠ 0) |}.

(** The string pool [strPoolInfo] of [input] is one into which
    [patchStringPool] puts the new string at [insertionIdx] as meant: the
    chunk lies inside the input and has the header of 28 bytes, the pool
    has no styles, its flags say its encoding, the index is that of a
    string, the strings begin behind the table of offsets, the string at
    the index begins inside the chunk, and the sizes and offsets that
    grow still fit their 32 bits. *)
Definition takes_string (input : list byte) (strPoolInfo : StrPoolInfo)
  (insertionIdx : Z) : Prop :=
  let chunkInfo := sp_chunkInfo strPoolInfo in
  let header := commonHeader chunkInfo in
  let start := startOffset chunkInfo in
  let debuggableStrLength :=
    if isUtf8 strPoolInfo then DEBUGGABLE_STRING_LENGTH_UTF8
    else DEBUGGABLE_STRING_LENGTH_UTF16 in
  chunk_in input chunkInfo
  ∧ start + chunkSize header ≤ len input
  ∧ chunkSize header + debuggableStrLength + 4 < 4294967296
  ∧ headerSize header = 28
  ∧ styleCount strPoolInfo = 0
  ∧ 0 ≤ flags strPoolInfo < 4294967296
  ∧ isUtf8 strPoolInfo = bool_decide (Z.land (flags strPoolInfo) (Z.shiftl 1 8) ≠ 0)
  ∧ 0 ≤ insertionIdx < stringCount strPoolInfo
  ∧ 28 + 4 * stringCount strPoolInfo ≤ stringsStart strPoolInfo
  ∧ stringsStart strPoolInfo + u32_at input (start + 28 + 4 * insertionIdx)
    ≤ chunkSize header
  ∧ ∀ j, insertionIdx < j < stringCount strPoolInfo →
         u32_at input (start + 28 + 4 * j) + debuggableStrLength < 4294967296.

(** The pool that [patchStringPool] makes of [strPoolInfo], when it has
    been written at [start]. *)
Definition with_new_string (strPoolInfo : StrPoolInfo) (start : Z) : StrPoolInfo :=
  let header := commonHeader (sp_chunkInfo strPoolInfo) in
  let debuggableStrLength :=
    if isUtf8 strPoolInfo then DEBUGGABLE_STRING_LENGTH_UTF8
    else DEBUGGABLE_STRING_LENGTH_UTF16 in
  {| sp_chunkInfo :=
       {| startOffset := start;
          commonHeader :=
            {| type := type header;
               headerSize := headerSize header;
               chunkSize := chunkSize header + debuggableStrLength + 4 |} |};
     stringCount := stringCount strPoolInfo + 1;
     styleCount := styleCount strPoolInfo;
     flags := flags strPoolInfo;
     stringsStart := stringsStart strPoolInfo + 4;
     stylesStart := 0;
     isUtf8 := isUtf8 strPoolInfo |}.

(** A computation that uses no fuel: it returns or raises. *)
Definition fuel_free {A} (m : M A) : Prop := ∀ s, m s ≠ OutOfFuel.

(** ** Notions used for the output of the slow path *)

(** The chunks that [readChunks] records where the byte strings [segs]
    stand one after the other from [p] on. *)
Fixpoint chunks_of (p : Z) (segs : list (list byte)) : list ChunkInfo :=
  match segs with
  | [] => []
  | seg :: segs =>
      {| startOffset := p; commonHeader := header_of_bytes seg |}
      :: chunks_of (p + len seg) segs
  end.

(** The entries of a resource map fill its chunk: the header lies inside
    the chunk and the rest is a whole number of 32-bit words. *)
Definition resmap_laid_out (c : ChunkInfo) : Prop :=
  8 ≤ headerSize (commonHeader c) ≤ chunkSize (commonHeader c)
  ∧ (chunkSize (commonHeader c) - headerSize (commonHeader c)) `mod` 4 = 0.

(** The bytes of the application element with the new attribute: the
    header with the chunkSize 20 bytes larger, the node header and the
    references moved as in any element, the attribute count one larger,
    and the attributes with the new record where
    [patchApplicationAttributes] puts it. *)
Definition patched_application_bytes (input : list byte) (c crm : ChunkInfo)
  (ns d : Z) : list byte :=
  let start := startOffset c in
  let header := commonHeader c in
  let attrStart := u16_at input (start + 24) in
  let attrSize := u16_at input (start + 26) in
  let attrCount := u16_at input (start + 28) in
  let attrs := start + headerSize header + attrStart in
  let records := attribute_records input attrs (Z.to_nat attrCount) in
  let k := insertion_index (record_resId input crm <$> records) in
  let moved p := le_encode 4 (shifted d (u32_at input p)) in
  header_bytes (type header) (headerSize header) (chunkSize header + 20)
  ++ bytes_at input (start + 8) 4 ++ moved (start + 12)
  ++ moved (start + 16) ++ moved (start + 20)
  ++ (le_encode 2 attrStart ++ le_encode 2 attrSize ++ le_encode 2 (attrCount + 1))
  ++ bytes_at input (start + 30) 6
  ++ bytes_at input (start + 36) (attrs - (start + 36))
  ++ (concat (patched_bytes d <$> take k records)
      ++ debuggable_record ns d
      ++ concat (patched_bytes d <$> drop k records))
  ++ bytes_at input (attrs + 20 * attrCount)
       (start + chunkSize header - (attrs + 20 * attrCount)).
(** * Properties *)

(** ** Reasoning about computations in [M] *)

Lemma bind_Ok {A B} (m : M A) (f : A → M B) s r :
  (m ≫= f) s = Ok r ↔ ∃ a s1, m s = Ok (a, s1) ∧ f a s1 = Ok r.
Proof.
  unfold mbind, M_bind. split.
  - destruct (m s) as [[a s1]| |]; try discriminate. eauto.
  - intros (a & s1 & -> & ?). done.
Qed.

Lemma bind_not_Ok {A B} (m : M A) (f : A → M B) s :
  (∀ a s1, m s = Ok (a, s1) → ∀ r, f a s1 ≠ Ok r) → ∀ r, (m ≫= f) s ≠ Ok r.
Proof. intros H r Hr. apply bind_Ok in Hr as (a & s1 & ? & ?). by eapply H. Qed.

Lemma bind_ext {A B} (m : M A) (f g : A → M B) s :
  (∀ a s1, f a s1 = g a s1) → (m ≫= f) s = (m ≫= g) s.
Proof. intros H. unfold mbind, M_bind. destruct (m s) as [[a s1]| |]; auto. Qed.

Lemma bind_assoc {A B C} (m : M A) (f : A → M B) (g : B → M C) s :
  ((m ≫= f) ≫= g) s = (m ≫= λ a, f a ≫= g) s.
Proof. unfold mbind, M_bind. by destruct (m s) as [[a s1]| |]. Qed.

Lemma mret_Ok {A} (a b : A) s s' : mret (M := M) a s = Ok (b, s') ↔ a = b ∧ s = s'.
Proof. unfold mret, M_ret. split; [by inversion 1 | by intros [-> ->]]. Qed.

Lemma lift_Ok {A} (r : result A) s a s' : lift r s = Ok (a, s') ↔ r = Ok a ∧ s = s'.
Proof.
  unfold lift. split.
  - destruct r; inversion 1; done.
  - by intros [-> ->].
Qed.

Lemma raise_Ok {A} e s (r : A * state) : raise e s ≠ Ok r.
Proof. done. Qed.

(** Decompose [H : (x ← m; k) s = Ok r] into the runs of [m] and of [k]. *)
Tactic Notation "bind_inv" hyp(H) "as" ident(Hp) :=
  apply bind_Ok in H as (? & ? & Hp & H).

Tactic Notation "bind_inv" hyp(H) :=
  let Hp := fresh H in bind_inv H as Hp.

Ltac ret_inv H :=
  first
    [ apply mret_Ok in H as [? ?]
    | apply lift_Ok in H as [? ?]
    | by apply raise_Ok in H ];
  simplify_eq.

(** ** [patchStringPool] on a pool with styles *)

Lemma for_range_succ n (body : M unit) s r :
  for_range (S n) body s = Ok r →
  ∃ s1, body s = Ok ((), s1) ∧ for_range n body s1 = Ok r.
Proof. simpl. intros H. apply bind_Ok in H as ([] & s1 & ? & ?). eauto. Qed.

Lemma style_record_raises input insertionIdx s r :
  (values ← readInts input 3;
   fields ← lift (unpack_without_format values);
   match fields with
   | [name; firstChar; lastChar] =>
       let name :=
         if decide (name ≠ 0xFFFFFFFF ∧ name >= insertionIdx)
         then name + 1 else name in
       write_pack (replicate 3 uI) [name; firstChar; lastChar]
   | _ => raise ValueError
   end) s ≠ Ok r.
Proof.
  intros H. bind_inv H. bind_inv H. by apply lift_Ok in H1 as [? _].
Qed.

(** [patchStringPool] never returns on a pool with [styleCount > 0]: the
    first style record is read and [unpack] raises. *)
Lemma patchStringPool_styles_never_Ok input strPoolInfo insertionIdx s r :
  styleCount strPoolInfo > 0 →
  patchStringPool input strPoolInfo insertionIdx s ≠ Ok r.
Proof.
  intros Hstyles H. unfold patchStringPool in H.
  repeat (bind_inv H).
  destruct (decide (_ ≠ _)) as [?|_] in H; [by apply raise_Ok in H|].
  repeat (bind_inv H).
  match goal with
  | Hs : context [for_range (Z.to_nat (styleCount _))] |- _ =>
      rewrite decide_True in Hs by done; bind_inv Hs; bind_inv Hs
  end.
  match goal with
  | Hs : for_range (Z.to_nat (styleCount _)) _ _ = _ |- _ =>
      destruct (Z.to_nat (styleCount strPoolInfo)) as [|n] eqn:Hn; [lia|];
      apply for_range_succ in Hs as (? & Hbody & _)
  end.
  by apply style_record_raises in Hbody.
Qed.

(** ** The rebuild loop without a resource map *)

Lemma getitem_Ok {A} (l : list A) (i : Z) :
  0 ≤ i < len l → ∃ x, getitem l i = Ok x ∧ l !! Z.to_nat i = Some x.
Proof.
  intros Hi. unfold getitem, len in *. cbv zeta.
  repeat case_decide; try lia.
  destruct (l !! Z.to_nat i) as [x|] eqn:E; [eauto|].
  apply lookup_ge_None in E. lia.
Qed.

Lemma injectResmap_Ok s :
  injectResmap s
  = Ok ((), State (fIn_pos s)
              (fOut s ++ le_encode 2 CHUNK_TYPE_RESMAP ++ le_encode 2 8
                      ++ le_encode 4 12 ++ le_encode 4 DEBUGGABLE_RES_ID)
              (stdout s)).
Proof.
  destruct s as [p o l]. unfold injectResmap. vm_compute fIn_pos.
  cbv [mbind M_bind writeCommonHeader write_pack lift pack fits result_bind
       fmt_size write fIn_pos fOut stdout COMMON_HEADER_LEN UINT32_LENGTH
       CHUNK_TYPE_RESMAP DEBUGGABLE_RES_ID].
  simpl. by rewrite <- !app_assoc.
Qed.

(** Once the loop stands on the chunk after the string pool and there is
    no resource map, it injects a resource map and stays there. *)
Lemma rebuild_loop_injects_forever input fuel v androidNsId debuggableStringId s :
  resmapIdx v < 0 →
  0 ≤ stringPoolIdx v + 1 < len (chunks v) →
  rebuild_loop input fuel v androidNsId debuggableStringId (stringPoolIdx v + 1) s
  = OutOfFuel.
Proof.
  intros Hrm Hi. revert s. induction fuel as [|fuel IH]; intros s; [done|].
  simpl. rewrite decide_True by lia.
  destruct (getitem_Ok (chunks v) (stringPoolIdx v + 1)) as (c & Hc & _); [done|].
  unfold mbind at 1, M_bind at 1. rewrite Hc. simpl.
  rewrite decide_True by done.
  unfold mbind at 1, M_bind at 1. unfold mbind at 1, M_bind at 1.
  rewrite injectResmap_Ok. simpl.
  replace (stringPoolIdx v + 1 - 1 + 1) with (stringPoolIdx v + 1) by lia.
  apply IH.
Qed.

Lemma bind_eval {A B} (m : M A) (f : A → M B) s a s1 :
  m s = Ok (a, s1) → (m ≫= f) s = f a s1.
Proof. unfold mbind, M_bind. by intros ->. Qed.

(** Rebuild [(x ← m; k) s = Ok r] from a run of [m] among the hypotheses. *)
Ltac bind_intro :=
  apply bind_Ok; eexists _, _; split; [eassumption|].

Lemma rebuild_loop_stringpool input fuel v androidNsId debuggableStringId s s1 :
  0 ≤ stringPoolIdx v < len (chunks v) →
  patchStringPool input (strPoolInfo v) debuggableStringId s = Ok ((), s1) →
  rebuild_loop input (S fuel) v androidNsId debuggableStringId (stringPoolIdx v) s
  = rebuild_loop input fuel v androidNsId debuggableStringId (stringPoolIdx v + 1) s1.
Proof.
  intros Hi Hp. simpl. rewrite decide_True by lia.
  destruct (getitem_Ok (chunks v) (stringPoolIdx v)) as (c & Hc & _); [done|].
  erewrite bind_eval by (by rewrite Hc).
  rewrite decide_False by lia. rewrite decide_True by done.
  erewrite bind_eval; [done|]. by erewrite bind_eval by done.
Qed.

(** ** More fuel does not change a result *)

Lemma readChunks_loop_more_fuel input fuel k acc p s r :
  readChunks_loop input fuel acc p s = Ok r →
  readChunks_loop input (fuel + k) acc p s = Ok r.
Proof.
  revert acc p s. induction fuel as [|fuel IH]; intros acc p s H; [done|].
  simpl in *. apply bind_Ok in H as (header & ? & ? & H). bind_intro.
  destruct header as [header|]; [|done].
  bind_inv H. bind_intro. bind_inv H. bind_intro. by apply IH.
Qed.

Lemma locateDebuggable_more_fuel input fuel k s r :
  locateDebuggable input fuel s = Ok r →
  locateDebuggable input (fuel + k) s = Ok r.
Proof.
  unfold locateDebuggable. intros H.
  bind_inv H. bind_intro. bind_inv H. bind_intro.
  case_decide; [done|].
  bind_inv H. apply bind_Ok. eexists _, _. split; [|eassumption].
  unfold readChunks in *.
  match goal with
  | Hr : (tell ≫= _) _ = _ |- _ =>
      bind_inv Hr; bind_intro; by apply readChunks_loop_more_fuel
  end.
Qed.

Lemma run_patchManifest_OutOfFuel fuel input :
  patchManifest input fuel initial = OutOfFuel →
  run_patchManifest fuel input = OutOfFuel.
Proof. unfold run_patchManifest. by intros ->. Qed.

(** ** The primitive operations *)

Lemma tell_Ok s a s' : tell s = Ok (a, s') ↔ a = fIn_pos s ∧ s' = s.
Proof. unfold tell. split; [by inversion 1 | by intros [-> ->]]. Qed.

Lemma seek_set_Ok offset s u s' :
  seek offset SEEK_SET s = Ok (u, s') →
  0 ≤ offset ∧ s' = State offset (fOut s) (stdout s).
Proof.
  unfold seek. cbv zeta.
  destruct (decide (SEEK_SET = SEEK_CUR)) as [E|_]; [discriminate E|].
  case_decide; [done|]. inversion 1. split; [lia|done].
Qed.

Lemma seek_cur_Ok offset s u s' :
  seek offset SEEK_CUR s = Ok (u, s') →
  0 ≤ fIn_pos s + offset ∧ s' = State (fIn_pos s + offset) (fOut s) (stdout s).
Proof.
  unfold seek. cbv zeta.
  destruct (decide (SEEK_CUR = SEEK_CUR)) as [_|E]; [|done].
  case_decide; [done|]. inversion 1. split; [lia|done].
Qed.

Lemma read_Ok input n s bs s' :
  read input n s = Ok (bs, s') →
  -1 ≤ n
  ∧ bs = (if decide (n = -1) then drop (Z.to_nat (fIn_pos s)) input
          else take (Z.to_nat n) (drop (Z.to_nat (fIn_pos s)) input))
  ∧ s' = State (fIn_pos s + len bs) (fOut s) (stdout s).
Proof.
  unfold read. case_decide; [done|]. inversion 1. split; [lia|done].
Qed.

Lemma write_Ok bs s u s' :
  write bs s = Ok (u, s') ↔ s' = State (fIn_pos s) (fOut s ++ bs) (stdout s).
Proof. unfold write. destruct u. split; [by inversion 1 | by intros ->]. Qed.

Lemma print_Ok m s u s' :
  print m s = Ok (u, s') ↔ s' = State (fIn_pos s) (fOut s) (stdout s ++ [m]).
Proof. unfold print. destruct u. split; [by inversion 1 | by intros ->]. Qed.

(** ** Computations that leave a part of the state alone *)

Lemma preserves_bind {A B X} (proj : state → X) (m : M A) (f : A → M B) :
  preserves proj m → (∀ a, preserves proj (f a)) → preserves proj (m ≫= f).
Proof.
  intros Hm Hf s b s' H. bind_inv H.
  apply Hm in H0. apply Hf in H. congruence.
Qed.

Lemma preserves_ret {A X} (proj : state → X) (a : A) : preserves proj (mret a).
Proof. intros s b s' H. by ret_inv H. Qed.

Lemma preserves_raise {A X} (proj : state → X) e : preserves proj (raise (A := A) e).
Proof. intros s b s' H. by ret_inv H. Qed.

Lemma preserves_out_of_fuel {A X} (proj : state → X) :
  preserves proj (out_of_fuel (A := A)).
Proof. by intros s b s' H. Qed.

Lemma preserves_lift {A X} (proj : state → X) (r : result A) : preserves proj (lift r).
Proof. intros s b s' H. by ret_inv H. Qed.

Lemma preserves_tell {X} (proj : state → X) : preserves proj tell.
Proof. intros s b s' H. by apply tell_Ok in H as [_ ->]. Qed.

Lemma preserves_assert {X} (proj : state → X) b : preserves proj (assert b).
Proof. destruct b; [apply preserves_ret | apply preserves_raise]. Qed.

Lemma seek_preserves_fOut offset whence : preserves fOut (seek offset whence).
Proof. intros s b s'. unfold seek. case_decide; [done|]. by inversion 1. Qed.

Lemma seek_preserves_stdout offset whence : preserves stdout (seek offset whence).
Proof. intros s b s'. unfold seek. case_decide; [done|]. by inversion 1. Qed.

Lemma read_preserves_fOut input n : preserves fOut (read input n).
Proof. intros s b s' H. by apply read_Ok in H as (_ & _ & ->). Qed.

Lemma read_preserves_stdout input n : preserves stdout (read input n).
Proof. intros s b s' H. by apply read_Ok in H as (_ & _ & ->). Qed.

Lemma print_preserves_fOut m : preserves fOut (print m).
Proof. intros s b s' H. by apply print_Ok in H as ->. Qed.

Lemma print_preserves_fIn_pos m : preserves fIn_pos (print m).
Proof. intros s b s' H. by apply print_Ok in H as ->. Qed.

Lemma write_preserves_stdout bs : preserves stdout (write bs).
Proof. intros s b s' H. by apply write_Ok in H as ->. Qed.

Lemma write_preserves_fIn_pos bs : preserves fIn_pos (write bs).
Proof. intros s b s' H. by apply write_Ok in H as ->. Qed.

Create HintDb preserves.
#[export] Hint Resolve preserves_ret preserves_raise preserves_out_of_fuel
  preserves_lift preserves_tell preserves_assert
  seek_preserves_fOut seek_preserves_stdout read_preserves_fOut
  read_preserves_stdout print_preserves_fOut print_preserves_fIn_pos
  write_preserves_stdout write_preserves_fIn_pos : preserves.

(** Prove [preserves proj m] by following the structure of [m]. *)
Ltac preserves_tac :=
  repeat first
    [ progress eauto with preserves
    | apply preserves_bind; [|intros ?]
    | case_match
    | case_decide ].

Lemma readType1_preserves {X} (proj : state → X) input c typeLen :
  preserves proj (read input (1 * typeLen)) →
  preserves proj (readType1 input c typeLen).
Proof. intros. unfold readType1. preserves_tac. Qed.

Lemma readTypeN_preserves {X} (proj : state → X) input n c typeLen :
  preserves proj (read input (Z.of_nat n * typeLen)) →
  preserves proj (readTypeN input n c typeLen).
Proof. intros. unfold readTypeN. preserves_tac. Qed.

#[export] Hint Resolve readType1_preserves readTypeN_preserves : preserves.

Lemma readInt_preserves_fOut input : preserves fOut (readInt input).
Proof. unfold readInt. preserves_tac. Qed.

Lemma readInt_preserves_stdout input : preserves stdout (readInt input).
Proof. unfold readInt. preserves_tac. Qed.

#[export] Hint Resolve readInt_preserves_fOut readInt_preserves_stdout : preserves.

Lemma decodeLength_preserves_fOut input sizeof_char :
  preserves fOut (decodeLength input sizeof_char).
Proof. unfold decodeLength. preserves_tac. Qed.

Lemma decodeLength_preserves_stdout input sizeof_char :
  preserves stdout (decodeLength input sizeof_char).
Proof. unfold decodeLength. preserves_tac. Qed.

#[export] Hint Resolve decodeLength_preserves_fOut decodeLength_preserves_stdout
  : preserves.

Lemma decode8_preserves_fOut input : preserves fOut (decode8 input).
Proof. unfold decode8. preserves_tac. Qed.

Lemma decode8_preserves_stdout input : preserves stdout (decode8 input).
Proof. unfold decode8. preserves_tac. Qed.

Lemma decode16_preserves_fOut input : preserves fOut (decode16 input).
Proof. unfold decode16. preserves_tac. Qed.

Lemma decode16_preserves_stdout input : preserves stdout (decode16 input).
Proof. unfold decode16. preserves_tac. Qed.

#[export] Hint Resolve decode8_preserves_fOut decode8_preserves_stdout
  decode16_preserves_fOut decode16_preserves_stdout : preserves.

(** From a run [H : m s = Ok (a, s')] of an [m] that only reads, the
    equations between the outputs of [s] and [s']. *)
Ltac quiet_run H :=
  let Ho := fresh "Hout" in
  let Hp := fresh "Hstd" in
  match type of H with
  | ?m ?s = Ok (?a, ?s') =>
      assert (Ho : fOut s' = fOut s)
        by (refine ((_ : preserves fOut m) s a s' H); preserves_tac);
      assert (Hp : stdout s' = stdout s)
        by (refine ((_ : preserves stdout m) s a s' H); preserves_tac)
  end.

(** ** The primitive operations as equations *)

Lemma seek_set_eq offset s :
  0 ≤ offset → seek offset SEEK_SET s = Ok ((), State offset (fOut s) (stdout s)).
Proof.
  intros. unfold seek. cbv zeta.
  destruct (decide (SEEK_SET = SEEK_CUR)) as [E|_]; [discriminate E|].
  by rewrite decide_False by lia.
Qed.

Lemma seek_cur_eq offset s :
  0 ≤ fIn_pos s + offset →
  seek offset SEEK_CUR s = Ok ((), State (fIn_pos s + offset) (fOut s) (stdout s)).
Proof.
  intros. unfold seek. cbv zeta.
  destruct (decide (SEEK_CUR = SEEK_CUR)) as [_|E]; [|done].
  by rewrite decide_False by lia.
Qed.

(** [fOut.write(fIn.read(n))] *)
Lemma copy_eq input n s :
  0 ≤ n →
  (read input n ≫= write) s
  = let bs := take (Z.to_nat n) (drop (Z.to_nat (fIn_pos s)) input) in
    Ok ((), State (fIn_pos s + len bs) (fOut s ++ bs) (stdout s)).
Proof.
  intros. unfold mbind, M_bind, read, write.
  rewrite (decide_False (P := n < -1)) by lia.
  by rewrite (decide_False (P := n = -1)) by lia.
Qed.

(** [fOut.write(fIn.read())] *)
Lemma copy_all_eq input s :
  (read input (-1) ≫= write) s
  = let bs := drop (Z.to_nat (fIn_pos s)) input in
    Ok ((), State (fIn_pos s + len bs) (fOut s ++ bs) (stdout s)).
Proof. reflexivity. Qed.

Lemma lift_eq {A} (r : result A) a s : r = Ok a → lift r s = Ok (a, s).
Proof. by intros ->. Qed.

Lemma getitem_lookup {A} (l : list A) i x :
  0 ≤ i → l !! Z.to_nat i = Some x → getitem l i = Ok x.
Proof.
  intros Hi Hx. unfold getitem. cbv zeta.
  rewrite (decide_False (P := i < 0)) by lia.
  rewrite (decide_False (P := i < 0)) by lia. by rewrite Hx.
Qed.

(** ** [readString], [readResId] and [findDebuggableAttribute] *)

Lemma readString_restores input strPoolInfo idx s name s' :
  readString input strPoolInfo idx s = Ok (name, s') → s' = s.
Proof.
  unfold readString. intros H. bind_inv H as Ht. apply tell_Ok in Ht as [-> ->].
  case_match; [by ret_inv H|].
  bind_inv H as H1. quiet_run H1. bind_inv H as H2. quiet_run H2.
  bind_inv H as H3. quiet_run H3. bind_inv H as H4. quiet_run H4.
  bind_inv H as H5. apply seek_set_Ok in H5 as [_ ->]. ret_inv H.
  destruct s. simpl in *. f_equal; congruence.
Qed.

Lemma readResId_restores input resmapInfo idx s resId s' :
  readResId input resmapInfo idx s = Ok (resId, s') → s' = s.
Proof.
  unfold readResId. intros H. case_decide; [by ret_inv H|].
  bind_inv H as Ht. apply tell_Ok in Ht as [-> ->].
  case_match; [|by ret_inv H].
  bind_inv H as Hr1. quiet_run Hr1. bind_inv H as Hr2. quiet_run Hr2.
  bind_inv H as Hr3. apply seek_set_Ok in Hr3 as [_ ->]. ret_inv H.
  destruct s. simpl in *. f_equal; congruence.
Qed.

Lemma named_debuggable_Ok input strPoolInfo resmapInfo attr s b s' :
  named_debuggable input strPoolInfo resmapInfo attr s = Ok (b, s') ↔
  ∃ name resId,
    readString input strPoolInfo (nameId attr) s = Ok (name, s)
    ∧ readResId input resmapInfo (nameId attr) s = Ok (resId, s)
    ∧ b = opt_str_eq name DEBUGGABLE_STRING
          && bool_decide (resId = Some DEBUGGABLE_RES_ID)
    ∧ s' = s.
Proof.
  unfold named_debuggable. split.
  - intros H. bind_inv H as H1. pose proof (readString_restores _ _ _ _ _ _ H1) as ->.
    bind_inv H as H2. pose proof (readResId_restores _ _ _ _ _ _ H2) as ->.
    ret_inv H. eauto 10.
  - intros (name & resId & Hn & Hr & -> & ->).
    erewrite bind_eval by done. by erewrite bind_eval by done.
Qed.

(** [findDebuggableAttribute] returns the index of the first attribute
    for which both conditions hold, and -1 when there is none. *)
Lemma findDebuggableAttribute_loop_Ok input strPoolInfo resmapInfo attrs i s idx s' :
  findDebuggableAttribute_loop input strPoolInfo resmapInfo attrs i s = Ok (idx, s') →
  s' = s
  ∧ ((idx = -1
      ∧ ∀ attr, attr ∈ attrs →
          named_debuggable input strPoolInfo resmapInfo attr s = Ok (false, s))
     ∨ (∃ k attr,
          idx = i + Z.of_nat k
          ∧ attrs !! k = Some attr
          ∧ named_debuggable input strPoolInfo resmapInfo attr s = Ok (true, s)
          ∧ ∀ j attr', (j < k)%nat → attrs !! j = Some attr' →
              named_debuggable input strPoolInfo resmapInfo attr' s = Ok (false, s))).
Proof.
  revert i. induction attrs as [|attr attrs IH]; intros i H; simpl in H.
  { ret_inv H. split; [done|]. left. split; [done|]. by intros ? ?%elem_of_nil. }
  apply bind_Ok in H as (name & ? & H1 & H).
  pose proof (readString_restores _ _ _ _ _ _ H1) as ->.
  apply bind_Ok in H as (resId & ? & H2 & H).
  pose proof (readResId_restores _ _ _ _ _ _ H2) as ->.
  assert (Hnamed : named_debuggable input strPoolInfo resmapInfo attr s
                   = Ok (opt_str_eq name DEBUGGABLE_STRING
                         && bool_decide (resId = Some DEBUGGABLE_RES_ID), s)).
  { apply named_debuggable_Ok. eauto 10. }
  destruct (opt_str_eq name DEBUGGABLE_STRING
            && bool_decide (resId = Some DEBUGGABLE_RES_ID)) eqn:Hb.
  - ret_inv H. split; [done|]. right. exists 0%nat, attr.
    repeat split; [lia|done|]. intros j ? ?. lia.
  - apply IH in H as [-> Hcases]. split; [done|].
    destruct Hcases as [[-> Hall]|(k & attr' & -> & Hk & Hnamed' & Hbefore)].
    + left. split; [done|]. intros x [->|?]%elem_of_cons; auto.
    + right. exists (S k), attr'. repeat split; [lia|done|done|].
      intros [|j] x Hj Hx; simpl in Hx; [by simplify_eq|].
      apply (Hbefore j); [lia|done].
Qed.

(** What [findDebuggableAttribute] answers: -1 when no attribute has both
    the name and the resource id, else the index of one that has both. *)
Lemma findDebuggableAttribute_Ok input strPoolInfo resmapInfo attrs s idx s' :
  findDebuggableAttribute input strPoolInfo resmapInfo attrs s = Ok (idx, s') →
  s' = s
  ∧ ((idx = -1
      ∧ ∀ attr, attr ∈ attrs →
          ∃ name resId,
            readString input strPoolInfo (nameId attr) s = Ok (name, s)
            ∧ readResId input resmapInfo (nameId attr) s = Ok (resId, s)
            ∧ ¬ (opt_str_eq name DEBUGGABLE_STRING = true
                 ∧ resId = Some DEBUGGABLE_RES_ID))
     ∨ (0 ≤ idx
        ∧ ∃ attr name,
            attrs !! Z.to_nat idx = Some attr
            ∧ readString input strPoolInfo (nameId attr) s = Ok (Some name, s)
            ∧ str_eq name DEBUGGABLE_STRING = true
            ∧ readResId input resmapInfo (nameId attr) s
              = Ok (Some DEBUGGABLE_RES_ID, s))).
Proof.
  intros H. unfold findDebuggableAttribute in H.
  apply findDebuggableAttribute_loop_Ok in H as [-> Hcases]. split; [done|].
  destruct Hcases as [[-> Hall]|(k & attr & -> & Hk & Hnamed & _)].
  - left. split; [done|]. intros attr Hin.
    apply Hall, named_debuggable_Ok in Hin as (name & resId & ? & ? & Hb & _).
    exists name, resId. repeat split; [done..|].
    intros [Hname ->]. rewrite Hname, bool_decide_eq_true_2 in Hb; done.
  - right. split; [lia|].
    apply named_debuggable_Ok in Hnamed as (name & resId & Hn & Hr & Hb & _).
    symmetry in Hb. apply andb_true_iff in Hb as [Hname ->%bool_decide_eq_true].
    destruct name as [name|]; [|done].
    exists attr, name. by rewrite Z.add_0_l, Nat2Z.id.
Qed.
(** C8: [findDebuggableAttribute] returns an index only for an attribute
    whose name string is "debuggable" and whose name index has resource
    id 0x0101000F in the resource map, both at once; it returns -1 when
    for every attribute one of the two fails (the name index having no
    entry in the resource map, [readResId] returning [None], is one way
    to fail), and [patchManifest] then takes the slow path. *)
Theorem findDebuggableAttribute_both_conditions input :
  (∀ strPoolInfo resmapInfo attrs s idx s',
     findDebuggableAttribute input strPoolInfo resmapInfo attrs s = Ok (idx, s') →
     s' = s
     ∧ ((idx = -1
         ∧ ∀ attr, attr ∈ attrs →
             ∃ name resId,
               readString input strPoolInfo (nameId attr) s = Ok (name, s)
               ∧ readResId input resmapInfo (nameId attr) s = Ok (resId, s)
               ∧ ¬ (opt_str_eq name DEBUGGABLE_STRING = true
                    ∧ resId = Some DEBUGGABLE_RES_ID))
        ∨ (0 ≤ idx
           ∧ ∃ attr name,
               attrs !! Z.to_nat idx = Some attr
               ∧ readString input strPoolInfo (nameId attr) s = Ok (Some name, s)
               ∧ str_eq name DEBUGGABLE_STRING = true
               ∧ readResId input resmapInfo (nameId attr) s
                 = Ok (Some DEBUGGABLE_RES_ID, s))))
  ∧ (∀ fuel v s,
       locateDebuggable input fuel initial = Ok (v, s) →
       debuggableAttributeIdx v = -1 →
       patchManifest input fuel initial = slowPath input fuel v s).
Proof.
  split.
  - apply findDebuggableAttribute_Ok.
  - intros fuel v s Hlocate Hidx. unfold patchManifest.
    erewrite bind_eval by done. rewrite Hidx. by rewrite decide_False by lia.
Qed.

Lemma findDebuggableAttribute_both_conditions_witness :
  ∃ v s,
    locateDebuggable Examples.wrong_resource_id 5 initial = Ok (v, s)
    ∧ debuggableAttributeIdx v = -1
    ∧ (∀ attr, attr ∈ applicationAttributes v →
         ∃ name resId,
           readString Examples.wrong_resource_id (strPoolInfo v) (nameId attr) s
           = Ok (name, s)
           ∧ readResId Examples.wrong_resource_id (resmapInfo v) (nameId attr) s
             = Ok (resId, s)
           ∧ ¬ (opt_str_eq name DEBUGGABLE_STRING = true
                ∧ resId = Some DEBUGGABLE_RES_ID))
    ∧ patchManifest Examples.wrong_resource_id 5 initial
      = slowPath Examples.wrong_resource_id 5 v s.
Proof.
  eexists _, _. split; [vm_compute; reflexivity|].
  split; [vm_compute; reflexivity|].
  pose proof (findDebuggableAttribute_both_conditions Examples.wrong_resource_id)
    as [Hfind Hslow].
  split.
  - match goal with
    | |- ∀ attr, attr ∈ applicationAttributes ?v → ∃ name resId,
           readString _ _ _ ?s = _ ∧ _ =>
        destruct (Hfind (strPoolInfo v) (resmapInfo v) (applicationAttributes v)
                    s (-1) s) as [_ [[_ Hall]|[Hidx _]]];
          [vm_compute; reflexivity | exact Hall | vm_compute in Hidx; done]
    end.
  - apply Hslow; vm_compute; reflexivity.
Defined.
(** ** Bytes *)

Lemma byte_val_range b : 0 ≤ byte_val b < 256.
Proof. unfold byte_val. pose proof (Byte.to_N_bounded b). lia. Qed.

Lemma byte_val_inj a b : byte_val a = byte_val b → a = b.
Proof.
  unfold byte_val. intros H%(inj Z.of_N).
  pose proof (Byte.of_to_N a) as Ha. rewrite H, Byte.of_to_N in Ha. congruence.
Qed.

Lemma byte_val_ff b : byte_val b = 255 → b = xff.
Proof. intros H. by apply byte_val_inj. Qed.

Lemma byte_of_val b : byte_of (byte_val b) = b.
Proof.
  unfold byte_of. pose proof (byte_val_range b).
  rewrite Z.mod_small by done. unfold byte_val.
  by rewrite N2Z.id, Byte.of_to_N.
Qed.

Lemma byte_val_of z : byte_val (byte_of z) = z `mod` 256.
Proof.
  pose proof (Z.mod_pos_bound z 256).
  unfold byte_of, byte_val.
  destruct (Byte.of_N (Z.to_N (z `mod` 256))) as [b|] eqn:E.
  - apply Byte.to_of_N in E. simpl. lia.
  - apply Byte.of_N_None_iff in E. lia.
Qed.

Lemma le_decode_range bs : 0 ≤ le_decode bs < 256 ^ len bs.
Proof.
  unfold len. induction bs as [|b bs IH]; simpl length; [simpl; lia|].
  rewrite Nat2Z.inj_succ, Z.pow_succ_r by lia.
  simpl. pose proof (byte_val_range b). lia.
Qed.

Lemma length_le_encode n v : length (le_encode n v) = n.
Proof. revert v. induction n; intros; simpl; auto. Qed.

Lemma le_decode_encode n v :
  0 ≤ v < 256 ^ Z.of_nat n → le_decode (le_encode n v) = v.
Proof.
  revert v. induction n as [|n IH]; intros v Hv.
  - simpl in *. lia.
  - rewrite Nat2Z.inj_succ, Z.pow_succ_r in Hv by lia. simpl.
    rewrite byte_val_of.
    rewrite IH.
    + pose proof (Z.div_mod v 256). lia.
    + split; [apply Z.div_pos; lia|]. apply Z.div_lt_upper_bound; lia.
Qed.

Lemma le_encode_decode bs : le_encode (length bs) (le_decode bs) = bs.
Proof.
  induction bs as [|b bs IH]; [done|]. simpl.
  pose proof (byte_val_range b).
  assert ((byte_val b + 256 * le_decode bs) `mod` 256 = byte_val b) as Hmod.
  { replace (byte_val b + 256 * le_decode bs)
      with (byte_val b + le_decode bs * 256) by lia.
    rewrite Z_mod_plus_full. by apply Z.mod_small. }
  assert ((byte_val b + 256 * le_decode bs) `div` 256 = le_decode bs) as Hdiv.
  { replace (byte_val b + 256 * le_decode bs)
      with (le_decode bs * 256 + byte_val b) by lia.
    rewrite Z_div_plus_full_l by lia.
    rewrite Z.div_small by done. lia. }
  rewrite Hdiv, IH. f_equal.
  unfold byte_of. rewrite Hmod. unfold byte_val.
  by rewrite N2Z.id, Byte.of_to_N.
Qed.

(** The four bytes of the word 0xFFFFFFFF. *)
Lemma le_decode_ffffffff bs :
  length bs = 4%nat → le_decode bs = 0xFFFFFFFF → bs = [xff; xff; xff; xff].
Proof.
  intros Hlen H.
  destruct bs as [|a [|b [|c [|d [|? ?]]]]]; try done. simpl in H.
  pose proof (byte_val_range a). pose proof (byte_val_range b).
  pose proof (byte_val_range c). pose proof (byte_val_range d).
  repeat f_equal; apply byte_val_ff; lia.
Qed.
(** ** [decodeAttributes] *)

(** One round of the loop of [decodeAttributes]. *)
Lemma decodeAttributes_loop_S input n acc s :
  decodeAttributes_loop input (S n) acc s
  = let bs := take 20 (drop (Z.to_nat (fIn_pos s)) input) in
    if decide (length bs = 20%nat) then
      decodeAttributes_loop input n (acc ++ [attribute_of_bytes (fIn_pos s) bs])
        (State (fIn_pos s + 20) (fOut s) (stdout s))
    else Raise struct_error.
Proof.
  cbn [decodeAttributes_loop]. unfold mbind, M_bind, tell, read, lift, unpack.
  rewrite (decide_False (P := ATTRIBUTE_LENGTH < -1)) by done.
  rewrite (decide_False (P := ATTRIBUTE_LENGTH = -1)) by done.
  change (Z.to_nat ATTRIBUTE_LENGTH) with 20%nat.
  change (calcsize [uI; uI; uI; uH; uB; uB; uI]) with 20%nat.
  cbv zeta. cbn [fIn_pos fOut stdout].
  destruct (decide (length (take 20 (drop (Z.to_nat (fIn_pos s)) input)) = 20%nat))
    as [Hlen|]; [|done].
  unfold len. rewrite Hlen.
  destruct (take 20 (drop (Z.to_nat (fIn_pos s)) input)) as [|b0 bs]; [done|].
  do 19 (destruct bs as [|? bs]; [done|]). destruct bs; [|done].
  reflexivity.
Qed.

Lemma attribute_at_spec input offset attr :
  attribute_at input offset = Some attr ↔
  length (take 20 (drop (Z.to_nat offset) input)) = 20%nat
  ∧ attr = attribute_of_bytes offset (take 20 (drop (Z.to_nat offset) input)).
Proof.
  unfold attribute_at. rewrite decodeAttributes_loop_S. cbv zeta.
  cbn [fIn_pos fOut stdout decodeAttributes_loop app].
  case_decide as Hlen.
  - unfold mret, M_ret. split; [by intros [= <-] | by intros [_ ->]].
  - split; [done | by intros [? _]].
Qed.

Lemma decodeAttributes_loop_decoded_at input n acc s attrs s' :
  decodeAttributes_loop input n acc s = Ok (attrs, s') →
  0 ≤ fIn_pos s →
  Forall (decoded_at input) acc →
  Forall (decoded_at input) attrs.
Proof.
  revert acc s. induction n as [|n IH]; intros acc s H Hpos Hacc.
  { by ret_inv H. }
  rewrite decodeAttributes_loop_S in H. cbv zeta in H.
  case_decide as Hlen; [|done].
  apply IH in H; [done|simpl; lia|].
  apply Forall_app. split; [done|]. apply Forall_singleton.
  split; [done|]. by apply attribute_at_spec.
Qed.

Lemma decodeAttributes_decoded_at input applicationChunk s attrs s' :
  decodeAttributes input applicationChunk s = Ok (attrs, s') →
  Forall (decoded_at input) attrs.
Proof.
  unfold decodeAttributes. intros H.
  bind_inv H as Hseek. bind_inv H as Hshorts.
  repeat (case_match; try by ret_inv H).
  bind_inv H as Hseek2. apply seek_set_Ok in Hseek2 as [? ->].
  by eapply decodeAttributes_loop_decoded_at.
Qed.
(** ** [locateDebuggable] writes nothing *)

Lemma readCommonHeader_preserves_fOut input : preserves fOut (readCommonHeader input).
Proof. unfold readCommonHeader. preserves_tac. Qed.

#[export] Hint Resolve readCommonHeader_preserves_fOut : preserves.

Lemma readChunks_loop_preserves_fOut input fuel acc currPos :
  preserves fOut (readChunks_loop input fuel acc currPos).
Proof.
  revert acc currPos. induction fuel as [|fuel IH]; intros acc currPos; simpl;
    preserves_tac.
Qed.

#[export] Hint Resolve readChunks_loop_preserves_fOut : preserves.

Lemma readChunks_preserves_fOut input fuel : preserves fOut (readChunks input fuel).
Proof. unfold readChunks. preserves_tac. Qed.

Lemma decodeStringPoolInfo_preserves_fOut input chunkInfo :
  preserves fOut (decodeStringPoolInfo input chunkInfo).
Proof. unfold decodeStringPoolInfo, readInts. preserves_tac. Qed.

Lemma readString_preserves {X} (proj : state → X) input strPoolInfo idx :
  preserves proj (readString input strPoolInfo idx).
Proof. intros s a s' H. by apply readString_restores in H as ->. Qed.

Lemma readResId_preserves {X} (proj : state → X) input resmapInfo idx :
  preserves proj (readResId input resmapInfo idx).
Proof. intros s a s' H. by apply readResId_restores in H as ->. Qed.

#[export] Hint Resolve readChunks_preserves_fOut decodeStringPoolInfo_preserves_fOut
  readString_preserves readResId_preserves : preserves.

Lemma findApplication_loop_preserves_fOut input strPoolInfo chunks i applicationIdx :
  preserves fOut (findApplication_loop input strPoolInfo chunks i applicationIdx).
Proof.
  revert i applicationIdx.
  induction chunks as [|c chunks IH]; intros i applicationIdx; simpl; preserves_tac.
Qed.

#[export] Hint Resolve findApplication_loop_preserves_fOut : preserves.

Lemma findApplication_preserves_fOut input chunks strPoolInfo :
  preserves fOut (findApplication input chunks strPoolInfo).
Proof. unfold findApplication. preserves_tac. Qed.

Lemma decodeAttributes_loop_preserves_fOut input n acc :
  preserves fOut (decodeAttributes_loop input n acc).
Proof. revert acc. induction n as [|n IH]; intros acc; simpl; preserves_tac. Qed.

#[export] Hint Resolve decodeAttributes_loop_preserves_fOut : preserves.

Lemma decodeAttributes_preserves_fOut input applicationChunk :
  preserves fOut (decodeAttributes input applicationChunk).
Proof. unfold decodeAttributes, readShorts. preserves_tac. Qed.

Lemma findDebuggableAttribute_preserves {X} (proj : state → X) input strPoolInfo
  resmapInfo attrs :
  preserves proj (findDebuggableAttribute input strPoolInfo resmapInfo attrs).
Proof.
  intros s a s' H. unfold findDebuggableAttribute in H.
  by apply findDebuggableAttribute_loop_Ok in H as [-> _].
Qed.

#[export] Hint Resolve findApplication_preserves_fOut decodeAttributes_preserves_fOut
  findDebuggableAttribute_preserves : preserves.

Lemma locateDebuggable_preserves_fOut input fuel :
  preserves fOut (locateDebuggable input fuel).
Proof. unfold locateDebuggable. preserves_tac. Qed.

(** What [locateDebuggable] returns: the attributes are those decoded
    from the input, and the index is what [findDebuggableAttribute]
    answers on them in the state reached. *)
Lemma locateDebuggable_Ok input fuel s0 v s :
  locateDebuggable input fuel s0 = Ok (v, s) →
  fOut s = fOut s0
  ∧ Forall (decoded_at input) (applicationAttributes v)
  ∧ findDebuggableAttribute input (strPoolInfo v) (resmapInfo v)
      (applicationAttributes v) s
    = Ok (debuggableAttributeIdx v, s).
Proof.
  intros H. split; [by eapply locateDebuggable_preserves_fOut|].
  unfold locateDebuggable in H.
  bind_inv H as Hhdr. bind_inv H as Hsome. case_decide; [by ret_inv H|].
  bind_inv H as Hchunks. bind_inv H as Hfind. case_match.
  bind_inv H as Hsp. bind_inv H as Hpool. bind_inv H as Hrm.
  bind_inv H as Happ. bind_inv H as Hchunk. bind_inv H as Hprint.
  bind_inv H as Hattrs. bind_inv H as Hdbg. ret_inv H. simpl.
  split; [by eapply decodeAttributes_decoded_at|].
  pose proof Hdbg as Hdbg'. unfold findDebuggableAttribute in Hdbg'.
  by apply findDebuggableAttribute_loop_Ok in Hdbg' as [-> _].
Qed.
(** ** The chunks that [locateDebuggable] picks *)

Lemma findStringpoolAndResmap_loop_Ok chunks i sp0 rm0 sp rm :
  findStringpoolAndResmap_loop chunks i sp0 rm0 = Ok (sp, rm) →
  (sp = sp0
   ∨ ∃ k c, sp = i + Z.of_nat k ∧ chunks !! k = Some c
            ∧ type (commonHeader c) = CHUNK_TYPE_STRINGPOOL)
  ∧ (rm = rm0
     ∨ ∃ k c, rm = i + Z.of_nat k ∧ chunks !! k = Some c
              ∧ type (commonHeader c) = CHUNK_TYPE_RESMAP).
Proof.
  revert i sp0 rm0. induction chunks as [|c chunks IH]; intros i sp0 rm0 H; simpl in H.
  { inversion H. auto. }
  assert (∀ P : ChunkInfo → Prop,
            (∃ k c', sp = i + 1 + Z.of_nat k ∧ chunks !! k = Some c' ∧ P c') →
            ∃ k c', sp = i + Z.of_nat k ∧ (c :: chunks) !! k = Some c' ∧ P c')
    as Hshift_sp.
  { intros P (k & c' & -> & ? & ?). exists (S k), c'. split; [lia|done]. }
  assert (∀ P : ChunkInfo → Prop,
            (∃ k c', rm = i + 1 + Z.of_nat k ∧ chunks !! k = Some c' ∧ P c') →
            ∃ k c', rm = i + Z.of_nat k ∧ (c :: chunks) !! k = Some c' ∧ P c')
    as Hshift_rm.
  { intros P (k & c' & -> & ? & ?). exists (S k), c'. split; [lia|done]. }
  repeat case_decide; try done; apply IH in H as [Hsp Hrm].
  - split.
    + destruct Hsp as [->|Hsp]; [|by right; apply Hshift_sp].
      right. exists 0%nat, c. split; [lia|done].
    + destruct Hrm as [->|Hrm]; [by left|by right; apply Hshift_rm].
  - split.
    + destruct Hsp as [->|Hsp]; [by left|by right; apply Hshift_sp].
    + destruct Hrm as [->|Hrm]; [|by right; apply Hshift_rm].
      right. exists 0%nat, c. split; [lia|done].
  - split.
    + destruct Hsp as [->|Hsp]; [by left|by right; apply Hshift_sp].
    + destruct Hrm as [->|Hrm]; [by left|by right; apply Hshift_rm].
Qed.

Lemma findStringpoolAndResmap_Ok chunks sp rm :
  findStringpoolAndResmap chunks = Ok (sp, rm) →
  (0 ≤ sp ∧ ∃ c, chunks !! Z.to_nat sp = Some c
                 ∧ type (commonHeader c) = CHUNK_TYPE_STRINGPOOL)
  ∧ (rm = -1
     ∨ 0 ≤ rm ∧ ∃ c, chunks !! Z.to_nat rm = Some c
                     ∧ type (commonHeader c) = CHUNK_TYPE_RESMAP).
Proof.
  unfold findStringpoolAndResmap, mbind, result_bind.
  destruct (findStringpoolAndResmap_loop chunks 0 (-1) (-1)) as [[sp' rm']| |] eqn:E;
    [|done..].
  case_decide; [done|]. intros [= <- <-].
  apply findStringpoolAndResmap_loop_Ok in E as [Hsp Hrm]. split.
  - destruct Hsp as [->|(k & c & -> & Hk & Hc)]; [lia|].
    split; [lia|]. exists c. by rewrite Z.add_0_l, Nat2Z.id.
  - destruct Hrm as [->|(k & c & -> & Hk & Hc)]; [by left|].
    right. split; [lia|]. exists c. by rewrite Z.add_0_l, Nat2Z.id.
Qed.

Lemma findApplication_loop_Ok input strPoolInfo chunks i idx0 s idx s' :
  findApplication_loop input strPoolInfo chunks i idx0 s = Ok (idx, s') →
  idx = idx0
  ∨ ∃ k c, idx = i + Z.of_nat k ∧ chunks !! k = Some c
           ∧ type (commonHeader c) = CHUNK_TYPE_START_ELEMENT.
Proof.
  revert i idx0 s. induction chunks as [|c chunks IH]; intros i idx0 s H; simpl in H.
  { ret_inv H. by left. }
  assert ((∃ k c', idx = i + 1 + Z.of_nat k ∧ chunks !! k = Some c'
                   ∧ type (commonHeader c') = CHUNK_TYPE_START_ELEMENT) →
          ∃ k c', idx = i + Z.of_nat k ∧ (c :: chunks) !! k = Some c'
                  ∧ type (commonHeader c') = CHUNK_TYPE_START_ELEMENT)
    as Hshift.
  { intros (k & c' & -> & ? & ?). exists (S k), c'. split; [lia|done]. }
  case_decide as Htype.
  { apply IH in H as [->|H]; [by left|by right; apply Hshift]. }
  bind_inv H as Hseek. bind_inv H as Hname. bind_inv H as Hstr.
  case_match.
  { apply IH in H as [->|H]; [by left|by right; apply Hshift]. }
  case_decide; [by ret_inv H|].
  apply IH in H as [->|H]; [|by right; apply Hshift].
  right. exists 0%nat, c. split; [lia|done].
Qed.

(** What [locateDebuggable] returns: the string pool, the resource map
    and the application element are chunks of the list, of their types,
    and the decoded records are theirs. *)
Lemma locateDebuggable_indices input fuel s0 v s :
  locateDebuggable input fuel s0 = Ok (v, s) →
  (0 ≤ stringPoolIdx v
   ∧ ∃ c, chunks v !! Z.to_nat (stringPoolIdx v) = Some c
          ∧ type (commonHeader c) = CHUNK_TYPE_STRINGPOOL
          ∧ sp_chunkInfo (strPoolInfo v) = c)
  ∧ (resmapIdx v = -1 ∧ resmapInfo v = {| rm_chunkInfo := None; rm_len := 0 |}
     ∨ 0 ≤ resmapIdx v
       ∧ ∃ c, chunks v !! Z.to_nat (resmapIdx v) = Some c
              ∧ type (commonHeader c) = CHUNK_TYPE_RESMAP
              ∧ resmapInfo v = {| rm_chunkInfo := Some c;
                                  rm_len := calculateResMapLength c |})
  ∧ (0 ≤ applicationIdx v
     ∧ ∃ c, chunks v !! Z.to_nat (applicationIdx v) = Some c
            ∧ type (commonHeader c) = CHUNK_TYPE_START_ELEMENT).
Proof.
  unfold locateDebuggable. intros H.
  bind_inv H as Hhdr. bind_inv H as Hsome. case_decide; [by ret_inv H|].
  bind_inv H as Hchunks. bind_inv H as Hfind. case_match.
  bind_inv H as Hsp. bind_inv H as Hpool. bind_inv H as Hrm.
  bind_inv H as Happ. bind_inv H as Hchunk. bind_inv H as Hprint.
  bind_inv H as Hattrs. bind_inv H as Hdbg. ret_inv H. simpl.
  apply lift_Ok in Hfind as [Hfind _].
  apply findStringpoolAndResmap_Ok in Hfind as [[Hsp0 (csp & Hcsp & Htsp)] Hrm0].
  apply lift_Ok in Hsp as [Hsp _].
  rewrite (getitem_lookup _ _ _ Hsp0 Hcsp) in Hsp. injection Hsp as <-.
  split; [|split].
  - split; [done|]. exists csp. repeat split; [done..|].
    unfold decodeStringPoolInfo, readInts in Hpool.
    bind_inv Hpool as Hseek. bind_inv Hpool as Hints.
    repeat (case_match; try by ret_inv Hpool); by ret_inv Hpool.
  - destruct Hrm0 as [->|[Hrm0 (crm & Hcrm & Htrm)]].
    + left. rewrite decide_True in Hrm by done. by ret_inv Hrm.
    + right. split; [done|]. exists crm. repeat split; [done..|].
      rewrite decide_False, decide_True in Hrm by lia.
      bind_inv Hrm as Hget. ret_inv Hrm.
      apply lift_Ok in Hget as [Hget _].
      rewrite (getitem_lookup _ _ _ Hrm0 Hcrm) in Hget. by injection Hget as <-.
  - unfold findApplication in Happ. bind_inv Happ as Hloop.
    case_decide; [by ret_inv Happ|]. ret_inv Happ.
    apply findApplication_loop_Ok in Hloop as [->|(k & c & -> & Hk & Hc)]; [lia|].
    split; [lia|]. exists c. by rewrite Z.add_0_l, Nat2Z.id.
Qed.
(** ** The fast path *)

(** A list with [n] elements at [offset] is what comes before them, the
    [n] elements, and what comes after. *)
Lemma split_at {A} (l : list A) (offset n : nat) :
  length (take n (drop offset l)) = n → (0 < n)%nat →
  l = take offset l ++ take n (drop offset l) ++ drop (offset + n) l
  ∧ length (take offset l) = offset.
Proof.
  intros Hlen Hn. rewrite length_take, length_drop in Hlen. split.
  - rewrite <- drop_drop. by rewrite !take_drop.
  - rewrite length_take. lia.
Qed.

(** The output of the fast path: the input with the data word of the
    attribute found replaced by 0xFFFFFFFF. *)
Lemma fastPath_Ok input v s attr :
  0 ≤ debuggableAttributeIdx v →
  applicationAttributes v !! Z.to_nat (debuggableAttributeIdx v) = Some attr →
  decoded_at input attr →
  let offset := Z.to_nat (attr_startOffset attr) in
  let record := take 20 (drop offset input) in
  fastPath input v s
  = Ok ((), State (len input)
              (fOut s ++ take offset input ++ (take 16 record ++ DEBUGGABLE_VALUE_TRUE)
                      ++ drop (offset + 20) input)
              (stdout s ++ [FoundDebuggable; CopyingFile])).
Proof.
  intros Hidx Hattr [Hoff [Hlen _]%attribute_at_spec] offset record.
  change (length record = 20%nat) in Hlen.
  destruct (split_at input offset 20) as [Hinput Hpre]; [done|lia|].
  change (take 20 (drop offset input)) with record in Hinput.
  set (pre := take offset input) in *.
  set (post := drop (offset + 20) input) in *.
  unfold fastPath.
  erewrite bind_eval by reflexivity.
  rewrite (bind_eval _ _ _ attr _ (lift_eq _ _ _ (getitem_lookup _ _ _ Hidx Hattr))).
  erewrite bind_eval by reflexivity.
  erewrite bind_eval by (by apply seek_set_eq).
  erewrite bind_eval by (apply copy_eq; lia). cbn [fIn_pos fOut stdout].
  assert (take (Z.to_nat (attr_startOffset attr + 16)) (drop (Z.to_nat 0) input)
          = pre ++ take 16 record) as ->.
  { rewrite Z2Nat.inj_add by lia. change (Z.to_nat 16) with 16%nat.
    change (Z.to_nat 0) with 0%nat. rewrite drop_0. fold offset.
    rewrite Hinput at 1. rewrite take_app_add' by done.
    by rewrite take_app_le by lia. }
  erewrite bind_eval by reflexivity. cbn [fIn_pos fOut stdout].
  assert (len (pre ++ take 16 record) = attr_startOffset attr + 16) as ->.
  { unfold len. rewrite length_app, Hpre, length_take, Hlen. unfold offset. lia. }
  erewrite bind_eval by (apply seek_cur_eq; simpl; lia). cbn [fIn_pos fOut stdout].
  rewrite copy_all_eq. cbn [fIn_pos fOut stdout]. cbv zeta.
  assert (drop (Z.to_nat (0 + (attr_startOffset attr + 16) + 4)) input = post) as ->.
  { unfold post, offset. f_equal. lia. }
  pose proof (f_equal length Hinput) as Hl.
  rewrite !length_app, Hpre, Hlen in Hl.
  f_equal. f_equal. f_equal.
  - unfold len, offset in *. lia.
  - by rewrite <- !app_assoc.
  - by rewrite <- app_assoc.
Qed.

Lemma run_patchManifest_fast input fuel v s attr :
  locateDebuggable input fuel initial = Ok (v, s) →
  0 ≤ debuggableAttributeIdx v →
  applicationAttributes v !! Z.to_nat (debuggableAttributeIdx v) = Some attr →
  let offset := Z.to_nat (attr_startOffset attr) in
  let record := take 20 (drop offset input) in
  0 ≤ attr_startOffset attr
  ∧ length record = 20%nat
  ∧ attr = attribute_of_bytes (attr_startOffset attr) record
  ∧ input = take offset input ++ record ++ drop (offset + 20) input
  ∧ length (take offset input) = offset
  ∧ run_patchManifest fuel input
    = Ok (take offset input ++ (take 16 record ++ DEBUGGABLE_VALUE_TRUE)
            ++ drop (offset + 20) input).
Proof.
  intros Hlocate Hidx Hattr offset record.
  pose proof (locateDebuggable_Ok _ _ _ _ _ Hlocate) as (Hout & Hattrs & _).
  assert (decoded_at input attr) as Hdec.
  { eapply Forall_lookup_1; eauto. }
  pose proof Hdec as [Hoff [Hlen Heq]%attribute_at_spec].
  destruct (split_at input offset 20) as [Hinput Hpre]; [done|lia|].
  repeat split; try done.
  unfold run_patchManifest, patchManifest.
  erewrite bind_eval by done. rewrite decide_True by lia.
  rewrite (fastPath_Ok _ _ _ attr) by done. simpl. by rewrite Hout.
Qed.

(** C5, amended. When the attribute that [findDebuggableAttribute]
    finds on the application element, the first one whose name string is
    "debuggable" and whose name index has the resource id 0x0101000F, has
    the data word 0xFFFFFFFF, [patchManifest] writes its input, byte for
    byte. A later debuggable attribute is not looked at. *)
Theorem already_debuggable_unchanged input fuel v s attr :
  locateDebuggable input fuel initial = Ok (v, s) →
  0 ≤ debuggableAttributeIdx v →
  applicationAttributes v !! Z.to_nat (debuggableAttributeIdx v) = Some attr →
  data attr = 0xFFFFFFFF →
  run_patchManifest fuel input = Ok input.
Proof.
  intros Hlocate Hidx Hattr Hdata.
  destruct (run_patchManifest_fast _ _ _ _ _ Hlocate Hidx Hattr)
    as (_ & Hlen & Heq & Hinput & _ & ->).
  f_equal. rewrite Hinput at 4. do 2 f_equal.
  rewrite Heq in Hdata. simpl in Hdata.
  apply le_decode_ffffffff in Hdata.
  - unfold DEBUGGABLE_VALUE_TRUE. rewrite <- Hdata, take_take_drop.
    apply take_ge. lia.
  - rewrite length_take, length_drop. lia.
Qed.

Lemma already_debuggable_unchanged_witness :
  run_patchManifest 5 (Examples.already_debuggable 0x12 0xFFFFFFFF)
  = Ok (Examples.already_debuggable 0x12 0xFFFFFFFF).
Proof.
  eapply (already_debuggable_unchanged _ 5).
  - vm_compute. reflexivity.
  - vm_compute. discriminate.
  - vm_compute. reflexivity.
  - vm_compute. reflexivity.
Defined.

(** C5 does not hold as stated: the application element of this manifest
    has two debuggable attributes (name string "debuggable", name index
    with resource id 0x0101000F), the first with the data word 0 and the
    second with the data word 0xFFFFFFFF. The input contains a debuggable
    attribute whose data word is 0xFFFFFFFF, [findDebuggableAttribute]
    returns the first one, and the output differs from the input: the
    data word of the first attribute is overwritten. *)
Lemma second_debuggable_attribute_not_seen :
  application_debuggable_true 5 (Examples.debuggable_twice 0 0xFFFFFFFF)
  = Ok true
  ∧ run_patchManifest 5 (Examples.debuggable_twice 0 0xFFFFFFFF)
    = Ok (Examples.debuggable_twice 0xFFFFFFFF 0xFFFFFFFF)
  ∧ Examples.debuggable_twice 0xFFFFFFFF 0xFFFFFFFF
    ≠ Examples.debuggable_twice 0 0xFFFFFFFF.
Proof.
  split; [vm_compute; reflexivity|].
  split; [vm_compute; reflexivity|].
  vm_compute. discriminate.
Qed.
(** ** The chunk scanner *)

Lemma readCommonHeader_eq input s :
  let rest := drop (Z.to_nat (fIn_pos s)) input in
  readCommonHeader input s
  = if decide (length rest < 8)%nat then
      Ok (None, State (fIn_pos s + len rest) (fOut s)
                  (stdout s ++ if decide (len rest > 0) then [SkippingLast (len rest)]
                               else []))
    else
      Ok (Some (header_of_bytes rest), State (fIn_pos s + 8) (fOut s) (stdout s)).
Proof.
  intros rest. unfold readCommonHeader.
  unfold mbind at 1, M_bind at 1. unfold read.
  rewrite (decide_False (P := COMMON_HEADER_LEN < -1)) by done.
  rewrite (decide_False (P := COMMON_HEADER_LEN = -1)) by done.
  change (Z.to_nat COMMON_HEADER_LEN) with 8%nat. fold rest.
  destruct (decide (length rest < 8)%nat) as [Hlt|Hge].
  - rewrite take_ge by lia.
    rewrite decide_True by (unfold len, COMMON_HEADER_LEN; lia).
    unfold mbind, M_bind, print, mret, M_ret.
    destruct (decide (len rest > 0)); simpl; [done|]. by rewrite app_nil_r.
  - assert (length (take 8 rest) = 8%nat) as Hlen by (rewrite length_take; lia).
    rewrite decide_False by (unfold len, COMMON_HEADER_LEN; lia).
    unfold len. rewrite Hlen.
    destruct rest as [|b0 [|b1 [|b2 [|b3 [|b4 [|b5 [|b6 [|b7 rest]]]]]]]];
      simpl in Hge; try lia.
    reflexivity.
Qed.

(** One round of the loop of [readChunks], on a stream positioned at
    [currPos]. *)
Lemma readChunks_loop_S input fuel acc s :
  0 ≤ fIn_pos s →
  let rest := drop (Z.to_nat (fIn_pos s)) input in
  readChunks_loop input (S fuel) acc (fIn_pos s) s
  = if decide (length rest < 8)%nat then
      Ok (acc, State (fIn_pos s + len rest) (fOut s)
                 (stdout s ++ if decide (len rest > 0) then [SkippingLast (len rest)]
                              else []))
    else
      let header := header_of_bytes rest in
      let next := fIn_pos s + chunkSize header in
      readChunks_loop input fuel
        (acc ++ [{| startOffset := fIn_pos s; commonHeader := header |}])
        next (State next (fOut s) (stdout s)).
Proof.
  intros Hpos rest. cbn [readChunks_loop].
  unfold mbind at 1, M_bind at 1. rewrite readCommonHeader_eq. fold rest.
  destruct (decide (length rest < 8)%nat); [done|]. cbv zeta.
  pose proof (le_decode_range (take 4 (drop 4 rest))) as [Hsize _].
  erewrite bind_eval by (apply seek_cur_eq; simpl; unfold COMMON_HEADER_LEN; lia).
  cbn [fIn_pos fOut stdout]. unfold mbind, M_bind, tell. cbn [fIn_pos].
  unfold COMMON_HEADER_LEN.
  by replace (fIn_pos s + 8 + (chunkSize (header_of_bytes rest) - 8))
    with (fIn_pos s + chunkSize (header_of_bytes rest)) by lia.
Qed.

Lemma next_chunk_nonneg (rest : list byte) p :
  0 ≤ p → 0 ≤ p + chunkSize (header_of_bytes rest).
Proof.
  intros. pose proof (le_decode_range (take 4 (drop 4 rest))) as [? _].
  cbn [chunkSize header_of_bytes]. lia.
Qed.

Lemma readChunks_loop_never_raises input fuel acc s e :
  0 ≤ fIn_pos s → readChunks_loop input fuel acc (fIn_pos s) s ≠ Raise e.
Proof.
  revert acc s. induction fuel as [|fuel IH]; intros acc s Hpos; [done|].
  rewrite readChunks_loop_S by done. cbv zeta.
  case_decide; [done|].
  set (next := fIn_pos s + chunkSize (header_of_bytes _)).
  apply (IH _ (State next (fOut s) (stdout s))).
  by apply next_chunk_nonneg.
Qed.

(** C7, amended: the scanner checks no size and raises no exception.
    Where fewer than 8 bytes are left the scan ends, a fragment of 1 to 7
    bytes being skipped with a message; where 8 bytes are left they are
    recorded as a chunk, whatever its headerSize and chunkSize, and the
    scan continues at startOffset + chunkSize. *)
Theorem readChunks_no_size_check input fuel s :
  0 ≤ fIn_pos s →
  let rest := drop (Z.to_nat (fIn_pos s)) input in
  (∀ e, readChunks input fuel s ≠ Raise e)
  ∧ ((length rest < 8)%nat →
       readChunks input (S fuel) s
       = Ok ([], State (fIn_pos s + len rest) (fOut s)
                   (stdout s ++ if decide (len rest > 0) then [SkippingLast (len rest)]
                                else [])))
  ∧ ((8 ≤ length rest)%nat →
       let header := header_of_bytes rest in
       let next := fIn_pos s + chunkSize header in
       readChunks input (S fuel) s
       = readChunks_loop input fuel
           [{| startOffset := fIn_pos s; commonHeader := header |}]
           next (State next (fOut s) (stdout s))
       ∧ ∀ e, readChunks_loop input fuel
                [{| startOffset := fIn_pos s; commonHeader := header |}]
                next (State next (fOut s) (stdout s)) ≠ Raise e).
Proof.
  intros Hpos rest. unfold readChunks, mbind, M_bind, tell.
  split; [intros e; by apply readChunks_loop_never_raises|].
  rewrite readChunks_loop_S by done. fold rest. cbv zeta. split.
  - intros Hlt. by rewrite decide_True by done.
  - intros Hge. rewrite decide_False by lia. split; [done|].
    intros e.
    set (next := fIn_pos s + chunkSize (header_of_bytes rest)).
    apply (readChunks_loop_never_raises _ _ _ (State next (fOut s) (stdout s))).
    by apply next_chunk_nonneg.
Qed.

Lemma readChunks_no_size_check_witness :
  let input := Examples.odd_sizes 0x12 0 in
  let too_small :=
    {| startOffset := 256;
       commonHeader := {| type := 0x200; headerSize := 100; chunkSize := 8 |} |} in
  let too_long :=
    {| startOffset := 264;
       commonHeader := {| type := 0x103; headerSize := 16; chunkSize := 1000 |} |} in
  readChunks input 3 (State 256 [] [])
  = readChunks_loop input 2 [too_small] 264 (State 264 [] [])
  ∧ readChunks input 2 (State 264 [] [])
    = readChunks_loop input 1 [too_long] 1264 (State 1264 [] [])
  ∧ readChunks input 1 (State 1264 [] []) = Ok ([], State 1264 [] [])
  ∧ ∀ e, readChunks input 3 (State 256 [] []) ≠ Raise e.
Proof.
  intros input too_small too_long.
  destruct (readChunks_no_size_check input 2 (State 256 [] []))
    as (_ & _ & Hstep1); [simpl; lia|].
  destruct (readChunks_no_size_check input 1 (State 264 [] []))
    as (_ & _ & Hstep2); [simpl; lia|].
  destruct (readChunks_no_size_check input 0 (State 1264 [] []))
    as (_ & Hend & _); [simpl; lia|].
  split; [|split; [|split]].
  - apply Hstep1. vm_compute. lia.
  - apply Hstep2. vm_compute. lia.
  - apply Hend. vm_compute. lia.
  - destruct (readChunks_no_size_check input 3 (State 256 [] []))
      as [Hnever _]; [simpl; lia | exact Hnever].
Defined.
(** ** Computations that only append to the output *)

Lemma appends_bind {A B} (m : M A) (f : A → M B) :
  appends m → (∀ a, appends (f a)) → appends (m ≫= f).
Proof.
  intros Hm Hf s b s' H. bind_inv H as Hrun.
  apply Hm in Hrun as [w1 Hw1]. apply Hf in H as [w2 Hw2].
  exists (w1 ++ w2). by rewrite Hw2, Hw1, app_assoc.
Qed.

Lemma preserves_appends {A} (m : M A) : preserves fOut m → appends m.
Proof. intros Hm s a s' H. exists []. rewrite app_nil_r. by eapply Hm. Qed.

Lemma appends_write bs : appends (write bs).
Proof. intros s a s' H. exists bs. by apply write_Ok in H as ->. Qed.

Lemma appends_ret {A} (a : A) : appends (mret a).
Proof. apply preserves_appends, preserves_ret. Qed.

Lemma appends_raise {A} e : appends (raise (A := A) e).
Proof. apply preserves_appends, preserves_raise. Qed.

Lemma appends_lift {A} (r : result A) : appends (lift r).
Proof. apply preserves_appends, preserves_lift. Qed.

Lemma appends_tell : appends tell.
Proof. apply preserves_appends, preserves_tell. Qed.

Lemma appends_seek offset whence : appends (seek offset whence).
Proof. apply preserves_appends, seek_preserves_fOut. Qed.

Lemma appends_read input n : appends (read input n).
Proof. apply preserves_appends, read_preserves_fOut. Qed.

Lemma appends_print m : appends (print m).
Proof. apply preserves_appends, print_preserves_fOut. Qed.

Lemma appends_readInt input : appends (readInt input).
Proof. apply preserves_appends, readInt_preserves_fOut. Qed.

Lemma appends_readTypeN input n c typeLen : appends (readTypeN input n c typeLen).
Proof. apply preserves_appends, readTypeN_preserves, read_preserves_fOut. Qed.

Lemma appends_readResId input resmapInfo idx : appends (readResId input resmapInfo idx).
Proof. apply preserves_appends, readResId_preserves. Qed.

Lemma appends_readString input strPoolInfo idx :
  appends (readString input strPoolInfo idx).
Proof. apply preserves_appends, readString_preserves. Qed.

Create HintDb appends.
#[export] Hint Resolve appends_write appends_ret appends_raise appends_lift
  appends_tell appends_seek appends_read appends_print appends_readInt
  appends_readTypeN appends_readResId appends_readString : appends.

Lemma appends_for_range n (body : M unit) : appends body → appends (for_range n body).
Proof.
  intros Hbody. induction n as [|n IH]; simpl; [apply appends_ret|].
  by apply appends_bind.
Qed.

(** Prove [appends m] by following the structure of [m]. *)
Ltac appends_tac :=
  repeat first
    [ progress eauto with appends
    | apply appends_bind; [|intros ?]
    | apply appends_for_range
    | case_match
    | case_decide ].

Lemma appends_write_pack fs vs : appends (write_pack fs vs).
Proof. unfold write_pack. appends_tac. Qed.

Lemma appends_writeCommonHeader type headerSize size :
  appends (writeCommonHeader type headerSize size).
Proof. unfold writeCommonHeader. appends_tac. Qed.

#[export] Hint Resolve appends_write_pack appends_writeCommonHeader : appends.

Lemma appends_patchStringRef input cmp : appends (patchStringRef input cmp).
Proof. unfold patchStringRef. appends_tac. Qed.

#[export] Hint Resolve appends_patchStringRef : appends.

Lemma appends_patchNode input d : appends (patchNode input d).
Proof. unfold patchNode. appends_tac. Qed.

Lemma appends_patchAttribute input d : appends (patchAttribute input d).
Proof. unfold patchAttribute. appends_tac. Qed.

#[export] Hint Resolve appends_patchNode appends_patchAttribute : appends.

Lemma appends_patchChunk input chunkInfo d : appends (patchChunk input chunkInfo d).
Proof.
  unfold patchChunk, patchNamespaceExt, patchAttrExt, patchEndElementExt,
    patchCDataExt, readShorts.
  appends_tac.
Qed.

Lemma appends_patchStringPool input strPoolInfo insertionIdx :
  appends (patchStringPool input strPoolInfo insertionIdx).
Proof. unfold patchStringPool, readInts. appends_tac. Qed.

Lemma appends_patchResmap input resmapInfo : appends (patchResmap input resmapInfo).
Proof. unfold patchResmap. appends_tac. Qed.

Lemma appends_injectResmap : appends injectResmap.
Proof. unfold injectResmap. appends_tac. Qed.

Lemma appends_write_debuggable_attribute ns d :
  appends (write_debuggable_attribute ns d).
Proof. unfold write_debuggable_attribute. appends_tac. Qed.

#[export] Hint Resolve appends_patchChunk appends_patchStringPool
  appends_patchResmap appends_injectResmap appends_write_debuggable_attribute
  : appends.

Lemma appends_patchApplicationAttributes_loop input n resmapInfo d ns inserted :
  appends (patchApplicationAttributes_loop input n resmapInfo d ns inserted).
Proof. revert inserted. induction n as [|n IH]; intros inserted; simpl; appends_tac. Qed.

#[export] Hint Resolve appends_patchApplicationAttributes_loop : appends.

Lemma appends_patchApplicationElement input chunkInfo ns d resmapInfo :
  appends (patchApplicationElement input chunkInfo ns d resmapInfo).
Proof.
  unfold patchApplicationElement, patchApplicationAttributes, readShorts.
  appends_tac.
Qed.

#[export] Hint Resolve appends_patchApplicationElement : appends.

Lemma appends_rebuild_chunk input v ns d i chunkInfo :
  appends (rebuild_chunk input v ns d i chunkInfo).
Proof. unfold rebuild_chunk. appends_tac. Qed.

#[export] Hint Resolve appends_rebuild_chunk : appends.
(** ** The loop of the slow path *)

(** From a run [H : m s = Ok (a, s')] of an [m] that only appends, what
    it appended. *)
Ltac appends_run H w Hw :=
  match type of H with
  | ?m ?s = Ok (?a, ?s') =>
      let Ha := fresh in
      assert (Ha : appends m) by appends_tac;
      destruct (Ha s a s' H) as [w Hw]; clear Ha
  end.

Lemma rebuild_loop_S input fuel v ns d i s :
  rebuild_loop input (S fuel) v ns d i s
  = if decide (i < len (chunks v)) then
      (chunkInfo ← lift (getitem (chunks v) i);
       if decide (i = stringPoolIdx v + 1 ∧ resmapIdx v < 0) then
         injectResmap;; rebuild_loop input fuel v ns d (i - 1 + 1)
       else
         rebuild_chunk input v ns d i chunkInfo;;
         rebuild_loop input fuel v ns d (i + 1)) s
    else Ok ((), s).
Proof.
  cbn [rebuild_loop]. case_decide; [|reflexivity].
  apply bind_ext. intros c s1. unfold rebuild_chunk.
  repeat case_decide; by rewrite bind_assoc.
Qed.

(** A successful run of the loop from chunk [i] appends one segment per
    chunk, each the output of [rebuild_chunk] on that chunk. *)
Lemma rebuild_loop_Ok (Q : Z → ChunkInfo → list byte → Prop) input v ns d :
  0 ≤ stringPoolIdx v →
  (∀ i c s u s',
     0 ≤ i → chunks v !! Z.to_nat i = Some c →
     rebuild_chunk input v ns d i c s = Ok (u, s') →
     ∃ seg, fOut s' = fOut s ++ seg ∧ Q i c seg) →
  ∀ fuel i s u s',
    0 ≤ i →
    rebuild_loop input fuel v ns d i s = Ok (u, s') →
    ∃ segs,
      fOut s' = fOut s ++ concat segs
      ∧ length segs = length (drop (Z.to_nat i) (chunks v))
      ∧ ∀ k c seg,
          chunks v !! (Z.to_nat i + k)%nat = Some c → segs !! k = Some seg →
          Q (i + Z.of_nat k) c seg.
Proof.
  intros Hsp Hchunk fuel. induction fuel as [|fuel IH]; intros i s u s' Hi H; [done|].
  rewrite rebuild_loop_S in H. case_decide as Hlt.
  - destruct (getitem_Ok (chunks v) i) as (c & Hget & Hc); [done|].
    erewrite bind_eval in H by (by apply lift_eq).
    case_decide as Hinject.
    { destruct Hinject as [-> Hrm].
      bind_inv H as Hrun. replace (stringPoolIdx v + 1 - 1 + 1)
        with (stringPoolIdx v + 1) in H by lia.
      by rewrite rebuild_loop_injects_forever in H by lia. }
    bind_inv H as Hrun.
    apply Hchunk in Hrun as (seg & Hseg & HQ); [|done..].
    apply IH in H as (segs & Hsegs & Hlen & Hall); [|lia].
    replace (Z.to_nat (i + 1)) with (S (Z.to_nat i)) in * by lia.
    exists (seg :: segs). split; [|split].
    + simpl. by rewrite Hsegs, Hseg, app_assoc.
    + erewrite (drop_S _ c) by done. simpl. by rewrite Hlen.
    + intros [|k] c' seg' Hc' Hseg'; simpl in Hseg'.
      * rewrite Nat.add_0_r in Hc'. simplify_eq. by rewrite Z.add_0_r.
      * replace (i + Z.of_nat (S k)) with (i + 1 + Z.of_nat k) by lia.
        apply Hall; [|done]. by rewrite <- Hc', Nat.add_succ_comm.
  - inversion H; subst. exists []. simpl. rewrite app_nil_r.
    rewrite drop_ge by (unfold len in *; lia).
    split; [done|]. split; [done|].
    intros k c seg _ Hseg. by rewrite lookup_nil in Hseg.
Qed.
(** ** The attribute inserted by the slow path *)

Lemma pack_cons_Ok c fs v vs bs :
  pack (c :: fs) (v :: vs) = Ok bs →
  fits c v = true
  ∧ ∃ rest, pack fs vs = Ok rest ∧ bs = le_encode (fmt_size c) v ++ rest.
Proof.
  cbn [pack]. destruct (fits c v); [|done].
  unfold mbind, result_bind. destruct (pack fs vs) as [rest| |]; [|done..].
  intros [= <-]. eauto.
Qed.

Lemma write_pack_Ok fs vs s u s' :
  write_pack fs vs s = Ok (u, s') →
  ∃ bs, pack fs vs = Ok bs ∧ s' = State (fIn_pos s) (fOut s ++ bs) (stdout s).
Proof.
  unfold write_pack. intros H. bind_inv H as Hpack.
  apply lift_Ok in Hpack as [Hpack <-]. apply write_Ok in H as ->. eauto.
Qed.

Lemma fits_32 c v : fmt_size c = 4%nat → fits c v = true → 0 ≤ v < 4294967296.
Proof.
  unfold fits. intros -> [?%Z.leb_le Hlt%Z.ltb_lt]%andb_true_iff.
  change (2 ^ (8 * Z.of_nat 4)) with 4294967296 in Hlt. lia.
Qed.

Lemma write_debuggable_attribute_Ok ns d s u s' :
  write_debuggable_attribute ns d s = Ok (u, s') →
  s' = State (fIn_pos s) (fOut s ++ debuggable_record ns d) (stdout s)
  ∧ 0 ≤ d < 4294967296.
Proof.
  unfold write_debuggable_attribute. intros (bs & Hpack & ->)%write_pack_Ok.
  cbn [replicate] in Hpack.
  apply pack_cons_Ok in Hpack as (_ & r1 & Hpack & ->).
  apply pack_cons_Ok in Hpack as (Hd & r2 & Hpack & ->).
  apply pack_cons_Ok in Hpack as (_ & r3 & Hpack & ->).
  apply pack_cons_Ok in Hpack as (_ & r4 & Hpack & ->).
  apply pack_cons_Ok in Hpack as (_ & r5 & Hpack & ->).
  injection Hpack as <-. rewrite app_nil_r.
  split; [done|]. by apply (fits_32 uL).
Qed.

Lemma writeCommonHeader_Ok type headerSize size s u s' :
  writeCommonHeader type headerSize size s = Ok (u, s') →
  s' = State (fIn_pos s) (fOut s ++ header_bytes type headerSize size) (stdout s)
  ∧ 0 ≤ size < 4294967296.
Proof.
  unfold writeCommonHeader. intros H. bind_inv H as Hpack.
  apply lift_Ok in Hpack as [Hpack <-]. apply write_Ok in H as ->.
  apply pack_cons_Ok in Hpack as (_ & r1 & Hpack & ->).
  apply pack_cons_Ok in Hpack as (_ & r2 & Hpack & ->).
  apply pack_cons_Ok in Hpack as (Hsize & r3 & Hpack & ->).
  injection Hpack as <-. rewrite app_nil_r.
  split; [done|]. by apply (fits_32 uI).
Qed.

(** The loop over the attributes of the application element: when it
    answers that it has inserted the record, and had not when it began,
    the record is among the bytes it wrote. *)
Lemma patchApplicationAttributes_loop_Ok input n resmapInfo d ns inserted s r s' :
  patchApplicationAttributes_loop input n resmapInfo d ns inserted s = Ok (r, s') →
  ∃ w, fOut s' = fOut s ++ w
       ∧ (inserted = false → r = true →
          0 ≤ d < 4294967296 ∧ ∃ a b, w = a ++ debuggable_record ns d ++ b).
Proof.
  revert inserted s. induction n as [|n IH]; intros inserted s H; simpl in H.
  { ret_inv H. exists []. rewrite app_nil_r. split; [done|]. by intros ->. }
  bind_inv H as Hseek. quiet_run Hseek.
  bind_inv H as Hname. quiet_run Hname.
  bind_inv H as HresId. apply readResId_restores in HresId as ->.
  bind_inv H as Hgt. apply lift_Ok in Hgt as [_ <-].
  bind_inv H as Hins. bind_inv H as Hback. quiet_run Hback.
  bind_inv H as Hattr. appends_run Hattr wa Hwa.
  apply IH in H as (w & Hw & Hrec).
  case_match.
  - bind_inv Hins as Hwrite. ret_inv Hins.
    apply write_debuggable_attribute_Ok in Hwrite as [-> Hd]. simpl in *.
    eexists. split.
    + rewrite Hw, Hwa, Hout1. simpl. rewrite Hout0, Hout.
      by rewrite <- !app_assoc.
    + intros _ _. split; [done|]. by exists [], (wa ++ w).
  - ret_inv Hins. exists (wa ++ w). split.
    + rewrite Hw, Hwa, Hout1, Hout0, Hout. by rewrite <- !app_assoc.
    + intros Hi Hr. destruct (Hrec Hi Hr) as (Hd & a & b & ->).
      split; [done|]. exists (wa ++ a), b. by rewrite <- !app_assoc.
Qed.

Lemma patchApplicationAttributes_Ok input attrCount resmapInfo d ns s u s' :
  patchApplicationAttributes input attrCount resmapInfo d ns s = Ok (u, s') →
  0 ≤ d < 4294967296
  ∧ ∃ a b, fOut s' = fOut s ++ a ++ debuggable_record ns d ++ b.
Proof.
  unfold patchApplicationAttributes. intros H. bind_inv H as Hloop.
  apply patchApplicationAttributes_loop_Ok in Hloop as (w & Hw & Hrec).
  destruct x as [|]; simpl in H.
  - ret_inv H. destruct Hrec as (Hd & a & b & ->); [done..|].
    split; [done|]. by exists a, b.
  - apply write_debuggable_attribute_Ok in H as [-> Hd]. cbn [fOut].
    split; [done|]. exists w, []. by rewrite Hw, app_nil_r, <- app_assoc.
Qed.

(** The application element written by the slow path: the header with
    the chunkSize of the input plus 20, and further on the new record. *)
Lemma patchApplicationElement_Ok input chunkInfo ns d resmapInfo s u s' :
  patchApplicationElement input chunkInfo ns d resmapInfo s = Ok (u, s') →
  0 ≤ d < 4294967296
  ∧ ∃ a b,
      fOut s' = fOut s
                ++ header_bytes (type (commonHeader chunkInfo))
                     (headerSize (commonHeader chunkInfo))
                     (chunkSize (commonHeader chunkInfo) + ATTRIBUTE_LENGTH)
                ++ a ++ debuggable_record ns d ++ b.
Proof.
  unfold patchApplicationElement. intros H.
  bind_inv H as Hseek. quiet_run Hseek.
  bind_inv H as Hhdr. apply writeCommonHeader_Ok in Hhdr as [-> _].
  bind_inv H as Hrun1. appends_run Hrun1 w1 Hw1.
  bind_inv H as Hrun2. appends_run Hrun2 w2 Hw2.
  bind_inv H as Hrun3. appends_run Hrun3 w3 Hw3.
  bind_inv H as Hrun4. unfold readShorts in Hrun4. appends_run Hrun4 w4 Hw4.
  repeat (case_match; try by ret_inv H).
  bind_inv H as Hrun5. appends_run Hrun5 w5 Hw5.
  bind_inv H as Hrun6. appends_run Hrun6 w6 Hw6.
  bind_inv H as Hrun7. appends_run Hrun7 w7 Hw7.
  bind_inv H as Hrun8. appends_run Hrun8 w8 Hw8.
  bind_inv H as Hrun9. apply patchApplicationAttributes_Ok in Hrun9 as (Hd & a & b & Hab).
  bind_inv H as Hrun10. appends_run Hrun10 w10 Hw10.
  appends_run H w11 Hw11.
  split; [done|]. exists (w1 ++ w2 ++ w3 ++ w4 ++ w5 ++ w6 ++ w7 ++ w8 ++ a), (b ++ w10 ++ w11).
  rewrite Hw11, Hw10, Hab, Hw8, Hw7, Hw6, Hw5, Hw4, Hw3, Hw2, Hw1. simpl.
  rewrite Hout. by rewrite <- !app_assoc.
Qed.
(** ** What [patchManifest] leaves on the application element *)

Lemma attribute_at_middle (before record after : list byte) :
  length record = 20%nat →
  attribute_at (before ++ record ++ after) (len before)
  = Some (attribute_of_bytes (len before) record).
Proof.
  intros Hlen. apply attribute_at_spec. unfold len. rewrite Nat2Z.id.
  rewrite drop_app_length, take_app_length' by done. by split.
Qed.

Lemma attribute_of_bytes_data_true offset record :
  length record = 20%nat →
  attribute_of_bytes offset (take 16 record ++ DEBUGGABLE_VALUE_TRUE)
  = with_data_true (attribute_of_bytes offset record).
Proof.
  intros Hlen. destruct record as [|b0 record]; [done|].
  do 19 (destruct record as [|? record]; [done|]). destruct record; [|done].
  reflexivity.
Qed.

Lemma findAndroidNsIdx_loop_preserves_fOut input strPoolInfo n i pos :
  preserves fOut (findAndroidNsIdx_loop input strPoolInfo n i pos).
Proof. revert i. induction n as [|n IH]; intros i; simpl; preserves_tac. Qed.

#[export] Hint Resolve findAndroidNsIdx_loop_preserves_fOut : preserves.

Lemma findAndroidNsIdx_preserves_fOut input strPoolInfo :
  preserves fOut (findAndroidNsIdx input strPoolInfo).
Proof. unfold findAndroidNsIdx. preserves_tac. Qed.

(** The output of the slow path: a file header, then one segment per
    chunk, each the output of [rebuild_chunk]. *)
Lemma slowPath_Ok (Q : Z → Z → ChunkInfo → list byte → Prop) input fuel v s u s' :
  0 ≤ stringPoolIdx v →
  (∀ ns i c s1 u1 s2,
     0 ≤ i → chunks v !! Z.to_nat i = Some c →
     rebuild_chunk input v ns (rm_len (resmapInfo v)) i c s1 = Ok (u1, s2) →
     ∃ seg, fOut s2 = fOut s1 ++ seg ∧ Q ns i c seg) →
  slowPath input fuel v s = Ok (u, s') →
  ∃ size ns segs,
    fOut s' = fOut s
              ++ header_bytes (type (fileHeader v)) (headerSize (fileHeader v)) size
              ++ concat segs
    ∧ size = chunkSize (fileHeader v)
             + (if isUtf8 (strPoolInfo v) then DEBUGGABLE_STRING_LENGTH_UTF8
                else DEBUGGABLE_STRING_LENGTH_UTF16)
             + UINT32_LENGTH + UINT32_LENGTH
             + (if decide (resmapIdx v = -1) then COMMON_HEADER_LEN else 0)
             + ATTRIBUTE_LENGTH
    ∧ 0 ≤ size < 4294967296
    ∧ length segs = length (chunks v)
    ∧ ∀ k c seg,
        chunks v !! k = Some c → segs !! k = Some seg → Q ns (Z.of_nat k) c seg.
Proof.
  intros Hsp Hchunk H. unfold slowPath in H. cbv zeta in H.
  bind_inv H as Hprint. apply print_Ok in Hprint as ->.
  bind_inv H as Hhdr. apply writeCommonHeader_Ok in Hhdr as [-> Hsize].
  bind_inv H as Hns. apply findAndroidNsIdx_preserves_fOut in Hns.
  bind_inv H as Hprint. apply print_Ok in Hprint as ->.
  eapply (rebuild_loop_Ok (Q _)) in H as (segs & Hsegs & Hlen & Hall);
    [|done|by eauto|done].
  eexists _, _, segs. split; [|split; [|split; [|split]]].
  - rewrite Hsegs. cbn [fOut]. rewrite Hns. cbn [fOut]. by rewrite <- app_assoc.
  - repeat case_decide; repeat case_match; lia.
  - repeat case_decide; repeat case_match; lia.
  - by rewrite Hlen.
  - intros k c seg Hc Hseg. by apply (Hall k c seg).
Qed.
(** ** Positions and byte counts along a run *)

Lemma reached_start s : reached (fOut s) s (fIn_pos s) 0.
Proof. split; [done|]. exists []. by rewrite app_nil_r. Qed.

Lemma seek_set_reached base offset s u s' p n :
  seek offset SEEK_SET s = Ok (u, s') → reached base s p n →
  reached base s' offset n.
Proof. intros [_ ->]%seek_set_Ok [_ Hw]. by split. Qed.

Lemma seek_cur_reached base offset s u s' p n :
  seek offset SEEK_CUR s = Ok (u, s') → reached base s p n →
  reached base s' (p + offset) n.
Proof. intros [_ ->]%seek_cur_Ok [<- Hw]. by split. Qed.

Lemma tell_reached base s a s' p n :
  tell s = Ok (a, s') → reached base s p n → a = p ∧ reached base s' p n.
Proof. intros [-> ->]%tell_Ok [<- Hw]. by repeat split. Qed.

Lemma write_reached base bs s u s' p n :
  write bs s = Ok (u, s') → reached base s p n →
  reached base s' p (n + len bs).
Proof.
  intros ->%write_Ok [<- (w & Hw & <-)]. split; [done|].
  exists (w ++ bs). cbn [fOut]. rewrite Hw, app_assoc. split; [done|].
  unfold len. rewrite length_app. lia.
Qed.

Lemma length_read (input : list byte) k p :
  0 ≤ p → 0 ≤ k → p + k ≤ len input →
  len (take (Z.to_nat k) (drop (Z.to_nat p) input)) = k.
Proof. intros. unfold len in *. rewrite length_take, length_drop. lia. Qed.

(** [fOut.write(fIn.read(k))] inside the stream copies [k] bytes. *)
Lemma copy_reached input base k s u s' p n :
  (read input k ≫= write) s = Ok (u, s') → reached base s p n →
  0 ≤ p → 0 ≤ k → p + k ≤ len input →
  reached base s' (p + k) (n + k).
Proof.
  intros H [<- (w & Hw & <-)] Hp Hk Hend. rewrite copy_eq in H by done.
  cbv zeta in H. injection H as H. subst s'.
  rewrite length_read by done. split; [done|].
  eexists. cbn [fOut]. rewrite Hw, <- app_assoc. split; [done|].
  unfold len in *. rewrite length_app, length_take, length_drop. lia.
Qed.

Lemma pack_length fs vs bs : pack fs vs = Ok bs → length bs = calcsize fs.
Proof.
  revert vs bs. induction fs as [|c fs IH]; intros [|v vs] bs H; try done.
  - by injection H as <-.
  - apply pack_cons_Ok in H as (_ & rest & Hrest & ->).
    rewrite length_app, length_le_encode. unfold calcsize. simpl.
    f_equal. by apply IH in Hrest.
Qed.

Lemma write_pack_reached base fs vs s u s' p n :
  write_pack fs vs s = Ok (u, s') → reached base s p n →
  reached base s' p (n + Z.of_nat (calcsize fs)).
Proof.
  intros (bs & Hpack & ->)%write_pack_Ok Hs.
  apply pack_length in Hpack as <-.
  by eapply (write_reached _ bs (State _ _ _)); [|done].
Qed.

(** A successful [readType] read all its bytes. *)
Lemma readType1_Ok input c typeLen s x s' :
  readType1 input c typeLen s = Ok (x, s') → 0 ≤ fIn_pos s →
  typeLen = Z.of_nat (fmt_size c) →
  x = le_decode (take (fmt_size c) (drop (Z.to_nat (fIn_pos s)) input))
  ∧ fIn_pos s + typeLen ≤ len input
  ∧ s' = State (fIn_pos s + typeLen) (fOut s) (stdout s).
Proof.
  unfold readType1. intros H Hp ->. bind_inv H as Hread.
  apply read_Ok in Hread as (_ & -> & ->).
  rewrite decide_False in H by (destruct c; simpl; lia).
  bind_inv H as Hunpack. apply lift_Ok in Hunpack as [Hunpack <-].
  unfold unpack in Hunpack. case_decide as Hlen; [|done]. injection Hunpack as <-.
  cbn [unpack_fields] in H. ret_inv H.
  unfold calcsize in Hlen. cbn [fmap list_fmap sum_list sum_list_with] in Hlen.
  rewrite Nat.add_0_r in Hlen. unfold id in Hlen.
  replace (Z.to_nat (1 * Z.of_nat (fmt_size c))) with (fmt_size c) in * by lia.
  rewrite take_take, Nat.min_id. unfold len. rewrite Hlen.
  rewrite length_take, length_drop in Hlen.
  assert (0 < fmt_size c)%nat by (destruct c; simpl; lia).
  split; [done|]. split; [lia|done].
Qed.

Lemma readInt_reached input base s x s' p n :
  readInt input s = Ok (x, s') → reached base s p n → 0 ≤ p →
  x = u32_at input p ∧ p + 4 ≤ len input ∧ reached base s' (p + 4) n.
Proof.
  intros H [<- Hw] Hp. apply readType1_Ok in H as (-> & Hend & ->); [|done..].
  by repeat split.
Qed.

Lemma take_drop_take {A} (l : list A) (a b c : nat) :
  (a + b ≤ c)%nat → take a (drop b (take c l)) = take a (drop b l).
Proof.
  intros Habc. rewrite !take_drop_commute, take_take.
  by replace ((b + a) `min` c)%nat with (b + a)%nat by lia.
Qed.

Lemma readShorts3_reached input base s fields s' p n :
  readShorts input 3 s = Ok (fields, s') → reached base s p n → 0 ≤ p →
  fields = [u16_at input p; u16_at input (p + 2); u16_at input (p + 4)]
  ∧ p + 6 ≤ len input ∧ reached base s' (p + 6) n.
Proof.
  unfold readShorts, readTypeN. intros H [<- Hw] Hp. bind_inv H as Hread.
  apply read_Ok in Hread as (_ & -> & ->).
  rewrite decide_False in H by done.
  apply lift_Ok in H as [Hunpack <-].
  unfold unpack in Hunpack. case_decide as Hlen; [|done]. injection Hunpack as <-.
  change (calcsize (replicate 3 uH)) with 6%nat in Hlen.
  change (Z.to_nat (Z.of_nat 3 * UINT16_LENGTH)) with 6%nat in *.
  unfold len. rewrite Hlen. rewrite length_take, length_drop in Hlen.
  split; [|split; [unfold len; lia|by split]].
  cbn [replicate unpack_fields fmt_size]. unfold u16_at.
  rewrite !drop_drop, !take_drop_take, take_take, !drop_drop by lia.
  replace (Z.to_nat (fIn_pos s + 2)) with (Z.to_nat (fIn_pos s) + 2)%nat by lia.
  replace (Z.to_nat (fIn_pos s + 4)) with (Z.to_nat (fIn_pos s) + (2 + 2))%nat by lia.
  done.
Qed.

Lemma patchStringRef_reached input base cmp s u s' p n :
  patchStringRef input cmp s = Ok (u, s') → reached base s p n → 0 ≤ p →
  p + 4 ≤ len input ∧ reached base s' (p + 4) (n + 4).
Proof.
  unfold patchStringRef. intros H Hs Hp. bind_inv H as Hread.
  eapply readInt_reached in Hread as (_ & Hend & Hs'); [|done..].
  split; [done|]. by eapply write_pack_reached in H.
Qed.

Lemma reached_eq base s p n p' n' :
  reached base s p n → p = p' → n = n' → reached base s p' n'.
Proof. by intros ? <- <-. Qed.

Lemma read_reached input base k s bs s' p n :
  read input k s = Ok (bs, s') → reached base s p n →
  0 ≤ p → 0 ≤ k → p + k ≤ len input →
  bs = take (Z.to_nat k) (drop (Z.to_nat p) input)
  ∧ len bs = k ∧ reached base s' (p + k) n.
Proof.
  intros (_ & -> & ->)%read_Ok [<- Hw] Hp Hk Hend.
  rewrite decide_False by lia. rewrite length_read by done. by repeat split.
Qed.

Lemma patchNode_reached input base d s u s' p n :
  patchNode input d s = Ok (u, s') → reached base s p n → 0 ≤ p →
  p + 8 ≤ len input → reached base s' (p + 8) (n + 8).
Proof.
  unfold patchNode, UINT32_LENGTH. intros H Hs Hp Hend. bind_inv H as Hcopy.
  eapply copy_reached in Hcopy; [|done|done|lia|lia].
  eapply patchStringRef_reached in H as [_ H]; [|done|lia].
  eapply reached_eq; [done|lia..].
Qed.

Lemma patchAttribute_reached input base d s u s' p n :
  patchAttribute input d s = Ok (u, s') → reached base s p n → 0 ≤ p →
  p + 20 ≤ len input → reached base s' (p + 20) (n + 20).
Proof.
  unfold patchAttribute, UINT32_LENGTH. intros H Hs Hp Hend.
  bind_inv H as Hr1. eapply patchStringRef_reached in Hr1 as [_ Hr1]; [|done|lia].
  bind_inv H as Hr2. eapply patchStringRef_reached in Hr2 as [_ Hr2]; [|done|lia].
  bind_inv H as Hr3. eapply patchStringRef_reached in Hr3 as [_ Hr3]; [|done|lia].
  bind_inv H as Hr4. eapply read_reached in Hr4 as (_ & _ & Hr4); [|done|lia..].
  bind_inv H as Hunpack. apply lift_Ok in Hunpack as [_ <-].
  repeat (case_match; try by ret_inv H);
    bind_inv H as Hr5; (eapply write_pack_reached in Hr5; [|done]);
    change (Z.of_nat (calcsize [uH; uB; uB])) with 4 in Hr5.
  - eapply patchStringRef_reached in H as [_ H]; [|done|lia].
    eapply reached_eq; [done|lia..].
  - eapply copy_reached in H; [|done|lia..].
    eapply reached_eq; [done|lia..].
Qed.

Lemma for_range_patchAttribute_reached input base d k :
  ∀ s u s' p n,
    for_range k (patchAttribute input d) s = Ok (u, s') → reached base s p n →
    0 ≤ p → p + 20 * Z.of_nat k ≤ len input →
    reached base s' (p + 20 * Z.of_nat k) (n + 20 * Z.of_nat k).
Proof.
  induction k as [|k IH]; intros s u s' p n H Hs Hp Hend.
  - ret_inv H. eapply reached_eq; [done|lia..].
  - apply for_range_succ in H as (s1 & Hattr & H).
    eapply patchAttribute_reached in Hattr; [|done|lia..].
    eapply IH in H; [|done|lia..].
    eapply reached_eq; [done|lia..].
Qed.

Tactic Notation "bind_inv" hyp(H) "as" ident(Hp) "giving" ident(a) ident(s1) :=
  apply bind_Ok in H as (a & s1 & Hp & H).

Lemma patchApplicationAttributes_loop_inserted input resmapInfo d ns k :
  ∀ s r s',
    patchApplicationAttributes_loop input k resmapInfo d ns true s = Ok (r, s') →
    r = true.
Proof.
  induction k as [|k IH]; intros s r s' H.
  - by ret_inv H.
  - cbn [patchApplicationAttributes_loop] in H.
    bind_inv H as Hseek. bind_inv H as Hname. bind_inv H as HresId.
    bind_inv H as Hgt giving greater s3. rewrite andb_false_r in H.
    bind_inv H as Hins. ret_inv Hins.
    bind_inv H as Hback. bind_inv H as Hattr. by eapply IH.
Qed.

(** The loop over the attributes of the application element copies 20
    bytes for each attribute and writes the new record at most once. *)
Lemma patchApplicationAttributes_loop_reached input base resmapInfo d ns k :
  ∀ inserted s r s' p n,
    patchApplicationAttributes_loop input k resmapInfo d ns inserted s = Ok (r, s') →
    reached base s p n → 0 ≤ p → p + 20 * Z.of_nat k ≤ len input →
    reached base s' (p + 20 * Z.of_nat k)
      (n + 20 * Z.of_nat k + if r && negb inserted then 20 else 0).
Proof.
  induction k as [|k IH]; intros inserted s r s' p n H Hs Hp Hend.
  - ret_inv H. rewrite andb_negb_r. eapply reached_eq; [done|lia..].
  - cbn [patchApplicationAttributes_loop] in H. unfold UINT32_LENGTH in H.
    bind_inv H as Hseek. eapply seek_cur_reached in Hseek; [|done].
    bind_inv H as Hname. eapply readInt_reached in Hname as (_ & _ & Hname); [|done|lia].
    bind_inv H as HresId. apply readResId_restores in HresId as ->.
    bind_inv H as Hgt giving greater s3. apply lift_Ok in Hgt as [_ <-].
    bind_inv H as Hins giving inserted' s4. bind_inv H as Hback.
    bind_inv H as Hattr.
    destruct (greater && negb inserted) eqn:Hcase.
    + bind_inv Hins as Hwrite. ret_inv Hins.
      eapply write_pack_reached in Hwrite; [|done].
      eapply seek_cur_reached in Hback; [|done].
      eapply patchAttribute_reached in Hattr; [|done|lia..].
      apply andb_true_iff in Hcase as [_ ->%negb_true_iff].
      pose proof (patchApplicationAttributes_loop_inserted _ _ _ _ _ _ _ _ H) as ->.
      eapply IH in H; [|done|lia..].
      eapply reached_eq; [done|lia|].
      change (Z.of_nat (calcsize (replicate 5 uL))) with 20. simpl. lia.
    + ret_inv Hins.
      eapply seek_cur_reached in Hback; [|done].
      eapply patchAttribute_reached in Hattr; [|done|lia..].
      eapply IH in H; [|done|lia..].
      eapply reached_eq; [done|lia..].
Qed.

Lemma patchApplicationAttributes_reached input base attrCount resmapInfo d ns s u s' p n :
  patchApplicationAttributes input attrCount resmapInfo d ns s = Ok (u, s') →
  reached base s p n → 0 ≤ p → 0 ≤ attrCount → p + 20 * attrCount ≤ len input →
  reached base s' (p + 20 * attrCount) (n + 20 * attrCount + 20).
Proof.
  unfold patchApplicationAttributes. intros H Hs Hp Hcount Hend.
  bind_inv H as Hloop giving inserted s1.
  eapply patchApplicationAttributes_loop_reached in Hloop; [|done|lia..].
  rewrite andb_true_r in Hloop. destruct inserted; simpl in H.
  - ret_inv H. eapply reached_eq; [done|lia..].
  - eapply write_pack_reached in H; [|done].
    change (Z.of_nat (calcsize (replicate 5 uL))) with 20 in H.
    eapply reached_eq; [done|lia..].
Qed.
(** ** The size of each chunk written by the slow path *)

Lemma chunkSize_field_header type headerSize size w :
  0 ≤ size < 4294967296 →
  chunkSize_field (header_bytes type headerSize size ++ w) = size.
Proof.
  intros Hsize. unfold chunkSize_field, header_bytes.
  rewrite <- !app_assoc, (app_assoc (le_encode 2 type)).
  rewrite drop_app_length' by (by rewrite length_app, !length_le_encode).
  rewrite take_app_length' by (by rewrite length_le_encode).
  by apply (le_decode_encode 4).
Qed.

Lemma length_header_bytes type headerSize size :
  length (header_bytes type headerSize size) = 8%nat.
Proof. unfold header_bytes. by rewrite !length_app, !length_le_encode. Qed.

(** A segment that begins with a header written by [writeCommonHeader]. *)
Lemma reached_written_header base type headerSize size s' p n :
  reached (base ++ header_bytes type headerSize size) s' p n →
  0 ≤ size < 4294967296 → 8 + n = size →
  ∃ seg, fOut s' = base ++ seg ∧ chunkSize_field seg = size ∧ len seg = size.
Proof.
  intros [_ (w & Hw & Hn)] Hsize Hlen.
  exists (header_bytes type headerSize size ++ w). split; [|split].
  - by rewrite Hw, app_assoc.
  - by apply chunkSize_field_header.
  - unfold len in *. rewrite length_app, length_header_bytes. lia.
Qed.

(** A segment that begins with the header of a chunk, copied from the
    input. *)
Lemma reached_copied_header input c base s' p n :
  chunk_in input c →
  reached (base ++ take 8 (drop (Z.to_nat (startOffset c)) input)) s' p n →
  8 + n = chunkSize (commonHeader c) →
  ∃ seg, fOut s' = base ++ seg
         ∧ chunkSize_field seg = chunkSize (commonHeader c)
         ∧ len seg = chunkSize (commonHeader c).
Proof.
  intros (Hstart & Hrest & Hheader) [_ (w & Hw & Hn)] Hlen.
  set (rest := drop (Z.to_nat (startOffset c)) input) in *.
  exists (take 8 rest ++ w). split; [|split].
  - by rewrite Hw, app_assoc.
  - rewrite Hheader. unfold chunkSize_field. cbn [chunkSize header_of_bytes].
    rewrite drop_app_le by (rewrite length_take; lia).
    rewrite take_app_le by (rewrite length_drop, length_take; lia).
    by rewrite take_drop_take by lia.
  - unfold len in *. rewrite length_app, length_take. lia.
Qed.

Lemma u16_at_nonneg input p : 0 ≤ u16_at input p.
Proof. unfold u16_at. apply le_decode_range. Qed.

Lemma u32_at_nonneg input p : 0 ≤ u32_at input p.
Proof. unfold u32_at. apply le_decode_range. Qed.

(** [patchResmap]: the chunk of the input and one more resource id. *)
Lemma patchResmap_size input c l s u s' :
  patchResmap input {| rm_chunkInfo := Some c; rm_len := l |} s = Ok (u, s') →
  0 ≤ startOffset c →
  startOffset c + chunkSize (commonHeader c) ≤ len input →
  8 ≤ chunkSize (commonHeader c) →
  ∃ seg, fOut s' = fOut s ++ seg
         ∧ chunkSize_field seg = chunkSize (commonHeader c) + 4
         ∧ len seg = chunkSize (commonHeader c) + 4.
Proof.
  unfold patchResmap, COMMON_HEADER_LEN, UINT32_LENGTH. cbn [rm_chunkInfo].
  intros H Hstart Hend Hsize.
  bind_inv H as Hseek. apply seek_set_Ok in Hseek as [_ ->].
  bind_inv H as Hhdr giving u1 s1. apply writeCommonHeader_Ok in Hhdr as [-> Hfits].
  pose proof (reached_start
                (State (startOffset c + 8)
                   (fOut s ++ header_bytes (type (commonHeader c))
                                (headerSize (commonHeader c))
                                (chunkSize (commonHeader c) + 4)) (stdout s))) as Hs.
  cbn [fIn_pos fOut stdout] in *.
  bind_inv H as Hcopy. eapply copy_reached in Hcopy; [|done|lia..].
  eapply write_pack_reached in H; [|done].
  eapply reached_written_header; [done|done|].
  change (Z.of_nat (calcsize [uI])) with 4. lia.
Qed.

(** [patchAttrExt], from behind the node header to the end of the chunk. *)
Lemma patchAttrExt_reached input base c d s u s' n :
  patchAttrExt input c d s = Ok (u, s') →
  reached base s (startOffset c + 16) n →
  0 ≤ startOffset c →
  startOffset c + chunkSize (commonHeader c) ≤ len input →
  element_laid_out input c →
  reached base s' (startOffset c + chunkSize (commonHeader c))
    (n + chunkSize (commonHeader c) - 16).
Proof.
  unfold patchAttrExt, element_laid_out, UINT16_LENGTH. cbv zeta.
  intros H Hs Hstart Hend (Hhs & HattrStart & Hattrs).
  pose proof (u16_at_nonneg input (startOffset c + 28)) as Hcount.
  rewrite Hhs in H.
  bind_inv H as Hr1. eapply patchStringRef_reached in Hr1 as [_ Hr1]; [|done|lia].
  bind_inv H as Hr2. eapply patchStringRef_reached in Hr2 as [_ Hr2]; [|done|lia].
  bind_inv H as Hr3 giving fields s3.
  eapply readShorts3_reached in Hr3 as (Hfields & _ & Hr3); [|done|lia].
  subst fields.
  replace (startOffset c + 16 + 4 + 4) with (startOffset c + 24) in * by lia.
  replace (startOffset c + 24 + 4) with (startOffset c + 28) in * by lia.
  bind_inv H as Hr4. eapply write_pack_reached in Hr4; [|done].
  bind_inv H as Hr5. eapply copy_reached in Hr5; [|done|lia..].
  bind_inv H as Hr6 giving pos s6.
  eapply tell_reached in Hr6 as [Hpos Hr6]; [|done]. subst pos.
  bind_inv H as Hr7. eapply copy_reached in Hr7; [|done|lia..].
  bind_inv H as Hr8.
  eapply for_range_patchAttribute_reached in Hr8; [|done|lia..].
  bind_inv H as Hr9 giving pos s9.
  eapply tell_reached in Hr9 as [Hpos Hr9]; [|done]. subst pos.
  eapply copy_reached in H; [|done|lia..].
  eapply reached_eq; [done|lia|].
  change (Z.of_nat (calcsize [uH; uH; uH])) with 6. lia.
Qed.

(** [patchChunk]: as many bytes as the chunk has in the input. *)
Lemma patchChunk_size input c d s u s' :
  patchChunk input c d s = Ok (u, s') →
  chunk_in input c →
  startOffset c + chunkSize (commonHeader c) ≤ len input →
  node_laid_out input c →
  ∃ seg, fOut s' = fOut s ++ seg
         ∧ chunkSize_field seg = chunkSize (commonHeader c)
         ∧ len seg = chunkSize (commonHeader c).
Proof.
  unfold patchChunk, node_laid_out, COMMON_HEADER_LEN. cbv zeta.
  intros H Hin Hend Hlaid. pose proof Hin as (Hstart & Hrest & _).
  rewrite length_drop in Hrest.
  bind_inv H as Hseek. apply seek_set_Ok in Hseek as [_ ->].
  bind_inv H as Hcopy giving u1 s1. rewrite copy_eq in Hcopy by done.
  cbv zeta in Hcopy. cbn [fIn_pos fOut stdout] in Hcopy.
  rewrite length_read in Hcopy by (unfold len; lia).
  change (Z.to_nat 8) with 8%nat in Hcopy. injection Hcopy as _ <-.
  match type of H with
  | _ ?s1 = _ => pose proof (reached_start s1) as Hs
  end.
  cbn [fIn_pos fOut stdout] in Hs.
  eapply (reached_copied_header _ _ _ s' (startOffset c + chunkSize (commonHeader c))
            (chunkSize (commonHeader c) - 8));
    [done| |lia].
  destruct (decide (type (commonHeader c) = 258)) as [Htype|Htype].
  { rewrite Htype in H. simpl in H.
    bind_inv H as Hnode. eapply patchNode_reached in Hnode; [|done|lia|].
    2:{ destruct Hlaid as (_ & ? & ?).
        pose proof (u16_at_nonneg input (startOffset c + 28)). lia. }
    eapply patchAttrExt_reached in H; [|eapply reached_eq; [done|lia|done]|done..].
    eapply reached_eq; [done|lia..]. }
  destruct (decide (type (commonHeader c) >= 256 ∧ type (commonHeader c) <= 383))
    as [Hnode|Hnode];
    [rewrite decide_True in Hlaid by lia|rewrite decide_False in Hlaid by lia].
  - bind_inv H as Hr1.
    assert (startOffset c + 8 + 8 ≤ len input) as Hnode_end.
    { repeat case_decide; lia. }
    eapply patchNode_reached in Hr1; [|done|lia..].
    unfold patchNamespaceExt, patchEndElementExt, patchCDataExt, UINT32_LENGTH in H.
    destruct (decide (type (commonHeader c) = 256 ∨ type (commonHeader c) = 257))
      as [Hns|Hns].
    { rewrite decide_True in Hlaid by lia.
      bind_inv H as Hr2. eapply patchStringRef_reached in Hr2 as [_ Hr2]; [|done|lia].
      eapply patchStringRef_reached in H as [_ H]; [|done|lia].
      eapply reached_eq; [done|lia..]. }
    destruct (decide (type (commonHeader c) = 259)) as [Hend_element|Hend_element].
    { rewrite decide_True in Hlaid by lia.
      bind_inv H as Hr2. eapply patchStringRef_reached in Hr2 as [_ Hr2]; [|done|lia].
      eapply patchStringRef_reached in H as [_ H]; [|done|lia].
      eapply reached_eq; [done|lia..]. }
    rewrite decide_False in Hlaid by lia.
    destruct (decide (type (commonHeader c) = 260)) as [Hcdata|Hcdata].
    { bind_inv H as Hr2. eapply patchStringRef_reached in Hr2 as [_ Hr2]; [|done|lia].
      eapply copy_reached in H; [|done|lia..].
      eapply reached_eq; [done|lia..]. }
    destruct Hlaid as [Hhs Hsize]. rewrite Hhs in H.
    eapply copy_reached in H; [|done|lia..].
    eapply reached_eq; [done|lia..].
  - eapply copy_reached in H; [|done|lia..].
    eapply reached_eq; [done|lia..].
Qed.

(** [patchApplicationElement]: the chunk of the input and the 20 bytes of
    the new attribute. *)
Lemma patchApplicationElement_size input c ns d resmapInfo s u s' :
  patchApplicationElement input c ns d resmapInfo s = Ok (u, s') →
  0 ≤ startOffset c →
  startOffset c + chunkSize (commonHeader c) ≤ len input →
  element_laid_out input c →
  ∃ seg, fOut s' = fOut s ++ seg
         ∧ chunkSize_field seg = chunkSize (commonHeader c) + 20
         ∧ len seg = chunkSize (commonHeader c) + 20.
Proof.
  unfold patchApplicationElement, element_laid_out.
  unfold COMMON_HEADER_LEN, ATTRIBUTE_LENGTH, UINT16_LENGTH. cbv zeta.
  intros H Hstart Hend (Hhs & HattrStart & Hattrs).
  pose proof (u16_at_nonneg input (startOffset c + 28)) as Hcount.
  rewrite Hhs in H.
  bind_inv H as Hseek. apply seek_set_Ok in Hseek as [_ ->].
  bind_inv H as Hhdr giving u1 s1. apply writeCommonHeader_Ok in Hhdr as [-> Hfits].
  match type of H with
  | _ ?s1 = _ => pose proof (reached_start s1) as Hs
  end.
  cbn [fIn_pos fOut stdout] in *.
  bind_inv H as Hr0. eapply patchNode_reached in Hr0; [|done|lia..].
  bind_inv H as Hr1. eapply patchStringRef_reached in Hr1 as [_ Hr1]; [|done|lia].
  bind_inv H as Hr2. eapply patchStringRef_reached in Hr2 as [_ Hr2]; [|done|lia].
  bind_inv H as Hr3 giving fields s3.
  eapply readShorts3_reached in Hr3 as (Hfields & _ & Hr3); [|done|lia].
  subst fields.
  replace (startOffset c + 8 + 8 + 4 + 4) with (startOffset c + 24) in * by lia.
  replace (startOffset c + 24 + 4) with (startOffset c + 28) in * by lia.
  bind_inv H as Hr4. eapply write_pack_reached in Hr4; [|done].
  bind_inv H as Hr5. eapply copy_reached in Hr5; [|done|lia..].
  bind_inv H as Hr6 giving pos s6.
  eapply tell_reached in Hr6 as [Hpos Hr6]; [|done]. subst pos.
  bind_inv H as Hr7. eapply copy_reached in Hr7; [|done|lia..].
  bind_inv H as Hr8.
  eapply patchApplicationAttributes_reached in Hr8; [|done|lia..].
  bind_inv H as Hr9 giving pos s9.
  eapply tell_reached in Hr9 as [Hpos Hr9]; [|done]. subst pos.
  eapply copy_reached in H; [|done|lia..].
  eapply reached_written_header; [done|done|].
  change (Z.of_nat (calcsize [uH; uH; uH])) with 6. lia.
Qed.

(** The loop of [patchStringPool] over the offsets behind the new one. *)
Lemma for_range_offsets_reached input base delta k :
  ∀ s u s' p n,
    for_range k (offset ← readInt input; write_pack [uI] [offset + delta]) s
    = Ok (u, s') →
    reached base s p n → 0 ≤ p →
    reached base s' (p + 4 * Z.of_nat k) (n + 4 * Z.of_nat k).
Proof.
  induction k as [|k IH]; intros s u s' p n H Hs Hp.
  - ret_inv H. eapply reached_eq; [done|lia..].
  - apply for_range_succ in H as (s1 & Hbody & H).
    bind_inv Hbody as Hread.
    eapply readInt_reached in Hread as (_ & _ & Hread); [|done|lia].
    eapply write_pack_reached in Hbody; [|done].
    eapply IH in H; [|done|lia].
    eapply reached_eq; [done|lia|].
    change (Z.of_nat (calcsize [uI])) with 4. lia.
Qed.

Lemma length_DEBUGGABLE_STRING_DATA (utf8 : bool) :
  len (if utf8 then DEBUGGABLE_STRING_DATA_UTF8 else DEBUGGABLE_STRING_DATA_UTF16)
  = if utf8 then DEBUGGABLE_STRING_LENGTH_UTF8 else DEBUGGABLE_STRING_LENGTH_UTF16.
Proof. by destruct utf8. Qed.

(** [patchStringPool]: the chunk of the input, one more offset and the
    new string. *)
Lemma patchStringPool_size input pool D s u s' :
  patchStringPool input pool D s = Ok (u, s') →
  let c := sp_chunkInfo pool in
  0 ≤ startOffset c →
  startOffset c + chunkSize (commonHeader c) ≤ len input →
  pool_laid_out input pool D →
  let inserted :=
    (if isUtf8 pool then DEBUGGABLE_STRING_LENGTH_UTF8
     else DEBUGGABLE_STRING_LENGTH_UTF16) + 4 in
  ∃ seg, fOut s' = fOut s ++ seg
         ∧ chunkSize_field seg = chunkSize (commonHeader c) + inserted
         ∧ len seg = chunkSize (commonHeader c) + inserted.
Proof.
  unfold patchStringPool, pool_laid_out.
  unfold COMMON_HEADER_LEN, UINT32_LENGTH. cbv zeta.
  intros H Hstart Hend (Hhs & Hstyles & HD & Htable & Hstring).
  set (c := sp_chunkInfo pool) in *.
  set (strlen := if isUtf8 pool then DEBUGGABLE_STRING_LENGTH_UTF8
                 else DEBUGGABLE_STRING_LENGTH_UTF16) in *.
  assert (0 ≤ strlen) as Hstrlen by (subst strlen; by destruct (isUtf8 pool)).
  pose proof (u32_at_nonneg input (startOffset c + 28 + 4 * D)) as Hoffset.
  rewrite Hhs, Hstyles in H.
  rewrite !(decide_False (P := 0 > 0)) in H by done.
  bind_inv H as Hseek. apply seek_set_Ok in Hseek as [_ ->].
  bind_inv H as Hhdr giving u1 s1. apply writeCommonHeader_Ok in Hhdr as [-> Hfits].
  match type of H with
  | _ ?s1 = _ => pose proof (reached_start s1) as Hs
  end.
  cbn [fIn_pos fOut stdout] in *.
  bind_inv H as Hr0. eapply write_pack_reached in Hr0; [|done].
  bind_inv H as Hr1. eapply seek_set_reached in Hr1; [|done].
  bind_inv H as Hr2. eapply copy_reached in Hr2; [|done|lia..].
  bind_inv H as Hr3 giving offset s3.
  eapply readInt_reached in Hr3 as (Hoff & _ & Hr3); [|done|lia]. subst offset.
  replace (startOffset c + 28 + D * 4) with (startOffset c + 28 + 4 * D) in * by lia.
  bind_inv H as Hr4. eapply write_pack_reached in Hr4; [|done].
  bind_inv H as Hr5. eapply write_pack_reached in Hr5; [|done].
  bind_inv H as Hr6. eapply for_range_offsets_reached in Hr6; [|done|lia].
  bind_inv H as Hr7 giving pos s7.
  eapply tell_reached in Hr7 as [Hpos Hr7]; [|done]. subst pos.
  case_decide as Hsanity; [by ret_inv H|].
  bind_inv H as Hr8. ret_inv Hr8.
  bind_inv H as Hr9 giving pos s9.
  eapply tell_reached in Hr9 as [Hpos Hr9]; [|done]. subst pos.
  bind_inv H as Hr10. eapply copy_reached in Hr10; [|done|lia..].
  bind_inv H as Hr11. eapply copy_reached in Hr11; [|done|lia..].
  bind_inv H as Hr12. eapply write_reached in Hr12; [|done].
  rewrite length_DEBUGGABLE_STRING_DATA in Hr12. fold strlen in Hr12.
  bind_inv H as Hr13. ret_inv Hr13.
  bind_inv H as Hr14 giving pos s14.
  eapply tell_reached in Hr14 as [Hpos Hr14]; [|done]. subst pos.
  eapply copy_reached in H; [|done|lia..].
  replace (chunkSize (commonHeader c) + (strlen + 4))
    with (chunkSize (commonHeader c) + strlen + 4) by lia.
  eapply reached_written_header; [done|done|].
  change (Z.of_nat (calcsize (replicate 5 uI))) with 20.
  change (Z.of_nat (calcsize [uI])) with 4. lia.
Qed.
(** ** The chunks recorded by [readChunks] *)

Lemma readChunks_loop_chunk_in input fuel :
  ∀ acc s chunks s',
    0 ≤ fIn_pos s →
    readChunks_loop input fuel acc (fIn_pos s) s = Ok (chunks, s') →
    Forall (chunk_in input) acc → Forall (chunk_in input) chunks.
Proof.
  induction fuel as [|fuel IH]; intros acc s chunks s' Hpos H Hacc; [done|].
  rewrite readChunks_loop_S in H by done. cbv zeta in H.
  case_decide as Hrest.
  - by injection H as <- _.
  - set (rest := drop (Z.to_nat (fIn_pos s)) input) in *.
    set (next := fIn_pos s + chunkSize (header_of_bytes rest)) in *.
    apply (IH _ (State next (fOut s) (stdout s))) in H; [done| |].
    + by apply next_chunk_nonneg.
    + apply Forall_app. split; [done|]. apply Forall_singleton.
      split; [done|]. split; [cbn [startOffset]; fold rest; lia|done].
Qed.

Lemma locateDebuggable_chunk_in input fuel s0 v s :
  0 ≤ fIn_pos s0 →
  locateDebuggable input fuel s0 = Ok (v, s) →
  Forall (chunk_in input) (chunks v).
Proof.
  unfold locateDebuggable. intros Hpos H.
  bind_inv H as Hhdr giving header s1.
  assert (0 ≤ fIn_pos s1) as Hpos1.
  { rewrite readCommonHeader_eq in Hhdr. cbv zeta in Hhdr.
    case_decide; injection Hhdr as _ <-; cbn [fIn_pos]; unfold len; lia. }
  bind_inv H as Hsome giving fileHeader s2.
  assert (s2 = s1) as ->.
  { destruct header; [by ret_inv Hsome|by ret_inv Hsome]. }
  case_decide; [by ret_inv H|].
  bind_inv H as Hchunks giving chunks0 s3.
  unfold readChunks in Hchunks. bind_inv Hchunks as Htell.
  apply tell_Ok in Htell as [-> ->].
  apply readChunks_loop_chunk_in in Hchunks; [|done..].
  bind_inv H as Hfind giving indices s4. destruct indices as [spIdx rmIdx].
  bind_inv H as Hsp. bind_inv H as Hpool. bind_inv H as Hrm.
  bind_inv H as Happ. bind_inv H as Hchunk. bind_inv H as Hprint.
  bind_inv H as Hattrs. bind_inv H as Hdbg. by ret_inv H.
Qed.

(** ** Sums *)

Lemma total_cons (x : Z) (xs : list Z) : total (x :: xs) = x + total xs.
Proof. reflexivity. Qed.

Lemma len_concat (segs : list (list byte)) :
  len (concat segs) = total (len <$> segs).
Proof.
  induction segs as [|seg segs IH]; [done|].
  rewrite fmap_cons, total_cons, <- IH. cbn [concat].
  unfold len. rewrite length_app. lia.
Qed.

Lemma total_fmap_add {A} (f g : A → Z) (l : list A) :
  total ((λ x, f x + g x) <$> l) = total (f <$> l) + total (g <$> l).
Proof.
  induction l as [|x l IH]; [done|].
  rewrite !fmap_cons, !total_cons, IH. lia.
Qed.

Lemma total_fmap_ext {A} (f g : A → Z) (l : list A) :
  (∀ x, x ∈ l → f x = g x) → total (f <$> l) = total (g <$> l).
Proof.
  induction l as [|x l IH]; intros Hfg; [done|].
  rewrite !fmap_cons, !total_cons, Hfg by left.
  rewrite IH; [done|]. intros y Hy. apply Hfg. by right.
Qed.

(** A sum with one summand that is not zero. *)
Lemma total_single (a : nat) (x : Z) (n : nat) :
  ∀ start,
    total ((λ k, if decide (k = a) then x else 0) <$> seq start n)
    = if decide (start ≤ a < start + n)%nat then x else 0.
Proof.
  induction n as [|n IH]; intros start.
  - by rewrite decide_False by lia.
  - cbn [seq]. rewrite fmap_cons, total_cons, IH. repeat case_decide; lia.
Qed.

(** Segments that are as long as their chunks and what is inserted. *)
Lemma total_segments (size : ChunkInfo → Z) (extra : nat → Z)
  (segs : list (list byte)) :
  ∀ (cs : list ChunkInfo) start,
    length segs = length cs →
    (∀ k c seg, cs !! k = Some c → segs !! k = Some seg →
                len seg = size c + extra (start + k)%nat) →
    total (len <$> segs)
    = total (size <$> cs) + total (extra <$> seq start (length cs)).
Proof.
  induction segs as [|seg segs IH]; intros [|c cs] start Hlen Hall; try done.
  cbn [length seq]. rewrite !fmap_cons, !total_cons, (IH cs (S start)).
  - rewrite (Hall 0%nat c seg) by done. rewrite Nat.add_0_r. lia.
  - simpl in Hlen. lia.
  - intros k c' seg' Hc' Hseg'. rewrite (Hall (S k) c' seg') by done.
    by rewrite Nat.add_succ_r.
Qed.

(** ** One round of the loop of the slow path *)

(** The segment written for chunk [i], when that chunk is laid out as its
    header says: its chunkSize is that of the input plus what is
    inserted, and that many bytes are written. *)
Lemma rebuild_chunk_size input fuel s0 v s1 ns i c s u s' :
  locateDebuggable input fuel s0 = Ok (v, s1) →
  0 ≤ i → chunks v !! Z.to_nat i = Some c →
  chunk_in input c →
  rebuild_chunk input v ns (rm_len (resmapInfo v)) i c s = Ok (u, s') →
  laid_out input v i c →
  ∃ seg, fOut s' = fOut s ++ seg
         ∧ chunkSize_field seg = chunkSize (commonHeader c) + inserted_bytes v i
         ∧ len seg = chunkSize (commonHeader c) + inserted_bytes v i.
Proof.
  intros Hlocate Hi Hc Hin H [Hend Hlaid].
  pose proof (locateDebuggable_indices _ _ _ _ _ Hlocate)
    as ([Hsp (csp & Hcsp & Htsp & Hpool)] & Hrm & [Happ (capp & Hcapp & Htapp)]).
  pose proof Hin as (Hstart & _).
  unfold rebuild_chunk in H. unfold inserted_bytes.
  destruct (decide (i = stringPoolIdx v)) as [->|Hnsp].
  { assert (csp = c) as -> by congruence.
    apply patchStringPool_size in H; rewrite ?Hpool; [|done..].
    cbv zeta in H. by rewrite Hpool in H. }
  destruct (decide (i = resmapIdx v)) as [->|Hnrm].
  { destruct Hrm as [[Hrm _]|[_ (crm & Hcrm & _ & Hinfo)]]; [lia|].
    assert (crm = c) as -> by congruence. rewrite Hinfo in H.
    by apply patchResmap_size in H. }
  destruct (decide (i = applicationIdx v)) as [->|Hnapp].
  { assert (capp = c) as -> by congruence.
    unfold node_laid_out in Hlaid. rewrite Htapp in Hlaid.
    rewrite decide_True in Hlaid by done.
    by apply patchApplicationElement_size in H. }
  apply patchChunk_size in H; [|done..].
  destruct H as (seg & Hseg & Hfield & Hlen).
  exists seg. rewrite Z.add_0_r. by repeat split.
Qed.
(** ** The sizes in the output *)

Lemma chunkSize_field_app (header rest : list byte) :
  (8 ≤ length header)%nat →
  chunkSize_field (header ++ rest) = chunkSize_field header.
Proof.
  intros Hlen. unfold chunkSize_field.
  rewrite drop_app_le by lia. by rewrite take_app_le by (rewrite length_drop; lia).
Qed.

(** The output of the fast path against its input: the same length, the
    same bytes outside the data word, the same file-header chunkSize. *)
Lemma data_word_overwritten (pre record post : list byte) :
  length record = 20%nat →
  let input := pre ++ record ++ post in
  let out := pre ++ (take 16 record ++ DEBUGGABLE_VALUE_TRUE) ++ post in
  len out = len input
  ∧ chunkSize_field out = chunkSize_field input
  ∧ ∀ k, (k < length pre + 16 ∨ length pre + 20 ≤ k)%nat → out !! k = input !! k.
Proof.
  intros Hlen input out.
  assert (length (take 16 record ++ DEBUGGABLE_VALUE_TRUE) = 20%nat) as Hlen'.
  { rewrite length_app, length_take, Hlen. reflexivity. }
  assert (input = (pre ++ take 16 record) ++ drop 16 record ++ post) as Hinput.
  { subst input. by rewrite <- !app_assoc, (app_assoc (take 16 record)), take_drop. }
  assert (out = (pre ++ take 16 record) ++ DEBUGGABLE_VALUE_TRUE ++ post) as Hout.
  { subst out. by rewrite <- !app_assoc. }
  assert (length (pre ++ take 16 record) = length pre + 16)%nat as Hhead.
  { rewrite length_app, length_take. lia. }
  split; [|split].
  - subst input out. unfold len.
    rewrite (length_app pre), (length_app _ post), Hlen'.
    rewrite (length_app pre), (length_app record), Hlen. lia.
  - rewrite Hinput, Hout.
    rewrite (chunkSize_field_app _ (drop 16 record ++ post)) by lia.
    by rewrite (chunkSize_field_app _ (DEBUGGABLE_VALUE_TRUE ++ post)) by lia.
  - intros k [Hk|Hk].
    + rewrite Hinput, Hout.
      rewrite (lookup_app_l _ (drop 16 record ++ post)) by lia.
      by rewrite (lookup_app_l _ (DEBUGGABLE_VALUE_TRUE ++ post)) by lia.
    + subst input out.
      rewrite (app_assoc pre record post), (app_assoc pre (take 16 record ++ _) post).
      rewrite (lookup_app_r (pre ++ record)) by (rewrite length_app; lia).
      rewrite (lookup_app_r (pre ++ _ ++ _)) by (rewrite length_app; lia).
      by rewrite (length_app pre record), (length_app pre (_ ++ _)), Hlen, Hlen'.
Qed.

(** What the slow path inserts, summed over the chunks. *)
Lemma total_inserted_bytes v (n : nat) :
  0 ≤ stringPoolIdx v < Z.of_nat n →
  0 ≤ resmapIdx v < Z.of_nat n →
  0 ≤ applicationIdx v < Z.of_nat n →
  stringPoolIdx v ≠ resmapIdx v →
  stringPoolIdx v ≠ applicationIdx v →
  resmapIdx v ≠ applicationIdx v →
  total ((λ k, inserted_bytes v (Z.of_nat k)) <$> seq 0 n)
  = (if isUtf8 (strPoolInfo v) then DEBUGGABLE_STRING_LENGTH_UTF8
     else DEBUGGABLE_STRING_LENGTH_UTF16) + UINT32_LENGTH
    + UINT32_LENGTH + ATTRIBUTE_LENGTH.
Proof.
  intros Hsp Hrm Happ Hsr Hsa Hra.
  set (strlen := (if isUtf8 (strPoolInfo v) then DEBUGGABLE_STRING_LENGTH_UTF8
                  else DEBUGGABLE_STRING_LENGTH_UTF16) + UINT32_LENGTH).
  rewrite (total_fmap_ext _
             (λ k, (if decide (k = Z.to_nat (stringPoolIdx v)) then strlen else 0)
                   + ((if decide (k = Z.to_nat (resmapIdx v)) then UINT32_LENGTH else 0)
                      + (if decide (k = Z.to_nat (applicationIdx v))
                         then ATTRIBUTE_LENGTH else 0)))).
  - rewrite !total_fmap_add, !total_single.
    rewrite !decide_True by lia. lia.
  - intros k _. unfold inserted_bytes. fold strlen.
    repeat case_decide; lia.
Qed.

(** C9, amended. [patchManifest] checks no size; the sizes it writes are
    right where those of the input are.
    - Fast path: the output has the length of the input, the same bytes
      outside the data word of the attribute found, and so the same
      file-header chunkSize.
    - Slow path: the output is a file header and one segment for each
      chunk of the input. For a chunk laid out as its header says, the
      chunkSize written is that of the input plus the inserted bytes
      (string pool: the new string and 4; resource map: 4; application
      element: 20) and the segment has that many bytes. When the input
      has a resource map, all its chunks are laid out so, and its
      file-header chunkSize is 8 plus the chunkSizes of its chunks, the
      file-header chunkSize written is the length of the output. *)
Theorem patchManifest_sizes input fuel v s out :
  locateDebuggable input fuel initial = Ok (v, s) →
  run_patchManifest fuel input = Ok out →
  (0 ≤ debuggableAttributeIdx v →
   ∃ attr,
     applicationAttributes v !! Z.to_nat (debuggableAttributeIdx v) = Some attr
     ∧ len out = len input
     ∧ chunkSize_field out = chunkSize_field input
     ∧ ∀ k : nat,
         Z.of_nat k < attr_startOffset attr + 16
         ∨ attr_startOffset attr + 20 ≤ Z.of_nat k →
         out !! k = input !! k)
  ∧ (debuggableAttributeIdx v < 0 →
     ∃ size segs,
       out = header_bytes (type (fileHeader v)) (headerSize (fileHeader v)) size
             ++ concat segs
       ∧ chunkSize_field out = size
       ∧ length segs = length (chunks v)
       ∧ (∀ k c seg,
            chunks v !! k = Some c → segs !! k = Some seg →
            laid_out input v (Z.of_nat k) c →
            chunkSize_field seg
            = chunkSize (commonHeader c) + inserted_bytes v (Z.of_nat k)
            ∧ len seg = chunkSize_field seg)
       ∧ (0 ≤ resmapIdx v →
          (∀ k c, chunks v !! k = Some c → laid_out input v (Z.of_nat k) c) →
          chunkSize (fileHeader v)
          = 8 + total (chunkSize ∘ commonHeader <$> chunks v) →
          chunkSize_field out = len out)).
Proof.
  intros Hlocate Hrun.
  pose proof (locateDebuggable_Ok _ _ _ _ _ Hlocate) as (Hout & Hattrs & Hfind).
  split.
  - intros Hidx.
    apply findDebuggableAttribute_Ok in Hfind
      as [_ [[Hnone _]|[_ (attr & _ & Hattr & _)]]]; [lia|].
    exists attr. split; [done|].
    destruct (run_patchManifest_fast _ _ _ _ _ Hlocate Hidx Hattr)
      as (Hoff & Hlen & _ & Hinput & Hpre & Hrun').
    rewrite Hrun' in Hrun. injection Hrun as <-.
    set (pre := take (Z.to_nat (attr_startOffset attr)) input) in *.
    set (post := drop (Z.to_nat (attr_startOffset attr) + 20) input) in *.
    set (record := take 20 (drop (Z.to_nat (attr_startOffset attr)) input)) in *.
    destruct (data_word_overwritten pre record post Hlen) as (Hl & Hf & Hk).
    cbv zeta in Hl, Hf, Hk. rewrite <- Hinput in Hl, Hf, Hk.
    split; [done|]. split; [done|].
    intros k Hcase. apply Hk. rewrite Hpre. lia.
  - intros Hidx.
    pose proof (locateDebuggable_indices _ _ _ _ _ Hlocate)
      as ([Hsp (csp & Hcsp & Htsp & _)] & Hrm & [Happ (capp & Hcapp & Htapp)]).
    pose proof (locateDebuggable_chunk_in input fuel initial v s (Z.le_refl 0) Hlocate)
      as Hin.
    unfold run_patchManifest, patchManifest in Hrun.
    erewrite bind_eval in Hrun by done.
    rewrite decide_False in Hrun by lia.
    destruct (slowPath input fuel v s) as [[[] s']| |] eqn:Hslow; [|done..].
    simpl in Hrun. injection Hrun as <-.
    eapply (slowPath_Ok
              (λ _ i c seg,
                 laid_out input v i c →
                 chunkSize_field seg = chunkSize (commonHeader c) + inserted_bytes v i
                 ∧ len seg = chunkSize_field seg))
      in Hslow as (size & ns & segs & Hfout & Hsize & Hfits & Hlen & Hall); [|done|].
    2:{ intros ns i c s1 u1 s2 Hi Hc Hchunk.
        pose proof Hchunk as Hchunk'. appends_run Hchunk' seg Hseg.
        exists seg. split; [done|]. intros Hlaid.
        eapply rebuild_chunk_size in Hchunk
          as (seg' & Hseg' & Hfield & Hlen'); [|done..| |done].
        - rewrite Hseg in Hseg'. apply app_inv_head in Hseg' as ->.
          by rewrite Hfield.
        - by eapply Forall_lookup_1. }
    rewrite Hout in Hfout. cbn [initial fOut app] in Hfout.
    exists size, segs. split; [done|]. split; [|split; [done|split]].
    + rewrite Hfout. by apply chunkSize_field_header.
    + intros k c seg Hc Hseg. by apply (Hall k c seg).
    + intros Hrm0 Hlaid Hheader.
      destruct Hrm as [[Hrm _]|[_ (crm & Hcrm & Htrm & _)]]; [lia|].
      rewrite Hfout. rewrite chunkSize_field_header by done.
      unfold len at 1. rewrite length_app, length_header_bytes.
      rewrite Nat2Z.inj_add. fold (len (concat segs)). rewrite len_concat.
      rewrite (total_segments (chunkSize ∘ commonHeader)
                 (λ k, inserted_bytes v (Z.of_nat k)) segs (chunks v) 0) by
        (try done; intros k c seg Hc Hseg;
         destruct (Hall k c seg Hc Hseg (Hlaid k c Hc)) as [Hfield ->];
         by rewrite Hfield).
      pose proof (lookup_lt_Some _ _ _ Hcsp) as Hlsp.
      pose proof (lookup_lt_Some _ _ _ Hcrm) as Hlrm.
      pose proof (lookup_lt_Some _ _ _ Hcapp) as Hlapp.
      unfold CHUNK_TYPE_STRINGPOOL, CHUNK_TYPE_RESMAP, CHUNK_TYPE_START_ELEMENT in *.
      rewrite total_inserted_bytes; [|lia|lia|lia|..].
      * rewrite Hsize, Hheader. rewrite decide_False by lia.
        unfold COMMON_HEADER_LEN. simpl. lia.
      * intros Heq. rewrite Heq in *. congruence.
      * intros Heq. rewrite Heq in *. congruence.
      * intros Heq. rewrite Heq in *. congruence.
Qed.

Lemma patchManifest_sizes_witness :
  ∃ v s out,
    locateDebuggable (Examples.not_debuggable false) 5 initial = Ok (v, s)
    ∧ run_patchManifest 5 (Examples.not_debuggable false) = Ok out
    ∧ debuggableAttributeIdx v < 0
    ∧ chunkSize_field out = len out
    ∧ ∃ size segs,
        out = header_bytes (type (fileHeader v)) (headerSize (fileHeader v)) size
              ++ concat segs
        ∧ length segs = length (chunks v)
        ∧ ∀ k c seg,
            chunks v !! k = Some c → segs !! k = Some seg →
            chunkSize_field seg
            = chunkSize (commonHeader c) + inserted_bytes v (Z.of_nat k)
            ∧ len seg = chunkSize_field seg.
Proof.
  pose proof (patchManifest_sizes (Examples.not_debuggable false) 5) as H.
  destruct (locateDebuggable (Examples.not_debuggable false) 5 initial)
    as [[v s]| |] eqn:Hlocate; [|vm_compute in Hlocate; discriminate..].
  destruct (run_patchManifest 5 (Examples.not_debuggable false))
    as [out| |] eqn:Hrun; [|vm_compute in Hrun; discriminate..].
  specialize (H v s out eq_refl eq_refl) as [_ H].
  vm_compute in Hlocate. injection Hlocate as <- <-.
  assert (∀ k c,
            chunks
              ltac:(match type of H with
                    | debuggableAttributeIdx ?v < 0 → _ => exact v
                    end) !! k = Some c →
            laid_out (Examples.not_debuggable false)
              ltac:(match type of H with
                    | debuggableAttributeIdx ?v < 0 → _ => exact v
                    end) (Z.of_nat k) c) as Hlaid.
  { intros k c Hc.
    cbn [chunks] in Hc.
    repeat (destruct k as [|k];
            [injection Hc as <-; vm_compute; repeat split; intros Hgt;
             discriminate Hgt|]).
    discriminate Hc. }
  destruct H as (size & segs & Hout & Hfield & Hlen & Hall & Hfile);
    [vm_compute; reflexivity|].
  eexists _, _, out. split; [reflexivity|]. split; [reflexivity|].
  split; [vm_compute; reflexivity|]. split.
  - apply Hfile; [vm_compute; discriminate|exact Hlaid|vm_compute; reflexivity].
  - exists size, segs. split; [exact Hout|]. split; [exact Hlen|].
    intros k c seg Hc Hseg. apply (Hall k c seg Hc Hseg), Hlaid, Hc.
Defined.
(** ** Runs on concrete manifests *)

(** C2, on the minimal manifest without a resource map (UTF-8 pool, an
    application element without attributes): [patchManifest] does not
    terminate. After the string pool the loop injects a resource map,
    steps back, and meets the same chunk again; whatever the fuel, the
    run is cut off, it neither returns nor raises. *)
Theorem minimal_no_resmap_never_returns fuel :
  run_patchManifest fuel Examples.minimal_no_resmap = OutOfFuel.
Proof.
  apply run_patchManifest_OutOfFuel.
  destruct (decide (fuel < 4)%nat) as [Hlt|Hge].
  { do 4 (destruct fuel as [|fuel]; [vm_compute; reflexivity|]). lia. }
  replace fuel with (4 + (fuel - 4))%nat by lia.
  generalize (fuel - 4)%nat. clear. intros k.
  destruct (locateDebuggable Examples.minimal_no_resmap 4 initial)
    as [[v s]| |] eqn:E; [|vm_compute in E; discriminate..].
  unfold patchManifest.
  erewrite bind_eval by (by apply locateDebuggable_more_fuel).
  vm_compute in E. injection E as <- <-.
  rewrite decide_False by (vm_compute; congruence).
  unfold slowPath. cbv zeta.
  do 4 (erewrite bind_eval by (vm_compute; reflexivity)).
  erewrite (rebuild_loop_stringpool _ (3 + k))
    by first [done | vm_compute; reflexivity].
  apply rebuild_loop_injects_forever; vm_compute; done.
Qed.

(** C3, on a manifest whose application element has an attribute with a
    name index outside the resource map: [readResId] returns [None] and
    the comparison with 0x0101000F raises [TypeError]. *)
Theorem unmapped_attribute_raises :
  run_patchManifest 5 Examples.unmapped_attribute = Raise TypeError.
Proof. vm_compute. reflexivity. Qed.

(** C4, on a manifest whose string pool has one style: the rewrite of the
    style record raises [TypeError]. *)
Theorem styled_pool_raises :
  run_patchManifest 5 Examples.styled = Raise TypeError.
Proof. vm_compute. reflexivity. Qed.

(** C6, on a manifest with a UTF-8 string pool: the first run succeeds,
    the second run on its output raises. The string inserted by the first
    run has one length byte where UTF-8 strings have two, so the second
    run reads 'd' as the byte length of the string. *)
Theorem utf8_second_run_raises :
  match run_patchManifest 5 (Examples.not_debuggable true) with
  | Ok out =>
      run_patchManifest 5 out = Raise (Exception "String not terminated by NULL")
  | _ => False
  end.
Proof. vm_compute. reflexivity. Qed.

(** C7 does not hold as stated: a manifest with a chunk whose chunkSize
    (8) is smaller than its headerSize (100) and a chunk whose chunkSize
    (1000) runs past the end of the 288 byte stream is scanned and
    patched without an error. *)
Lemma odd_sizes_accepted :
  len (Examples.odd_sizes 0x12 0) = 288
  ∧ scan 6 (Examples.odd_sizes 0x12 0) ≫= (λ chunks, Ok (drop 3 chunks))
    = Ok [ {| startOffset := 256;
              commonHeader := {| type := 0x200; headerSize := 100; chunkSize := 8 |} |};
           {| startOffset := 264;
              commonHeader := {| type := 0x103; headerSize := 16; chunkSize := 1000 |} |} ]
  ∧ run_patchManifest 6 (Examples.odd_sizes 0x12 0)
    = Ok (Examples.odd_sizes 0x12 0xFFFFFFFF).
Proof. repeat split; vm_compute; reflexivity. Qed.

(** C9 does not hold as stated: the fast path copies its input, size
    fields included. On a manifest followed by three stray bytes the
    output is 283 bytes long and its file header says 280. *)
Lemma trailing_fragment_header_mismatch :
  match run_patchManifest 5 Examples.trailing_fragment with
  | Ok out => chunkSize_field out = 280 ∧ len out = 283
  | _ => False
  end.
Proof. vm_compute. done. Qed.

(** ** [patchManifestByFilename] *)

(** C10: when [patchManifest] raises, [patchManifestByFilename] raises
    the same exception and leaves every file as it was, the one at the
    output path included; the output file is written only when
    [patchManifest] has returned, and then holds what it wrote. *)
Theorem patchManifestByFilename_atomic fuel fnIn fnOut
  (fs : gmap string (list byte)) input :
  fs !! fnIn = Some input →
  (∀ e, run_patchManifest fuel input = Raise e →
        patchManifestByFilename fuel fnIn fnOut fs = (Raise e, fs))
  ∧ (∀ out, run_patchManifest fuel input = Ok out →
            patchManifestByFilename fuel fnIn fnOut fs = (Ok (), <[fnOut := out]> fs)).
Proof.
  intros Hin.
  unfold patchManifestByFilename, mbind, IO_bind, open_rb, in_memory.
  rewrite Hin. split.
  - by intros e ->.
  - intros out ->. unfold open_wb, file_write.
    rewrite lookup_insert_eq. simpl. by rewrite insert_insert_eq.
Qed.

Lemma patchManifestByFilename_atomic_witness :
  patchManifestByFilename 5 "in.xml" "out.xml" {[ "in.xml" := Examples.styled ]}
  = (Raise TypeError, {[ "in.xml" := Examples.styled ]}).
Proof.
  apply (patchManifestByFilename_atomic 5 "in.xml" "out.xml"
           {[ "in.xml" := Examples.styled ]} Examples.styled).
  - apply lookup_singleton_eq.
  - vm_compute. reflexivity.
Defined.
(** * Properties of the single functions *)

(** ** Readers and writers as equations *)

Lemma read_eq input n s :
  0 ≤ n →
  read input n s
  = let bs := take (Z.to_nat n) (drop (Z.to_nat (fIn_pos s)) input) in
    Ok (bs, State (fIn_pos s + len bs) (fOut s) (stdout s)).
Proof.
  intros. unfold read.
  rewrite (decide_False (P := n < -1)) by lia.
  by rewrite (decide_False (P := n = -1)) by lia.
Qed.

Lemma read_exact_eq input n s :
  0 ≤ n → 0 ≤ fIn_pos s → fIn_pos s + n ≤ len input →
  read input n s
  = Ok (take (Z.to_nat n) (drop (Z.to_nat (fIn_pos s)) input),
        State (fIn_pos s + n) (fOut s) (stdout s)).
Proof.
  intros. rewrite read_eq by done. cbv zeta. by rewrite length_read by done.
Qed.

Lemma copy_exact_eq input n s :
  0 ≤ n → 0 ≤ fIn_pos s → fIn_pos s + n ≤ len input →
  (read input n ≫= write) s
  = Ok ((), State (fIn_pos s + n)
              (fOut s ++ take (Z.to_nat n) (drop (Z.to_nat (fIn_pos s)) input))
              (stdout s)).
Proof.
  intros. rewrite copy_eq by done. cbv zeta. by rewrite length_read by done.
Qed.

Lemma readType1_eq input c s :
  0 ≤ fIn_pos s →
  readType1 input c (Z.of_nat (fmt_size c)) s
  = if decide (fIn_pos s + Z.of_nat (fmt_size c) ≤ len input) then
      Ok (le_decode (take (fmt_size c) (drop (Z.to_nat (fIn_pos s)) input)),
          State (fIn_pos s + Z.of_nat (fmt_size c)) (fOut s) (stdout s))
    else Raise struct_error.
Proof.
  intros Hpos. unfold readType1.
  assert (0 < fmt_size c)%nat as Hsize by (destruct c; simpl; lia).
  unfold mbind at 1, M_bind at 1. rewrite read_eq by lia. cbv zeta.
  replace (Z.to_nat (1 * Z.of_nat (fmt_size c))) with (fmt_size c) by lia.
  unfold mbind, M_bind, lift, unpack.
  unfold calcsize. cbn [fmap list_fmap sum_list sum_list_with].
  rewrite Nat.add_0_r. unfold id.
  set (bs := take (fmt_size c) (drop (Z.to_nat (fIn_pos s)) input)).
  assert (length bs = Nat.min (fmt_size c) (length input - Z.to_nat (fIn_pos s)))
    as Hlen by (subst bs; by rewrite length_take, length_drop).
  destruct (decide (fIn_pos s + Z.of_nat (fmt_size c) ≤ len input)) as [Hin|Hout].
  - rewrite decide_True by (unfold len in Hin; lia).
    cbn [unpack_fields]. unfold mret, M_ret.
    rewrite (take_ge bs) by lia. unfold len. do 3 f_equal. unfold len in Hin. lia.
  - rewrite decide_False by (unfold len in Hout; lia). done.
Qed.

Lemma readInt_eq input s :
  0 ≤ fIn_pos s → fIn_pos s + 4 ≤ len input →
  readInt input s
  = Ok (u32_at input (fIn_pos s), State (fIn_pos s + 4) (fOut s) (stdout s)).
Proof.
  intros Hpos Hend. unfold readInt.
  rewrite (readType1_eq input uI) by done. by rewrite decide_True by done.
Qed.

Lemma readInt_short input s :
  0 ≤ fIn_pos s → len input < fIn_pos s + 4 →
  readInt input s = Raise struct_error.
Proof.
  intros Hpos Hend. unfold readInt.
  rewrite (readType1_eq input uI) by done.
  by rewrite decide_False by (change (Z.of_nat (fmt_size uI)) with 4; lia).
Qed.

Lemma u32_at_range input p : 0 ≤ u32_at input p < 4294967296.
Proof.
  unfold u32_at. pose proof (le_decode_range (take 4 (drop (Z.to_nat p) input))) as H.
  assert (len (take 4 (drop (Z.to_nat p) input)) ≤ 4) as Hlen
    by (unfold len; rewrite length_take; lia).
  assert (256 ^ len (take 4 (drop (Z.to_nat p) input)) ≤ 256 ^ 4)
    by (apply Z.pow_le_mono_r; [lia|done]).
  change (256 ^ 4) with 4294967296 in *. lia.
Qed.

Lemma u16_at_range input p : 0 ≤ u16_at input p < 65536.
Proof.
  unfold u16_at. pose proof (le_decode_range (take 2 (drop (Z.to_nat p) input))) as H.
  assert (len (take 2 (drop (Z.to_nat p) input)) ≤ 2) as Hlen
    by (unfold len; rewrite length_take; lia).
  assert (256 ^ len (take 2 (drop (Z.to_nat p) input)) ≤ 256 ^ 2)
    by (apply Z.pow_le_mono_r; [lia|done]).
  change (256 ^ 2) with 65536 in *. lia.
Qed.

Lemma fits_iff c v : fits c v = true ↔ 0 ≤ v < 2 ^ (8 * Z.of_nat (fmt_size c)).
Proof. unfold fits. rewrite andb_true_iff, Z.leb_le, Z.ltb_lt. done. Qed.

Lemma write_pack_uI_eq v s :
  0 ≤ v < 4294967296 →
  write_pack [uI] [v] s
  = Ok ((), State (fIn_pos s) (fOut s ++ le_encode 4 v) (stdout s)).
Proof.
  intros Hv. unfold write_pack. cbn [pack].
  rewrite (proj2 (fits_iff uI v)) by (change (2 ^ (8 * Z.of_nat (fmt_size uI))) with 4294967296; lia).
  unfold mbind, M_bind, lift, result_bind, write. cbn [fmt_size]. by rewrite app_nil_r.
Qed.

Lemma shifted_range cmp n : 0 ≤ n < 4294967296 → 0 ≤ shifted cmp n < 4294967296.
Proof. unfold shifted. case_decide; lia. Qed.

Lemma patchStringRef_eq input cmp s :
  0 ≤ fIn_pos s → fIn_pos s + 4 ≤ len input →
  patchStringRef input cmp s
  = Ok ((), State (fIn_pos s + 4)
              (fOut s ++ le_encode 4 (shifted cmp (u32_at input (fIn_pos s))))
              (stdout s)).
Proof.
  intros Hpos Hend. unfold patchStringRef.
  erewrite bind_eval by (by apply readInt_eq).
  rewrite write_pack_uI_eq; [done|].
  apply (shifted_range cmp), u32_at_range.
Qed.
(** ** What [patchManifest] rejects at once *)

(** X1. On a stream of fewer than 8 bytes, the empty one included,
    [readCommonHeader] returns [None] and [patchManifest] subscripts it:
    it raises [TypeError], whatever the fuel. *)
Theorem patchManifest_short_input input fuel :
  len input < 8 →
  patchManifest input fuel initial = Raise TypeError
  ∧ run_patchManifest fuel input = Raise TypeError.
Proof.
  intros Hlen.
  assert (patchManifest input fuel initial = Raise TypeError) as H.
  { unfold patchManifest, locateDebuggable.
    unfold mbind at 1, M_bind at 1. unfold mbind at 1, M_bind at 1.
    rewrite readCommonHeader_eq. cbv zeta. cbn [initial fIn_pos].
    change (Z.to_nat 0) with 0%nat. rewrite drop_0.
    rewrite decide_True by (unfold len in Hlen; lia). reflexivity. }
  split; [done|]. unfold run_patchManifest. by rewrite H.
Qed.

Lemma patchManifest_short_input_witness :
  run_patchManifest 0 [] = Raise TypeError
  ∧ run_patchManifest 5 [x03; x00; x08; x00; x00; x00; x00] = Raise TypeError.
Proof.
  split.
  - apply (patchManifest_short_input [] 0). unfold len. simpl. lia.
  - apply (patchManifest_short_input [x03; x00; x08; x00; x00; x00; x00] 5).
    unfold len. simpl. lia.
Defined.

(** X2. When the file header does not say that it is 8 bytes long,
    [patchManifest] raises "File header not of size 8!" before it looks
    at any chunk: whatever follows the header, and whatever the fuel. *)
Theorem patchManifest_file_header_size input fuel :
  8 ≤ len input →
  u16_at input 2 ≠ 8 →
  run_patchManifest fuel input = Raise (Exception "File header not of size 8!").
Proof.
  intros Hlen Hsize.
  unfold run_patchManifest, patchManifest, locateDebuggable.
  unfold mbind at 2, M_bind at 1. unfold mbind at 2, M_bind at 1.
  unfold mbind at 2, M_bind at 1.
  rewrite readCommonHeader_eq. cbv zeta. cbn [initial fIn_pos].
  change (Z.to_nat 0) with 0%nat. rewrite drop_0.
  rewrite decide_False by (unfold len in Hlen; lia).
  unfold mret, M_ret.
  rewrite decide_True; [done|].
  unfold COMMON_HEADER_LEN. cbn [headerSize header_of_bytes]. exact Hsize.
Qed.

Lemma patchManifest_file_header_size_witness :
  run_patchManifest 0 [x03; x00; x0c; x00; x0c; x00; x00; x00; x00; x00; x00; x00]
  = Raise (Exception "File header not of size 8!").
Proof.
  apply patchManifest_file_header_size.
  - unfold len. simpl. lia.
  - vm_compute. discriminate.
Defined.
(** ** [findStringpoolAndResmap] *)

Lemma findStringpoolAndResmap_loop_spec chunks :
  ∀ i sp0 rm0,
    0 ≤ i →
    let pools := (if decide (sp0 >= 0) then [sp0] else [])
                 ++ indices_of CHUNK_TYPE_STRINGPOOL i chunks in
    let maps := (if decide (rm0 >= 0) then [rm0] else [])
                ++ indices_of CHUNK_TYPE_RESMAP i chunks in
    match findStringpoolAndResmap_loop chunks i sp0 rm0 with
    | Ok (sp, rm) =>
        (pools = [sp] ∨ pools = [] ∧ sp = sp0)
        ∧ (maps = [rm] ∨ maps = [] ∧ rm = rm0)
    | Raise e =>
        (2 ≤ length pools)%nat ∧ e = Exception "More than one string pool!"
        ∨ (2 ≤ length maps)%nat ∧ e = Exception "More than one resmap!"
    | OutOfFuel => False
    end.
Proof.
  induction chunks as [|c chunks IH]; intros i sp0 rm0 Hi; cbv zeta.
  { cbn [findStringpoolAndResmap_loop indices_of]. rewrite !app_nil_r.
    split; case_decide; auto. }
  cbn [findStringpoolAndResmap_loop indices_of]. cbv zeta.
  destruct (decide (type (commonHeader c) = CHUNK_TYPE_STRINGPOOL)) as [Hsp|Hsp].
  - rewrite (decide_False (P := type (commonHeader c) = CHUNK_TYPE_RESMAP))
      by (rewrite Hsp; done).
    destruct (decide (sp0 >= 0)) as [Hseen|Hseen].
    + left. split; [|done]. simpl. lia.
    + specialize (IH (i + 1) i rm0 ltac:(lia)). cbv zeta in IH.
      rewrite decide_True in IH by lia.
      destruct (findStringpoolAndResmap_loop chunks (i + 1) i rm0)
        as [[sp rm]|e|]; [|done..].
      destruct IH as [Hpools Hmaps]. split; [|done].
      destruct Hpools as [Hpools|[Hpools _]]; [by left|done].
  - destruct (decide (type (commonHeader c) = CHUNK_TYPE_RESMAP)) as [Hrm|Hrm].
    + destruct (decide (rm0 >= 0)) as [Hseen|Hseen].
      * right. split; [|done]. simpl. lia.
      * specialize (IH (i + 1) sp0 i ltac:(lia)). cbv zeta in IH.
        rewrite (decide_True (P := i >= 0)) in IH by lia.
        destruct (findStringpoolAndResmap_loop chunks (i + 1) sp0 i)
          as [[sp rm]|e|]; [|done..].
        destruct IH as [Hpools Hmaps]. split; [done|].
        destruct Hmaps as [Hmaps|[Hmaps _]]; [by left|done].
    + apply (IH (i + 1) sp0 rm0). lia.
Qed.

Lemma indices_of_ge t chunks : ∀ i, Forall (λ k, i ≤ k) (indices_of t i chunks).
Proof.
  induction chunks as [|c chunks IH]; intros i; cbn [indices_of]; [done|].
  apply Forall_app. split.
  - case_decide; [|done]. by apply Forall_singleton.
  - eapply Forall_impl; [apply IH|]. simpl. lia.
Qed.

(** X3. [findStringpoolAndResmap] returns exactly when the chunks hold
    one string pool and at most one resource map: it then returns the
    index of the pool and the index of the map, -1 when there is none.
    With a second pool or a second map it raises "More than one string
    pool!" or "More than one resmap!" (whichever it meets first), and with
    no pool (and at most one map) "No string pool found!". *)
Theorem findStringpoolAndResmap_spec chunks :
  let pools := indices_of CHUNK_TYPE_STRINGPOOL 0 chunks in
  let maps := indices_of CHUNK_TYPE_RESMAP 0 chunks in
  match findStringpoolAndResmap chunks with
  | Ok (sp, rm) => pools = [sp] ∧ (maps = [rm] ∨ maps = [] ∧ rm = -1)
  | Raise e =>
      (2 ≤ length pools)%nat ∧ e = Exception "More than one string pool!"
      ∨ (2 ≤ length maps)%nat ∧ e = Exception "More than one resmap!"
      ∨ pools = [] ∧ (length maps ≤ 1)%nat ∧ e = Exception "No string pool found!"
  | OutOfFuel => False
  end.
Proof.
  cbv zeta. unfold findStringpoolAndResmap, mbind, result_bind.
  pose proof (findStringpoolAndResmap_loop_spec chunks 0 (-1) (-1) (Z.le_refl 0)) as H.
  cbv zeta in H. rewrite !(decide_False (P := -1 >= 0)) in H by lia.
  rewrite !app_nil_l in H.
  destruct (findStringpoolAndResmap_loop chunks 0 (-1) (-1)) as [[sp rm]|e|];
    [|tauto|done].
  destruct H as [Hpools Hmaps]. case_decide as Hneg.
  - right. right. destruct Hpools as [Hpools|[Hpools _]].
    + exfalso. pose proof (indices_of_ge CHUNK_TYPE_STRINGPOOL chunks 0) as Hge.
      rewrite Hpools in Hge. rewrite Forall_singleton in Hge. lia.
    + split; [done|]. split; [|done].
      destruct Hmaps as [->|[-> _]]; simpl; lia.
  - destruct Hpools as [Hpools|[_ ->]]; [|lia]. done.
Qed.
(** ** [readChunks]: what it records and when it returns *)

Lemma chunkSize_at input p :
  0 ≤ p →
  chunkSize (header_of_bytes (drop (Z.to_nat p) input)) = u32_at input (p + 4).
Proof.
  intros Hp. cbn [chunkSize header_of_bytes]. unfold u32_at.
  rewrite drop_drop. do 3 f_equal. lia.
Qed.

Lemma readChunks_loop_tiled input fuel :
  ∀ acc s chunks s',
    0 ≤ fIn_pos s →
    readChunks_loop input fuel acc (fIn_pos s) s = Ok (chunks, s') →
    ∃ new,
      chunks = acc ++ new
      ∧ tiled (fIn_pos s) new
      ∧ Forall (chunk_in input) new
      ∧ len input < chunks_end (fIn_pos s) new + 8
      ∧ fIn_pos s' = Z.max (chunks_end (fIn_pos s) new) (len input)
      ∧ fOut s' = fOut s.
Proof.
  induction fuel as [|fuel IH]; intros acc s chunks s' Hpos H; [done|].
  rewrite readChunks_loop_S in H by done. cbv zeta in H.
  case_decide as Hrest.
  - injection H as <- <-. exists []. rewrite app_nil_r. cbn [tiled chunks_end fIn_pos fOut].
    rewrite length_drop in Hrest. unfold len. rewrite length_drop.
    repeat split; [done|lia|lia].
  - set (rest := drop (Z.to_nat (fIn_pos s)) input) in *.
    set (c := {| startOffset := fIn_pos s; commonHeader := header_of_bytes rest |}) in *.
    set (next := fIn_pos s + chunkSize (header_of_bytes rest)) in *.
    apply (IH _ (State next (fOut s) (stdout s))) in H
      as (new & -> & Htiled & Hin & Hend & Hfinal & Hout);
      [|by apply next_chunk_nonneg].
    cbn [fIn_pos fOut] in *.
    exists (c :: new). rewrite <- app_assoc. cbn [tiled chunks_end app].
    split; [done|]. split; [by split|]. split; [|done].
    constructor; [|done]. subst c. unfold chunk_in. cbn [startOffset commonHeader].
    fold rest. split; [done|]. split; [lia|done].
Qed.

(** X4. The chunks that [readChunks] records lie one after the other
    from the position it starts at: each begins where the one before
    ends by its chunkSize, each holds the header that stands at its
    offset, and after the last one fewer than 8 bytes are left. The
    stream is left at the end of the last chunk, or at the end of the
    input when that is further on, and nothing is written. *)
Theorem readChunks_tiled input fuel s chunks s' :
  0 ≤ fIn_pos s →
  readChunks input fuel s = Ok (chunks, s') →
  tiled (fIn_pos s) chunks
  ∧ Forall (chunk_in input) chunks
  ∧ len input < chunks_end (fIn_pos s) chunks + 8
  ∧ fIn_pos s' = Z.max (chunks_end (fIn_pos s) chunks) (len input)
  ∧ fOut s' = fOut s.
Proof.
  intros Hpos H. unfold readChunks in H. bind_inv H as Htell.
  apply tell_Ok in Htell as [-> ->].
  apply readChunks_loop_tiled in H as (new & -> & H); done.
Qed.

Lemma readChunks_tiled_witness :
  ∃ chunks s',
    readChunks (Examples.not_debuggable false) 5 (State 8 [] []) = Ok (chunks, s')
    ∧ length chunks = 4%nat
    ∧ tiled 8 chunks
    ∧ Forall (chunk_in (Examples.not_debuggable false)) chunks
    ∧ chunks_end 8 chunks = len (Examples.not_debuggable false)
    ∧ fIn_pos s' = len (Examples.not_debuggable false).
Proof.
  destruct (readChunks (Examples.not_debuggable false) 5 (State 8 [] []))
    as [[chunks s']| |] eqn:H; [|vm_compute in H; discriminate..].
  exists chunks, s'. split; [done|].
  destruct (readChunks_tiled (Examples.not_debuggable false) 5 (State 8 [] [])
              chunks s' ltac:(simpl; lia) H)
    as (Htiled & Hin & Hend & Hfinal & _).
  vm_compute in H. injection H as <- <-.
  split; [reflexivity|]. split; [exact Htiled|]. split; [exact Hin|].
  split; [vm_compute; reflexivity|]. rewrite Hfinal. vm_compute. reflexivity.
Defined.

Lemma readChunks_loop_empty_chunk input :
  ∀ fuel acc s,
    0 ≤ fIn_pos s → fIn_pos s + 8 ≤ len input →
    u32_at input (fIn_pos s + 4) = 0 →
    readChunks_loop input fuel acc (fIn_pos s) s = OutOfFuel.
Proof.
  induction fuel as [|fuel IH]; intros acc s Hpos Hhdr Hzero; [done|].
  rewrite readChunks_loop_S by done. cbv zeta.
  rewrite decide_False by (rewrite length_drop; unfold len in Hhdr; lia).
  rewrite chunkSize_at, Hzero, Z.add_0_r by done.
  by apply (IH _ (State (fIn_pos s) (fOut s) (stdout s))).
Qed.

Lemma readChunks_loop_meets_empty_chunk input p :
  meets_empty_chunk input p →
  ∀ fuel acc s,
    fIn_pos s = p → 0 ≤ p →
    readChunks_loop input fuel acc p s = OutOfFuel.
Proof.
  induction 1 as [p Hhdr Hzero|p Hhdr Hmeets IH]; intros fuel acc s <- Hpos.
  - by apply readChunks_loop_empty_chunk.
  - destruct fuel as [|fuel]; [done|].
    rewrite readChunks_loop_S by done. cbv zeta.
    rewrite decide_False by (rewrite length_drop; unfold len in Hhdr; lia).
    rewrite chunkSize_at by done.
    apply (IH fuel _ (State (fIn_pos s + u32_at input (fIn_pos s + 4)) (fOut s) (stdout s)));
      [done|]. pose proof (u32_at_range input (fIn_pos s + 4)). lia.
Qed.

Lemma readChunks_loop_returns input :
  ∀ fuel acc s,
    0 ≤ fIn_pos s →
    (Z.to_nat (len input - fIn_pos s) < fuel)%nat →
    ¬ meets_empty_chunk input (fIn_pos s) →
    ∃ chunks s', readChunks_loop input fuel acc (fIn_pos s) s = Ok (chunks, s').
Proof.
  induction fuel as [|fuel IH]; intros acc s Hpos Hfuel Hnone; [lia|].
  rewrite readChunks_loop_S by done. cbv zeta.
  case_decide as Hrest; [by eauto|].
  rewrite length_drop in Hrest.
  assert (fIn_pos s + 8 ≤ len input) as Hhdr by (unfold len; lia).
  rewrite chunkSize_at by done.
  pose proof (u32_at_range input (fIn_pos s + 4)) as Hrange.
  assert (u32_at input (fIn_pos s + 4) ≠ 0) as Hsize.
  { intros Hzero. apply Hnone. by apply empty_here. }
  apply (IH _ (State (fIn_pos s + u32_at input (fIn_pos s + 4)) (fOut s) (stdout s)));
    cbn [fIn_pos]; [lia|lia|].
  intros Hmeets. apply Hnone. by apply empty_later.
Qed.

(** X5. [readChunks] returns exactly when, going from header to header,
    it never comes to a chunk whose chunkSize is 0: on such a chunk the
    stream stays where it is and the loop records the chunk again and
    again, so the scan, and [patchManifest] with it, does not return
    whatever the fuel; otherwise as many rounds as the input has bytes,
    and one more, are enough. *)
Theorem readChunks_returns_iff input s :
  0 ≤ fIn_pos s →
  (meets_empty_chunk input (fIn_pos s) →
   ∀ fuel, readChunks input fuel s = OutOfFuel)
  ∧ (¬ meets_empty_chunk input (fIn_pos s) →
     ∃ chunks s',
       readChunks input (S (Z.to_nat (len input))) s = Ok (chunks, s'))
  ∧ (fIn_pos s = 0 → 8 ≤ len input → u16_at input 2 = 8 →
     meets_empty_chunk input 8 →
     ∀ fuel, patchManifest input fuel s = OutOfFuel).
Proof.
  intros Hpos. split; [|split].
  - intros Hmeets fuel. unfold readChunks, mbind, M_bind, tell.
    by eapply readChunks_loop_meets_empty_chunk.
  - intros Hnone. unfold readChunks, mbind, M_bind, tell.
    apply readChunks_loop_returns; [done|lia|done].
  - intros Hstart Hlen Hsize Hmeets fuel.
    unfold patchManifest, locateDebuggable.
    unfold mbind at 1, M_bind at 1. unfold mbind at 1, M_bind at 1.
    unfold mbind at 1, M_bind at 1.
    rewrite readCommonHeader_eq. cbv zeta. rewrite Hstart.
    change (Z.to_nat 0) with 0%nat. rewrite drop_0.
    rewrite decide_False by (unfold len in Hlen; lia).
    unfold mret, M_ret.
    rewrite decide_False
      by (unfold COMMON_HEADER_LEN; cbn [headerSize header_of_bytes]; intros Hne;
          by apply Hne).
    unfold mbind at 1, M_bind at 1. unfold readChunks.
    unfold mbind at 1, M_bind at 1. unfold tell. cbn [fIn_pos].
    change (0 + 8) with 8.
    by rewrite (readChunks_loop_meets_empty_chunk input 8 Hmeets).
Qed.

Lemma readChunks_returns_iff_witness :
  let input :=
    [x03; x00; x08; x00; x14; x00; x00; x00;
     x01; x00; x1c; x00; x00; x00; x00; x00; x00; x00; x00; x00] in
  (∀ fuel, readChunks input fuel (State 8 [] []) = OutOfFuel)
  ∧ (∀ fuel, patchManifest input fuel initial = OutOfFuel)
  ∧ ∃ chunks s',
      readChunks (Examples.not_debuggable false)
        (S (Z.to_nat (len (Examples.not_debuggable false)))) (State 8 [] [])
      = Ok (chunks, s').
Proof.
  intros input.
  assert (meets_empty_chunk input 8) as Hmeets.
  { apply empty_here; [unfold len; simpl; lia|reflexivity]. }
  split; [|split].
  - apply (readChunks_returns_iff input (State 8 [] [])); [simpl; lia|exact Hmeets].
  - apply (readChunks_returns_iff input initial);
      [simpl; lia|reflexivity|unfold len; simpl; lia|reflexivity|exact Hmeets].
  - apply (readChunks_returns_iff _ (State 8 [] [])); [simpl; lia|].
    cbn [fIn_pos]. intros Hmeets'.
    assert (∀ p, meets_empty_chunk (Examples.not_debuggable false) p →
                 p = 8 ∨ p = 176 ∨ p = 188 ∨ p = 244 ∨ p = 268 → False) as Hnone.
    { clear. induction 1 as [p Hhdr Hzero|p Hhdr Hnext IH]; intros Hp.
      - destruct Hp as [-> | [-> | [-> | [-> | ->]]]];
          vm_compute in Hzero, Hhdr; first [discriminate Hzero | by apply Hhdr].
      - apply IH.
        destruct Hp as [-> | [-> | [-> | [-> | ->]]]];
          [vm_compute; auto..|]. vm_compute in Hhdr. by destruct Hhdr. }
    apply (Hnone 8 Hmeets'). by left.
Defined.
(** ** [decodeLength] *)

Lemma lor_shiftl_add a m l :
  0 ≤ m → 0 ≤ l < 2 ^ m → Z.lor (Z.shiftl a m) l = a * 2 ^ m + l.
Proof.
  intros Hm Hl. rewrite Z.shiftl_mul_pow2 by done.
  assert (Z.land (a * 2 ^ m) l = 0) as Hdisjoint.
  { apply Z.bits_inj'. intros n Hn. rewrite Z.land_spec, Z.bits_0.
    destruct (decide (n < m)).
    - by rewrite Z.mul_pow2_bits_low by lia.
    - rewrite (proj1 (Z.bounded_iff_bits_nonneg m l ltac:(lia) ltac:(lia)))
        by lia. apply andb_false_r. }
  by rewrite <- Z.lxor_lor, <- Z.add_nocarry_lxor.
Qed.

Lemma testbit_high k x :
  0 ≤ k → 0 ≤ x < 2 ^ (k + 1) → Z.testbit x k = bool_decide (2 ^ k ≤ x).
Proof.
  intros Hk Hx. rewrite Z.pow_add_r, Z.pow_1_r in Hx by lia.
  assert (0 < 2 ^ k) as Hpos by (apply Z.pow_pos_nonneg; lia).
  rewrite Z.testbit_eqb by done. case_bool_decide as Hhigh.
  - rewrite <- (Z.div_unique x (2 ^ k) 1 (x - 2 ^ k)); [done|lia|lia].
  - by rewrite Z.div_small by lia.
Qed.

Lemma highbit k x :
  0 ≤ k → 0 ≤ x < 2 ^ (k + 1) →
  (Z.land x (2 ^ k) ≠ 0 ↔ 2 ^ k ≤ x)
  ∧ (2 ^ k ≤ x → Z.land x (Z.lnot (2 ^ k)) = x - 2 ^ k).
Proof.
  intros Hk Hx. pose proof (testbit_high k x Hk Hx) as Hbit.
  assert (0 < 2 ^ k) as Hpos by (apply Z.pow_pos_nonneg; lia).
  split.
  - split.
    + intros Hland. destruct (decide (2 ^ k ≤ x)) as [|Hlow]; [done|].
      rewrite bool_decide_eq_false_2 in Hbit by done.
      exfalso. apply Hland. apply Z.bits_inj'. intros n Hn.
      rewrite Z.land_spec, Z.bits_0, Z.pow2_bits_eqb by done.
      destruct (Z.eqb_spec k n) as [<-|]; [by rewrite Hbit|apply andb_false_r].
    + intros Hhigh Hland. rewrite bool_decide_eq_true_2 in Hbit by done.
      assert (Z.testbit (Z.land x (2 ^ k)) k = true) as Hk'.
      { rewrite Z.land_spec, Hbit, Z.pow2_bits_true; done. }
      by rewrite Hland, Z.bits_0 in Hk'.
  - intros Hhigh. rewrite bool_decide_eq_true_2 in Hbit by done.
    rewrite <- Z.ldiff_land. symmetry. apply Z.sub_nocarry_ldiff.
    apply Z.bits_inj'. intros n Hn.
    rewrite Z.ldiff_spec, Z.bits_0, Z.pow2_bits_eqb by done.
    destruct (Z.eqb_spec k n) as [<-|]; [by rewrite Hbit|done].
Qed.

Lemma uint_at_range n input p : 0 ≤ n → 0 ≤ uint_at n input p < 2 ^ (8 * n).
Proof.
  intros Hn. unfold uint_at.
  set (bs := take (Z.to_nat n) (drop (Z.to_nat p) input)).
  pose proof (le_decode_range bs) as H.
  assert (len bs ≤ n) as Hlen by (unfold len; subst bs; rewrite length_take; lia).
  assert (256 ^ len bs ≤ 256 ^ n) by (apply Z.pow_le_mono_r; [lia|done]).
  replace (2 ^ (8 * n)) with (256 ^ n); [lia|].
  change 256 with (2 ^ 8). by rewrite <- Z.pow_mul_r by lia.
Qed.

Lemma decodeLength_eq input sizeof_char s :
  sizeof_char = 1 ∨ sizeof_char = 2 →
  0 ≤ fIn_pos s →
  let p := fIn_pos s in
  let high := 2 ^ (8 * sizeof_char - 1) in
  let length1 := uint_at sizeof_char input p in
  let length2 := uint_at sizeof_char input (p + sizeof_char) in
  decodeLength input sizeof_char s
  = if decide (len input < p + 2 * sizeof_char) then Raise struct_error
    else if decide (high ≤ length1) then
      Ok (((length1 - high) * 2 ^ (8 * sizeof_char) + length2, 2 * sizeof_char),
          State (p + 2 * sizeof_char) (fOut s) (stdout s))
    else Ok ((length1, sizeof_char), State (p + sizeof_char) (fOut s) (stdout s)).
Proof.
  intros Hsize Hpos p high length1 length2.
  pose proof (uint_at_range sizeof_char input p ltac:(lia)) as Hrange1.
  pose proof (uint_at_range sizeof_char input (p + sizeof_char) ltac:(lia)) as Hrange2.
  fold length1 in Hrange1. fold length2 in Hrange2.
  unfold decodeLength. cbv zeta.
  unfold mbind at 1, M_bind at 1. rewrite read_eq by lia. cbv zeta.
  fold p.
  set (bs := take (Z.to_nat (sizeof_char * 2)) (drop (Z.to_nat p) input)).
  assert (length bs = Nat.min (Z.to_nat (sizeof_char * 2)) (length input - Z.to_nat p))
    as Hlen by (subst bs; by rewrite length_take, length_drop).
  assert (calcsize (replicate 2 (if decide (sizeof_char = 1) then uB else uH))
          = Z.to_nat (sizeof_char * 2)) as Hcalc.
  { destruct Hsize as [-> | ->]; reflexivity. }
  unfold mbind at 1, M_bind at 1. unfold lift, unpack. rewrite Hcalc.
  destruct (decide (len input < p + 2 * sizeof_char)) as [Hshort|Hlong].
  { rewrite decide_False by (unfold len in Hshort; lia). done. }
  rewrite decide_True by (unfold len in Hlong; lia).
  assert (unpack_fields (replicate 2 (if decide (sizeof_char = 1) then uB else uH)) bs
          = [length1; length2]) as ->.
  { subst bs length1 length2. unfold uint_at.
    destruct Hsize as [-> | ->]; cbn [replicate unpack_fields fmt_size decide];
      simpl Z.to_nat.
    - rewrite (decide_True (P := 1 = 1)) by done. cbn [unpack_fields fmt_size].
      rewrite take_take, take_drop_take, drop_drop by lia.
      by replace (Z.to_nat (p + 1)) with (Z.to_nat p + 1)%nat by lia.
    - rewrite (decide_False (P := 2 = 1)) by done. cbn [unpack_fields fmt_size].
      rewrite take_take, take_drop_take, drop_drop by lia.
      by replace (Z.to_nat (p + 2)) with (Z.to_nat p + 2)%nat by lia. }
  assert (0 ≤ 8 * sizeof_char - 1) as Hk by lia.
  assert (Z.shiftl 128 (8 * (sizeof_char - 1)) = high) as ->.
  { subst high. by destruct Hsize as [-> | ->]. }
  assert (0 ≤ length1 < 2 ^ (8 * sizeof_char - 1 + 1)) as Hrange1'
    by (by replace (8 * sizeof_char - 1 + 1) with (8 * sizeof_char) by lia).
  destruct (highbit (8 * sizeof_char - 1) length1 Hk Hrange1') as [Hbit Hclear].
  fold high in Hbit, Hclear.
  assert (high * 2 = 2 ^ (8 * sizeof_char)) as Hhigh.
  { subst high. by destruct Hsize as [-> | ->]. }
  assert (0 < high) as Hhigh_pos by (subst high; apply Z.pow_pos_nonneg; lia).
  assert (len bs = 2 * sizeof_char) as Hbs by (unfold len in *; lia).
  destruct (decide (high ≤ length1)) as [Hset|Hunset].
  - rewrite decide_True by (by apply Hbit).
    rewrite Hclear by done.
    rewrite lor_shiftl_add by lia.
    unfold mbind, M_bind, mret, M_ret. cbn [fIn_pos fOut stdout]. rewrite Hbs.
    assert ((length1 - high) * 2 ^ (8 * sizeof_char) + length2
            < 2 ^ (8 * sizeof_char) * high) as Hbound
      by (clear -Hrange1 Hrange2 Hhigh Hset Hhigh_pos;
          set (P := 2 ^ (8 * sizeof_char)) in *; nia).
    subst high. unfold assert.
    destruct Hsize as [-> | ->].
    + rewrite (decide_True (P := 1 = 1)) by done.
      change (2 ^ (8 * 1 - 1)) with 128 in *. change (2 ^ (8 * 1)) with 256 in *.
      by rewrite bool_decide_eq_true_2 by lia.
    + rewrite (decide_False (P := 2 = 1)) by done.
      change (2 ^ (8 * 2 - 1)) with 32768 in *. change (2 ^ (8 * 2)) with 65536 in *.
      by rewrite bool_decide_eq_true_2 by lia.
  - rewrite decide_False by (intros Hland; by apply Hunset, Hbit).
    rewrite bind_assoc.
    erewrite bind_eval by (apply seek_cur_eq; cbn [fIn_pos]; rewrite Hbs; lia).
    cbn [fIn_pos fOut stdout]. unfold mbind, M_bind, mret, M_ret. rewrite Hbs.
    subst high. unfold assert.
    destruct Hsize as [-> | ->].
    + rewrite (decide_True (P := 1 = 1)) by done.
      change (2 ^ (8 * 1 - 1)) with 128 in *. change (2 ^ (8 * 1)) with 256 in *.
      rewrite bool_decide_eq_true_2 by lia. do 3 f_equal. lia.
    + rewrite (decide_False (P := 2 = 1)) by done.
      change (2 ^ (8 * 2 - 1)) with 32768 in *. change (2 ^ (8 * 2)) with 65536 in *.
      rewrite bool_decide_eq_true_2 by lia. do 3 f_equal. lia.
Qed.

(** X6. [decodeLength] fails only when fewer than two units are left to
    read, with [struct.error], even where the length takes one unit and
    that unit is there; its asserts never fail and the seek back never
    leaves the stream. Otherwise the length is the first unit when its
    high bit is clear, and the first unit without its high bit followed
    by the second one when it is set; the stream has moved by the
    [bytesRead] that is returned, and nothing is written. *)
Theorem decodeLength_spec input sizeof_char s :
  sizeof_char = 1 ∨ sizeof_char = 2 →
  0 ≤ fIn_pos s →
  let p := fIn_pos s in
  let high := 2 ^ (8 * sizeof_char - 1) in
  let length1 := uint_at sizeof_char input p in
  let length2 := uint_at sizeof_char input (p + sizeof_char) in
  decodeLength input sizeof_char s
  = if decide (len input < p + 2 * sizeof_char) then Raise struct_error
    else if decide (high ≤ length1) then
      Ok (((length1 - high) * 2 ^ (8 * sizeof_char) + length2, 2 * sizeof_char),
          State (p + 2 * sizeof_char) (fOut s) (stdout s))
    else Ok ((length1, sizeof_char), State (p + sizeof_char) (fOut s) (stdout s)).
Proof. apply decodeLength_eq. Qed.

Lemma decodeLength_spec_witness :
  decodeLength [x85; x03] 1 initial = Ok ((1283, 2), State 2 [] [])
  ∧ decodeLength [x05] 1 initial = Raise struct_error
  ∧ decodeLength [x0a; x00; x64; x00] 2 initial = Ok ((10, 2), State 2 [] []).
Proof.
  split; [|split].
  - rewrite (decodeLength_spec [x85; x03] 1 initial (or_introl eq_refl) (Z.le_refl 0)).
    reflexivity.
  - rewrite (decodeLength_spec [x05] 1 initial (or_introl eq_refl) (Z.le_refl 0)).
    reflexivity.
  - rewrite (decodeLength_spec [x0a; x00; x64; x00] 2 initial
               (or_intror eq_refl) (Z.le_refl 0)).
    reflexivity.
Defined.

(** ** [readString] *)

Lemma isInt32NotNegative_spec v :
  0 ≤ v < 4294967296 → isInt32NotNegative v = bool_decide (v < 2147483648).
Proof.
  intros Hv. unfold isInt32NotNegative.
  change (Z.shiftl 1 31) with (2 ^ 31). rewrite Z.land_comm.
  destruct (highbit 31 v) as [Hbit _]; [done|done|].
  change (2 ^ 31) with 2147483648 in *.
  case_bool_decide as Hland; case_bool_decide as Hlow; try done.
  - lia.
  - apply Hbit in Hland. lia.
Qed.

(** X7. [readString] returns [None], without moving the stream, for an
    index that is not below stringCount and for one with bit 31 set,
    0xFFFFFFFF (no string) among them, whatever stringCount is. When it
    returns a string it has put the stream back where it was, and it
    never writes. *)
Theorem readString_out_of_range input strPoolInfo idx s :
  0 ≤ idx < 4294967296 →
  (2147483648 ≤ idx ∨ stringCount strPoolInfo ≤ idx →
   readString input strPoolInfo idx s = Ok (None, s))
  ∧ (∀ name s', readString input strPoolInfo idx s = Ok (name, s') → s' = s).
Proof.
  intros Hidx. split.
  - intros Hout. unfold readString, mbind, M_bind, tell.
    rewrite isInt32NotNegative_spec by done.
    destruct Hout as [Hhigh|Hcount].
    + by rewrite bool_decide_eq_false_2 by lia.
    + rewrite (bool_decide_eq_true_2 (idx >= stringCount strPoolInfo)) by lia.
      by rewrite orb_true_r.
  - intros name s'. apply readString_restores.
Qed.

Lemma readString_out_of_range_witness :
  readString (Examples.not_debuggable false)
    {| sp_chunkInfo :=
         {| startOffset := 8;
            commonHeader := {| type := 1; headerSize := 28; chunkSize := 168 |} |};
       stringCount := 3; styleCount := 0; flags := 0;
       stringsStart := 40; stylesStart := 0; isUtf8 := false |}
    0xFFFFFFFF (State 200 [] [])
  = Ok (None, State 200 [] []).
Proof.
  apply readString_out_of_range; [lia|]. left. lia.
Defined.
(** ** [readResId] and [patchResmap] *)

Lemma state_eta s : State (fIn_pos s) (fOut s) (stdout s) = s.
Proof. by destruct s. Qed.

Lemma readResId_eq input c l idx s :
  0 ≤ fIn_pos s →
  0 ≤ startOffset c + headerSize (commonHeader c) + 4 * idx →
  let offset := startOffset c + headerSize (commonHeader c) + 4 * idx in
  readResId input {| rm_chunkInfo := Some c; rm_len := l |} idx s
  = if decide (l ≤ idx) then Ok (None, s)
    else if decide (offset + 4 ≤ len input) then Ok (Some (u32_at input offset), s)
    else Raise struct_error.
Proof.
  intros Hpos Hoffset offset. unfold readResId. cbn [rm_len rm_chunkInfo].
  destruct (decide (l ≤ idx)) as [Hout|Hin].
  { by rewrite decide_True by lia. }
  rewrite decide_False by lia.
  unfold mbind at 1, M_bind at 1. unfold tell. unfold UINT32_LENGTH.
  replace (startOffset c + headerSize (commonHeader c) + idx * 4) with offset
    by (subst offset; lia).
  erewrite bind_eval by (by apply seek_set_eq).
  destruct (decide (offset + 4 ≤ len input)) as [Hword|Hshort].
  - erewrite bind_eval by (by apply readInt_eq).
    erewrite bind_eval by (by apply seek_set_eq).
    cbn [fIn_pos fOut stdout]. unfold mret, M_ret. by rewrite state_eta.
  - unfold mbind, M_bind. by rewrite readInt_short by (cbn [fIn_pos]; lia).
Qed.

(** X8. [readResId] answers [None] for an index that is not below the
    length of the resource map, without touching the stream. For an index
    below it, it answers the 32-bit word that stands at that index behind
    the chunk's header and puts the stream back where it was, or raises
    [struct.error] when that word is not inside the input. *)
Theorem readResId_spec input c l idx s :
  0 ≤ fIn_pos s →
  0 ≤ startOffset c + headerSize (commonHeader c) + 4 * idx →
  let offset := startOffset c + headerSize (commonHeader c) + 4 * idx in
  readResId input {| rm_chunkInfo := Some c; rm_len := l |} idx s
  = if decide (l ≤ idx) then Ok (None, s)
    else if decide (offset + 4 ≤ len input) then Ok (Some (u32_at input offset), s)
    else Raise struct_error.
Proof. apply readResId_eq. Qed.

Lemma readResId_spec_witness :
  let c := {| startOffset := 176;
              commonHeader := {| type := 384; headerSize := 8; chunkSize := 12 |} |} in
  readResId (Examples.not_debuggable false) {| rm_chunkInfo := Some c; rm_len := 1 |}
    0 (State 200 [] [])
  = Ok (Some 0x01010001, State 200 [] [])
  ∧ readResId (Examples.not_debuggable false) {| rm_chunkInfo := Some c; rm_len := 1 |}
      1 (State 200 [] [])
    = Ok (None, State 200 [] []).
Proof.
  intros c. split.
  - rewrite (readResId_spec _ c 1 0 (State 200 [] [])) by (simpl; lia).
    reflexivity.
  - rewrite (readResId_spec _ c 1 1 (State 200 [] [])) by (simpl; lia).
    reflexivity.
Defined.

Lemma header_of_bytes_range bs :
  let header := header_of_bytes bs in
  0 ≤ type header < 65536 ∧ 0 ≤ headerSize header < 65536
  ∧ 0 ≤ chunkSize header < 4294967296.
Proof.
  cbv zeta. cbn [type headerSize chunkSize header_of_bytes].
  pose proof (uint_at_range 2 bs 0 ltac:(lia)) as Htype.
  pose proof (uint_at_range 2 bs 2 ltac:(lia)) as Hsize.
  pose proof (uint_at_range 4 bs 4 ltac:(lia)) as Hchunk.
  unfold uint_at in *. simpl Z.to_nat in *. rewrite drop_0 in Htype.
  change (2 ^ (8 * 2)) with 65536 in *. change (2 ^ (8 * 4)) with 4294967296 in *.
  done.
Qed.

Lemma chunk_in_range input c :
  chunk_in input c →
  0 ≤ type (commonHeader c) < 65536 ∧ 0 ≤ headerSize (commonHeader c) < 65536
  ∧ 0 ≤ chunkSize (commonHeader c) < 4294967296.
Proof. intros (_ & _ & ->). apply header_of_bytes_range. Qed.

Lemma writeCommonHeader_eq type headerSize size s :
  0 ≤ type < 65536 → 0 ≤ headerSize < 65536 → 0 ≤ size < 4294967296 →
  writeCommonHeader type headerSize size s
  = Ok ((), State (fIn_pos s) (fOut s ++ header_bytes type headerSize size) (stdout s)).
Proof.
  intros Htype Hsize Hchunk. unfold writeCommonHeader. cbn [pack].
  rewrite !(proj2 (fits_iff _ _)) by (simpl; lia).
  unfold mbind, M_bind, lift, result_bind, write, header_bytes. cbn [fmt_size].
  by rewrite app_nil_r.
Qed.

Lemma u32_at_app_l (a b : list byte) k :
  0 ≤ k → k + 4 ≤ len a → u32_at (a ++ b) k = u32_at a k.
Proof.
  intros Hk Hend. unfold u32_at. unfold len in Hend. f_equal.
  rewrite drop_app_le by lia. rewrite take_app_le; [done|].
  rewrite length_drop. lia.
Qed.

Lemma u32_at_app_r (a b : list byte) k :
  0 ≤ k → u32_at (a ++ b) (len a + k) = u32_at b k.
Proof.
  intros Hk. unfold u32_at, len. f_equal.
  replace (Z.to_nat (Z.of_nat (length a) + k)) with (length a + Z.to_nat k)%nat by lia.
  by rewrite drop_app_add.
Qed.

Lemma u32_at_skip (a b : list byte) n k :
  len a = n → 0 ≤ k → u32_at (a ++ b) (n + k) = u32_at b k.
Proof. intros <- Hk. by apply u32_at_app_r. Qed.

Lemma len_header_bytes type headerSize size :
  len (header_bytes type headerSize size) = 8.
Proof. unfold len. by rewrite length_header_bytes. Qed.

Lemma u32_at_take_drop input start n k :
  0 ≤ start → 0 ≤ k → k + 4 ≤ n →
  u32_at (take (Z.to_nat n) (drop (Z.to_nat start) input)) k
  = u32_at input (start + k).
Proof.
  intros Hstart Hk Hend. unfold u32_at. f_equal.
  rewrite take_drop_take, drop_drop by lia. do 2 f_equal. lia.
Qed.

Lemma u32_at_le_encode v : 0 ≤ v < 4294967296 → u32_at (le_encode 4 v) 0 = v.
Proof.
  intros Hv. unfold u32_at. change (Z.to_nat 0) with 0%nat. rewrite drop_0.
  rewrite take_ge by (by rewrite length_le_encode). by apply (le_decode_encode 4).
Qed.

Lemma patchResmap_eq input c l s :
  chunk_in input c →
  let start := startOffset c in
  let header := commonHeader c in
  8 ≤ chunkSize header → start + chunkSize header ≤ len input →
  chunkSize header + 4 < 4294967296 →
  patchResmap input {| rm_chunkInfo := Some c; rm_len := l |} s
  = Ok ((), State (start + chunkSize header)
              (fOut s
               ++ header_bytes (type header) (headerSize header) (chunkSize header + 4)
               ++ take (Z.to_nat (chunkSize header - 8)) (drop (Z.to_nat (start + 8)) input)
               ++ le_encode 4 DEBUGGABLE_RES_ID)
              (stdout s)).
Proof.
  intros Hin start header Hsize Hend Hfits. subst start header.
  pose proof (chunk_in_range _ _ Hin) as (Htype & Hhs & Hcs).
  pose proof Hin as (Hstart & _).
  unfold patchResmap. cbn [rm_chunkInfo]. cbv zeta.
  unfold COMMON_HEADER_LEN, UINT32_LENGTH.
  erewrite bind_eval by (apply seek_set_eq; lia).
  erewrite bind_eval by (apply writeCommonHeader_eq; lia).
  erewrite bind_eval by (apply copy_exact_eq; cbn [fIn_pos]; lia).
  rewrite write_pack_uI_eq by done. cbn [fIn_pos fOut stdout].
  do 3 f_equal; [lia|]. by rewrite <- !app_assoc.
Qed.

Lemma patchResmap_read_back input c l s (before after : list byte) :
  chunk_in input c →
  let start := startOffset c in
  let header := commonHeader c in
  let D := calculateResMapLength c in
  8 ≤ headerSize header ≤ chunkSize header →
  (chunkSize header - headerSize header) `mod` 4 = 0 →
  start + chunkSize header ≤ len input →
  chunkSize header + 4 < 4294967296 →
  ∃ seg,
    patchResmap input {| rm_chunkInfo := Some c; rm_len := l |} s
    = Ok ((), State (start + chunkSize header) (fOut s ++ seg) (stdout s))
    ∧ let out := before ++ seg ++ after in
      let c' := {| startOffset := len before;
                   commonHeader := header_of_bytes seg |} in
      let map' := {| rm_chunkInfo := Some c';
                     rm_len := calculateResMapLength c' |} in
      commonHeader c'
      = {| type := type header; headerSize := headerSize header;
           chunkSize := chunkSize header + 4 |}
      ∧ len seg = chunkSize header + 4
      ∧ rm_len map' = D + 1
      ∧ ∀ t, 0 ≤ fIn_pos t →
          readResId out map' D t = Ok (Some DEBUGGABLE_RES_ID, t)
          ∧ ∀ i, 0 ≤ i < D →
              readResId out map' i t
              = Ok (Some (u32_at input (start + headerSize header + 4 * i)), t).
Proof.
  intros Hin start header D Hhs Hmod Hend Hfits.
  pose proof (chunk_in_range _ _ Hin) as (Htype & Hhs' & Hcs).
  fold header in Htype, Hhs', Hcs.
  pose proof Hin as (Hstart & _). fold start in Hstart.
  set (copied := take (Z.to_nat (chunkSize header - 8)) (drop (Z.to_nat (start + 8)) input)).
  set (seg := header_bytes (type header) (headerSize header) (chunkSize header + 4)
              ++ copied ++ le_encode 4 DEBUGGABLE_RES_ID).
  assert (len copied = chunkSize header - 8) as Hcopied.
  { subst copied. apply length_read; lia. }
  assert (len seg = chunkSize header + 4) as Hseg.
  { subst seg. unfold len in *.
    rewrite !length_app, length_header_bytes, length_le_encode. lia. }
  assert (header_of_bytes seg
          = {| type := type header; headerSize := headerSize header;
               chunkSize := chunkSize header + 4 |}) as Hheader.
  { subst seg. unfold header_bytes, header_of_bytes. rewrite <- !app_assoc.
    rewrite take_app_length' by (by rewrite length_le_encode).
    rewrite drop_app_length' by (by rewrite length_le_encode).
    rewrite take_app_length' by (by rewrite length_le_encode).
    rewrite (app_assoc (le_encode 2 _)).
    rewrite drop_app_length' by (by rewrite length_app, !length_le_encode).
    rewrite take_app_length' by (by rewrite length_le_encode).
    by rewrite !le_decode_encode by (simpl; lia). }
  assert (chunkSize header - headerSize header = 4 * D) as HD.
  { subst D. unfold calculateResMapLength, UINT32_LENGTH. fold header.
    pose proof (Z.div_mod (chunkSize header - headerSize header) 4). lia. }
  exists seg. split; [apply patchResmap_eq; [done|subst start header; lia..]|].
  cbv zeta. split; [done|]. split; [done|]. rewrite Hheader.
  assert (calculateResMapLength
            {| startOffset := len before;
               commonHeader := {| type := type header; headerSize := headerSize header;
                                  chunkSize := chunkSize header + 4 |} |} = D + 1) as HD'.
  { unfold calculateResMapLength, UINT32_LENGTH. cbn [commonHeader chunkSize headerSize].
    replace (chunkSize header + 4 - headerSize header) with ((D + 1) * 4) by lia.
    by rewrite Z.div_mul. }
  cbn [rm_len]. split; [done|]. rewrite HD'. intros t Ht. split.
  - rewrite readResId_eq by (cbn [startOffset commonHeader headerSize]; unfold len; lia).
    cbv zeta. cbn [startOffset commonHeader headerSize].
    rewrite decide_False by lia.
    replace (len before + headerSize header + 4 * D)
      with (len before + (8 + (len copied + 0))) by lia.
    rewrite u32_at_app_r by lia. rewrite u32_at_app_l by lia.
    rewrite decide_True by (unfold len in *; rewrite !length_app; lia).
    subst seg. rewrite (u32_at_skip _ _ 8) by (by rewrite ?len_header_bytes; lia).
    rewrite u32_at_app_r by lia. by rewrite u32_at_le_encode.
  - intros i Hi.
    rewrite readResId_eq by (cbn [startOffset commonHeader headerSize]; unfold len; lia).
    cbv zeta. cbn [startOffset commonHeader headerSize].
    rewrite decide_False by lia.
    replace (len before + headerSize header + 4 * i)
      with (len before + (8 + (headerSize header - 8 + 4 * i))) by lia.
    rewrite u32_at_app_r by lia. rewrite u32_at_app_l by lia.
    rewrite decide_True by (unfold len in *; rewrite !length_app; lia).
    subst seg. rewrite (u32_at_skip _ _ 8) by (by rewrite ?len_header_bytes; lia).
    rewrite u32_at_app_l by lia.
    subst copied. rewrite u32_at_take_drop by lia. do 4 f_equal. lia.
Qed.

(** X9. [patchResmap] adds one entry to the resource map. The chunk it
    writes has the header of the input with a chunkSize 4 larger, and
    read with [readResId], wherever that chunk stands in a file, it has
    the resource id 0x0101000F at the index that was the length of the
    map and the resource ids of the input at the indices below it. This
    needs the entries of the input map to fill its chunk (the chunkSize
    is the headerSize and a multiple of 4): otherwise the new id is not
    at an index. *)
Theorem patchResmap_adds_entry input c l s (before after : list byte) :
  chunk_in input c →
  let start := startOffset c in
  let header := commonHeader c in
  let D := calculateResMapLength c in
  8 ≤ headerSize header ≤ chunkSize header →
  (chunkSize header - headerSize header) `mod` 4 = 0 →
  start + chunkSize header ≤ len input →
  chunkSize header + 4 < 4294967296 →
  ∃ seg,
    patchResmap input {| rm_chunkInfo := Some c; rm_len := l |} s
    = Ok ((), State (start + chunkSize header) (fOut s ++ seg) (stdout s))
    ∧ let out := before ++ seg ++ after in
      let c' := {| startOffset := len before;
                   commonHeader := header_of_bytes seg |} in
      let map' := {| rm_chunkInfo := Some c';
                     rm_len := calculateResMapLength c' |} in
      commonHeader c'
      = {| type := type header; headerSize := headerSize header;
           chunkSize := chunkSize header + 4 |}
      ∧ len seg = chunkSize header + 4
      ∧ rm_len map' = D + 1
      ∧ ∀ t, 0 ≤ fIn_pos t →
          readResId out map' D t = Ok (Some DEBUGGABLE_RES_ID, t)
          ∧ ∀ i, 0 ≤ i < D →
              readResId out map' i t
              = Ok (Some (u32_at input (start + headerSize header + 4 * i)), t).
Proof. apply patchResmap_read_back. Qed.

Lemma patchResmap_adds_entry_witness :
  let input := Examples.not_debuggable false in
  let c := {| startOffset := 176;
              commonHeader := {| type := 384; headerSize := 8; chunkSize := 12 |} |} in
  ∃ seg,
    patchResmap input {| rm_chunkInfo := Some c; rm_len := 1 |} initial
    = Ok ((), State 188 seg [])
    ∧ len seg = 16
    ∧ let map' := {| rm_chunkInfo :=
                       Some {| startOffset := 0; commonHeader := header_of_bytes seg |};
                     rm_len := 2 |} in
      readResId seg map' 1 initial = Ok (Some DEBUGGABLE_RES_ID, initial)
      ∧ readResId seg map' 0 initial = Ok (Some 0x01010001, initial).
Proof.
  intros input c.
  assert (chunk_in input c) as Hin.
  { split; [simpl; lia|]. split; [|vm_compute; reflexivity].
    apply Nat.leb_le. vm_compute. reflexivity. }
  destruct (patchResmap_adds_entry input c 1 initial [] [] Hin)
    as (seg & Hrun & Hheader & Hlen & Hmap & Hread).
  - simpl. lia.
  - reflexivity.
  - vm_compute. discriminate.
  - simpl. lia.
  - exists seg. cbv zeta in Hmap, Hread. rewrite app_nil_l, app_nil_r in Hread.
    cbn [rm_len] in Hmap. rewrite Hmap in Hread.
    destruct (Hread initial (Z.le_refl 0)) as [Hnew Hold].
    split; [exact Hrun|]. split; [exact Hlen|]. split; [exact Hnew|].
    apply (Hold 0). vm_compute. split; [discriminate|reflexivity].
Defined.
(** ** [patchAttribute] *)

Lemma unpack_eq fs bs :
  length bs = calcsize fs → unpack fs bs = Ok (unpack_fields fs bs).
Proof. intros Hlen. unfold unpack. by rewrite decide_True. Qed.

Lemma le_decode_fits c (bs : list byte) :
  length bs = fmt_size c → fits c (le_decode bs) = true.
Proof.
  intros Hlen. apply fits_iff. pose proof (le_decode_range bs) as Hrange.
  unfold len in Hrange. rewrite Hlen in Hrange.
  replace (2 ^ (8 * Z.of_nat (fmt_size c))) with (256 ^ Z.of_nat (fmt_size c)); [done|].
  change 256 with (2 ^ 8). by rewrite <- Z.pow_mul_r by lia.
Qed.

(** What [unpack] has read, [pack] writes back. *)
Lemma pack_unpack_fields fs :
  ∀ bs, length bs = calcsize fs → pack fs (unpack_fields fs bs) = Ok bs.
Proof.
  induction fs as [|c fs IH]; intros bs Hlen.
  - by destruct bs.
  - unfold calcsize in Hlen. rewrite fmap_cons in Hlen. cbn [sum_list sum_list_with] in Hlen.
    fold (calcsize fs) in Hlen. unfold id in Hlen.
    cbn [unpack_fields pack].
    rewrite le_decode_fits by (rewrite length_take; lia).
    rewrite IH by (rewrite length_drop; lia).
    unfold mbind, result_bind.
    rewrite <- (length_take_le bs (fmt_size c)) at 1 by lia.
    by rewrite le_encode_decode, take_drop.
Qed.

Lemma write_pack_unpack fs bs s :
  length bs = calcsize fs →
  write_pack fs (unpack_fields fs bs) s
  = Ok ((), State (fIn_pos s) (fOut s ++ bs) (stdout s)).
Proof.
  intros Hlen. unfold write_pack. by rewrite pack_unpack_fields.
Qed.

Lemma slice_of_take (input : list byte) (p n j k : nat) :
  (j + k ≤ n)%nat →
  take k (drop j (take n (drop p input))) = take k (drop (p + j) input).
Proof. intros. by rewrite take_drop_take, drop_drop by lia. Qed.

Lemma patchAttribute_eq input d s :
  0 ≤ fIn_pos s → fIn_pos s + 20 ≤ len input →
  patchAttribute input d s
  = Ok ((), State (fIn_pos s + 20)
              (fOut s ++ patched_bytes d (take 20 (drop (Z.to_nat (fIn_pos s)) input)))
              (stdout s)).
Proof.
  intros Hpos Hend. unfold patchAttribute.
  erewrite bind_eval by (apply patchStringRef_eq; lia). cbn [fIn_pos fOut stdout].
  erewrite bind_eval by (apply patchStringRef_eq; cbn [fIn_pos]; lia).
  cbn [fIn_pos fOut stdout].
  erewrite bind_eval by (apply patchStringRef_eq; cbn [fIn_pos]; lia).
  cbn [fIn_pos fOut stdout].
  erewrite bind_eval by (apply read_exact_eq; cbn [fIn_pos]; lia).
  cbn [fIn_pos fOut stdout].
  set (p := Z.to_nat (fIn_pos s)).
  replace (Z.to_nat (fIn_pos s + 4 + 4 + 4)) with (p + 12)%nat by lia.
  change (Z.to_nat 4) with 4%nat.
  assert (length (take 4 (drop (p + 12) input)) = 4%nat) as Hlen4.
  { rewrite length_take, length_drop. unfold len in Hend. lia. }
  erewrite bind_eval by (by apply lift_eq, unpack_eq).
  cbn [unpack_fields fmt_size].
  erewrite bind_eval by (by apply (write_pack_unpack [uH; uB; uB])).
  cbn [fIn_pos fOut stdout].
  unfold patched_bytes. unfold u32_at.
  rewrite !(slice_of_take input p 20) by lia.
  rewrite drop_drop, take_drop_take, drop_drop by lia.
  replace (Z.to_nat (fIn_pos s + 4)) with (p + 4)%nat by lia.
  replace (Z.to_nat (fIn_pos s + 4 + 4)) with (p + 8)%nat by lia.
  rewrite (take_take _ 4 20). change (4 `min` 20)%nat with 4%nat.
  replace (p + 12 + (2 + 1))%nat with (p + 15)%nat by lia.
  fold p.
  case_decide as Htype.
  - rewrite patchStringRef_eq by (cbn [fIn_pos]; lia). cbn [fIn_pos fOut stdout].
    unfold u32_at.
    replace (Z.to_nat (fIn_pos s + 4 + 4 + 4 + 4)) with (p + 16)%nat by lia.
    do 3 f_equal; [lia|]. by rewrite <- !app_assoc.
  - unfold UINT32_LENGTH.
    rewrite copy_exact_eq by (cbn [fIn_pos]; lia). cbn [fIn_pos fOut stdout].
    change (Z.to_nat 4) with 4%nat.
    replace (Z.to_nat (fIn_pos s + 4 + 4 + 4 + 4)) with (p + 16)%nat by lia.
    do 3 f_equal; [lia|]. by rewrite <- !app_assoc.
Qed.

Lemma attribute_of_bytes_parts offset (a b c d e : list byte) :
  length a = 4%nat → length b = 4%nat → length c = 4%nat → length d = 4%nat →
  length e = 4%nat →
  attribute_of_bytes offset (a ++ b ++ c ++ d ++ e)
  = {| attr_startOffset := offset;
       nsId := le_decode a;
       nameId := le_decode b;
       rawVal := le_decode c;
       size := le_decode (take 2 d);
       dataType := le_decode (drop 3 d);
       data := le_decode e |}.
Proof.
  intros Ha Hb Hc Hd He.
  destruct a as [|? [|? [|? [|? [|? ?]]]]]; try done.
  destruct b as [|? [|? [|? [|? [|? ?]]]]]; try done.
  destruct c as [|? [|? [|? [|? [|? ?]]]]]; try done.
  destruct d as [|? [|? [|? [|? [|? ?]]]]]; try done.
  destruct e as [|? [|? [|? [|? [|? ?]]]]]; try done.
Qed.

Lemma le_decode_4_range (bs : list byte) :
  length bs = 4%nat → 0 ≤ le_decode bs < 4294967296.
Proof.
  intros Hlen. pose proof (le_decode_range bs) as H. unfold len in H.
  rewrite Hlen in H. by change (256 ^ Z.of_nat 4) with 4294967296 in H.
Qed.

Lemma le_decode_shifted cmp (bs : list byte) :
  length bs = 4%nat →
  le_decode (le_encode 4 (shifted cmp (le_decode bs))) = shifted cmp (le_decode bs).
Proof.
  intros Hlen. apply (le_decode_encode 4).
  change (256 ^ Z.of_nat 4) with 4294967296.
  by apply shifted_range, le_decode_4_range.
Qed.

Lemma patched_bytes_spec cmp (bs : list byte) :
  length bs = 20%nat →
  length (patched_bytes cmp bs) = 20%nat
  ∧ (∀ offset,
       attribute_of_bytes offset (patched_bytes cmp bs)
       = patched cmp (attribute_of_bytes offset bs))
  ∧ take 3 (drop 12 (patched_bytes cmp bs)) = take 3 (drop 12 bs).
Proof.
  intros Hlen.
  destruct bs as [|b0 bs]; [done|].
  do 19 (destruct bs as [|? bs]; [done|]). destruct bs; [|done].
  unfold patched_bytes. cbn [take drop firstn skipn].
  set (ns := [b0; b; b1; b2]). set (name := [b3; b4; b5; b6]).
  set (raw := [b7; b8; b9; b10]). set (val := [b15; b16; b17; b18]).
  set (out_val := if decide (le_decode [b14] = 3)
                  then le_encode 4 (shifted cmp (le_decode val)) else val).
  assert (length out_val = 4%nat) as Hval.
  { subst out_val. case_decide; [by rewrite length_le_encode|done]. }
  split; [|split].
  - by rewrite !length_app, !length_le_encode, Hval.
  - intros offset.
    rewrite attribute_of_bytes_parts by (by rewrite ?length_le_encode).
    rewrite !le_decode_shifted by done.
    unfold patched, attribute_of_bytes. cbn [take drop firstn skipn].
    cbn [attr_startOffset nsId nameId rawVal size dataType data].
    subst ns name raw val out_val. cbn [take drop firstn skipn]. f_equal.
    case_decide; [by apply (le_decode_shifted cmp [b15; b16; b17; b18])|done].
  - rewrite !app_assoc, <- (app_assoc _ _ out_val).
    by rewrite drop_app_length' by (by rewrite !length_app, !length_le_encode).
Qed.

(** X10. Where 20 bytes are left, [patchAttribute] never fails: it
    writes 20 bytes that decode to the attribute of the input with the
    references to strings (namespace, name, raw value) shifted, that is
    incremented when they are not 0xFFFFFFFF and not below the index of
    the inserted string, the data word shifted too when, and only when,
    the attribute is typed as a string (0x03), and the size, the reserved
    byte and the type as they were. *)
Theorem patchAttribute_spec input d s :
  0 ≤ fIn_pos s → fIn_pos s + 20 ≤ len input →
  let record := take 20 (drop (Z.to_nat (fIn_pos s)) input) in
  ∃ out,
    patchAttribute input d s
    = Ok ((), State (fIn_pos s + 20) (fOut s ++ out) (stdout s))
    ∧ length out = 20%nat
    ∧ (∀ offset,
         attribute_of_bytes offset out = patched d (attribute_of_bytes offset record))
    ∧ take 3 (drop 12 out) = take 3 (drop 12 record).
Proof.
  intros Hpos Hend record. exists (patched_bytes d record).
  split; [by apply patchAttribute_eq|].
  apply patched_bytes_spec. subst record.
  rewrite length_take, length_drop. unfold len in Hend. lia.
Qed.

Lemma patchAttribute_spec_witness :
  ∃ out,
    patchAttribute (Examples.attribute 1 5 0xFFFFFFFF 0x03 2) 2 initial
    = Ok ((), State 20 out [])
    ∧ attribute_of_bytes 0 out
      = {| attr_startOffset := 0; nsId := 1; nameId := 6; rawVal := 0xFFFFFFFF;
           size := 8; dataType := 3; data := 3 |}.
Proof.
  destruct (patchAttribute_spec (Examples.attribute 1 5 0xFFFFFFFF 0x03 2) 2 initial)
    as (out & Hrun & _ & Hdecode & _).
  - simpl. lia.
  - vm_compute. discriminate.
  - exists out. split; [exact Hrun|]. rewrite Hdecode. vm_compute. reflexivity.
Defined.

(** ** [patchChunk] on a chunk that is not an XML node *)

Lemma take_split {A} (l : list A) (a b : nat) :
  take a l ++ take b (drop a l) = take (a + b) l.
Proof.
  revert l. induction a as [|a IH]; intros [|x l]; simpl; try done.
  - by rewrite take_nil.
  - by rewrite IH.
Qed.

(** X11. A chunk whose type is not one of an XML node (0x100 to 0x17f),
    a second resource map or a chunk of an unknown type for instance, is
    copied byte for byte when it lies inside the input and has at least
    its 8 bytes of header. With a chunkSize below 7 the copy asks for a
    negative number of bytes and [read] raises [ValueError]; with a
    chunkSize of 7 it asks for -1 bytes, which reads to the end of the
    file: the header is followed by all the rest of the input. *)
Theorem patchChunk_other_chunk input c d s :
  chunk_in input c →
  ¬ (0x100 ≤ type (commonHeader c) ≤ 0x17f) →
  let start := startOffset c in
  let size := chunkSize (commonHeader c) in
  (8 ≤ size → start + size ≤ len input →
   patchChunk input c d s
   = Ok ((), State (start + size)
               (fOut s ++ take (Z.to_nat size) (drop (Z.to_nat start) input))
               (stdout s)))
  ∧ (size = 7 →
     patchChunk input c d s
     = Ok ((), State (len input) (fOut s ++ drop (Z.to_nat start) input) (stdout s)))
  ∧ (size < 7 → patchChunk input c d s = Raise ValueError).
Proof.
  intros Hin Htype start size. pose proof Hin as (Hstart & Hheader & _).
  rewrite length_drop in Hheader.
  assert (patchChunk input c d s
          = (read input (size - 8) ≫= write)
              (State (start + 8) (fOut s ++ take 8 (drop (Z.to_nat start) input))
                 (stdout s))) as ->.
  { unfold patchChunk. cbv zeta. unfold COMMON_HEADER_LEN.
    erewrite bind_eval by (by apply seek_set_eq).
    erewrite bind_eval by (apply copy_exact_eq; cbn [fIn_pos]; unfold len; lia).
    by rewrite decide_False by lia. }
  split; [|split].
  - intros Hsize Hend.
    rewrite copy_exact_eq by (cbn [fIn_pos]; lia). cbn [fIn_pos fOut stdout].
    do 3 f_equal; [lia|]. rewrite <- app_assoc. f_equal.
    replace (Z.to_nat (start + 8)) with (Z.to_nat start + 8)%nat by lia.
    rewrite <- drop_drop, take_split. f_equal. lia.
  - intros Hsize. rewrite Hsize. change (7 - 8) with (-1).
    rewrite copy_all_eq. cbv zeta. cbn [fIn_pos fOut stdout].
    do 3 f_equal.
    + unfold len. rewrite length_drop. lia.
    + rewrite <- app_assoc. f_equal.
      replace (Z.to_nat (start + 8)) with (Z.to_nat start + 8)%nat by lia.
      by rewrite <- drop_drop, take_drop.
  - intros Hsize. unfold mbind, M_bind, read.
    by rewrite decide_True by lia.
Qed.

Lemma patchChunk_other_chunk_witness :
  let input := Examples.not_debuggable false in
  let c := {| startOffset := 176;
              commonHeader := {| type := 384; headerSize := 8; chunkSize := 12 |} |} in
  patchChunk input c 1 initial
  = Ok ((), State 188 (take 12 (drop 176 input)) []).
Proof.
  intros input c.
  apply (patchChunk_other_chunk input c 1 initial).
  - split; [simpl; lia|]. split; [|vm_compute; reflexivity].
    apply Nat.leb_le. vm_compute. reflexivity.
  - simpl. lia.
  - simpl. lia.
  - vm_compute. discriminate.
Defined.
(** ** [patchApplicationAttributes] *)

Lemma attribute_records_S input p n :
  0 ≤ p →
  attribute_records input p (S n)
  = take 20 (drop (Z.to_nat p) input) :: attribute_records input (p + 20) n.
Proof.
  intros Hp. unfold attribute_records. cbn [seq]. rewrite fmap_cons.
  rewrite Nat.mul_0_r, Nat.add_0_r. f_equal.
  rewrite <- fmap_S_seq, <- list_fmap_compose. apply list_fmap_ext.
  intros _ i _. simpl. do 2 f_equal. lia.
Qed.

Lemma record_name_at input p :
  0 ≤ p → p + 20 ≤ len input →
  record_name (take 20 (drop (Z.to_nat p) input)) = u32_at input (p + 4).
Proof.
  intros Hp Hend. unfold record_name, u32_at.
  rewrite take_drop_take, drop_drop by lia. do 3 f_equal. lia.
Qed.

Lemma write_debuggable_attribute_eq ns d s :
  0 ≤ ns < 4294967296 → 0 ≤ d < 4294967296 →
  write_debuggable_attribute ns d s
  = Ok ((), State (fIn_pos s) (fOut s ++ debuggable_record ns d) (stdout s)).
Proof.
  intros Hns Hd. unfold write_debuggable_attribute, write_pack.
  cbn [replicate pack]. rewrite !(proj2 (fits_iff _ _)) by (simpl; lia).
  unfold mbind, M_bind, lift, result_bind, write, debuggable_record. cbn [fmt_size].
  by rewrite app_nil_r.
Qed.

(** One round of the loop over the attributes, on an attribute whose
    name index has an entry in the resource map. *)
Lemma patchApplicationAttributes_loop_S input n c l d ns inserted s :
  0 ≤ fIn_pos s → fIn_pos s + 20 ≤ len input →
  0 ≤ startOffset c + headerSize (commonHeader c) →
  0 ≤ ns < 4294967296 → 0 ≤ d < 4294967296 →
  let record := take 20 (drop (Z.to_nat (fIn_pos s)) input) in
  mapped input c l record →
  let here := bool_decide (record_resId input c record > DEBUGGABLE_RES_ID)
              && negb inserted in
  patchApplicationAttributes_loop input (S n) {| rm_chunkInfo := Some c; rm_len := l |}
    d ns inserted s
  = patchApplicationAttributes_loop input n {| rm_chunkInfo := Some c; rm_len := l |}
      d ns (inserted || here)
      (State (fIn_pos s + 20)
         (fOut s ++ (if here then debuggable_record ns d else [])
          ++ patched_bytes d record)
         (stdout s)).
Proof.
  intros Hpos Hend Hmap Hns Hd record [Hname Hword] here.
  pose proof (u32_at_range input (fIn_pos s + 4)) as Hrange.
  subst here record. unfold record_resId. rewrite record_name_at in * by done.
  cbn [patchApplicationAttributes_loop]. unfold UINT32_LENGTH.
  erewrite bind_eval by (apply seek_cur_eq; lia).
  erewrite bind_eval by (apply readInt_eq; cbn [fIn_pos]; lia).
  cbn [fIn_pos fOut stdout].
  erewrite bind_eval.
  2:{ rewrite readResId_eq by (cbn [fIn_pos]; lia). cbv zeta.
      rewrite decide_False by lia. by rewrite decide_True by lia. }
  erewrite bind_eval by (by apply lift_eq).
  set (here := bool_decide _ && negb inserted). destruct here; cbv iota.
  - rewrite bind_assoc.
    erewrite bind_eval by (by apply write_debuggable_attribute_eq).
    cbn [fIn_pos fOut stdout].
    erewrite bind_eval by (by unfold mret, M_ret).
    erewrite bind_eval by (apply seek_cur_eq; cbn [fIn_pos]; lia).
    cbn [fIn_pos fOut stdout].
    erewrite bind_eval by (apply patchAttribute_eq; cbn [fIn_pos]; lia).
    cbn [fIn_pos fOut stdout]. rewrite orb_true_r.
    replace (fIn_pos s + 4 + 4 + -2 * 4) with (fIn_pos s) by lia.
    by rewrite <- !app_assoc.
  - erewrite bind_eval by (by unfold mret, M_ret).
    erewrite bind_eval by (apply seek_cur_eq; cbn [fIn_pos]; lia).
    cbn [fIn_pos fOut stdout].
    erewrite bind_eval by (apply patchAttribute_eq; cbn [fIn_pos]; lia).
    cbn [fIn_pos fOut stdout]. rewrite orb_false_r.
    replace (fIn_pos s + 4 + 4 + -2 * 4) with (fIn_pos s) by lia.
    by rewrite app_nil_l.
Qed.

Lemma patchApplicationAttributes_loop_inserted_eq input c l d ns n :
  ∀ s,
    0 ≤ fIn_pos s → fIn_pos s + 20 * Z.of_nat n ≤ len input →
    0 ≤ startOffset c + headerSize (commonHeader c) →
    0 ≤ ns < 4294967296 → 0 ≤ d < 4294967296 →
    Forall (mapped input c l) (attribute_records input (fIn_pos s) n) →
    patchApplicationAttributes_loop input n {| rm_chunkInfo := Some c; rm_len := l |}
      d ns true s
    = Ok (true,
          State (fIn_pos s + 20 * Z.of_nat n)
            (fOut s ++ concat (patched_bytes d <$> attribute_records input (fIn_pos s) n))
            (stdout s)).
Proof.
  induction n as [|n IH]; intros s Hpos Hend Hmap Hns Hd Hall.
  - cbn [patchApplicationAttributes_loop]. unfold mret, M_ret.
    rewrite Z.add_0_r. cbn [attribute_records seq fmap list_fmap concat].
    by rewrite app_nil_r, state_eta.
  - rewrite attribute_records_S in * by done.
    apply Forall_cons in Hall as [Hfirst Hrest].
    rewrite patchApplicationAttributes_loop_S by (done || lia).
    cbv zeta. rewrite andb_false_r. cbn [orb].
    rewrite IH by (cbn [fIn_pos]; done || lia).
    cbn [fIn_pos fOut stdout]. rewrite fmap_cons. cbn [concat].
    do 3 f_equal; [lia|]. by rewrite app_nil_l, <- !app_assoc.
Qed.

Lemma patchApplicationAttributes_loop_eq input c l d ns n :
  ∀ s,
    0 ≤ fIn_pos s → fIn_pos s + 20 * Z.of_nat n ≤ len input →
    0 ≤ startOffset c + headerSize (commonHeader c) →
    0 ≤ ns < 4294967296 → 0 ≤ d < 4294967296 →
    let records := attribute_records input (fIn_pos s) n in
    Forall (mapped input c l) records →
    let k := insertion_index (record_resId input c <$> records) in
    patchApplicationAttributes_loop input n {| rm_chunkInfo := Some c; rm_len := l |}
      d ns false s
    = Ok (bool_decide (k < n)%nat,
          State (fIn_pos s + 20 * Z.of_nat n)
            (fOut s ++ concat (patched_bytes d <$> take k records)
             ++ (if decide (k < n)%nat then debuggable_record ns d else [])
             ++ concat (patched_bytes d <$> drop k records))
            (stdout s)).
Proof.
  induction n as [|n IH]; intros s Hpos Hend Hmap Hns Hd records Hall k.
  - cbn [patchApplicationAttributes_loop]. unfold mret, M_ret.
    subst k records. cbn [attribute_records seq fmap list_fmap insertion_index].
    rewrite Z.add_0_r. cbn. by rewrite app_nil_r, state_eta.
  - subst k records. rewrite attribute_records_S in * by done.
    apply Forall_cons in Hall as [Hfirst Hrest].
    rewrite patchApplicationAttributes_loop_S by (done || lia).
    cbv zeta. rewrite andb_true_r, fmap_cons. cbn [insertion_index orb].
    set (record := take 20 (drop (Z.to_nat (fIn_pos s)) input)) in *.
    case_bool_decide as Hgreater.
    + rewrite decide_True by done.
      rewrite patchApplicationAttributes_loop_inserted_eq
        by (cbn [fIn_pos]; done || lia).
      cbn [fIn_pos fOut stdout take drop fmap list_fmap concat].
      rewrite bool_decide_eq_true_2, decide_True by lia.
      do 3 f_equal; [lia|]. by rewrite app_nil_l, <- !app_assoc.
    + rewrite decide_False by done.
      rewrite IH by (cbn [fIn_pos]; done || lia). cbn [fIn_pos fOut stdout].
      set (rest := attribute_records input (fIn_pos s + 20) n).
      set (k := insertion_index (record_resId input c <$> rest)).
      cbn [take drop]. rewrite !fmap_cons. cbn [concat].
      f_equal. f_equal.
      * apply bool_decide_ext. lia.
      * f_equal; [lia|]. rewrite app_nil_l, <- !app_assoc. do 3 f_equal.
        destruct (decide (k < n)%nat); [by rewrite decide_True by lia
                                       |by rewrite decide_False by lia].
Qed.

Lemma length_attribute_records input p n :
  length (attribute_records input p n) = n.
Proof. unfold attribute_records. by rewrite length_fmap, length_seq. Qed.

Lemma insertion_index_le resIds : (insertion_index resIds ≤ length resIds)%nat.
Proof.
  induction resIds as [|r rs IH]; [done|]. cbn [insertion_index length].
  case_decide; lia.
Qed.

Lemma patchApplicationAttributes_eq input attrCount c l d ns s :
  0 ≤ fIn_pos s → 0 ≤ attrCount →
  fIn_pos s + 20 * attrCount ≤ len input →
  0 ≤ startOffset c + headerSize (commonHeader c) →
  0 ≤ ns < 4294967296 → 0 ≤ d < 4294967296 →
  let records := attribute_records input (fIn_pos s) (Z.to_nat attrCount) in
  Forall (mapped input c l) records →
  let k := insertion_index (record_resId input c <$> records) in
  patchApplicationAttributes input attrCount {| rm_chunkInfo := Some c; rm_len := l |}
    d ns s
  = Ok ((), State (fIn_pos s + 20 * attrCount)
              (fOut s ++ concat (patched_bytes d <$> take k records)
               ++ debuggable_record ns d
               ++ concat (patched_bytes d <$> drop k records))
              (stdout s)).
Proof.
  intros Hpos Hcount Hend Hmap Hns Hd records Hall k.
  unfold patchApplicationAttributes.
  erewrite bind_eval
    by (apply patchApplicationAttributes_loop_eq; done || lia).
  fold records k.
  pose proof (insertion_index_le (record_resId input c <$> records)) as Hk.
  fold k in Hk. subst records. rewrite length_fmap, length_attribute_records in Hk.
  rewrite Z2Nat.id by done.
  destruct (decide (k < Z.to_nat attrCount)%nat) as [Hlt|Hge].
  - rewrite bool_decide_eq_true_2 by done. done.
  - rewrite bool_decide_eq_false_2 by done. cbn [negb].
    rewrite write_debuggable_attribute_eq by done. cbn [fIn_pos fOut stdout].
    rewrite drop_ge by (rewrite length_attribute_records; lia).
    do 3 f_equal. rewrite <- !app_assoc. cbn [fmap list_fmap concat].
    by rewrite !app_nil_l, !app_nil_r.
Qed.

(** X12. Where the name index of every attribute of the element has an
    entry in the resource map, [patchApplicationAttributes] never fails:
    it writes every attribute, patched as [patchAttribute] does and in
    the order of the input, and the record of the new attribute once,
    before the first attribute whose resource id is greater than
    0x0101000F, or behind the last one when no resource id is. *)
Theorem patchApplicationAttributes_in_order input attrCount c l d ns s :
  0 ≤ fIn_pos s → 0 ≤ attrCount →
  fIn_pos s + 20 * attrCount ≤ len input →
  0 ≤ startOffset c + headerSize (commonHeader c) →
  0 ≤ ns < 4294967296 → 0 ≤ d < 4294967296 →
  let records := attribute_records input (fIn_pos s) (Z.to_nat attrCount) in
  Forall (mapped input c l) records →
  let k := insertion_index (record_resId input c <$> records) in
  patchApplicationAttributes input attrCount {| rm_chunkInfo := Some c; rm_len := l |}
    d ns s
  = Ok ((), State (fIn_pos s + 20 * attrCount)
              (fOut s ++ concat (patched_bytes d <$> take k records)
               ++ debuggable_record ns d
               ++ concat (patched_bytes d <$> drop k records))
              (stdout s)).
Proof. apply patchApplicationAttributes_eq. Qed.

Lemma patchApplicationAttributes_in_order_witness :
  let c := {| startOffset := 208;
              commonHeader := {| type := 384; headerSize := 8; chunkSize := 20 |} |} in
  patchApplicationAttributes Examples.mapped_attributes 3
    {| rm_chunkInfo := Some c; rm_len := 3 |} 3 4 (State 264 [] [])
  = Ok ((), State 324
              (Examples.attribute 4 0 0xFFFFFFFF 0x03 0
               ++ Examples.attribute 4 1 0xFFFFFFFF 0x03 1
               ++ Examples.attribute 4 3 0xFFFFFFFF 0x12 0xFFFFFFFF
               ++ Examples.attribute 4 2 0xFFFFFFFF 0x03 2)
              []).
Proof.
  intros c.
  rewrite (patchApplicationAttributes_in_order Examples.mapped_attributes 3 c 3 3 4
             (State 264 [] [])).
  - vm_compute. reflexivity.
  - simpl. lia.
  - lia.
  - vm_compute. discriminate.
  - simpl. lia.
  - lia.
  - lia.
  - unfold mapped. refine (bool_decide_eq_true_1 _ _). vm_compute. reflexivity.
Defined.

Lemma patchApplicationAttributes_loop_unmapped input n resmapInfo d ns inserted s :
  0 ≤ fIn_pos s → fIn_pos s + 8 ≤ len input →
  rm_len resmapInfo ≤ u32_at input (fIn_pos s + 4) →
  patchApplicationAttributes_loop input (S n) resmapInfo d ns inserted s
  = Raise TypeError.
Proof.
  intros Hpos Hend Hname. cbn [patchApplicationAttributes_loop]. unfold UINT32_LENGTH.
  erewrite bind_eval by (apply seek_cur_eq; lia).
  erewrite bind_eval by (apply readInt_eq; cbn [fIn_pos]; lia).
  cbn [fIn_pos fOut stdout].
  erewrite bind_eval by (unfold readResId; by rewrite decide_True by lia).
  reflexivity.
Qed.

Lemma patchApplicationAttributes_loop_raises input c l d ns j :
  ∀ n inserted s record,
    0 ≤ fIn_pos s → fIn_pos s + 20 * Z.of_nat n ≤ len input →
    0 ≤ startOffset c + headerSize (commonHeader c) →
    0 ≤ ns < 4294967296 → 0 ≤ d < 4294967296 →
    attribute_records input (fIn_pos s) n !! j = Some record →
    Forall (mapped input c l) (take j (attribute_records input (fIn_pos s) n)) →
    l ≤ record_name record →
    patchApplicationAttributes_loop input n {| rm_chunkInfo := Some c; rm_len := l |}
      d ns inserted s
    = Raise TypeError.
Proof.
  induction j as [|j IH]; intros n inserted s record Hpos Hend Hmap Hns Hd Hj Hall Hname.
  - destruct n as [|n]; [done|]. rewrite attribute_records_S in Hj by done.
    injection Hj as <-. rewrite record_name_at in Hname by lia.
    apply patchApplicationAttributes_loop_unmapped; [done|lia|done].
  - destruct n as [|n]; [done|]. rewrite attribute_records_S in Hj, Hall by done.
    cbn [take] in Hall. apply Forall_cons in Hall as [Hfirst Hrest].
    rewrite patchApplicationAttributes_loop_S by (done || lia). cbv zeta.
    by eapply IH; cbn [fIn_pos]; try done; lia.
Qed.

(** X13. [patchApplicationAttributes] raises [TypeError] at the first
    attribute of the element whose name index has no entry in the
    resource map, the attributes before it having one: [readResId] gives
    [None] for it and [None] is compared with a number. On an element
    that has an attribute it does so at once when there is no resource
    map, whose length is then 0. *)
Theorem patchApplicationAttributes_unmapped input attrCount d ns s :
  0 ≤ fIn_pos s →
  fIn_pos s + 20 * attrCount ≤ len input →
  0 ≤ ns < 4294967296 → 0 ≤ d < 4294967296 →
  let records := attribute_records input (fIn_pos s) (Z.to_nat attrCount) in
  (∀ c l j record,
     0 ≤ startOffset c + headerSize (commonHeader c) →
     records !! j = Some record →
     Forall (mapped input c l) (take j records) →
     l ≤ record_name record →
     patchApplicationAttributes input attrCount
       {| rm_chunkInfo := Some c; rm_len := l |} d ns s
     = Raise TypeError)
  ∧ (1 ≤ attrCount →
     patchApplicationAttributes input attrCount
       {| rm_chunkInfo := None; rm_len := 0 |} d ns s
     = Raise TypeError).
Proof.
  intros Hpos Hend Hns Hd records. split.
  - intros c l j record Hmap Hj Hall Hname. unfold patchApplicationAttributes.
    unfold mbind, M_bind.
    rewrite (patchApplicationAttributes_loop_raises input c l d ns j _ _ _ record);
      try done.
    apply lookup_lt_Some in Hj. subst records.
    rewrite length_attribute_records in Hj. lia.
  - intros Hcount. unfold patchApplicationAttributes, mbind, M_bind.
    destruct (Z.to_nat attrCount) as [|n] eqn:Hn; [lia|].
    rewrite patchApplicationAttributes_loop_unmapped; [done|done|lia|].
    cbn [rm_len]. apply u32_at_range.
Qed.

Lemma patchApplicationAttributes_unmapped_witness :
  let c := {| startOffset := 208;
              commonHeader := {| type := 384; headerSize := 8; chunkSize := 20 |} |} in
  patchApplicationAttributes Examples.mapped_attributes 3
    {| rm_chunkInfo := Some c; rm_len := 2 |} 2 4 (State 264 [] [])
  = Raise TypeError
  ∧ patchApplicationAttributes Examples.mapped_attributes 3
      {| rm_chunkInfo := None; rm_len := 0 |} 0 3 (State 264 [] [])
    = Raise TypeError.
Proof.
  intros c. split.
  - destruct (patchApplicationAttributes_unmapped Examples.mapped_attributes 3 2 4
                (State 264 [] [])) as [Hraise _];
      [simpl; lia|vm_compute; discriminate|lia|lia|].
    apply (Hraise c 2 2%nat (take 20 (drop 304 Examples.mapped_attributes))).
    + simpl. lia.
    + reflexivity.
    + unfold mapped. refine (bool_decide_eq_true_1 _ _). vm_compute. reflexivity.
    + vm_compute. discriminate.
  - destruct (patchApplicationAttributes_unmapped Examples.mapped_attributes 3 0 3
                (State 264 [] [])) as [_ Hraise];
      [simpl; lia|vm_compute; discriminate|lia|lia|].
    apply Hraise. lia.
Defined.
(** ** [writeCommonHeader] and [readCommonHeader] *)

Lemma pack_header_eq type headerSize size :
  pack [uH; uH; uI] [type; headerSize; size]
  = if decide (0 ≤ type < 65536 ∧ 0 ≤ headerSize < 65536 ∧ 0 ≤ size < 4294967296)
    then Ok (header_bytes type headerSize size)
    else Raise struct_error.
Proof.
  cbn [pack]. unfold fits. cbn [fmt_size].
  change (2 ^ (8 * Z.of_nat 2)) with 65536. change (2 ^ (8 * Z.of_nat 4)) with 4294967296.
  case_decide as Hrange.
  - destruct Hrange as (Htype & Hsize & Hchunk).
    rewrite !(proj2 (andb_true_iff _ _)) by (split; [apply Z.leb_le|apply Z.ltb_lt]; lia).
    unfold mbind, result_bind, header_bytes. by rewrite app_nil_r.
  - destruct ((0 <=? type) && (type <? 65536)) eqn:Htype; [|done].
    destruct ((0 <=? headerSize) && (headerSize <? 65536)) eqn:Hsize; [|done].
    destruct ((0 <=? size) && (size <? 4294967296)) eqn:Hchunk; [|done].
    exfalso. apply Hrange.
    apply andb_true_iff in Htype as [?%Z.leb_le ?%Z.ltb_lt].
    apply andb_true_iff in Hsize as [?%Z.leb_le ?%Z.ltb_lt].
    apply andb_true_iff in Hchunk as [?%Z.leb_le ?%Z.ltb_lt]. lia.
Qed.

Lemma header_of_bytes_header_bytes type headerSize size rest :
  0 ≤ type < 65536 → 0 ≤ headerSize < 65536 → 0 ≤ size < 4294967296 →
  header_of_bytes (header_bytes type headerSize size ++ rest)
  = {| type := type; headerSize := headerSize; chunkSize := size |}.
Proof.
  intros Htype Hsize Hchunk. unfold header_bytes, header_of_bytes.
  rewrite <- !app_assoc.
  rewrite take_app_length' by (by rewrite length_le_encode).
  rewrite drop_app_length' by (by rewrite length_le_encode).
  rewrite take_app_length' by (by rewrite length_le_encode).
  rewrite (app_assoc (le_encode 2 _)).
  rewrite drop_app_length' by (by rewrite length_app, !length_le_encode).
  rewrite take_app_length' by (by rewrite length_le_encode).
  by rewrite !le_decode_encode by (simpl; lia).
Qed.

(** X14. [writeCommonHeader] raises [struct.error] exactly when the type
    or the headerSize does not fit 16 bits or the size does not fit 32;
    otherwise it writes 8 bytes, and [readCommonHeader], reading them
    wherever they stand in a stream, gives back the three fields and
    moves the stream by 8. *)
Theorem writeCommonHeader_readCommonHeader type headerSize size s :
  writeCommonHeader type headerSize size s
  = (if decide (0 ≤ type < 65536 ∧ 0 ≤ headerSize < 65536 ∧ 0 ≤ size < 4294967296)
     then Ok ((), State (fIn_pos s) (fOut s ++ header_bytes type headerSize size)
                    (stdout s))
     else Raise struct_error)
  ∧ (0 ≤ type < 65536 → 0 ≤ headerSize < 65536 → 0 ≤ size < 4294967296 →
     ∀ (before after : list byte) t,
       fIn_pos t = len before →
       readCommonHeader (before ++ header_bytes type headerSize size ++ after) t
       = Ok (Some {| type := type; headerSize := headerSize; chunkSize := size |},
             State (len before + 8) (fOut t) (stdout t))).
Proof.
  split.
  - unfold writeCommonHeader. rewrite pack_header_eq. by case_decide.
  - intros Htype Hsize Hchunk before after t Ht.
    rewrite readCommonHeader_eq. cbv zeta. rewrite Ht. unfold len.
    rewrite Nat2Z.id, drop_app_length.
    rewrite decide_False by (rewrite length_app, length_header_bytes; lia).
    by rewrite header_of_bytes_header_bytes.
Qed.

Lemma writeCommonHeader_readCommonHeader_witness :
  writeCommonHeader 0x180 8 12 initial
  = Ok ((), State 0 (header_bytes 0x180 8 12) [])
  ∧ readCommonHeader ([x00; x00] ++ header_bytes 0x180 8 12 ++ [x01]) (State 2 [] [])
    = Ok (Some {| type := 0x180; headerSize := 8; chunkSize := 12 |}, State 10 [] [])
  ∧ writeCommonHeader 0x180 8 4294967296 initial = Raise struct_error.
Proof.
  split; [|split].
  - by rewrite (proj1 (writeCommonHeader_readCommonHeader 0x180 8 12 initial)).
  - by apply (proj2 (writeCommonHeader_readCommonHeader 0x180 8 12 initial)).
  - by rewrite (proj1 (writeCommonHeader_readCommonHeader 0x180 8 4294967296 initial)).
Defined.
(** ** [decodeAttributes] *)

Lemma decodeAttributes_loop_eq input n :
  ∀ acc s,
    0 ≤ fIn_pos s → fIn_pos s + 20 * Z.of_nat n ≤ len input →
    decodeAttributes_loop input n acc s
    = Ok (acc ++ ((λ k : nat, attribute_here input (fIn_pos s + 20 * Z.of_nat k))
                    <$> seq 0 n),
          State (fIn_pos s + 20 * Z.of_nat n) (fOut s) (stdout s)).
Proof.
  induction n as [|n IH]; intros acc s Hpos Hend.
  - cbn [decodeAttributes_loop seq fmap list_fmap]. unfold mret, M_ret.
    by rewrite app_nil_r, Z.add_0_r, state_eta.
  - rewrite decodeAttributes_loop_S. cbv zeta.
    rewrite decide_True by (rewrite length_take, length_drop; unfold len in Hend; lia).
    rewrite IH by (cbn [fIn_pos]; lia). cbn [fIn_pos fOut stdout seq].
    rewrite fmap_cons, <- app_assoc. cbn [app]. f_equal. f_equal.
    + f_equal. f_equal.
      * unfold attribute_here. by rewrite Z.add_0_r.
      * rewrite <- fmap_S_seq, <- list_fmap_compose. apply list_fmap_ext.
        intros _ k _. simpl. f_equal. lia.
    + f_equal. lia.
Qed.

Lemma decodeAttributes_loop_short input n :
  ∀ acc s,
    0 ≤ fIn_pos s → (0 < n)%nat → len input < fIn_pos s + 20 * Z.of_nat n →
    decodeAttributes_loop input n acc s = Raise struct_error.
Proof.
  induction n as [|n IH]; intros acc s Hpos Hn Hend; [lia|].
  rewrite decodeAttributes_loop_S. cbv zeta. case_decide as Hlen; [|done].
  rewrite length_take, length_drop in Hlen.
  apply IH; cbn [fIn_pos]; unfold len in *; lia.
Qed.

Lemma readShorts6_eq input s :
  0 ≤ fIn_pos s → fIn_pos s + 12 ≤ len input →
  let p := fIn_pos s in
  readShorts input 6 s
  = Ok ([u16_at input p; u16_at input (p + 2); u16_at input (p + 4);
         u16_at input (p + 6); u16_at input (p + 8); u16_at input (p + 10)],
        State (p + 12) (fOut s) (stdout s)).
Proof.
  intros Hpos Hend p. unfold readShorts, readTypeN, UINT16_LENGTH.
  erewrite bind_eval by (apply read_exact_eq; lia).
  change (Z.to_nat (Z.of_nat 6 * 2)) with 12%nat.
  rewrite (lift_eq _ (unpack_fields (replicate 6 uH) (take 12 (drop (Z.to_nat p) input)))).
  - cbn [replicate unpack_fields fmt_size]. unfold u16_at.
    rewrite !drop_drop, !take_drop_take, take_take, !drop_drop by lia.
    replace (Z.to_nat (p + 2)) with (Z.to_nat p + 2)%nat by lia.
    replace (Z.to_nat (p + 4)) with (Z.to_nat p + (2 + 2))%nat by lia.
    replace (Z.to_nat (p + 6)) with (Z.to_nat p + (2 + 2 + 2))%nat by lia.
    replace (Z.to_nat (p + 8)) with (Z.to_nat p + (2 + 2 + 2 + 2))%nat by lia.
    replace (Z.to_nat (p + 10)) with (Z.to_nat p + (2 + 2 + 2 + 2 + 2))%nat by lia.
    reflexivity.
  - apply unpack_eq. rewrite length_take, length_drop. unfold len in Hend.
    change (calcsize (replicate 6 uH)) with 12%nat. lia.
Qed.

Lemma decodeAttributes_eq input c s :
  let chunkDataStart := startOffset c + headerSize (commonHeader c) in
  0 ≤ chunkDataStart → chunkDataStart + 20 ≤ len input →
  let attributeStart := u16_at input (chunkDataStart + 8) in
  let attributeSize := u16_at input (chunkDataStart + 10) in
  let attributeCount := u16_at input (chunkDataStart + 12) in
  let first := chunkDataStart + attributeStart in
  decodeAttributes input c s
  = if decide (attributeSize ≠ 20) then
      Raise (Exception "Cannot decode attribute length != 20!")
    else if decide (attributeCount = 0 ∨ first + 20 * attributeCount ≤ len input) then
      Ok ((λ k : nat, attribute_here input (first + 20 * Z.of_nat k))
            <$> seq 0 (Z.to_nat attributeCount),
          State (first + 20 * attributeCount) (fOut s) (stdout s))
    else Raise struct_error.
Proof.
  intros base Hbase Hend attributeStart attributeSize attributeCount first.
  pose proof (u16_at_range input (base + 8)) as Hstart.
  pose proof (u16_at_range input (base + 12)) as Hcount.
  fold attributeStart in Hstart. fold attributeCount in Hcount.
  unfold decodeAttributes. cbv zeta. fold base.
  erewrite bind_eval by (apply seek_set_eq; lia).
  erewrite bind_eval by (apply readShorts6_eq; cbn [fIn_pos]; lia).
  cbn [fIn_pos fOut stdout].
  replace (base + 8 + 2) with (base + 10) by lia.
  replace (base + 8 + 4) with (base + 12) by lia.
  fold attributeStart attributeSize attributeCount. unfold ATTRIBUTE_LENGTH.
  case_decide as Hsize; [done|]. fold first.
  erewrite bind_eval by (apply seek_set_eq; subst first; lia).
  case_decide as Hall.
  - destruct (decide (attributeCount = 0)) as [Hnone|Hsome].
    + rewrite Hnone. cbn [Z.to_nat decodeAttributes_loop seq fmap list_fmap].
      unfold mret, M_ret. by rewrite Z.add_0_r.
    + rewrite decodeAttributes_loop_eq by (cbn [fIn_pos]; subst first; lia).
      cbn [fIn_pos fOut stdout app]. by rewrite Z2Nat.id by lia.
  - apply decodeAttributes_loop_short; cbn [fIn_pos]; subst first; lia.
Qed.

(** X15. [decodeAttributes] reads the attribute header 8 bytes behind
    the chunk's header. When the attribute size there is not 20 it
    raises "Cannot decode attribute length != 20!"; otherwise it returns
    as many attributes as the header counts, the one of index [k] decoded
    from the 20 bytes at attributeStart + 20 k behind the chunk's header
    and carrying that offset, or raises [struct.error] when there are
    attributes and they do not all lie inside the input. *)
Theorem decodeAttributes_spec input c s :
  let chunkDataStart := startOffset c + headerSize (commonHeader c) in
  0 ≤ chunkDataStart → chunkDataStart + 20 ≤ len input →
  let attributeStart := u16_at input (chunkDataStart + 8) in
  let attributeSize := u16_at input (chunkDataStart + 10) in
  let attributeCount := u16_at input (chunkDataStart + 12) in
  let first := chunkDataStart + attributeStart in
  decodeAttributes input c s
  = if decide (attributeSize ≠ 20) then
      Raise (Exception "Cannot decode attribute length != 20!")
    else if decide (attributeCount = 0 ∨ first + 20 * attributeCount ≤ len input) then
      Ok ((λ k : nat, attribute_here input (first + 20 * Z.of_nat k))
            <$> seq 0 (Z.to_nat attributeCount),
          State (first + 20 * attributeCount) (fOut s) (stdout s))
    else Raise struct_error.
Proof. apply decodeAttributes_eq. Qed.

Lemma decodeAttributes_spec_witness :
  let c := {| startOffset := 228;
              commonHeader := {| type := 258; headerSize := 16; chunkSize := 96 |} |} in
  decodeAttributes Examples.mapped_attributes c initial
  = Ok ([attribute_here Examples.mapped_attributes 264;
         attribute_here Examples.mapped_attributes 284;
         attribute_here Examples.mapped_attributes 304],
        State 324 [] []).
Proof.
  intros c.
  rewrite (decodeAttributes_spec Examples.mapped_attributes c initial).
  - reflexivity.
  - simpl. lia.
  - vm_compute. discriminate.
Defined.
(** ** [findAndroidNsIdx] *)

Lemma findAndroidNsIdx_loop_first input strPoolInfo n :
  ∀ i s idx s',
    findAndroidNsIdx_loop input strPoolInfo n i (fIn_pos s) s = Ok (idx, s') →
    s' = s
    ∧ i ≤ idx < i + Z.of_nat n
    ∧ (∃ name, readString input strPoolInfo idx s = Ok (name, s)
               ∧ opt_str_eq name ANDROID_NS_STRING = true)
    ∧ ∀ j, i ≤ j < idx →
        ∃ name, readString input strPoolInfo j s = Ok (name, s)
                ∧ opt_str_eq name ANDROID_NS_STRING = false.
Proof.
  induction n as [|n IH]; intros i s idx s' H; [done|].
  cbn [findAndroidNsIdx_loop] in H.
  bind_inv H as Hname giving name s1.
  pose proof (readString_restores _ _ _ _ _ _ Hname) as ->.
  destruct (opt_str_eq name ANDROID_NS_STRING) eqn:Heq.
  - bind_inv H as Hseek. apply seek_set_Ok in Hseek as [_ ->]. ret_inv H.
    rewrite state_eta. split; [done|]. split; [lia|]. split; [by exists name|].
    intros j Hj. lia.
  - apply IH in H as (-> & Hidx & Hfound & Hbefore).
    split; [done|]. split; [lia|]. split; [done|].
    intros j Hj. destruct (decide (j = i)) as [->|Hne]; [by exists name|].
    apply Hbefore. lia.
Qed.

Lemma findAndroidNsIdx_loop_none input strPoolInfo n :
  ∀ i s pos,
    (∀ j, i ≤ j < i + Z.of_nat n →
       ∃ name, readString input strPoolInfo j s = Ok (name, s)
               ∧ opt_str_eq name ANDROID_NS_STRING = false) →
    findAndroidNsIdx_loop input strPoolInfo n i pos s
    = Raise (Exception "No android ns found ...").
Proof.
  induction n as [|n IH]; intros i s pos Hall; [done|].
  cbn [findAndroidNsIdx_loop].
  destruct (Hall i) as (name & Hname & Heq); [lia|].
  erewrite bind_eval by done. rewrite Heq.
  apply IH. intros j Hj. apply Hall. lia.
Qed.

(** X16. [findAndroidNsIdx] returns the index of the first string of the
    pool that is the android namespace URI: every string before it was
    read and is another one. It leaves the stream as it found it. When
    all the strings of the pool can be read and none is the URI it raises
    "No android ns found ...". *)
Theorem findAndroidNsIdx_first input strPoolInfo s :
  (∀ idx s',
     findAndroidNsIdx input strPoolInfo s = Ok (idx, s') →
     s' = s
     ∧ 0 ≤ idx < stringCount strPoolInfo
     ∧ (∃ name, readString input strPoolInfo idx s = Ok (name, s)
                ∧ opt_str_eq name ANDROID_NS_STRING = true)
     ∧ ∀ j, 0 ≤ j < idx →
         ∃ name, readString input strPoolInfo j s = Ok (name, s)
                 ∧ opt_str_eq name ANDROID_NS_STRING = false)
  ∧ ((∀ j, 0 ≤ j < stringCount strPoolInfo →
        ∃ name, readString input strPoolInfo j s = Ok (name, s)
                ∧ opt_str_eq name ANDROID_NS_STRING = false) →
     findAndroidNsIdx input strPoolInfo s
     = Raise (Exception "No android ns found ...")).
Proof.
  split.
  - intros idx s' H. unfold findAndroidNsIdx in H. bind_inv H as Htell.
    apply tell_Ok in Htell as [-> ->].
    apply findAndroidNsIdx_loop_first in H as (-> & Hidx & Hfound & Hbefore).
    split; [done|]. split; [lia|]. by split.
  - intros Hall. unfold findAndroidNsIdx, mbind, M_bind, tell.
    apply findAndroidNsIdx_loop_none. intros j Hj. apply Hall. lia.
Qed.

Lemma findAndroidNsIdx_first_witness :
  let input := Examples.not_debuggable false in
  let strPoolInfo :=
    {| sp_chunkInfo :=
         {| startOffset := 8;
            commonHeader := {| type := 1; headerSize := 28; chunkSize := 168 |} |};
       stringCount := 3; styleCount := 0; flags := 0;
       stringsStart := 40; stylesStart := 0; isUtf8 := false |} in
  decodeStringPoolInfo input (sp_chunkInfo strPoolInfo) initial
  = Ok (strPoolInfo, State 36 [] [])
  ∧ findAndroidNsIdx input strPoolInfo initial = Ok (1, initial)
  ∧ ∀ j, 0 ≤ j < 1 →
      ∃ name, readString input strPoolInfo j initial = Ok (name, initial)
              ∧ opt_str_eq name ANDROID_NS_STRING = false.
Proof.
  intros input strPoolInfo.
  assert (findAndroidNsIdx input strPoolInfo initial = Ok (1, initial)) as Hrun
    by (vm_compute; reflexivity).
  split; [vm_compute; reflexivity|]. split; [exact Hrun|].
  apply (proj1 (findAndroidNsIdx_first input strPoolInfo initial) 1 initial Hrun).
Defined.
(** ** [findApplication] *)

Lemma reads_only_bind {A B} (m : M A) (f : A → M B) :
  reads_only m → (∀ a, reads_only (f a)) → reads_only (m ≫= f).
Proof.
  intros Hm Hf s out printed. unfold mbind, M_bind. rewrite Hm.
  destruct (m s) as [[a s']| |]; [apply Hf|done..].
Qed.

Lemma reads_only_ret {A} (a : A) : reads_only (mret a).
Proof. done. Qed.

Lemma reads_only_raise {A} e : reads_only (raise (A := A) e).
Proof. done. Qed.

Lemma reads_only_lift {A} (r : result A) : reads_only (lift r).
Proof. intros s out printed. by destruct r. Qed.

Lemma reads_only_tell : reads_only tell.
Proof. done. Qed.

Lemma reads_only_assert b : reads_only (assert b).
Proof. by destruct b. Qed.

Lemma reads_only_seek offset whence : reads_only (seek offset whence).
Proof.
  intros s out printed. unfold seek. cbn [with_outputs fIn_pos]. by case_decide.
Qed.

Lemma reads_only_read input n : reads_only (read input n).
Proof.
  intros s out printed. unfold read. cbn [with_outputs fIn_pos]. by case_decide.
Qed.

Create HintDb reads_only.
#[export] Hint Resolve reads_only_ret reads_only_raise reads_only_lift
  reads_only_tell reads_only_assert reads_only_seek reads_only_read : reads_only.

Ltac reads_only_tac :=
  repeat first
    [ progress eauto with reads_only
    | apply reads_only_bind; [|intros ?]
    | case_match
    | case_decide ].

Lemma reads_only_readInt input : reads_only (readInt input).
Proof. unfold readInt, readType1. reads_only_tac. Qed.

Lemma reads_only_decodeLength input sizeof_char :
  reads_only (decodeLength input sizeof_char).
Proof. unfold decodeLength. reads_only_tac. Qed.

#[export] Hint Resolve reads_only_readInt reads_only_decodeLength : reads_only.

Lemma reads_only_decode8 input : reads_only (decode8 input).
Proof. unfold decode8. reads_only_tac. Qed.

Lemma reads_only_decode16 input : reads_only (decode16 input).
Proof. unfold decode16. reads_only_tac. Qed.

#[export] Hint Resolve reads_only_decode8 reads_only_decode16 : reads_only.

Lemma reads_only_readString input strPoolInfo idx :
  reads_only (readString input strPoolInfo idx).
Proof. unfold readString. reads_only_tac. Qed.

#[export] Hint Resolve reads_only_readString : reads_only.

Lemma reads_only_element_name input strPoolInfo c :
  reads_only (element_name input strPoolInfo c).
Proof. unfold element_name. reads_only_tac. Qed.

(** The name that is read does not depend on where the stream stands. *)
Lemma element_name_any_state input strPoolInfo c s :
  element_name input strPoolInfo c s
  = match element_name input strPoolInfo c initial with
    | Ok (name, s') => Ok (name, with_outputs (fOut s) (stdout s) s')
    | Raise e => Raise e
    | OutOfFuel => OutOfFuel
    end.
Proof.
  rewrite <- (reads_only_element_name input strPoolInfo c initial).
  unfold element_name, mbind, M_bind, seek. cbn [with_outputs fIn_pos fOut stdout].
  rewrite !(decide_False (P := SEEK_SET = SEEK_CUR)) by done. done.
Qed.

Lemma findApplication_loop_cons input strPoolInfo c chunks i applicationIdx s :
  findApplication_loop input strPoolInfo (c :: chunks) i applicationIdx s
  = if decide (type (commonHeader c) ≠ CHUNK_TYPE_START_ELEMENT) then
      findApplication_loop input strPoolInfo chunks (i + 1) applicationIdx s
    else
      (name ← element_name input strPoolInfo c;
       if negb (opt_str_eq name APPLICATION_STRING) then
         findApplication_loop input strPoolInfo chunks (i + 1) applicationIdx
       else if decide (applicationIdx >= 0) then
         raise (Exception "Multiple application elements!")
       else findApplication_loop input strPoolInfo chunks (i + 1) i) s.
Proof.
  cbn [findApplication_loop]. case_decide; [done|].
  unfold element_name, mbind, M_bind.
  destruct (seek _ _ s) as [[[] s1]| |]; [|done..].
  by destruct (readInt input s1) as [[nameId s2]| |].
Qed.

Lemma application_indices_ge input strPoolInfo chunks :
  ∀ i k, k ∈ application_indices input strPoolInfo i chunks → i ≤ k.
Proof.
  induction chunks as [|c chunks IH]; intros i k Hk; cbn [application_indices] in Hk.
  { by apply elem_of_nil in Hk. }
  apply elem_of_app in Hk as [Hk|Hk].
  - destruct (is_application _ _ c); [|by apply elem_of_nil in Hk].
    apply list_elem_of_singleton in Hk. lia.
  - apply IH in Hk. lia.
Qed.

Lemma names_readable_cons input strPoolInfo c chunks :
  names_readable input strPoolInfo (c :: chunks) →
  names_readable input strPoolInfo chunks.
Proof. intros H c' Hc'. apply H. by right. Qed.

Lemma findApplication_loop_spec input strPoolInfo chunks :
  ∀ i applicationIdx s,
    names_readable input strPoolInfo chunks →
    0 ≤ i →
    match (if decide (applicationIdx >= 0) then [applicationIdx] else [])
          ++ application_indices input strPoolInfo i chunks with
    | [] =>
        ∃ s', findApplication_loop input strPoolInfo chunks i applicationIdx s
              = Ok (applicationIdx, s')
    | [k] =>
        ∃ s', findApplication_loop input strPoolInfo chunks i applicationIdx s
              = Ok (k, s')
    | _ =>
        findApplication_loop input strPoolInfo chunks i applicationIdx s
        = Raise (Exception "Multiple application elements!")
    end.
Proof.
  induction chunks as [|c chunks IH]; intros i idx0 s Hread Hi.
  { cbn [application_indices findApplication_loop]. rewrite app_nil_r.
    case_decide; by eexists. }
  rewrite findApplication_loop_cons. cbn [application_indices]. unfold is_application.
  pose proof (names_readable_cons _ _ _ _ Hread) as Hread'.
  destruct (decide (type (commonHeader c) ≠ CHUNK_TYPE_START_ELEMENT)) as [Hne|Heq].
  { rewrite bool_decide_eq_false_2 by done. cbn [andb app].
    apply IH; [done|lia]. }
  apply dec_stable in Heq. rewrite bool_decide_eq_true_2 by done. cbn [andb].
  destruct (Hread c) as (name & s0 & Hname); [by left|done|].
  rewrite Hname.
  erewrite bind_eval by (rewrite element_name_any_state, Hname; done).
  destruct (opt_str_eq name APPLICATION_STRING); cbn [negb app].
  - destruct (decide (idx0 >= 0)) as [Hge|Hlt].
    + cbn [app]. done.
    + cbn [app]. specialize (IH (i + 1) i (with_outputs (fOut s) (stdout s) s0)
                               Hread' ltac:(lia)).
      by rewrite decide_True in IH by lia.
  - apply IH; [done|lia].
Qed.

Lemma findApplication_loop_readable input strPoolInfo chunks :
  ∀ i applicationIdx s k s',
    findApplication_loop input strPoolInfo chunks i applicationIdx s = Ok (k, s') →
    names_readable input strPoolInfo chunks.
Proof.
  induction chunks as [|c chunks IH]; intros i idx0 s k s' H.
  { by intros c ?%elem_of_nil. }
  rewrite findApplication_loop_cons in H.
  assert (names_readable input strPoolInfo chunks
          ∧ (type (commonHeader c) = CHUNK_TYPE_START_ELEMENT →
             ∃ name s0, element_name input strPoolInfo c initial = Ok (name, s0)))
    as [Hrest Hc].
  { destruct (decide (type (commonHeader c) ≠ CHUNK_TYPE_START_ELEMENT)) as [Hne|_].
    { split; [by eauto|done]. }
    bind_inv H as Hname giving name s1.
    rewrite element_name_any_state in Hname.
    split.
    - destruct (negb _); [by eauto|]. case_decide; [done|by eauto].
    - intros _.
      destruct (element_name input strPoolInfo c initial) as [[name' s0]| |];
        [by eauto|done..]. }
  intros c' [->|Hc']%elem_of_cons; [done|by apply Hrest].
Qed.

(** X17. [findApplication] returns an index exactly when the name of every
    start element can be read and one start element alone is named
    "application": its index is returned. When the names can be read it
    raises "No application element found!" if no start element has this
    name and "Multiple application elements!" if two or more have it. *)
Theorem findApplication_spec input chunks strPoolInfo s :
  (∀ k, (∃ s', findApplication input chunks strPoolInfo s = Ok (k, s'))
        ↔ names_readable input strPoolInfo chunks
          ∧ application_indices input strPoolInfo 0 chunks = [k])
  ∧ (names_readable input strPoolInfo chunks →
     application_indices input strPoolInfo 0 chunks = [] →
     findApplication input chunks strPoolInfo s
     = Raise (Exception "No application element found!"))
  ∧ (names_readable input strPoolInfo chunks →
     (2 ≤ length (application_indices input strPoolInfo 0 chunks))%nat →
     findApplication input chunks strPoolInfo s
     = Raise (Exception "Multiple application elements!")).
Proof.
  assert (∀ k, k ∈ application_indices input strPoolInfo 0 chunks → 0 ≤ k) as Hge
    by (intros k; apply application_indices_ge).
  assert (names_readable input strPoolInfo chunks →
          match application_indices input strPoolInfo 0 chunks with
          | [] => findApplication input chunks strPoolInfo s
                  = Raise (Exception "No application element found!")
          | [k] => ∃ s', findApplication input chunks strPoolInfo s = Ok (k, s')
          | _ => findApplication input chunks strPoolInfo s
                 = Raise (Exception "Multiple application elements!")
          end) as Hspec.
  { intros Hread.
    pose proof (findApplication_loop_spec input strPoolInfo chunks 0 (-1) s Hread
                  ltac:(lia)) as Hloop.
    rewrite decide_False in Hloop by lia. cbn [app] in Hloop.
    unfold findApplication.
    destruct (application_indices input strPoolInfo 0 chunks) as [|k [|k' apps]].
    - destruct Hloop as [s' Hloop]. by erewrite bind_eval by done.
    - destruct Hloop as [s' Hloop]. exists s'. erewrite bind_eval by done.
      rewrite decide_False; [done|]. specialize (Hge k ltac:(by left)). lia.
    - unfold mbind, M_bind. by rewrite Hloop. }
  split; [|split].
  - intros k. split.
    + intros [s' H].
      assert (names_readable input strPoolInfo chunks) as Hread.
      { unfold findApplication in H. bind_inv H as Hloop.
        by eapply findApplication_loop_readable. }
      split; [done|]. specialize (Hspec Hread).
      destruct (application_indices input strPoolInfo 0 chunks) as [|k1 [|k2 apps]].
      * by rewrite Hspec in H.
      * destruct Hspec as [s1 Hspec]. rewrite Hspec in H. by injection H as -> _.
      * by rewrite Hspec in H.
    + intros [Hread Happs]. specialize (Hspec Hread). by rewrite Happs in Hspec.
  - intros Hread Happs. specialize (Hspec Hread). by rewrite Happs in Hspec.
  - intros Hread Happs. specialize (Hspec Hread).
    destruct (application_indices input strPoolInfo 0 chunks) as [|k1 [|k2 apps]];
      [simpl in Happs; lia..|done].
Qed.

Lemma findApplication_spec_witness :
  let input := Examples.not_debuggable false in
  let chunk p t h n :=
    {| startOffset := p;
       commonHeader := {| type := t; headerSize := h; chunkSize := n |} |} in
  let chunks :=
    [chunk 8 0x0001 28 168; chunk 176 0x0180 8 12;
     chunk 188 0x0102 16 56; chunk 244 0x0103 16 24] in
  let strPoolInfo :=
    {| sp_chunkInfo := chunk 8 0x0001 28 168;
       stringCount := 3; styleCount := 0; flags := 0;
       stringsStart := 40; stylesStart := 0; isUtf8 := false |} in
  (∃ s', findApplication input chunks strPoolInfo initial = Ok (2, s'))
  ∧ findApplication input (take 2 chunks) strPoolInfo initial
    = Raise (Exception "No application element found!")
  ∧ findApplication input (chunks ++ chunks) strPoolInfo initial
    = Raise (Exception "Multiple application elements!").
Proof.
  intros input chunk chunks strPoolInfo.
  assert (names_readable input strPoolInfo chunks) as Hread.
  { intros c Hc Htype.
    assert (c = chunk 188 0x0102 16 56) as ->.
    { subst chunks.
      repeat (apply elem_of_cons in Hc as [->|Hc]); try discriminate Htype; [done|].
      by apply elem_of_nil in Hc. }
    assert (match element_name input strPoolInfo (chunk 188 0x0102 16 56) initial with
            | Ok _ => true
            | _ => false
            end = true) as Hok by (vm_compute; reflexivity).
    destruct (element_name _ _ _ _) as [[name s0]| |]; [by eauto|done..]. }
  split; [|split].
  - apply (findApplication_spec input chunks strPoolInfo initial).
    split; [exact Hread|]. vm_compute. reflexivity.
  - apply (findApplication_spec input (take 2 chunks) strPoolInfo initial).
    + intros c Hc. apply Hread. rewrite <- (take_drop 2 chunks).
      apply elem_of_app. by left.
    + vm_compute. reflexivity.
  - apply (findApplication_spec input (chunks ++ chunks) strPoolInfo initial).
    + intros c Hc. apply Hread. by apply elem_of_app in Hc as [Hc|Hc].
    + vm_compute. lia.
Defined.
(** ** [patchStringPool] *)

(** The loop of [patchStringPool] over the offsets behind the new one. *)
Lemma for_range_offsets_eq input delta k :
  ∀ s,
    0 ≤ fIn_pos s → fIn_pos s + 4 * Z.of_nat k ≤ len input → 0 ≤ delta →
    (∀ j, 0 ≤ j < Z.of_nat k →
          u32_at input (fIn_pos s + 4 * j) + delta < 4294967296) →
    for_range k (offset ← readInt input; write_pack [uI] [offset + delta]) s
    = Ok ((), State (fIn_pos s + 4 * Z.of_nat k)
                (fOut s ++ moved_offsets input (fIn_pos s) delta k) (stdout s)).
Proof.
  induction k as [|k IH]; intros s Hpos Hend Hdelta Hfits.
  - cbn [for_range moved_offsets]. rewrite app_nil_r, Z.add_0_r. by rewrite state_eta.
  - cbn [for_range moved_offsets].
    pose proof (u32_at_range input (fIn_pos s)) as Hrange.
    pose proof (Hfits 0 ltac:(lia)) as Hfit. rewrite Z.add_0_r in Hfit.
    rewrite bind_assoc.
    erewrite bind_eval by (apply readInt_eq; lia).
    erewrite bind_eval by (apply write_pack_uI_eq; lia).
    cbn [fIn_pos fOut stdout].
    rewrite IH; cbn [fIn_pos fOut stdout]; [|lia..|].
    + rewrite <- app_assoc. do 3 f_equal. lia.
    + intros j Hj. replace (fIn_pos s + 4 + 4 * j) with (fIn_pos s + 4 * (j + 1)) by lia.
      apply Hfits. lia.
Qed.

Lemma write_pack_5_uI_eq a b c d e s :
  0 ≤ a < 4294967296 → 0 ≤ b < 4294967296 → 0 ≤ c < 4294967296 →
  0 ≤ d < 4294967296 → 0 ≤ e < 4294967296 →
  write_pack (replicate 5 uI) [a; b; c; d; e] s
  = Ok ((), State (fIn_pos s)
              (fOut s ++ (le_encode 4 a ++ le_encode 4 b ++ le_encode 4 c
                          ++ le_encode 4 d ++ le_encode 4 e))
              (stdout s)).
Proof.
  intros Ha Hb Hc Hd He. unfold write_pack. cbn [pack replicate].
  rewrite !(proj2 (fits_iff _ _)) by (simpl; lia).
  unfold mbind, M_bind, lift, result_bind, write. cbn [fmt_size].
  by rewrite app_nil_r.
Qed.

Lemma tell_eq s : tell s = Ok (fIn_pos s, s).
Proof. done. Qed.

Lemma write_eq bs s :
  write bs s = Ok ((), State (fIn_pos s) (fOut s ++ bs) (stdout s)).
Proof. done. Qed.

Lemma patchStringPool_eq input strPoolInfo insertionIdx s :
  let chunkInfo := sp_chunkInfo strPoolInfo in
  let header := commonHeader chunkInfo in
  let start := startOffset chunkInfo in
  let table := start + headerSize header in
  let debuggableStrLength :=
    if isUtf8 strPoolInfo then DEBUGGABLE_STRING_LENGTH_UTF8
    else DEBUGGABLE_STRING_LENGTH_UTF16 in
  chunk_in input chunkInfo →
  start + chunkSize header ≤ len input →
  chunkSize header + debuggableStrLength + 4 < 4294967296 →
  styleCount strPoolInfo = 0 →
  0 ≤ flags strPoolInfo < 4294967296 →
  0 ≤ insertionIdx < stringCount strPoolInfo →
  headerSize header + 4 * stringCount strPoolInfo ≤ stringsStart strPoolInfo →
  stringsStart strPoolInfo + u32_at input (table + 4 * insertionIdx)
  ≤ chunkSize header →
  (∀ j, insertionIdx < j < stringCount strPoolInfo →
        u32_at input (table + 4 * j) + debuggableStrLength < 4294967296) →
  patchStringPool input strPoolInfo insertionIdx s
  = Ok ((), State (start + chunkSize header)
              (fOut s ++ patched_pool input strPoolInfo insertionIdx)
              (stdout s)).
Proof.
  intros chunkInfo header start table L Hin Hend Hgrow Hstyles Hflags Hidx Htable
    Hstring Hoffsets.
  pose proof (chunk_in_range _ _ Hin) as (Htype & Hsize & Hchunk).
  destruct Hin as (Hstart & _ & _).
  pose proof (u32_at_range input (table + 4 * insertionIdx)) as Hoffset.
  assert (0 < L) as HL by (subst L; by destruct (isUtf8 strPoolInfo)).
  unfold patchStringPool, patched_pool, bytes_at. cbv zeta.
  subst chunkInfo header start table L.
  set (header := commonHeader (sp_chunkInfo strPoolInfo)) in *.
  set (start := startOffset (sp_chunkInfo strPoolInfo)) in *.
  set (table := start + headerSize header) in *.
  set (L := if isUtf8 strPoolInfo then DEBUGGABLE_STRING_LENGTH_UTF8
            else DEBUGGABLE_STRING_LENGTH_UTF16) in *.
  assert (table = start + headerSize header) as Htable_eq by done.
  clearbody table L start header.
  rewrite !(decide_False (P := styleCount strPoolInfo > 0)) by lia.
  erewrite bind_eval by (apply seek_set_eq; unfold COMMON_HEADER_LEN; lia).
  erewrite bind_eval by (apply writeCommonHeader_eq; unfold UINT32_LENGTH; lia).
  erewrite bind_eval
    by (apply write_pack_5_uI_eq; unfold UINT32_LENGTH; lia).
  erewrite bind_eval by (apply seek_set_eq; lia).
  erewrite bind_eval
    by (apply copy_exact_eq; cbn [fIn_pos]; unfold UINT32_LENGTH; lia).
  cbn [fIn_pos fOut stdout].
  erewrite bind_eval
    by (apply readInt_eq; cbn [fIn_pos]; unfold UINT32_LENGTH; lia).
  cbn [fIn_pos fOut stdout].
  replace (table + insertionIdx * UINT32_LENGTH)
    with (table + 4 * insertionIdx) by (unfold UINT32_LENGTH; lia).
  set (offset := u32_at input (table + 4 * insertionIdx)) in *.
  erewrite bind_eval by (apply write_pack_uI_eq; lia).
  erewrite bind_eval by (apply write_pack_uI_eq; lia).
  cbn [fIn_pos fOut stdout].
  erewrite bind_eval.
  2:{ apply for_range_offsets_eq; cbn [fIn_pos]; [lia|lia|lia|].
      intros j Hj.
      replace (table + 4 * insertionIdx + 4 + 4 * j)
        with (table + 4 * (insertionIdx + 1 + j)) by lia.
      apply Hoffsets. lia. }
  cbn [fIn_pos fOut stdout].
  erewrite bind_eval by apply tell_eq. cbn [fIn_pos].
  rewrite decide_False by (unfold UINT32_LENGTH; lia).
  erewrite bind_eval by done.
  erewrite bind_eval by apply tell_eq. cbn [fIn_pos].
  erewrite bind_eval
    by (apply copy_exact_eq; cbn [fIn_pos]; lia).
  cbn [fIn_pos fOut stdout].
  erewrite bind_eval
    by (apply copy_exact_eq; cbn [fIn_pos]; lia).
  cbn [fIn_pos fOut stdout].
  erewrite bind_eval by apply write_eq. cbn [fIn_pos fOut stdout].
  erewrite bind_eval by done.
  erewrite bind_eval by apply tell_eq. cbn [fIn_pos].
  rewrite copy_exact_eq by (cbn [fIn_pos]; lia).
  cbn [fIn_pos fOut stdout].
  f_equal. f_equal. f_equal.
  - lia.
  - rewrite <- !app_assoc. unfold UINT32_LENGTH.
    repeat first [reflexivity | lia | f_equal].
Qed.

(** X18. On a string pool without styles that lies inside the input,
    whose strings begin behind its table of offsets, and for an index of
    an existing string whose offset lies inside the chunk,
    [patchStringPool] writes the pool with the new string at this index
    and leaves the input behind the chunk: the chunk size grown by the
    new string and its offset, one string more, the strings 4 bytes
    later, the new offset equal to the one that had the index, the
    following offsets moved by the length of the new string, and the
    bytes of the new string in front of the string that had the index. *)
Theorem patchStringPool_layout input strPoolInfo insertionIdx s :
  let chunkInfo := sp_chunkInfo strPoolInfo in
  let header := commonHeader chunkInfo in
  let start := startOffset chunkInfo in
  let table := start + headerSize header in
  let debuggableStrLength :=
    if isUtf8 strPoolInfo then DEBUGGABLE_STRING_LENGTH_UTF8
    else DEBUGGABLE_STRING_LENGTH_UTF16 in
  chunk_in input chunkInfo →
  start + chunkSize header ≤ len input →
  chunkSize header + debuggableStrLength + 4 < 4294967296 →
  styleCount strPoolInfo = 0 →
  0 ≤ flags strPoolInfo < 4294967296 →
  0 ≤ insertionIdx < stringCount strPoolInfo →
  headerSize header + 4 * stringCount strPoolInfo ≤ stringsStart strPoolInfo →
  stringsStart strPoolInfo + u32_at input (table + 4 * insertionIdx)
  ≤ chunkSize header →
  (∀ j, insertionIdx < j < stringCount strPoolInfo →
        u32_at input (table + 4 * j) + debuggableStrLength < 4294967296) →
  patchStringPool input strPoolInfo insertionIdx s
  = Ok ((), State (start + chunkSize header)
              (fOut s ++ patched_pool input strPoolInfo insertionIdx)
              (stdout s)).
Proof. apply patchStringPool_eq. Qed.

Lemma patchStringPool_layout_witness :
  let input := Examples.not_debuggable false in
  let strPoolInfo :=
    {| sp_chunkInfo :=
         {| startOffset := 8;
            commonHeader := {| type := 1; headerSize := 28; chunkSize := 168 |} |};
       stringCount := 3; styleCount := 0; flags := 0;
       stringsStart := 40; stylesStart := 0; isUtf8 := false |} in
  patchStringPool input strPoolInfo 1 initial
  = Ok ((), State 176 (patched_pool input strPoolInfo 1) []).
Proof.
  intros input strPoolInfo.
  apply (patchStringPool_layout input strPoolInfo 1 initial).
  - split; [simpl; lia|]. split; [|vm_compute; reflexivity].
    apply Nat.leb_le. vm_compute. reflexivity.
  - vm_compute. discriminate.
  - reflexivity.
  - reflexivity.
  - simpl. lia.
  - simpl. lia.
  - simpl. lia.
  - vm_compute. discriminate.
  - intros j Hj. assert (j = 2) as -> by (simpl in Hj; lia).
    vm_compute. reflexivity.
Defined.

Lemma fuel_free_bind {A B} (m : M A) (f : A → M B) :
  fuel_free m → (∀ a, fuel_free (f a)) → fuel_free (m ≫= f).
Proof.
  intros Hm Hf s. unfold mbind, M_bind. specialize (Hm s).
  destruct (m s) as [[a s1]| |]; [apply Hf|done..].
Qed.

Lemma fuel_free_ret {A} (a : A) : fuel_free (mret a).
Proof. done. Qed.

Lemma fuel_free_raise {A} e : fuel_free (raise (A := A) e).
Proof. done. Qed.

Lemma fuel_free_tell : fuel_free tell.
Proof. done. Qed.

Lemma fuel_free_write bs : fuel_free (write bs).
Proof. done. Qed.

Lemma fuel_free_seek offset whence : fuel_free (seek offset whence).
Proof. intros s. unfold seek. cbv zeta. by case_decide. Qed.

Lemma fuel_free_read input n : fuel_free (read input n).
Proof. intros s. unfold read. by case_decide. Qed.

Lemma fuel_free_unpack fs bs : fuel_free (lift (unpack fs bs)).
Proof. intros s. unfold lift, unpack. by case_decide. Qed.

Lemma fuel_free_pack fs : ∀ vs, fuel_free (lift (pack fs vs)).
Proof.
  induction fs as [|c fs IH]; intros [|v vs] s; try done.
  specialize (IH vs s). unfold lift in *. cbn [pack].
  destruct (fits c v); [|done]. unfold mbind, result_bind.
  by destruct (pack fs vs).
Qed.

Lemma fuel_free_unpack_without_format values :
  fuel_free (lift (unpack_without_format values)).
Proof. done. Qed.

Create HintDb fuel_free.
#[export] Hint Resolve fuel_free_ret fuel_free_raise fuel_free_tell fuel_free_write
  fuel_free_seek fuel_free_read fuel_free_unpack fuel_free_pack
  fuel_free_unpack_without_format : fuel_free.

Ltac fuel_free_tac :=
  repeat first
    [ progress eauto with fuel_free
    | apply fuel_free_bind; [|intros ?]
    | case_match
    | case_decide ].

Lemma fuel_free_for_range n (body : M unit) :
  fuel_free body → fuel_free (for_range n body).
Proof. intros Hbody. induction n; cbn [for_range]; fuel_free_tac. Qed.

Lemma fuel_free_patchStringPool input strPoolInfo insertionIdx :
  fuel_free (patchStringPool input strPoolInfo insertionIdx).
Proof.
  unfold patchStringPool, writeCommonHeader, write_pack, readInt, readInts,
    readType1, readTypeN.
  repeat first
    [ progress eauto with fuel_free
    | apply fuel_free_for_range
    | apply fuel_free_bind; [|intros ?]
    | case_match
    | case_decide ].
Qed.

(** X19. The index at which [patchStringPool] puts the new string has to
    be the index of a string of the pool: for an index that is not less
    than the number of strings the function raises, whatever the input. *)
Theorem patchStringPool_index_past_end input strPoolInfo insertionIdx s :
  0 ≤ insertionIdx → stringCount strPoolInfo ≤ insertionIdx →
  ∃ e, patchStringPool input strPoolInfo insertionIdx s = Raise e.
Proof.
  intros Hidx Hcount.
  pose proof (fuel_free_patchStringPool input strPoolInfo insertionIdx s) as Hfuel.
  destruct (patchStringPool input strPoolInfo insertionIdx s) as [[[] s']|e|] eqn:H;
    [exfalso; clear Hfuel|by exists e|done].
  unfold patchStringPool in H. cbv zeta in H.
  bind_inv H as Hseek. apply seek_set_Ok in Hseek as [_ ->].
  bind_inv H as Hheader. apply writeCommonHeader_Ok in Hheader as [-> _].
  bind_inv H as Hfields. apply write_pack_Ok in Hfields as (? & _ & ->).
  bind_inv H as Hseek. apply seek_set_Ok in Hseek as [Htable ->].
  bind_inv H as Hcopy. rewrite copy_eq in Hcopy by (unfold UINT32_LENGTH; lia).
  cbv zeta in Hcopy. injection Hcopy as _ <-. cbn [fIn_pos fOut stdout] in H.
  bind_inv H as Hread.
  apply readType1_Ok in Hread as (_ & Hend & ->); [|cbn [fIn_pos]; unfold len; lia|done].
  cbn [fIn_pos fOut stdout] in H, Hend.
  bind_inv H as Hw1. apply write_pack_Ok in Hw1 as (? & _ & ->).
  bind_inv H as Hw2. apply write_pack_Ok in Hw2 as (? & _ & ->).
  cbn [fIn_pos fOut stdout] in H.
  replace (Z.to_nat (stringCount strPoolInfo - (insertionIdx + 1))) with 0%nat in H
    by lia.
  bind_inv H as Hloop. cbn [for_range] in Hloop. ret_inv Hloop.
  bind_inv H as Htell. apply tell_Ok in Htell as [-> ->]. cbn [fIn_pos] in H.
  rewrite decide_True in H; [done|].
  unfold len in *. rewrite length_take, length_drop in *. unfold UINT32_LENGTH in *.
  lia.
Qed.

Lemma patchStringPool_index_past_end_witness :
  let input := Examples.not_debuggable false in
  let strPoolInfo :=
    {| sp_chunkInfo :=
         {| startOffset := 8;
            commonHeader := {| type := 1; headerSize := 28; chunkSize := 168 |} |};
       stringCount := 3; styleCount := 0; flags := 0;
       stringsStart := 40; stylesStart := 0; isUtf8 := false |} in
  ∃ e, patchStringPool input strPoolInfo 3 initial = Raise e.
Proof.
  intros input strPoolInfo.
  apply (patchStringPool_index_past_end input strPoolInfo 3 initial); simpl; lia.
Defined.
(** ** [decode16], [decode8] and [readString] *)

Lemma length_bytes_at (input : list byte) p n :
  0 ≤ p → 0 ≤ n → p + n ≤ len input → len (bytes_at input p n) = n.
Proof. apply length_read. Qed.

(** A read that does not lie inside the input returns fewer bytes. *)
Lemma length_bytes_at_short (input : list byte) p n :
  0 ≤ p → 0 < n → len input < p + n →
  len (bytes_at input p n) < n ∧ len input ≤ p + len (bytes_at input p n).
Proof.
  intros Hp Hn Hshort. unfold bytes_at, len in *.
  rewrite length_take, length_drop. lia.
Qed.

Lemma bytes_at_nil (input : list byte) p n :
  len input ≤ p → bytes_at input p n = [].
Proof.
  intros Hp. unfold bytes_at. rewrite drop_ge by (unfold len in Hp; lia).
  apply take_nil.
Qed.

Lemma decode16_eq input s :
  0 ≤ fIn_pos s →
  let p := fIn_pos s in
  let length1 := uint_at 2 input p in
  let length2 := uint_at 2 input (p + 2) in
  let str_len :=
    if decide (32768 ≤ length1) then (length1 - 32768) * 65536 + length2
    else length1 in
  let bytesRead := if decide (32768 ≤ length1) then 4 else 2 in
  let chars := p + bytesRead in
  decode16 input s
  = if decide (len input < p + 4) then Raise struct_error
    else if decide (chars + 2 * str_len + 2 ≤ len input
                    ∧ bytes_at input (chars + 2 * str_len) 2 = [x00; x00]) then
      Ok ((Decoded utf_16 (bytes_at input chars (2 * str_len)),
           bytesRead + 2 * str_len + 2),
          State (chars + 2 * str_len + 2) (fOut s) (stdout s))
    else Raise (Exception "String not terminated by NULL").
Proof.
  intros Hpos p length1 length2 str_len bytesRead chars.
  pose proof (uint_at_range 2 input p ltac:(lia)) as Hrange1.
  pose proof (uint_at_range 2 input (p + 2) ltac:(lia)) as Hrange2.
  change (2 ^ (8 * 2)) with 65536 in *.
  fold length1 in Hrange1. fold length2 in Hrange2.
  unfold decode16. unfold mbind at 1, M_bind at 1.
  rewrite decodeLength_eq by (done || by right). cbv zeta. fold p.
  change (2 * 2) with 4. change (2 ^ (8 * 2 - 1)) with 32768.
  change (2 ^ (8 * 2)) with 65536. fold length1. fold length2.
  destruct (decide (len input < p + 4)) as [Hshort|Hlong]; [done|].
  assert (0 ≤ str_len) as Hlen by (subst str_len; case_decide; lia).
  assert (0 ≤ chars ∧ chars ≤ len input) as [Hchars Hinside]
    by (subst chars bytesRead; case_decide; lia).
  assert ((if decide (32768 ≤ length1) then
             Ok (((length1 - 32768) * 65536 + length2, 4),
                 State (p + 4) (fOut s) (stdout s))
           else Ok ((length1, 2), State (p + 2) (fOut s) (stdout s)))
          = Ok ((str_len, bytesRead), State chars (fOut s) (stdout s))) as ->
    by (subst str_len bytesRead chars; by case_decide).
  erewrite bind_eval by (apply read_eq; lia). cbv zeta. cbn [fIn_pos fOut stdout].
  replace (str_len * 2) with (2 * str_len) by lia.
  fold (bytes_at input chars (2 * str_len)).
  erewrite bind_eval by (apply read_eq; lia). cbv zeta. cbn [fIn_pos fOut stdout].
  fold (bytes_at input (chars + len (bytes_at input chars (2 * str_len))) 2).
  destruct (decide (chars + 2 * str_len + 2 ≤ len input
                    ∧ bytes_at input (chars + 2 * str_len) 2 = [x00; x00]))
    as [[Hend Hzero]|Hno].
  - rewrite length_bytes_at by lia. rewrite Hzero.
    by rewrite (decide_False (P := [x00; x00] ≠ [x00; x00])) by (by intros ?).
  - rewrite decide_True; [done|]. intros Hzero. apply Hno.
    destruct (decide (chars + 2 * str_len ≤ len input)) as [Hraw|Hraw].
    + rewrite length_bytes_at in Hzero by lia. split; [|done].
      destruct (decide (chars + 2 * str_len + 2 ≤ len input)) as [|Hend]; [done|].
      pose proof (length_bytes_at_short input (chars + 2 * str_len) 2
                    ltac:(lia) ltac:(lia) ltac:(lia)) as [Hfew _].
      rewrite Hzero in Hfew. unfold len in Hfew. simpl in Hfew. lia.
    + pose proof (length_bytes_at_short input chars (2 * str_len)
                    ltac:(lia) ltac:(lia) ltac:(lia)) as [_ Hpast].
      by rewrite (bytes_at_nil input (chars + _) 2) in Hzero by done.
Qed.

Lemma decode8_eq input s :
  0 ≤ fIn_pos s →
  let p := fIn_pos s in
  let length1 := uint_at 1 input p in
  let bytesRead := if decide (128 ≤ length1) then 2 else 1 in
  let q := p + bytesRead in
  let byteLength1 := uint_at 1 input q in
  let byteLength2 := uint_at 1 input (q + 1) in
  let strBytes :=
    if decide (128 ≤ byteLength1) then (byteLength1 - 128) * 256 + byteLength2
    else byteLength1 in
  let bytesRead2 := if decide (128 ≤ byteLength1) then 2 else 1 in
  let chars := q + bytesRead2 in
  decode8 input s
  = if decide (len input < p + 2) then Raise struct_error
    else if decide (len input < q + 2) then Raise struct_error
    else if decide (chars + strBytes + 1 ≤ len input
                    ∧ bytes_at input (chars + strBytes) 1 = [x00]) then
      Ok ((Decoded utf_8 (bytes_at input chars strBytes),
           bytesRead + bytesRead2 + strBytes + 1),
          State (chars + strBytes + 1) (fOut s) (stdout s))
    else Raise (Exception "String not terminated by NULL").
Proof.
  intros Hpos p length1 bytesRead q byteLength1 byteLength2 strBytes bytesRead2 chars.
  pose proof (uint_at_range 1 input p ltac:(lia)) as Hrange1.
  pose proof (uint_at_range 1 input q ltac:(lia)) as Hrange2.
  pose proof (uint_at_range 1 input (q + 1) ltac:(lia)) as Hrange3.
  change (2 ^ (8 * 1)) with 256 in *.
  fold length1 in Hrange1. fold byteLength1 in Hrange2. fold byteLength2 in Hrange3.
  unfold decode8. unfold mbind at 1, M_bind at 1.
  rewrite decodeLength_eq by (done || by left). cbv zeta. fold p.
  change (2 * 1) with 2. change (2 ^ (8 * 1 - 1)) with 128.
  change (2 ^ (8 * 1)) with 256. fold length1.
  destruct (decide (len input < p + 2)) as [Hshort|Hlong]; [done|].
  assert (0 ≤ q ∧ q ≤ len input) as [Hq Hq_inside]
    by (subst q bytesRead; case_decide; lia).
  assert ((if decide (128 ≤ length1) then
             Ok (((length1 - 128) * 256 + uint_at 1 input (p + 1), 2),
                 State (p + 2) (fOut s) (stdout s))
           else Ok ((length1, 1), State (p + 1) (fOut s) (stdout s)))
          = Ok (((if decide (128 ≤ length1)
                  then (length1 - 128) * 256 + uint_at 1 input (p + 1)
                  else length1), bytesRead),
                State q (fOut s) (stdout s))) as ->
    by (subst bytesRead q; by case_decide).
  unfold mbind at 1, M_bind at 1.
  rewrite decodeLength_eq by (done || by left). cbv zeta. cbn [fIn_pos fOut stdout].
  change (2 * 1) with 2. change (2 ^ (8 * 1 - 1)) with 128.
  change (2 ^ (8 * 1)) with 256. fold byteLength1. fold byteLength2.
  destruct (decide (len input < q + 2)) as [Hshort2|Hlong2]; [done|].
  assert (0 ≤ strBytes) as Hlen by (subst strBytes; case_decide; lia).
  assert (0 ≤ chars ∧ chars ≤ len input) as [Hchars Hinside]
    by (subst chars bytesRead2; case_decide; lia).
  assert ((if decide (128 ≤ byteLength1) then
             Ok (((byteLength1 - 128) * 256 + byteLength2, 2),
                 State (q + 2) (fOut s) (stdout s))
           else Ok ((byteLength1, 1), State (q + 1) (fOut s) (stdout s)))
          = Ok ((strBytes, bytesRead2), State chars (fOut s) (stdout s))) as ->
    by (subst strBytes bytesRead2 chars; by case_decide).
  erewrite bind_eval by (apply read_eq; lia). cbv zeta. cbn [fIn_pos fOut stdout].
  fold (bytes_at input chars strBytes).
  erewrite bind_eval by (apply read_eq; lia). cbv zeta. cbn [fIn_pos fOut stdout].
  fold (bytes_at input (chars + len (bytes_at input chars strBytes)) 1).
  destruct (decide (chars + strBytes + 1 ≤ len input
                    ∧ bytes_at input (chars + strBytes) 1 = [x00]))
    as [[Hend Hzero]|Hno].
  - rewrite length_bytes_at by lia. rewrite Hzero.
    by rewrite (decide_False (P := [x00] ≠ [x00])) by (by intros ?).
  - rewrite decide_True; [done|]. intros Hzero. apply Hno.
    destruct (decide (chars + strBytes ≤ len input)) as [Hraw|Hraw].
    + rewrite length_bytes_at in Hzero by lia. split; [|done].
      destruct (decide (chars + strBytes + 1 ≤ len input)) as [|Hend]; [done|].
      pose proof (length_bytes_at_short input (chars + strBytes) 1
                    ltac:(lia) ltac:(lia) ltac:(lia)) as [Hfew _].
      rewrite Hzero in Hfew. unfold len in Hfew. simpl in Hfew. lia.
    + pose proof (length_bytes_at_short input chars strBytes
                    ltac:(lia) ltac:(lia) ltac:(lia)) as [_ Hpast].
      by rewrite (bytes_at_nil input (chars + _) 1) in Hzero by done.
Qed.

Lemma readString_eq input strPoolInfo idx s :
  let chunkInfo := sp_chunkInfo strPoolInfo in
  let table := startOffset chunkInfo + headerSize (commonHeader chunkInfo) in
  let strings := startOffset chunkInfo + stringsStart strPoolInfo in
  let stringOffset := u32_at input (table + 4 * idx) in
  0 ≤ fIn_pos s →
  0 ≤ idx < stringCount strPoolInfo → idx < 2147483648 →
  0 ≤ table → table + 4 * idx + 4 ≤ len input → 0 ≤ strings →
  readString input strPoolInfo idx s
  = match (if isUtf8 strPoolInfo then decode8 input else decode16 input)
            (State (strings + stringOffset) (fOut s) (stdout s)) with
    | Ok ((strVal, _), _) => Ok (Some strVal, s)
    | Raise e => Raise e
    | OutOfFuel => OutOfFuel
    end.
Proof.
  intros chunkInfo table strings stringOffset Hpos Hidx Hint Htable Hentry Hstrings.
  pose proof (u32_at_range input (table + 4 * idx)) as Hoffset.
  fold stringOffset in Hoffset.
  unfold readString. fold chunkInfo. cbv zeta. fold table.
  erewrite bind_eval by apply tell_eq.
  rewrite isInt32NotNegative_spec by lia.
  rewrite bool_decide_eq_true_2 by lia.
  rewrite bool_decide_eq_false_2 by lia. cbn [negb orb].
  erewrite bind_eval by (apply seek_set_eq; unfold UINT32_LENGTH; lia).
  erewrite bind_eval by (apply readInt_eq; cbn [fIn_pos]; unfold UINT32_LENGTH; lia).
  cbn [fIn_pos fOut stdout].
  replace (table + idx * UINT32_LENGTH) with (table + 4 * idx)
    by (unfold UINT32_LENGTH; lia).
  fold stringOffset. fold strings.
  erewrite bind_eval by (apply seek_set_eq; lia). cbn [fIn_pos fOut stdout].
  unfold mbind at 1, M_bind at 1.
  assert (preserves fOut (if isUtf8 strPoolInfo then decode8 input else decode16 input))
    as Hout by (destruct (isUtf8 strPoolInfo); eauto with preserves).
  assert (preserves stdout (if isUtf8 strPoolInfo then decode8 input else decode16 input))
    as Hstd by (destruct (isUtf8 strPoolInfo); eauto with preserves).
  destruct ((if isUtf8 strPoolInfo then decode8 input else decode16 input)
              (State (strings + stringOffset) (fOut s) (stdout s)))
    as [[[strVal n] s1]| |] eqn:Hdecode; [|done..].
  apply Hout in Hdecode as Hout1. apply Hstd in Hdecode as Hstd1.
  cbn [fOut stdout] in Hout1, Hstd1.
  erewrite bind_eval by (apply seek_set_eq; lia).
  unfold mret, M_ret. cbn [fst]. rewrite Hout1, Hstd1. by rewrite state_eta.
Qed.

(** X20. [decode16] reads a length of one 16-bit unit, or of two when the
    high bit of the first is set, then twice as many bytes as the length
    says and a terminator of two bytes. It raises [struct.error] when
    fewer than 4 bytes are left and "String not terminated by NULL" when
    the string does not end inside the input with two zero bytes;
    otherwise it returns the bytes of the characters as a UTF-16 string,
    with the number of bytes of the whole, and stands behind the
    terminator. *)
Theorem decode16_spec input s :
  0 ≤ fIn_pos s →
  let p := fIn_pos s in
  let length1 := uint_at 2 input p in
  let length2 := uint_at 2 input (p + 2) in
  let str_len :=
    if decide (32768 ≤ length1) then (length1 - 32768) * 65536 + length2
    else length1 in
  let bytesRead := if decide (32768 ≤ length1) then 4 else 2 in
  let chars := p + bytesRead in
  decode16 input s
  = if decide (len input < p + 4) then Raise struct_error
    else if decide (chars + 2 * str_len + 2 ≤ len input
                    ∧ bytes_at input (chars + 2 * str_len) 2 = [x00; x00]) then
      Ok ((Decoded utf_16 (bytes_at input chars (2 * str_len)),
           bytesRead + 2 * str_len + 2),
          State (chars + 2 * str_len + 2) (fOut s) (stdout s))
    else Raise (Exception "String not terminated by NULL").
Proof. apply decode16_eq. Qed.

Lemma decode16_spec_witness :
  decode16 DEBUGGABLE_STRING_DATA_UTF16 initial
  = Ok ((Decoded utf_16 (utf16le DEBUGGABLE_STRING), 24), State 24 [] [])
  ∧ decode16 [x00; x00; x00] initial = Raise struct_error
  ∧ decode16 [x01; x00; x61; x00; x00] initial
    = Raise (Exception "String not terminated by NULL").
Proof.
  split; [|split].
  - rewrite (decode16_spec DEBUGGABLE_STRING_DATA_UTF16 initial); [|simpl; lia].
    vm_compute. reflexivity.
  - rewrite (decode16_spec [x00; x00; x00] initial); [|simpl; lia].
    vm_compute. reflexivity.
  - rewrite (decode16_spec [x01; x00; x61; x00; x00] initial); [|simpl; lia].
    vm_compute. reflexivity.
Defined.

(** X21. [decode8] reads two lengths, each of one byte, or of two when
    the high bit of the first is set: the number of characters, which it
    does not use, and the number of bytes. It then reads as many bytes as
    the second length says and a terminator of one byte. It raises
    [struct.error] when fewer than 2 bytes are left at either length,
    "String not terminated by NULL" when the string does not end inside
    the input with a zero byte, and otherwise returns the bytes as a
    UTF-8 string, with the number of bytes of the whole. *)
Theorem decode8_spec input s :
  0 ≤ fIn_pos s →
  let p := fIn_pos s in
  let length1 := uint_at 1 input p in
  let bytesRead := if decide (128 ≤ length1) then 2 else 1 in
  let q := p + bytesRead in
  let byteLength1 := uint_at 1 input q in
  let byteLength2 := uint_at 1 input (q + 1) in
  let strBytes :=
    if decide (128 ≤ byteLength1) then (byteLength1 - 128) * 256 + byteLength2
    else byteLength1 in
  let bytesRead2 := if decide (128 ≤ byteLength1) then 2 else 1 in
  let chars := q + bytesRead2 in
  decode8 input s
  = if decide (len input < p + 2) then Raise struct_error
    else if decide (len input < q + 2) then Raise struct_error
    else if decide (chars + strBytes + 1 ≤ len input
                    ∧ bytes_at input (chars + strBytes) 1 = [x00]) then
      Ok ((Decoded utf_8 (bytes_at input chars strBytes),
           bytesRead + bytesRead2 + strBytes + 1),
          State (chars + strBytes + 1) (fOut s) (stdout s))
    else Raise (Exception "String not terminated by NULL").
Proof. apply decode8_eq. Qed.

Lemma decode8_spec_witness :
  decode8 [x03; x03; x61; x62; x63; x00] initial
  = Ok ((Decoded utf_8 [x61; x62; x63], 6), State 6 [] [])
  ∧ decode8 DEBUGGABLE_STRING_DATA_UTF8 initial
    = Raise (Exception "String not terminated by NULL").
Proof.
  split.
  - rewrite (decode8_spec [x03; x03; x61; x62; x63; x00] initial); [|simpl; lia].
    vm_compute. reflexivity.
  - rewrite (decode8_spec DEBUGGABLE_STRING_DATA_UTF8 initial); [|simpl; lia].
    vm_compute. reflexivity.
Defined.

(** X22. For an index of a string of the pool, [readString] takes the
    offset of the string from the table behind the header of the chunk,
    decodes at this offset from the start of the strings, with [decode8]
    or [decode16] as the pool says, and returns the string with the
    stream where it was; what the decoder raises, it raises. *)
Theorem readString_spec input strPoolInfo idx s :
  let chunkInfo := sp_chunkInfo strPoolInfo in
  let table := startOffset chunkInfo + headerSize (commonHeader chunkInfo) in
  let strings := startOffset chunkInfo + stringsStart strPoolInfo in
  let stringOffset := u32_at input (table + 4 * idx) in
  0 ≤ fIn_pos s →
  0 ≤ idx < stringCount strPoolInfo → idx < 2147483648 →
  0 ≤ table → table + 4 * idx + 4 ≤ len input → 0 ≤ strings →
  readString input strPoolInfo idx s
  = match (if isUtf8 strPoolInfo then decode8 input else decode16 input)
            (State (strings + stringOffset) (fOut s) (stdout s)) with
    | Ok ((strVal, _), _) => Ok (Some strVal, s)
    | Raise e => Raise e
    | OutOfFuel => OutOfFuel
    end.
Proof. apply readString_eq. Qed.

Lemma readString_spec_witness :
  let input := Examples.not_debuggable false in
  let strPoolInfo :=
    {| sp_chunkInfo :=
         {| startOffset := 8;
            commonHeader := {| type := 1; headerSize := 28; chunkSize := 168 |} |};
       stringCount := 3; styleCount := 0; flags := 0;
       stringsStart := 40; stylesStart := 0; isUtf8 := false |} in
  readString input strPoolInfo 2 (State 200 [] [])
  = Ok (Some (Decoded utf_16 (utf16le APPLICATION_STRING)), State 200 [] []).
Proof.
  intros input strPoolInfo.
  rewrite (readString_spec input strPoolInfo 2 (State 200 [] []));
    [|simpl; lia|simpl; lia|lia|simpl; lia|vm_compute; discriminate|simpl; lia].
  vm_compute. reflexivity.
Defined.
(** ** The string pool that [patchStringPool] writes, read back *)

Lemma bytes_at_skip (a b : list byte) n p m :
  len a = n → n ≤ p → bytes_at (a ++ b) p m = bytes_at b (p - n) m.
Proof.
  intros <- Hp. unfold bytes_at, len in *. f_equal.
  rewrite drop_app_ge by lia. f_equal. lia.
Qed.

Lemma bytes_at_take (a b : list byte) p m :
  0 ≤ p → 0 ≤ m → p + m ≤ len a → bytes_at (a ++ b) p m = bytes_at a p m.
Proof.
  intros Hp Hm Hend. unfold bytes_at, len in *.
  rewrite drop_app_le by lia. rewrite take_app_le; [done|].
  rewrite length_drop. lia.
Qed.

Lemma bytes_at_whole (a : list byte) n : len a = n → bytes_at a 0 n = a.
Proof.
  intros <-. unfold bytes_at, len. change (Z.to_nat 0) with 0%nat.
  rewrite drop_0. apply take_ge. lia.
Qed.

Lemma bytes_at_bytes_at (input : list byte) p n q m :
  0 ≤ p → 0 ≤ q → 0 ≤ m → q + m ≤ n →
  bytes_at (bytes_at input p n) q m = bytes_at input (p + q) m.
Proof.
  intros Hp Hq Hm Hend. unfold bytes_at.
  rewrite slice_of_take by lia. do 2 f_equal. lia.
Qed.

Lemma u32_at_bytes_at (input : list byte) p :
  u32_at input p = le_decode (bytes_at input p 4).
Proof. done. Qed.

Lemma uint_at_bytes_at n (input : list byte) p :
  uint_at n input p = le_decode (bytes_at input p n).
Proof. done. Qed.

Lemma len_le_encode n v : len (le_encode n v) = Z.of_nat n.
Proof. unfold len. by rewrite length_le_encode. Qed.

Lemma len_app {A} (a b : list A) : len (a ++ b) = len a + len b.
Proof. unfold len. rewrite length_app. lia. Qed.

Lemma len_moved_offsets input p delta n :
  len (moved_offsets input p delta n) = 4 * Z.of_nat n.
Proof.
  revert p. induction n as [|n IH]; intros p; [done|].
  cbn [moved_offsets]. rewrite len_app, len_le_encode, IH. lia.
Qed.

Lemma bytes_at_moved_offsets input delta n :
  ∀ p j rest,
    0 ≤ j < Z.of_nat n →
    bytes_at (moved_offsets input p delta n ++ rest) (4 * j) 4
    = le_encode 4 (u32_at input (p + 4 * j) + delta).
Proof.
  induction n as [|n IH]; intros p j rest Hj; [lia|].
  cbn [moved_offsets]. rewrite <- app_assoc.
  destruct (decide (j = 0)) as [->|Hne].
  - rewrite bytes_at_take by (rewrite ?len_le_encode; lia).
    rewrite Z.add_0_r. by apply bytes_at_whole, len_le_encode.
  - rewrite (bytes_at_skip _ _ 4) by (rewrite ?len_le_encode; lia).
    replace (4 * j - 4) with (4 * (j - 1)) by lia. rewrite IH by lia.
    do 3 f_equal. lia.
Qed.

Lemma readInts5_eq input s :
  0 ≤ fIn_pos s →
  let p := fIn_pos s in
  readInts input 5 s
  = if decide (p + 20 ≤ len input) then
      Ok ([u32_at input p; u32_at input (p + 4); u32_at input (p + 8);
           u32_at input (p + 12); u32_at input (p + 16)],
          State (p + 20) (fOut s) (stdout s))
    else Raise struct_error.
Proof.
  intros Hpos p. unfold readInts, readTypeN, UINT32_LENGTH.
  unfold mbind, M_bind. rewrite read_eq by lia. cbv zeta. fold p.
  change (Z.to_nat (Z.of_nat 5 * 4)) with 20%nat.
  unfold lift, unpack. change (calcsize (replicate 5 uI)) with 20%nat.
  rewrite length_take, length_drop.
  destruct (decide (p + 20 ≤ len input)) as [Hin|Hout]; unfold len in *.
  - rewrite decide_True by lia.
    cbn [replicate unpack_fields fmt_size]. unfold u32_at.
    rewrite !drop_drop, !take_drop_take, take_take, !drop_drop by lia.
    replace (Z.to_nat (p + 4)) with (Z.to_nat p + 4)%nat by lia.
    replace (Z.to_nat (p + 8)) with (Z.to_nat p + (4 + 4))%nat by lia.
    replace (Z.to_nat (p + 12)) with (Z.to_nat p + (4 + 4 + 4))%nat by lia.
    replace (Z.to_nat (p + 16)) with (Z.to_nat p + (4 + 4 + 4 + 4))%nat by lia.
    do 3 f_equal. rewrite length_take, length_drop. lia.
  - by rewrite decide_False by lia.
Qed.

Lemma decodeStringPoolInfo_eq input chunkInfo s :
  0 ≤ startOffset chunkInfo →
  decodeStringPoolInfo input chunkInfo s
  = if decide (startOffset chunkInfo + 28 ≤ len input) then
      Ok (pool_at input chunkInfo,
          State (startOffset chunkInfo + 28) (fOut s) (stdout s))
    else Raise struct_error.
Proof.
  intros Hstart. unfold decodeStringPoolInfo. cbv zeta.
  erewrite bind_eval by (apply seek_set_eq; unfold COMMON_HEADER_LEN; lia).
  unfold mbind, M_bind. rewrite readInts5_eq by (cbn [fIn_pos]; unfold COMMON_HEADER_LEN; lia).
  cbv zeta. cbn [fIn_pos fOut stdout]. unfold COMMON_HEADER_LEN.
  destruct (decide (startOffset chunkInfo + 28 ≤ len input)) as [Hin|Hout].
  - rewrite decide_True by lia. unfold mret, M_ret, pool_at, COMMON_HEADER_LEN.
    do 3 f_equal. lia.
  - by rewrite decide_False by lia.
Qed.

(** Two inputs that hold the same [k] bytes, one at [p] and one at [p'],
    hold the same bytes in every part of them. *)
Lemma window_sub (input input' : list byte) p p' k q m :
  bytes_at input p k = bytes_at input' p' k →
  0 ≤ p → 0 ≤ p' → 0 ≤ q → 0 ≤ m → q + m ≤ k →
  bytes_at input (p + q) m = bytes_at input' (p' + q) m.
Proof.
  intros Hsame Hp Hp' Hq Hm Hend.
  rewrite <- (bytes_at_bytes_at input p k) by done.
  rewrite <- (bytes_at_bytes_at input' p' k) by done.
  by rewrite Hsame.
Qed.

(** [decode16] uses the bytes of the string only: it decodes the same
    string from the same bytes elsewhere. *)
Lemma decode16_window input input' s s' strVal k s1 :
  0 ≤ fIn_pos s → 0 ≤ fIn_pos s' →
  decode16 input s = Ok ((strVal, k), s1) →
  fIn_pos s' + k ≤ len input' →
  bytes_at input (fIn_pos s) k = bytes_at input' (fIn_pos s') k →
  decode16 input' s'
  = Ok ((strVal, k), State (fIn_pos s' + k) (fOut s') (stdout s')).
Proof.
  intros Hp Hp' H Hend Hsame.
  rewrite decode16_eq in H by done. rewrite decode16_eq by done. cbv zeta in *.
  set (p := fIn_pos s) in *. set (p' := fIn_pos s') in *.
  pose proof (uint_at_range 2 input p ltac:(lia)) as Hrange1.
  pose proof (uint_at_range 2 input (p + 2) ltac:(lia)) as Hrange2.
  change (2 ^ (8 * 2)) with 65536 in *.
  destruct (decide (len input < p + 4)) as [|Hlong]; [done|].
  set (length1 := uint_at 2 input p) in *.
  set (length2 := uint_at 2 input (p + 2)) in *.
  set (str_len := if decide (32768 ≤ length1)
                  then (length1 - 32768) * 65536 + length2 else length1) in *.
  set (bytesRead := if decide (32768 ≤ length1) then 4 else 2) in *.
  assert (0 ≤ str_len) as Hlen
    by (clear H; subst str_len; destruct (decide (32768 ≤ length1)); lia).
  assert (2 ≤ bytesRead ≤ 4) as Hread
    by (clear H; subst bytesRead; destruct (decide (32768 ≤ length1)); lia).
  assert (32768 ≤ length1 → bytesRead = 4) as Hfour
    by (intros; clear H; subst bytesRead; by rewrite decide_True).
  destruct (decide (p + bytesRead + 2 * str_len + 2 ≤ len input ∧ _))
    as [[Hinside Hzero]|]; [|done].
  injection H as <- <- <-.
  assert (uint_at 2 input' p' = length1) as ->.
  { subst length1. rewrite !uint_at_bytes_at.
    rewrite <- (Z.add_0_r p), <- (Z.add_0_r p').
    by rewrite (window_sub input' input p' p (bytesRead + 2 * str_len + 2)) by (done || lia). }
  fold bytesRead.
  assert (32768 ≤ length1 → uint_at 2 input' (p' + 2) = length2) as Hsecond.
  { intros Hhigh. subst length2. rewrite !uint_at_bytes_at.
    by rewrite (window_sub input' input p' p (bytesRead + 2 * str_len + 2))
      by (done || lia). }
  assert ((if decide (32768 ≤ length1)
           then (length1 - 32768) * 65536 + uint_at 2 input' (p' + 2)
           else length1) = str_len) as ->.
  { subst str_len. case_decide; [|done]. by rewrite Hsecond. }
  rewrite decide_False by lia.
  replace (p' + bytesRead + 2 * str_len) with (p' + (bytesRead + 2 * str_len)) by lia.
  rewrite (window_sub input' input p' p (bytesRead + 2 * str_len + 2)
             (bytesRead + 2 * str_len) 2) by (done || lia).
  replace (p + (bytesRead + 2 * str_len)) with (p + bytesRead + 2 * str_len) by lia.
  rewrite decide_True by (split; [lia|done]).
  rewrite (window_sub input' input p' p (bytesRead + 2 * str_len + 2) bytesRead)
    by (done || lia).
  do 3 f_equal. lia.
Qed.

Lemma decode8_window input input' s s' strVal k s1 :
  0 ≤ fIn_pos s → 0 ≤ fIn_pos s' →
  decode8 input s = Ok ((strVal, k), s1) →
  fIn_pos s' + k ≤ len input' →
  bytes_at input (fIn_pos s) k = bytes_at input' (fIn_pos s') k →
  decode8 input' s'
  = Ok ((strVal, k), State (fIn_pos s' + k) (fOut s') (stdout s')).
Proof.
  intros Hp Hp' H Hend Hsame.
  rewrite decode8_eq in H by done. rewrite decode8_eq by done. cbv zeta in *.
  set (p := fIn_pos s) in *. set (p' := fIn_pos s') in *.
  destruct (decide (len input < p + 2)) as [|Hlong]; [done|].
  set (length1 := uint_at 1 input p) in *.
  set (bytesRead := if decide (128 ≤ length1) then 2 else 1) in *.
  assert (1 ≤ bytesRead ≤ 2) as Hread
    by (clear H; subst bytesRead; destruct (decide (128 ≤ length1)); lia).
  destruct (decide (len input < p + bytesRead + 2)) as [|Hlong2]; [done|].
  pose proof (uint_at_range 1 input (p + bytesRead) ltac:(lia)) as Hrange1.
  pose proof (uint_at_range 1 input (p + bytesRead + 1) ltac:(lia)) as Hrange2.
  change (2 ^ (8 * 1)) with 256 in *.
  set (byteLength1 := uint_at 1 input (p + bytesRead)) in *.
  set (byteLength2 := uint_at 1 input (p + bytesRead + 1)) in *.
  set (strBytes := if decide (128 ≤ byteLength1)
                   then (byteLength1 - 128) * 256 + byteLength2
                   else byteLength1) in *.
  set (bytesRead2 := if decide (128 ≤ byteLength1) then 2 else 1) in *.
  assert (0 ≤ strBytes) as Hlen
    by (clear H; subst strBytes; destruct (decide (128 ≤ byteLength1)); lia).
  assert (1 ≤ bytesRead2 ≤ 2) as Hread2
    by (clear H; subst bytesRead2; destruct (decide (128 ≤ byteLength1)); lia).
  assert (128 ≤ byteLength1 → bytesRead2 = 2) as Htwo
    by (intros; clear H; subst bytesRead2; by rewrite decide_True).
  destruct (decide (p + bytesRead + bytesRead2 + strBytes + 1 ≤ len input ∧ _))
    as [[Hinside Hzero]|]; [|done].
  injection H as <- <- <-.
  set (k := bytesRead + bytesRead2 + strBytes + 1) in *.
  assert (uint_at 1 input' p' = length1) as ->.
  { subst length1. rewrite !uint_at_bytes_at.
    rewrite <- (Z.add_0_r p), <- (Z.add_0_r p').
    by rewrite (window_sub input' input p' p k) by (done || lia). }
  fold bytesRead.
  assert (uint_at 1 input' (p' + bytesRead) = byteLength1) as ->.
  { subst byteLength1. rewrite !uint_at_bytes_at.
    by rewrite (window_sub input' input p' p k) by (done || lia). }
  fold bytesRead2.
  assert (128 ≤ byteLength1 → uint_at 1 input' (p' + bytesRead + 1) = byteLength2)
    as Hsecond.
  { intros Hhigh. subst byteLength2. rewrite !uint_at_bytes_at.
    replace (p' + bytesRead + 1) with (p' + (bytesRead + 1)) by lia.
    replace (p + bytesRead + 1) with (p + (bytesRead + 1)) by lia.
    by rewrite (window_sub input' input p' p k) by (done || lia). }
  assert ((if decide (128 ≤ byteLength1)
           then (byteLength1 - 128) * 256 + uint_at 1 input' (p' + bytesRead + 1)
           else byteLength1) = strBytes) as ->.
  { subst strBytes. destruct (decide (128 ≤ byteLength1)); [|done]. by rewrite Hsecond. }
  rewrite (decide_False (P := len input' < p' + 2)) by lia.
  rewrite (decide_False (P := len input' < p' + bytesRead + 2)) by lia.
  replace (p' + bytesRead + bytesRead2 + strBytes)
    with (p' + (bytesRead + bytesRead2 + strBytes)) by lia.
  rewrite (window_sub input' input p' p k (bytesRead + bytesRead2 + strBytes) 1)
    by (done || lia).
  replace (p + (bytesRead + bytesRead2 + strBytes))
    with (p + bytesRead + bytesRead2 + strBytes) by lia.
  rewrite decide_True by (split; [lia|done]).
  replace (p' + bytesRead + bytesRead2) with (p' + (bytesRead + bytesRead2)) by lia.
  rewrite (window_sub input' input p' p k (bytesRead + bytesRead2))
    by (done || lia).
  replace (p + (bytesRead + bytesRead2)) with (p + bytesRead + bytesRead2) by lia.
  do 3 f_equal. lia.
Qed.

Lemma bytes_at_here (a b : list byte) p n :
  p = 0 → len a = n → bytes_at (a ++ b) p n = a.
Proof.
  intros -> Hlen. rewrite bytes_at_take by (unfold len in *; lia).
  by apply bytes_at_whole.
Qed.

Lemma bytes_at_middle (before seg after : list byte) q m :
  0 ≤ q → 0 ≤ m → q + m ≤ len seg →
  bytes_at (before ++ seg ++ after) (len before + q) m = bytes_at seg q m.
Proof.
  intros Hq Hm Hend. rewrite (bytes_at_skip _ _ (len before)) by (done || lia).
  replace (len before + q - len before) with q by lia. by apply bytes_at_take.
Qed.

Ltac seg_len :=
  rewrite ?len_app, ?len_header_bytes, ?len_le_encode, ?len_moved_offsets,
    ?length_DEBUGGABLE_STRING_DATA;
  rewrite ?length_bytes_at by lia;
  lia.

Ltac skip_seg n := rewrite (bytes_at_skip _ _ n); [|seg_len|lia].

Section PatchedPool.

Variables (input : list byte) (strPoolInfo : StrPoolInfo) (insertionIdx : Z).
Hypothesis Htakes : takes_string input strPoolInfo insertionIdx.

Let header := commonHeader (sp_chunkInfo strPoolInfo).
Let start := startOffset (sp_chunkInfo strPoolInfo).
Let count := stringCount strPoolInfo.
Let L := if isUtf8 strPoolInfo then DEBUGGABLE_STRING_LENGTH_UTF8
         else DEBUGGABLE_STRING_LENGTH_UTF16.
Let offset := u32_at input (start + 28 + 4 * insertionIdx).
Let seg := patched_pool input strPoolInfo insertionIdx.

Lemma takes_string_facts :
  0 ≤ start ∧ start + chunkSize header ≤ len input
  ∧ 0 ≤ type header < 65536 ∧ 0 ≤ chunkSize header
  ∧ chunkSize header + L + 4 < 4294967296
  ∧ headerSize header = 28 ∧ styleCount strPoolInfo = 0
  ∧ 0 ≤ flags strPoolInfo < 4294967296
  ∧ 0 ≤ insertionIdx < count
  ∧ 28 + 4 * count ≤ stringsStart strPoolInfo
  ∧ 0 ≤ offset ∧ stringsStart strPoolInfo + offset ≤ chunkSize header
  ∧ 0 < L
  ∧ (∀ j, insertionIdx < j < count →
          u32_at input (start + 28 + 4 * j) + L < 4294967296).
Proof.
  destruct Htakes as (Hin & Hend & Hgrow & Hhs & Hstyles & Hflags & Hutf & Hidx
                      & Htable & Hstring & Hoffsets).
  pose proof (chunk_in_range _ _ Hin) as (Htype & Hsize & Hchunk).
  destruct Hin as (Hstart & _ & _).
  pose proof (u32_at_range input (start + 28 + 4 * insertionIdx)) as Hoffset.
  assert (0 < L) by (unfold L; by destruct (isUtf8 strPoolInfo)).
  unfold offset, header, start, count, L in *. repeat split; try done; lia.
Qed.

Lemma patched_pool_unfold :
  seg
  = header_bytes (type header) 28 (chunkSize header + L + 4)
    ++ (le_encode 4 (count + 1) ++ le_encode 4 0 ++ le_encode 4 (flags strPoolInfo)
        ++ le_encode 4 (stringsStart strPoolInfo + 4) ++ le_encode 4 0)
    ++ bytes_at input (start + 28) (4 * insertionIdx)
    ++ le_encode 4 offset
    ++ le_encode 4 (offset + L)
    ++ moved_offsets input (start + 28 + 4 * (insertionIdx + 1)) L
         (Z.to_nat (count - (insertionIdx + 1)))
    ++ bytes_at input (start + 28 + 4 * count)
         (stringsStart strPoolInfo - 28 - 4 * count)
    ++ bytes_at input (start + stringsStart strPoolInfo) offset
    ++ (if isUtf8 strPoolInfo then DEBUGGABLE_STRING_DATA_UTF8
        else DEBUGGABLE_STRING_DATA_UTF16)
    ++ bytes_at input (start + stringsStart strPoolInfo + offset)
         (chunkSize header - stringsStart strPoolInfo - offset).
Proof.
  destruct takes_string_facts as (_ & _ & _ & _ & _ & Hhs & Hstyles & _).
  unfold seg, patched_pool. cbv zeta.
  fold header. fold start. fold count. fold L. rewrite Hhs, Hstyles. fold offset.
  repeat first [reflexivity | lia | f_equal].
Qed.

Lemma len_patched_pool : len seg = chunkSize header + L + 4.
Proof.
  destruct takes_string_facts
    as (Hstart & Hend & Htype & Hchunk & Hgrow & Hhs & Hstyles & Hflags & Hidx
        & Htable & Hoffset & Hstring & HL & Hoffsets).
  rewrite patched_pool_unfold. seg_len.
Qed.

Ltac pool_facts :=
  destruct takes_string_facts
    as (Hstart & Hend & Htype & Hchunk & Hgrow & Hhs & Hstyles & Hflags & Hidx
        & Htable & Hoffset & Hstring & HL & Hoffsets).

Lemma patched_pool_header rest :
  header_of_bytes (seg ++ rest)
  = {| type := type header; headerSize := 28; chunkSize := chunkSize header + L + 4 |}.
Proof.
  pool_facts. rewrite patched_pool_unfold, <- app_assoc.
  apply header_of_bytes_header_bytes; lia.
Qed.

Lemma patched_pool_fields :
  u32_at seg 8 = count + 1 ∧ u32_at seg 12 = 0 ∧ u32_at seg 16 = flags strPoolInfo
  ∧ u32_at seg 20 = stringsStart strPoolInfo + 4 ∧ u32_at seg 24 = 0.
Proof.
  pool_facts. rewrite !u32_at_bytes_at, patched_pool_unfold.
  split; [|split; [|split; [|split]]].
  - skip_seg 8. rewrite <- !app_assoc. rewrite bytes_at_here by seg_len.
    apply (le_decode_encode 4). lia.
  - skip_seg 8. rewrite <- !app_assoc. skip_seg 4.
    rewrite bytes_at_here by seg_len. by apply (le_decode_encode 4).
  - skip_seg 8. rewrite <- !app_assoc. do 2 skip_seg 4.
    rewrite bytes_at_here by seg_len. by apply (le_decode_encode 4).
  - skip_seg 8. rewrite <- !app_assoc. do 3 skip_seg 4.
    rewrite bytes_at_here by seg_len. apply (le_decode_encode 4). lia.
  - skip_seg 8. rewrite <- !app_assoc. do 4 skip_seg 4.
    rewrite bytes_at_here by seg_len. by apply (le_decode_encode 4).
Qed.

Lemma patched_pool_entry_before j :
  0 ≤ j < insertionIdx →
  u32_at seg (28 + 4 * j) = u32_at input (start + 28 + 4 * j).
Proof.
  intros Hj. pool_facts. rewrite !u32_at_bytes_at, patched_pool_unfold.
  skip_seg 8. skip_seg 20.
  rewrite bytes_at_take by (rewrite ?length_bytes_at by lia; lia).
  rewrite bytes_at_bytes_at by lia. f_equal. f_equal. lia.
Qed.

Lemma patched_pool_entry_new : u32_at seg (28 + 4 * insertionIdx) = offset.
Proof.
  pool_facts. rewrite !u32_at_bytes_at, patched_pool_unfold.
  skip_seg 8. skip_seg 20. skip_seg (4 * insertionIdx).
  rewrite bytes_at_here by seg_len. apply (le_decode_encode 4). lia.
Qed.

Lemma patched_pool_entry_after j :
  insertionIdx ≤ j < count →
  u32_at seg (28 + 4 * (j + 1)) = u32_at input (start + 28 + 4 * j) + L.
Proof.
  intros Hj. pool_facts. rewrite u32_at_bytes_at, patched_pool_unfold.
  skip_seg 8. skip_seg 20. skip_seg (4 * insertionIdx). skip_seg 4.
  destruct (decide (j = insertionIdx)) as [->|Hne].
  - rewrite bytes_at_here by seg_len. apply (le_decode_encode 4). fold offset. lia.
  - skip_seg 4.
    replace (28 + 4 * (j + 1) - 8 - 20 - 4 * insertionIdx - 4 - 4)
      with (4 * (j - (insertionIdx + 1))) by lia.
    rewrite bytes_at_moved_offsets by lia.
    replace (start + 28 + 4 * (insertionIdx + 1) + 4 * (j - (insertionIdx + 1)))
      with (start + 28 + 4 * j) by lia.
    apply (le_decode_encode 4).
    pose proof (u32_at_range input (start + 28 + 4 * j)).
    specialize (Hoffsets j ltac:(lia)). lia.
Qed.

Lemma patched_pool_strings_before q m :
  0 ≤ q → 0 ≤ m → q + m ≤ offset →
  bytes_at seg (stringsStart strPoolInfo + 4 + q) m
  = bytes_at input (start + stringsStart strPoolInfo + q) m.
Proof.
  intros Hq Hm Hlast. pool_facts. rewrite patched_pool_unfold.
  skip_seg 8. skip_seg 20. skip_seg (4 * insertionIdx). skip_seg 4. skip_seg 4.
  skip_seg (4 * Z.of_nat (Z.to_nat (count - (insertionIdx + 1)))).
  skip_seg (stringsStart strPoolInfo - 28 - 4 * count).
  rewrite bytes_at_take by (rewrite ?length_bytes_at by lia; lia).
  rewrite bytes_at_bytes_at by lia. f_equal. lia.
Qed.

Lemma patched_pool_new_string :
  bytes_at seg (stringsStart strPoolInfo + 4 + offset) L
  = if isUtf8 strPoolInfo then DEBUGGABLE_STRING_DATA_UTF8
    else DEBUGGABLE_STRING_DATA_UTF16.
Proof.
  pool_facts. rewrite patched_pool_unfold.
  skip_seg 8. skip_seg 20. skip_seg (4 * insertionIdx). skip_seg 4. skip_seg 4.
  skip_seg (4 * Z.of_nat (Z.to_nat (count - (insertionIdx + 1)))).
  skip_seg (stringsStart strPoolInfo - 28 - 4 * count).
  skip_seg offset.
  apply bytes_at_here; [lia|]. apply length_DEBUGGABLE_STRING_DATA.
Qed.

Lemma patched_pool_strings_after q m :
  offset ≤ q → 0 ≤ m → stringsStart strPoolInfo + q + m ≤ chunkSize header →
  bytes_at seg (stringsStart strPoolInfo + 4 + L + q) m
  = bytes_at input (start + stringsStart strPoolInfo + q) m.
Proof.
  intros Hq Hm Hlast. pool_facts. rewrite patched_pool_unfold.
  skip_seg 8. skip_seg 20. skip_seg (4 * insertionIdx). skip_seg 4. skip_seg 4.
  skip_seg (4 * Z.of_nat (Z.to_nat (count - (insertionIdx + 1)))).
  skip_seg (stringsStart strPoolInfo - 28 - 4 * count).
  skip_seg offset. skip_seg L.
  rewrite bytes_at_bytes_at by lia. f_equal. lia.
Qed.

End PatchedPool.

Lemma decode_consumed input (utf8 : bool) s strVal k s1 :
  0 ≤ fIn_pos s →
  (if utf8 then decode8 input else decode16 input) s = Ok ((strVal, k), s1) →
  0 ≤ k ∧ fIn_pos s + k ≤ len input.
Proof.
  intros Hpos H. destruct utf8.
  - rewrite decode8_eq in H by done. cbv zeta in H.
    pose proof (uint_at_range 1 input (fIn_pos s) ltac:(lia)).
    pose proof (uint_at_range 1 input (fIn_pos s + 1) ltac:(lia)).
    pose proof (uint_at_range 1 input (fIn_pos s + 2) ltac:(lia)).
    pose proof (uint_at_range 1 input (fIn_pos s + 1 + 1) ltac:(lia)).
    pose proof (uint_at_range 1 input (fIn_pos s + 2 + 1) ltac:(lia)).
    repeat case_decide; try done; injection H as _ <- _; lia.
  - rewrite decode16_eq in H by done. cbv zeta in H.
    pose proof (uint_at_range 2 input (fIn_pos s) ltac:(lia)).
    pose proof (uint_at_range 2 input (fIn_pos s + 2) ltac:(lia)).
    repeat case_decide; try done; injection H as _ <- _; lia.
Qed.

Lemma decode_window input input' (utf8 : bool) s s' strVal k s1 :
  0 ≤ fIn_pos s → 0 ≤ fIn_pos s' →
  (if utf8 then decode8 input else decode16 input) s = Ok ((strVal, k), s1) →
  fIn_pos s' + k ≤ len input' →
  bytes_at input (fIn_pos s) k = bytes_at input' (fIn_pos s') k →
  (if utf8 then decode8 input' else decode16 input') s'
  = Ok ((strVal, k), State (fIn_pos s' + k) (fOut s') (stdout s')).
Proof.
  destruct utf8; [apply decode8_window | apply decode16_window].
Qed.

(** Reading the string of index [idx'] in the pool written at the end of
    [before]: the string that [decode] finds in the input at its old
    place. *)
Lemma readString_patched_pool input strPoolInfo insertionIdx before after t
  source idx' p q strVal k s1 :
  takes_string input strPoolInfo insertionIdx →
  0 ≤ fIn_pos t →
  let seg := patched_pool input strPoolInfo insertionIdx in
  let out := before ++ seg ++ after in
  let pool' := with_new_string strPoolInfo (len before) in
  0 ≤ idx' ≤ stringCount strPoolInfo →
  0 ≤ p →
  (if isUtf8 strPoolInfo then decode8 source else decode16 source) (State p [] [])
  = Ok ((strVal, k), s1) →
  u32_at seg (28 + 4 * idx') = q - (stringsStart strPoolInfo + 4) →
  stringsStart strPoolInfo + 4 ≤ q → q + k ≤ len seg →
  bytes_at seg q k = bytes_at source p k →
  readString out pool' idx' t = Ok (Some strVal, t).
Proof.
  intros Htakes Hpos seg out pool' Hidx Hp Hdecode Hentry Hq Hinside Hbytes.
  pose proof (takes_string_facts _ _ _ Htakes)
    as (Hstart & Hend & Htype & Hchunk & Hgrow & Hhs & Hstyles & Hflags & HD
        & Htable & Hoffset & Hstring & HL & Hoffsets).
  pose proof (len_patched_pool _ _ _ Htakes) as Hlen. fold seg in Hlen.
  pose proof (decode_consumed source (isUtf8 strPoolInfo) (State p [] []) _ _ _
                Hp Hdecode) as [Hk _].
  assert (len out = len before + len seg + len after) as Hout
    by (subst out; rewrite !len_app; lia).
  assert (0 ≤ len before ∧ 0 ≤ len after) as [Hbefore Hafter] by (unfold len; lia).
  rewrite readString_eq; cbn [pool' with_new_string sp_chunkInfo startOffset commonHeader
    headerSize stringCount stringsStart isUtf8]; rewrite ?Hhs; [|lia..].
  assert (u32_at out (len before + 28 + 4 * idx')
          = q - (stringsStart strPoolInfo + 4)) as ->.
  { rewrite <- Hentry. rewrite !u32_at_bytes_at. f_equal.
    replace (len before + 28 + 4 * idx') with (len before + (28 + 4 * idx')) by lia.
    apply bytes_at_middle; lia. }
  replace (len before + (stringsStart strPoolInfo + 4)
           + (q - (stringsStart strPoolInfo + 4))) with (len before + q) by lia.
  erewrite (decode_window source out (isUtf8 strPoolInfo) (State p [] [])
              (State (len before + q) (fOut t) (stdout t)));
    [reflexivity|done|cbn [fIn_pos]; lia|exact Hdecode|cbn [fIn_pos]; lia|].
  cbn [fIn_pos]. rewrite <- Hbytes. symmetry. apply bytes_at_middle; lia.
Qed.

(** X23. [decodeStringPoolInfo] reads the five words that follow the
    common header of the chunk, whatever the header says of its own size
    and type: the numbers of strings and styles, the flags, and where the
    strings and the styles start; the pool is UTF-8 when bit 8 of the
    flags is set. It raises [struct.error] when the 28 bytes do not lie
    inside the input, and leaves the stream behind them otherwise. *)
Theorem decodeStringPoolInfo_spec input chunkInfo s :
  0 ≤ startOffset chunkInfo →
  decodeStringPoolInfo input chunkInfo s
  = if decide (startOffset chunkInfo + 28 ≤ len input) then
      Ok (pool_at input chunkInfo,
          State (startOffset chunkInfo + 28) (fOut s) (stdout s))
    else Raise struct_error.
Proof. apply decodeStringPoolInfo_eq. Qed.

Lemma decodeStringPoolInfo_spec_witness :
  let chunkInfo :=
    {| startOffset := 8;
       commonHeader := {| type := 1; headerSize := 28; chunkSize := 168 |} |} in
  decodeStringPoolInfo (Examples.not_debuggable true) chunkInfo initial
  = Ok ({| sp_chunkInfo := chunkInfo;
           stringCount := 3; styleCount := 0; flags := 256;
           stringsStart := 40; stylesStart := 0; isUtf8 := true |},
        State 36 [] [])
  ∧ decodeStringPoolInfo (take 30 (Examples.not_debuggable true)) chunkInfo initial
    = Raise struct_error.
Proof.
  intros chunkInfo. split.
  - rewrite (decodeStringPoolInfo_spec (Examples.not_debuggable true) chunkInfo initial);
      [|simpl; lia].
    vm_compute. reflexivity.
  - rewrite (decodeStringPoolInfo_spec (take 30 (Examples.not_debuggable true))
               chunkInfo initial); [|simpl; lia].
    vm_compute. reflexivity.
Defined.

Lemma patched_pool_read_back input strPoolInfo insertionIdx s before after t :
  takes_string input strPoolInfo insertionIdx →
  0 ≤ fIn_pos t →
  let chunkInfo := sp_chunkInfo strPoolInfo in
  let seg := patched_pool input strPoolInfo insertionIdx in
  let out := before ++ seg ++ after in
  let pool' := with_new_string strPoolInfo (len before) in
  patchStringPool input strPoolInfo insertionIdx s
  = Ok ((), State (startOffset chunkInfo + chunkSize (commonHeader chunkInfo))
              (fOut s ++ seg) (stdout s))
  ∧ chunk_in out (sp_chunkInfo pool')
  ∧ len seg = chunkSize (commonHeader (sp_chunkInfo pool'))
  ∧ decodeStringPoolInfo out (sp_chunkInfo pool') t
    = Ok (pool', State (len before + 28) (fOut t) (stdout t))
  ∧ (isUtf8 strPoolInfo = false →
     readString out pool' insertionIdx t
     = Ok (Some (Decoded utf_16 (utf16le DEBUGGABLE_STRING)), t)).
Proof.
  intros Htakes Hpos chunkInfo seg out pool'.
  pose proof (takes_string_facts _ _ _ Htakes)
    as (Hstart & Hend & Htype & Hchunk & Hgrow & Hhs & Hstyles & Hflags & HD
        & Htable & Hoffset & Hstring & HL & Hoffsets).
  pose proof (len_patched_pool _ _ _ Htakes) as Hlen. fold seg in Hlen.
  pose proof (patched_pool_fields _ _ _ Htakes)
    as (Hcount & Hstyle & Hflag & Hstrings & Hstyles').
  fold seg in Hcount, Hstyle, Hflag, Hstrings, Hstyles'.
  assert (len out = len before + len seg + len after) as Hout
    by (subst out; rewrite !len_app; lia).
  assert (0 ≤ len before ∧ 0 ≤ len after) as [Hbefore Hafter] by (unfold len; lia).
  assert (drop (Z.to_nat (len before)) out = seg ++ after) as Hdrop.
  { subst out. unfold len. rewrite Nat2Z.id. by rewrite drop_app_length. }
  split; [|split; [|split; [|split]]].
  - destruct Htakes as (Hin & _). subst chunkInfo.
    apply patchStringPool_eq; rewrite ?Hhs; try done; lia.
  - split; [done|]. cbn [with_new_string pool' sp_chunkInfo startOffset commonHeader].
    rewrite Hdrop. split.
    + rewrite length_app. unfold len in Hlen. lia.
    + rewrite Hhs. symmetry. apply patched_pool_header. done.
  - done.
  - rewrite decodeStringPoolInfo_eq by done.
    cbn [with_new_string pool' sp_chunkInfo startOffset].
    rewrite decide_True by lia. do 2 f_equal.
    assert (∀ k, 0 ≤ k → k + 4 ≤ len seg →
                 u32_at out (len before + k) = u32_at seg k) as Hword.
    { intros k Hk Hk'. rewrite !u32_at_bytes_at. f_equal.
      apply bytes_at_middle; lia. }
    unfold pool_at, with_new_string, COMMON_HEADER_LEN.
    cbn [startOffset].
    replace (len before + 8 + 4) with (len before + 12) by lia.
    replace (len before + 8 + 8) with (len before + 16) by lia.
    replace (len before + 8 + 12) with (len before + 20) by lia.
    replace (len before + 8 + 16) with (len before + 24) by lia.
    rewrite !Hword by lia.
    rewrite Hcount, Hstyle, Hflag, Hstrings, Hstyles'.
    subst pool'. unfold with_new_string. rewrite Hstyles.
    destruct Htakes as (_ & _ & _ & _ & _ & _ & <- & _). done.
  - intros Hutf16.
    assert (decode16 DEBUGGABLE_STRING_DATA_UTF16 (State 0 [] [])
            = Ok ((Decoded utf_16 (utf16le DEBUGGABLE_STRING), 24), State 24 [] []))
      as Hdata by (vm_compute; reflexivity).
    pose proof (patched_pool_new_string _ _ _ Htakes) as Hnew.
    pose proof (patched_pool_entry_new _ _ _ Htakes) as Hentry.
    subst chunkInfo. fold seg in Hnew, Hentry.
    rewrite Hutf16 in Hnew, Hlen. unfold DEBUGGABLE_STRING_LENGTH_UTF16 in Hnew, Hlen.
    apply (readString_patched_pool input strPoolInfo insertionIdx before after t
             DEBUGGABLE_STRING_DATA_UTF16 insertionIdx 0
             (stringsStart strPoolInfo + 4
              + u32_at input (startOffset (sp_chunkInfo strPoolInfo) + 28
                              + 4 * insertionIdx))
             _ 24 (State 24 [] []) Htakes Hpos); fold seg; try lia.
    + by rewrite Hutf16.
    + rewrite Hnew. symmetry. by apply bytes_at_whole.
Qed.

(** X24. The pool that [patchStringPool] writes is one that the program
    reads back. For a pool that takes the new string at [insertionIdx],
    wherever the bytes written stand in an output, between [before] and
    [after]: the chunk has the header that was written, with the size of
    what was written; [decodeStringPoolInfo] finds one string more, the
    strings 4 bytes later, and the flags kept; and in a UTF-16 pool
    [readString] finds "debuggable" at [insertionIdx]. *)
Theorem patchStringPool_adds_string input strPoolInfo insertionIdx s before after t :
  takes_string input strPoolInfo insertionIdx →
  0 ≤ fIn_pos t →
  let chunkInfo := sp_chunkInfo strPoolInfo in
  let seg := patched_pool input strPoolInfo insertionIdx in
  let out := before ++ seg ++ after in
  let pool' := with_new_string strPoolInfo (len before) in
  patchStringPool input strPoolInfo insertionIdx s
  = Ok ((), State (startOffset chunkInfo + chunkSize (commonHeader chunkInfo))
              (fOut s ++ seg) (stdout s))
  ∧ chunk_in out (sp_chunkInfo pool')
  ∧ len seg = chunkSize (commonHeader (sp_chunkInfo pool'))
  ∧ decodeStringPoolInfo out (sp_chunkInfo pool') t
    = Ok (pool', State (len before + 28) (fOut t) (stdout t))
  ∧ (isUtf8 strPoolInfo = false →
     readString out pool' insertionIdx t
     = Ok (Some (Decoded utf_16 (utf16le DEBUGGABLE_STRING)), t)).
Proof. apply patched_pool_read_back. Qed.

Lemma not_debuggable_takes_string :
  takes_string (Examples.not_debuggable false)
    {| sp_chunkInfo :=
         {| startOffset := 8;
            commonHeader := {| type := 1; headerSize := 28; chunkSize := 168 |} |};
       stringCount := 3; styleCount := 0; flags := 0;
       stringsStart := 40; stylesStart := 0; isUtf8 := false |} 1.
Proof.
  split.
  { split; [simpl; lia|]. split; [|vm_compute; reflexivity].
    apply Nat.leb_le. vm_compute. reflexivity. }
  split; [vm_compute; discriminate|].
  do 5 (split; [done|]).
  split; [simpl; lia|]. split; [simpl; lia|].
  split; [vm_compute; discriminate|].
  intros j Hj. assert (j = 2) as -> by (simpl in Hj; lia).
  vm_compute. reflexivity.
Qed.

Lemma patchStringPool_adds_string_witness :
  let input := Examples.not_debuggable false in
  let strPoolInfo :=
    {| sp_chunkInfo :=
         {| startOffset := 8;
            commonHeader := {| type := 1; headerSize := 28; chunkSize := 168 |} |};
       stringCount := 3; styleCount := 0; flags := 0;
       stringsStart := 40; stylesStart := 0; isUtf8 := false |} in
  let out := take 8 input ++ patched_pool input strPoolInfo 1 ++ drop 176 input in
  let pool' := with_new_string strPoolInfo 8 in
  decodeStringPoolInfo out (sp_chunkInfo pool') initial = Ok (pool', State 36 [] [])
  ∧ readString out pool' 1 initial
    = Ok (Some (Decoded utf_16 (utf16le DEBUGGABLE_STRING)), initial).
Proof.
  intros input strPoolInfo out pool'.
  destruct (patchStringPool_adds_string input strPoolInfo 1 initial
              (take 8 input) (drop 176 input) initial not_debuggable_takes_string
              ltac:(done))
    as (_ & _ & _ & Hdecode & Hread).
  split; [exact Hdecode|]. by apply Hread.
Defined.

(** X25. The strings of the pool keep their contents under
    [patchStringPool], at the index that the references are moved to. For
    a pool that takes the new string at [insertionIdx] and a string of
    index [j] that the input decodes in [k] bytes: when the string lies
    on its side of the place where the new string goes, before it for an
    index below [insertionIdx] and from it on, inside the chunk, for the
    other indices, [readString] finds in the output at the index
    [shifted insertionIdx j] the string that it finds in the input at
    [j]. *)
Theorem patchStringPool_keeps_strings input strPoolInfo insertionIdx before after t
  j strVal k s1 :
  takes_string input strPoolInfo insertionIdx →
  0 ≤ fIn_pos t →
  let chunkInfo := sp_chunkInfo strPoolInfo in
  let strings := startOffset chunkInfo + stringsStart strPoolInfo in
  let offset i := u32_at input (startOffset chunkInfo + 28 + 4 * i) in
  let out := before ++ patched_pool input strPoolInfo insertionIdx ++ after in
  let pool' := with_new_string strPoolInfo (len before) in
  0 ≤ j < stringCount strPoolInfo →
  (if isUtf8 strPoolInfo then decode8 input else decode16 input)
    (State (strings + offset j) [] [])
  = Ok ((strVal, k), s1) →
  (j < insertionIdx ∧ offset j + k ≤ offset insertionIdx)
  ∨ (insertionIdx ≤ j ∧ offset insertionIdx ≤ offset j
     ∧ stringsStart strPoolInfo + offset j + k ≤ chunkSize (commonHeader chunkInfo)) →
  readString input strPoolInfo j t = Ok (Some strVal, t)
  ∧ readString out pool' (shifted insertionIdx j) t = Ok (Some strVal, t).
Proof.
  intros Htakes Hpos chunkInfo strings offset out pool' Hj Hdecode Hside.
  pose proof (takes_string_facts _ _ _ Htakes)
    as (Hstart & Hend & Htype & Hchunk & Hgrow & Hhs & Hstyles & Hflags & HD
        & Htable & Hoffset & Hstring & HL & Hoffsets).
  pose proof (len_patched_pool _ _ _ Htakes) as Hlen.
  pose proof (u32_at_range input (startOffset chunkInfo + 28 + 4 * j)) as Hrange.
  subst chunkInfo offset. cbv beta in *.
  set (oj := u32_at input (startOffset (sp_chunkInfo strPoolInfo) + 28 + 4 * j)) in *.
  set (oD := u32_at input (startOffset (sp_chunkInfo strPoolInfo) + 28
                           + 4 * insertionIdx)) in *.
  assert (0 ≤ strings + oj) as Hp by (subst strings; lia).
  pose proof (decode_consumed input (isUtf8 strPoolInfo) (State (strings + oj) [] [])
                _ _ _ Hp Hdecode) as [Hk Hinside].
  cbn [fIn_pos] in Hinside.
  split.
  - rewrite readString_eq; rewrite ?Hhs; [|lia..].
    fold oj. fold strings.
    erewrite (decode_window input input (isUtf8 strPoolInfo) (State (strings + oj) [] [])
                (State (strings + oj) (fOut t) (stdout t)));
      [reflexivity|done|done|exact Hdecode|cbn [fIn_pos]; lia|done].
  - destruct Hside as [[Hbelow Hbefore]|(Habove & Hfrom & Hlast)].
    + assert (shifted insertionIdx j = j) as ->
        by (unfold shifted; rewrite decide_False; [done|lia]).
      apply (readString_patched_pool input strPoolInfo insertionIdx before after t
               input j (strings + oj) (stringsStart strPoolInfo + 4 + oj)
               strVal k s1 Htakes Hpos); try done; try lia.
      * rewrite (patched_pool_entry_before _ _ _ Htakes) by lia. fold oj. lia.
      * apply (patched_pool_strings_before _ _ _ Htakes); lia.
    + assert (shifted insertionIdx j = j + 1) as ->
        by (unfold shifted; rewrite decide_True; [done|lia]).
      apply (readString_patched_pool input strPoolInfo insertionIdx before after t
               input (j + 1) (strings + oj)
               (stringsStart strPoolInfo + 4
                + (if isUtf8 strPoolInfo then DEBUGGABLE_STRING_LENGTH_UTF8
                   else DEBUGGABLE_STRING_LENGTH_UTF16) + oj)
               strVal k s1 Htakes Hpos); try done; try lia.
      * rewrite (patched_pool_entry_after _ _ _ Htakes) by lia. fold oj. lia.
      * apply (patched_pool_strings_after _ _ _ Htakes); lia.
Qed.

Lemma patchStringPool_keeps_strings_witness :
  let input := Examples.not_debuggable false in
  let strPoolInfo :=
    {| sp_chunkInfo :=
         {| startOffset := 8;
            commonHeader := {| type := 1; headerSize := 28; chunkSize := 168 |} |};
       stringCount := 3; styleCount := 0; flags := 0;
       stringsStart := 40; stylesStart := 0; isUtf8 := false |} in
  let out := take 8 input ++ patched_pool input strPoolInfo 1 ++ drop 176 input in
  let pool' := with_new_string strPoolInfo 8 in
  readString out pool' 0 initial
  = Ok (Some (Decoded utf_16 (utf16le "label")), initial)
  ∧ readString out pool' 3 initial
    = Ok (Some (Decoded utf_16 (utf16le APPLICATION_STRING)), initial).
Proof.
  intros input strPoolInfo out pool'. split.
  - refine (proj2 (patchStringPool_keeps_strings input strPoolInfo 1
                     (take 8 input) (drop 176 input) initial 0
                     (Decoded utf_16 (utf16le "label")) 14 (State 62 [] [])
                     not_debuggable_takes_string _ _ _ _)).
    + done.
    + simpl. lia.
    + vm_compute. reflexivity.
    + left. split; [lia|]. vm_compute. discriminate.
  - refine (proj2 (patchStringPool_keeps_strings input strPoolInfo 1
                     (take 8 input) (drop 176 input) initial 2
                     (Decoded utf_16 (utf16le APPLICATION_STRING)) 26
                     (State 176 [] [])
                     not_debuggable_takes_string _ _ _ _)).
    + done.
    + simpl. lia.
    + vm_compute. reflexivity.
    + right. split; [lia|]. split; vm_compute; discriminate.
Defined.
(** ** [patchChunk] on the nodes without attributes *)

Lemma patchNode_eq input d s :
  0 ≤ fIn_pos s → fIn_pos s + 8 ≤ len input →
  patchNode input d s
  = Ok ((), State (fIn_pos s + 8)
              (fOut s ++ bytes_at input (fIn_pos s) 4
               ++ le_encode 4 (shifted d (u32_at input (fIn_pos s + 4))))
              (stdout s)).
Proof.
  intros Hpos Hend. unfold patchNode, UINT32_LENGTH.
  erewrite bind_eval by (apply copy_exact_eq; lia).
  rewrite patchStringRef_eq by (cbn [fIn_pos]; lia). cbn [fIn_pos fOut stdout].
  unfold bytes_at. rewrite <- app_assoc. do 3 f_equal. lia.
Qed.

(** X26. For the chunks of a namespace (types 0x100 and 0x101) and of the
    end of an element (0x103) [patchChunk] writes 24 bytes: the header
    and the line number as they are, then the comment and the two
    references of the node, each moved by [shifted]; for character data
    (0x104) it writes 28 bytes: the header and the line number, the
    comment and the data reference moved, and the 8 bytes of the typed
    value. It does so whatever headerSize and chunkSize the chunk has,
    and leaves the stream behind these bytes. *)
Theorem patchChunk_node input c d s :
  let start := startOffset c in
  let t := type (commonHeader c) in
  let moved p := le_encode 4 (shifted d (u32_at input p)) in
  0 ≤ start →
  (t = 0x100 ∨ t = 0x101 ∨ t = 0x103 → start + 24 ≤ len input →
   patchChunk input c d s
   = Ok ((), State (start + 24)
               (fOut s ++ bytes_at input start 12 ++ moved (start + 12)
                ++ moved (start + 16) ++ moved (start + 20))
               (stdout s)))
  ∧ (t = 0x104 → start + 28 ≤ len input →
     patchChunk input c d s
     = Ok ((), State (start + 28)
                 (fOut s ++ bytes_at input start 12 ++ moved (start + 12)
                  ++ moved (start + 16) ++ bytes_at input (start + 20) 8)
                 (stdout s))).
Proof.
  intros start t moved Hstart.
  assert (∀ k, 24 ≤ k → start + k ≤ len input →
            0x100 ≤ t ≤ 0x104 →
            patchChunk input c d s
            = (if decide (t = 0x100 ∨ t = 0x101) then patchNamespaceExt input d
               else if decide (t = 0x102) then patchAttrExt input c d
               else if decide (t = 0x103) then patchEndElementExt input d
               else patchCDataExt input d)
                (State (start + 16)
                   (fOut s ++ bytes_at input start 12 ++ moved (start + 12))
                   (stdout s))) as Hnode.
  { intros k Hk Hend Htype. unfold patchChunk. cbv zeta. fold t. fold start.
    unfold COMMON_HEADER_LEN.
    erewrite bind_eval by (by apply seek_set_eq).
    erewrite bind_eval by (apply copy_exact_eq; cbn [fIn_pos]; lia).
    cbn [fIn_pos fOut stdout].
    rewrite decide_True by lia.
    erewrite bind_eval by (apply patchNode_eq; cbn [fIn_pos]; lia).
    cbn [fIn_pos fOut stdout].
    assert (fOut s ++ bytes_at input start 12 ++ moved (start + 12)
            = (fOut s ++ take (Z.to_nat 8) (drop (Z.to_nat start) input))
                ++ bytes_at input (start + 8) 4
                ++ le_encode 4 (shifted d (u32_at input (start + 8 + 4)))) as ->.
    { rewrite <- !app_assoc. f_equal. rewrite app_assoc. f_equal.
      - unfold bytes_at.
        replace (Z.to_nat (start + 8)) with (Z.to_nat start + 8)%nat by lia.
        rewrite <- drop_drop, take_split. f_equal.
      - unfold moved. do 3 f_equal. lia. }
    replace (start + 8 + 8) with (start + 16) by lia.
    repeat case_decide; try done; lia. }
  split.
  - intros Htype Hend.
    rewrite (Hnode 24) by (done || lia).
    assert ((if decide (t = 0x100 ∨ t = 0x101) then patchNamespaceExt input d
             else if decide (t = 0x102) then patchAttrExt input c d
             else if decide (t = 0x103) then patchEndElementExt input d
             else patchCDataExt input d)
            = (patchStringRef input d;; patchStringRef input d)) as ->.
    { repeat case_decide; try done; lia. }
    erewrite bind_eval by (apply patchStringRef_eq; cbn [fIn_pos]; lia).
    rewrite patchStringRef_eq by (cbn [fIn_pos]; lia). cbn [fIn_pos fOut stdout].
    unfold moved. rewrite <- !app_assoc.
    repeat first [reflexivity | lia | f_equal].
  - intros Htype Hend.
    rewrite (Hnode 28) by (done || lia).
    rewrite !decide_False by lia. unfold patchCDataExt, UINT32_LENGTH.
    erewrite bind_eval by (apply patchStringRef_eq; cbn [fIn_pos]; lia).
    rewrite copy_exact_eq by (cbn [fIn_pos]; lia). cbn [fIn_pos fOut stdout].
    unfold moved, bytes_at. rewrite <- !app_assoc.
    repeat first [reflexivity | lia | f_equal].
Qed.

Lemma patchChunk_node_witness :
  let input := Examples.not_debuggable false in
  let c := {| startOffset := 244;
              commonHeader := {| type := 0x103; headerSize := 16; chunkSize := 24 |} |} in
  patchChunk input c 1 initial
  = Ok ((), State 268
              (bytes_at input 244 12 ++ le_encode 4 0xFFFFFFFF
               ++ le_encode 4 0xFFFFFFFF ++ le_encode 4 3)
              []).
Proof.
  intros input c.
  rewrite (proj1 (patchChunk_node input c 1 initial ltac:(simpl; lia)));
    [|right; right; reflexivity|vm_compute; discriminate].
  vm_compute. reflexivity.
Defined.

(** ** [patchChunk] on the start of an element *)

Lemma for_range_patchAttribute_eq input d n :
  ∀ s,
    0 ≤ fIn_pos s → fIn_pos s + 20 * Z.of_nat n ≤ len input →
    for_range n (patchAttribute input d) s
    = Ok ((), State (fIn_pos s + 20 * Z.of_nat n)
                (fOut s ++ concat (patched_bytes d
                                   <$> attribute_records input (fIn_pos s) n))
                (stdout s)).
Proof.
  induction n as [|n IH]; intros s Hpos Hend.
  - cbn [for_range]. unfold mret, M_ret, attribute_records.
    cbn [seq fmap list_fmap concat]. by rewrite app_nil_r, Z.add_0_r, state_eta.
  - cbn [for_range]. rewrite attribute_records_S by done.
    erewrite bind_eval by (apply patchAttribute_eq; lia).
    rewrite IH by (cbn [fIn_pos]; lia). cbn [fIn_pos fOut stdout].
    rewrite fmap_cons. cbn [concat]. rewrite <- app_assoc. do 3 f_equal. lia.
Qed.

Lemma bytes_at_split (input : list byte) p a b :
  0 ≤ p → 0 ≤ a → 0 ≤ b →
  bytes_at input p a ++ bytes_at input (p + a) b = bytes_at input p (a + b).
Proof.
  intros Hp Ha Hb. unfold bytes_at.
  replace (Z.to_nat (p + a)) with (Z.to_nat p + Z.to_nat a)%nat by lia.
  replace (Z.to_nat (a + b)) with (Z.to_nat a + Z.to_nat b)%nat by lia.
  by rewrite <- drop_drop, take_split.
Qed.

Lemma readShorts3_eq input s :
  0 ≤ fIn_pos s → fIn_pos s + 6 ≤ len input →
  let p := fIn_pos s in
  readShorts input 3 s
  = Ok ([u16_at input p; u16_at input (p + 2); u16_at input (p + 4)],
        State (p + 6) (fOut s) (stdout s)).
Proof.
  intros Hpos Hend p. unfold readShorts, readTypeN, UINT16_LENGTH.
  erewrite bind_eval by (apply read_exact_eq; lia).
  change (Z.to_nat (Z.of_nat 3 * 2)) with 6%nat.
  rewrite (lift_eq _ (unpack_fields (replicate 3 uH) (take 6 (drop (Z.to_nat p) input)))).
  - cbn [replicate unpack_fields fmt_size]. unfold u16_at.
    rewrite !drop_drop, !take_drop_take, take_take, !drop_drop by lia.
    replace (Z.to_nat (p + 2)) with (Z.to_nat p + 2)%nat by lia.
    replace (Z.to_nat (p + 4)) with (Z.to_nat p + (2 + 2))%nat by lia.
    reflexivity.
  - apply unpack_eq. rewrite length_take, length_drop. unfold len in Hend.
    change (calcsize (replicate 3 uH)) with 6%nat. lia.
Qed.

Lemma write_pack_shorts3_eq input p s :
  0 ≤ p → p + 6 ≤ len input →
  write_pack [uH; uH; uH]
    [u16_at input p; u16_at input (p + 2); u16_at input (p + 4)] s
  = Ok ((), State (fIn_pos s) (fOut s ++ bytes_at input p 6) (stdout s)).
Proof.
  intros Hp Hend.
  assert (length (bytes_at input p 6) = calcsize [uH; uH; uH]) as Hlen.
  { unfold bytes_at, len in *. rewrite length_take, length_drop.
    change (calcsize [uH; uH; uH]) with 6%nat. lia. }
  rewrite <- (write_pack_unpack [uH; uH; uH] (bytes_at input p 6) s Hlen).
  f_equal. cbn [unpack_fields fmt_size]. unfold u16_at, bytes_at.
  change (Z.to_nat 6) with 6%nat.
  rewrite !drop_drop, !take_drop_take, take_take, !drop_drop by lia.
  replace (Z.to_nat (p + 2)) with (Z.to_nat p + 2)%nat by lia.
  replace (Z.to_nat (p + 4)) with (Z.to_nat p + (2 + 2))%nat by lia.
  reflexivity.
Qed.

(** X27. For the chunk of the start of an element (type 0x102), other
    than the one of the application, that lies inside the input, whose
    attributes begin behind the attribute header and end inside the
    chunk, [patchChunk] writes as many bytes as the chunk has: the header
    and the line number as they are, the comment, the namespace and the
    name moved by [shifted], the bytes up to the first attribute as they
    are, every attribute patched as [patchAttribute] does, and what
    follows the attributes as it is. *)
Theorem patchChunk_start_element input c d s :
  let start := startOffset c in
  let header := commonHeader c in
  let attrStart := u16_at input (start + 24) in
  let attrCount := u16_at input (start + 28) in
  let attrs := start + headerSize header + attrStart in
  let moved p := le_encode 4 (shifted d (u32_at input p)) in
  type header = 0x102 →
  0 ≤ start → start + chunkSize header ≤ len input →
  start + 36 ≤ attrs →
  attrs + 20 * attrCount ≤ start + chunkSize header →
  patchChunk input c d s
  = Ok ((), State (start + chunkSize header)
              (fOut s ++ bytes_at input start 12 ++ moved (start + 12)
               ++ moved (start + 16) ++ moved (start + 20)
               ++ bytes_at input (start + 24) (attrs - (start + 24))
               ++ concat (patched_bytes d
                          <$> attribute_records input attrs (Z.to_nat attrCount))
               ++ bytes_at input (attrs + 20 * attrCount)
                    (start + chunkSize header - (attrs + 20 * attrCount)))
              (stdout s)).
Proof.
  intros start header attrStart attrCount attrs moved Htype Hstart Hend Hattrs Hlast.
  pose proof (u16_at_range input (start + 28)) as Hcount. fold attrCount in Hcount.
  unfold patchChunk. cbv zeta. fold start. fold header. rewrite Htype.
  unfold COMMON_HEADER_LEN.
  erewrite bind_eval by (by apply seek_set_eq).
  erewrite bind_eval by (apply copy_exact_eq; cbn [fIn_pos]; lia).
  cbn [fIn_pos fOut stdout].
  rewrite decide_True by lia.
  erewrite bind_eval by (apply patchNode_eq; cbn [fIn_pos]; lia).
  cbn [fIn_pos fOut stdout].
  rewrite (decide_False (P := 258 = 256 ∨ 258 = 257)) by lia.
  rewrite (decide_True (P := 258 = 258)) by done.
  unfold patchAttrExt. cbv zeta. fold start. fold header.
  erewrite bind_eval by (apply patchStringRef_eq; cbn [fIn_pos]; lia).
  erewrite bind_eval by (apply patchStringRef_eq; cbn [fIn_pos]; lia).
  erewrite bind_eval by (apply readShorts3_eq; cbn [fIn_pos]; lia).
  cbv zeta. cbn [fIn_pos fOut stdout].
  erewrite bind_eval by (apply write_pack_shorts3_eq; lia).
  cbn [fIn_pos fOut stdout]. unfold UINT16_LENGTH.
  erewrite bind_eval by (apply copy_exact_eq; cbn [fIn_pos]; lia).
  cbn [fIn_pos fOut stdout].
  erewrite bind_eval by apply tell_eq. cbn [fIn_pos].
  replace (u16_at input (start + 8 + 8 + 4 + 4)) with attrStart
    by (subst attrStart; f_equal; lia).
  replace (u16_at input (start + 8 + 8 + 4 + 4 + 4)) with attrCount
    by (subst attrCount; f_equal; lia).
  erewrite bind_eval by (apply copy_exact_eq; cbn [fIn_pos]; lia).
  cbn [fIn_pos fOut stdout].
  erewrite bind_eval
    by (apply for_range_patchAttribute_eq; cbn [fIn_pos]; lia).
  cbn [fIn_pos fOut stdout].
  erewrite bind_eval by apply tell_eq. cbn [fIn_pos].
  rewrite copy_exact_eq by (cbn [fIn_pos]; lia). cbn [fIn_pos fOut stdout].
  f_equal. f_equal. f_equal; [lia|].
  replace (bytes_at input start 12)
    with (bytes_at input start 8 ++ bytes_at input (start + 8) 4)
    by (by rewrite bytes_at_split by lia).
  replace (bytes_at input (start + 24) (attrs - (start + 24)))
    with (bytes_at input (start + 24) 6
          ++ bytes_at input (start + 24 + 6) 6
          ++ bytes_at input (start + 24 + 6 + 6) (attrs - (start + 36)))
    by (rewrite !bytes_at_split by lia; f_equal; lia).
  unfold moved, bytes_at. rewrite <- !app_assoc.
  repeat first [reflexivity | lia | f_equal].
Qed.

Lemma patchChunk_start_element_witness :
  let input := Examples.not_debuggable false in
  let c := {| startOffset := 188;
              commonHeader := {| type := 0x102; headerSize := 16; chunkSize := 56 |} |} in
  patchChunk input c 1 initial
  = Ok ((), State 244
              (bytes_at input 188 12 ++ le_encode 4 0xFFFFFFFF
               ++ le_encode 4 0xFFFFFFFF ++ le_encode 4 3
               ++ bytes_at input 212 12
               ++ patched_bytes 1 (bytes_at input 224 20))
              []).
Proof.
  intros input c.
  rewrite (patchChunk_start_element input c 1 initial);
    [|reflexivity|simpl; lia|vm_compute; discriminate|vm_compute; discriminate
     |vm_compute; discriminate].
  vm_compute. reflexivity.
Defined.
(** ** What the slow path needs of its input *)

Lemma for_range_offsets_fits input delta k :
  ∀ s u s',
    for_range k (offset ← readInt input; write_pack [uI] [offset + delta]) s
    = Ok (u, s') →
    0 ≤ fIn_pos s →
    ∀ j, 0 ≤ j < Z.of_nat k →
         u32_at input (fIn_pos s + 4 * j) + delta < 4294967296.
Proof.
  induction k as [|k IH]; intros s u s' H Hp j Hj; [lia|].
  apply for_range_succ in H as (s1 & Hbody & H).
  bind_inv Hbody as Hread giving offset s0.
  eapply readInt_reached in Hread as (Hoff & _ & Hpos & _); [|apply reached_start|done].
  apply write_pack_Ok in Hbody as (bs & Hpack & ->).
  apply pack_cons_Ok in Hpack as [Hfits _]. apply fits_32 in Hfits; [|done]. rewrite Hoff in Hfits.
  destruct (decide (j = 0)) as [->|Hne].
  - replace (fIn_pos s + 4 * 0) with (fIn_pos s) by lia. lia.
  - pose proof (IH _ _ _ H) as Hlater. cbn [fIn_pos] in Hlater.
    specialize (Hlater ltac:(lia) (j - 1) ltac:(lia)).
    rewrite Hpos in Hlater.
    by replace (fIn_pos s + 4 + 4 * (j - 1)) with (fIn_pos s + 4 * j) in Hlater by lia.
Qed.

(** When [patchStringPool] returns, what it wrote fitted its 32 bits. *)
Lemma patchStringPool_Ok_fits input pool D s u s' :
  patchStringPool input pool D s = Ok (u, s') →
  let c := sp_chunkInfo pool in
  let L := if isUtf8 pool then DEBUGGABLE_STRING_LENGTH_UTF8
           else DEBUGGABLE_STRING_LENGTH_UTF16 in
  0 ≤ startOffset c →
  startOffset c + chunkSize (commonHeader c) ≤ len input →
  pool_laid_out input pool D →
  chunkSize (commonHeader c) + L + 4 < 4294967296
  ∧ ∀ j, D < j < stringCount pool →
         u32_at input (startOffset c + 28 + 4 * j) + L < 4294967296.
Proof.
  unfold patchStringPool, pool_laid_out.
  unfold COMMON_HEADER_LEN, UINT32_LENGTH. cbv zeta.
  intros H Hstart Hend (Hhs & Hstyles & HD & Htable & Hstring).
  set (c := sp_chunkInfo pool) in *.
  set (strlen := if isUtf8 pool then DEBUGGABLE_STRING_LENGTH_UTF8
                 else DEBUGGABLE_STRING_LENGTH_UTF16) in *.
  assert (0 ≤ strlen) as Hstrlen by (subst strlen; by destruct (isUtf8 pool)).
  pose proof (u32_at_nonneg input (startOffset c + 28 + 4 * D)) as Hoffset.
  rewrite Hhs, Hstyles in H.
  rewrite !(decide_False (P := 0 > 0)) in H by done.
  bind_inv H as Hseek. apply seek_set_Ok in Hseek as [_ ->].
  bind_inv H as Hhdr giving u1 s1. apply writeCommonHeader_Ok in Hhdr as [-> Hfits].
  split; [lia|].
  match type of H with
  | _ ?s1 = _ => pose proof (reached_start s1) as Hs
  end.
  cbn [fIn_pos fOut stdout] in *.
  bind_inv H as Hr0. eapply write_pack_reached in Hr0; [|done].
  bind_inv H as Hr1. eapply seek_set_reached in Hr1; [|done].
  bind_inv H as Hr2. eapply copy_reached in Hr2; [|done|lia..].
  bind_inv H as Hr3 giving offset s3.
  eapply readInt_reached in Hr3 as (Hoff & _ & Hr3); [|done|lia]. subst offset.
  bind_inv H as Hr4. eapply write_pack_reached in Hr4; [|done].
  bind_inv H as Hr5 giving u5 s5. eapply write_pack_reached in Hr5; [|done].
  bind_inv H as Hr6.
  destruct Hr5 as [Hpos _].
  intros j Hj.
  eapply for_range_offsets_fits with (j := j - (D + 1)) in Hr6; [|lia..].
  rewrite Hpos in Hr6.
  by replace (startOffset c + 28 + D * 4 + 4 + 4 * (j - (D + 1)))
    with (startOffset c + 28 + 4 * j) in Hr6 by lia.
Qed.

(** What [locateDebuggable] decoded: the pool is the one that stands in
    its chunk, the attributes those of the application element. *)
Lemma locateDebuggable_decoded input fuel s0 v s :
  0 ≤ fIn_pos s0 →
  locateDebuggable input fuel s0 = Ok (v, s) →
  strPoolInfo v = pool_at input (sp_chunkInfo (strPoolInfo v))
  ∧ ∃ c sx sy,
      chunks v !! Z.to_nat (applicationIdx v) = Some c
      ∧ decodeAttributes input c sx = Ok (applicationAttributes v, sy).
Proof.
  intros Hpos Hlocate.
  pose proof (locateDebuggable_indices _ _ _ _ _ Hlocate)
    as ([Hsp (csp & Hcsp & Htsp & Hpool)] & _ & [Happ (capp & Hcapp & Htapp)]).
  pose proof (locateDebuggable_chunk_in _ _ _ _ _ Hpos Hlocate) as Hin.
  unfold locateDebuggable in Hlocate. rename Hlocate into H.
  bind_inv H as Hhdr. bind_inv H as Hsome. case_decide; [by ret_inv H|].
  bind_inv H as Hchunks. bind_inv H as Hfind. case_match.
  bind_inv H as Hget. bind_inv H as Hdecode. bind_inv H as Hrm.
  bind_inv H as Hfindapp. bind_inv H as Hchunk. bind_inv H as Hprint.
  bind_inv H as Hattrs. bind_inv H as Hdbg. ret_inv H.
  cbn [strPoolInfo chunks applicationIdx applicationAttributes stringPoolIdx] in *.
  split.
  - apply lift_Ok in Hget as [Hget _].
    rewrite (getitem_lookup _ _ _ Hsp Hcsp) in Hget. injection Hget as <-.
    rewrite decodeStringPoolInfo_eq in Hdecode.
    + destruct (decide (_ ≤ len input)); [|done].
      injection Hdecode as Hx _. by rewrite ?Hpool.
    + rewrite Forall_lookup in Hin. by destruct (Hin _ _ Hcsp).
  - apply lift_Ok in Hchunk as [Hchunk _].
    rewrite (getitem_lookup _ _ _ Happ Hcapp) in Hchunk. injection Hchunk as <-.
    by eexists _, _, _.
Qed.

Lemma reads_only_findAndroidNsIdx_loop input strPoolInfo n :
  ∀ i pos, reads_only (findAndroidNsIdx_loop input strPoolInfo n i pos).
Proof.
  induction n as [|n IH]; intros i pos; simpl; [apply reads_only_raise|].
  pose proof reads_only_readString. reads_only_tac.
Qed.

(** [findAndroidNsIdx] finds the same index whatever has been written,
    and leaves the state as it was. *)
Lemma findAndroidNsIdx_any_state input strPoolInfo s out printed ns s' :
  findAndroidNsIdx input strPoolInfo (with_outputs out printed s) = Ok (ns, s') →
  findAndroidNsIdx input strPoolInfo s = Ok (ns, s)
  ∧ s' = with_outputs out printed s
  ∧ 0 ≤ ns < stringCount strPoolInfo.
Proof.
  unfold findAndroidNsIdx. intros H.
  rewrite (bind_eval _ _ _ _ _ (tell_eq _)) in H.
  rewrite (bind_eval _ _ _ _ _ (tell_eq _)).
  pose proof (reads_only_findAndroidNsIdx_loop input strPoolInfo
                (Z.to_nat (stringCount strPoolInfo)) 0 (fIn_pos s) s out printed) as Hany.
  unfold with_outputs in *. cbn [fIn_pos] in H. rewrite H in Hany.
  destruct (findAndroidNsIdx_loop _ _ _ _ _ s) as [[ns0 s0]| |] eqn:Hloop; [|done..].
  injection Hany as -> ->.
  apply findAndroidNsIdx_loop_first in Hloop as (-> & Hidx & _).
  split; [done|]. split; [done|]. lia.
Qed.

(** The output of the slow path: the file header, then for each chunk
    what [rebuild_chunk] writes for it, with the index that
    [findAndroidNsIdx] finds, moved behind the new string. *)
Lemma slowPath_segments input fuel v s u s' :
  0 ≤ stringPoolIdx v →
  slowPath input fuel v s = Ok (u, s') →
  ∃ size ns segs,
    let D := rm_len (resmapInfo v) in
    let ns' := if decide (ns >= D) then ns + 1 else ns in
    findAndroidNsIdx input (strPoolInfo v) s = Ok (ns, s)
    ∧ 0 ≤ ns < stringCount (strPoolInfo v)
    ∧ fOut s' = fOut s
                ++ header_bytes (type (fileHeader v)) (headerSize (fileHeader v)) size
                ++ concat segs
    ∧ 0 ≤ size < 4294967296
    ∧ length segs = length (chunks v)
    ∧ ∀ k c seg,
        chunks v !! k = Some c → segs !! k = Some seg →
        ∃ s1 s2,
          rebuild_chunk input v ns' D (Z.of_nat k) c s1 = Ok ((), s2)
          ∧ fOut s2 = fOut s1 ++ seg.
Proof.
  intros Hsp H. unfold slowPath in H. cbv zeta in H.
  bind_inv H as Hprint. apply print_Ok in Hprint as ->.
  bind_inv H as Hhdr. apply writeCommonHeader_Ok in Hhdr as [-> Hsize].
  bind_inv H as Hns giving ns s2.
  cbn [fIn_pos fOut stdout] in Hns.
  apply (findAndroidNsIdx_any_state _ _ s) in Hns as (Hns & -> & Hrange).
  bind_inv H as Hprint. apply print_Ok in Hprint as ->.
  eapply (rebuild_loop_Ok
            (λ i c seg,
               ∃ s1 s2,
                 rebuild_chunk input v
                   (if decide (ns >= rm_len (resmapInfo v)) then ns + 1 else ns)
                   (rm_len (resmapInfo v)) i c s1 = Ok ((), s2)
                 ∧ fOut s2 = fOut s1 ++ seg))
    in H as (segs & Hsegs & Hlen & Hall); [|done| |done].
  - eexists _, ns, segs. cbv zeta.
    split; [done|]. split; [done|]. split; [|split; [done|split]].
    + rewrite Hsegs. cbn [fOut with_outputs]. by rewrite <- app_assoc.
    + by rewrite Hlen.
    + intros k c seg Hc Hseg. by apply (Hall k c seg).
  - intros i c s1 [] s3 Hi Hc Hchunk.
    pose proof Hchunk as Hchunk'. appends_run Hchunk' seg Hseg.
    exists seg. split; [done|]. by exists s1, s3.
Qed.

(** ** Reading the output back *)

Lemma header_of_bytes_app (header rest : list byte) :
  8 ≤ len header → header_of_bytes (header ++ rest) = header_of_bytes header.
Proof.
  intros Hlen. unfold len in Hlen. unfold header_of_bytes.
  rewrite !drop_app_le by lia.
  by rewrite !take_app_le by (rewrite ?length_drop; lia).
Qed.

Lemma chunks_of_lookup (segs : list (list byte)) :
  ∀ p k seg,
    segs !! k = Some seg →
    chunks_of p segs !! k
    = Some {| startOffset := p + len (concat (take k segs));
              commonHeader := header_of_bytes seg |}.
Proof.
  induction segs as [|seg0 segs IH]; intros p k seg Hseg; [done|].
  destruct k as [|k].
  - injection Hseg as ->. cbn. by rewrite Z.add_0_r.
  - cbn [chunks_of lookup list_lookup]. rewrite (IH _ _ _ Hseg).
    cbn [take concat]. rewrite len_app. do 2 f_equal. lia.
Qed.

Lemma length_chunks_of (segs : list (list byte)) p :
  length (chunks_of p segs) = length segs.
Proof. revert p. induction segs as [|seg segs IH]; intros p; simpl; by rewrite ?IH. Qed.

(** [readChunks] on byte strings that each begin with a header saying
    their length. *)
Lemma readChunks_loop_segments (segs : list (list byte)) :
  ∀ (before : list byte) fuel acc out printed,
    Forall (λ seg, 8 ≤ len seg ∧ chunkSize_field seg = len seg) segs →
    (length segs < fuel)%nat →
    ∃ s',
      readChunks_loop (before ++ concat segs) fuel acc (len before)
        (State (len before) out printed)
      = Ok (acc ++ chunks_of (len before) segs, s').
Proof.
  induction segs as [|seg segs IH]; intros before fuel acc out printed Hsegs Hfuel;
    (destruct fuel as [|fuel]; [simpl in Hfuel; lia|]).
  - pose proof (readChunks_loop_S (before ++ concat []) fuel acc
                  (State (len before) out printed)) as Heq.
    cbn [fIn_pos] in Heq. rewrite Heq by (unfold len; lia). clear Heq.
    cbv zeta. cbn [concat]. rewrite app_nil_r. unfold len. rewrite Nat2Z.id, drop_all.
    rewrite decide_True by (simpl; lia). cbn [chunks_of]. rewrite !app_nil_r.
    by eexists.
  - apply Forall_cons in Hsegs as [[Hlen Hfield] Hsegs].
    pose proof (readChunks_loop_S (before ++ concat (seg :: segs)) fuel acc
                  (State (len before) out printed)) as Heq.
    cbn [fIn_pos] in Heq. rewrite Heq by (unfold len; lia). clear Heq.
    cbv zeta. cbn [concat].
    replace (drop (Z.to_nat (len before)) (before ++ seg ++ concat segs))
      with (seg ++ concat segs)
      by (unfold len; by rewrite Nat2Z.id, drop_app_length).
    rewrite decide_False by (rewrite length_app; unfold len in Hlen; lia).
    rewrite header_of_bytes_app by done.
    change (chunkSize (header_of_bytes seg)) with (chunkSize_field seg).
    rewrite Hfield. cbn [fOut stdout].
    destruct (IH (before ++ seg) fuel
                (acc ++ [{| startOffset := len before;
                            commonHeader := header_of_bytes seg |}]) out printed)
      as [s' Hloop]; [done|simpl in Hfuel; lia|].
    rewrite len_app, <- app_assoc in Hloop. rewrite Hloop.
    exists s'. cbn [chunks_of]. by rewrite <- app_assoc.
Qed.

Lemma scan_segments type headerSize size (segs : list (list byte)) :
  Forall (λ seg, 8 ≤ len seg ∧ chunkSize_field seg = len seg) segs →
  scan (S (length segs)) (header_bytes type headerSize size ++ concat segs)
  = Ok (chunks_of 8 segs).
Proof.
  intros Hsegs. unfold scan, readChunks.
  rewrite (bind_eval _ _ _ _ _ (tell_eq _)). cbn [fIn_pos].
  destruct (readChunks_loop_segments segs (header_bytes type headerSize size)
              (S (length segs)) [] [] [] Hsegs) as [s' Hloop]; [lia|].
  rewrite len_header_bytes in Hloop. unfold COMMON_HEADER_LEN. by rewrite Hloop.
Qed.
(** ** The application element that the slow path writes *)

Lemma write_pack_3_uH_eq a b c s :
  0 ≤ a < 65536 → 0 ≤ b < 65536 → 0 ≤ c < 65536 →
  write_pack [uH; uH; uH] [a; b; c] s
  = Ok ((), State (fIn_pos s)
              (fOut s ++ (le_encode 2 a ++ le_encode 2 b ++ le_encode 2 c))
              (stdout s)).
Proof.
  intros Ha Hb Hc. unfold write_pack. cbn [pack].
  rewrite !(proj2 (fits_iff _ _)) by (simpl; lia).
  unfold mbind, M_bind, lift, result_bind, write. cbn [fmt_size].
  by rewrite app_nil_r.
Qed.

Lemma patchApplicationElement_eq input c crm l ns d s :
  let start := startOffset c in
  let header := commonHeader c in
  let attrStart := u16_at input (start + 24) in
  let attrCount := u16_at input (start + 28) in
  let attrs := start + headerSize header + attrStart in
  let records := attribute_records input attrs (Z.to_nat attrCount) in
  chunk_in input c →
  start + chunkSize header ≤ len input →
  chunkSize header + 20 < 4294967296 →
  start + 36 ≤ attrs →
  attrs + 20 * attrCount ≤ start + chunkSize header →
  attrCount + 1 < 65536 →
  0 ≤ startOffset crm + headerSize (commonHeader crm) →
  0 ≤ ns < 4294967296 → 0 ≤ d < 4294967296 →
  Forall (mapped input crm l) records →
  patchApplicationElement input c ns d {| rm_chunkInfo := Some crm; rm_len := l |} s
  = Ok ((), State (start + chunkSize header)
              (fOut s ++ patched_application_bytes input c crm ns d)
              (stdout s)).
Proof.
  intros start header attrStart attrCount attrs records Hin Hend Hgrow Hattrs Hlast
    Hcount Hmap Hns Hd Hmapped.
  pose proof (chunk_in_range _ _ Hin) as (Htype & Hhs & Hcs).
  fold header in Htype, Hhs, Hcs.
  pose proof Hin as (Hstart & _). fold start in Hstart.
  pose proof (u16_at_range input (start + 28)) as Hcount'. fold attrCount in Hcount'.
  pose proof (u16_at_range input (start + 24)) as HattrStart.
  pose proof (u16_at_range input (start + 26)) as HattrSize.
  unfold patchApplicationElement. cbv zeta. fold start. fold header.
  unfold COMMON_HEADER_LEN, ATTRIBUTE_LENGTH.
  erewrite bind_eval by (apply seek_set_eq; lia).
  erewrite bind_eval by (apply writeCommonHeader_eq; lia).
  cbn [fIn_pos fOut stdout].
  erewrite bind_eval by (apply patchNode_eq; cbn [fIn_pos]; lia).
  cbn [fIn_pos fOut stdout].
  erewrite bind_eval by (apply patchStringRef_eq; cbn [fIn_pos]; lia).
  erewrite bind_eval by (apply patchStringRef_eq; cbn [fIn_pos]; lia).
  erewrite bind_eval by (apply readShorts3_eq; cbn [fIn_pos]; lia).
  cbv zeta. cbn [fIn_pos fOut stdout].
  replace (u16_at input (start + 8 + 8 + 4 + 4)) with attrStart
    by (subst attrStart; f_equal; lia).
  replace (u16_at input (start + 8 + 8 + 4 + 4 + 4)) with attrCount
    by (subst attrCount; f_equal; lia).
  replace (start + 8 + 8 + 4 + 4 + 2) with (start + 26) by lia.
  erewrite bind_eval by (apply write_pack_3_uH_eq; lia).
  cbn [fIn_pos fOut stdout]. unfold UINT16_LENGTH.
  erewrite bind_eval by (apply copy_exact_eq; cbn [fIn_pos]; lia).
  cbn [fIn_pos fOut stdout].
  erewrite bind_eval by apply tell_eq. cbn [fIn_pos].
  erewrite bind_eval by (apply copy_exact_eq; cbn [fIn_pos]; lia).
  cbn [fIn_pos fOut stdout].
  erewrite bind_eval.
  2:{ apply patchApplicationAttributes_eq; cbn [fIn_pos]; try lia.
      replace (start + 8 + 8 + 4 + 4 + 6 + 2 * 3
               + (start + headerSize header + attrStart
                  - (start + 8 + 8 + 4 + 4 + 6 + 2 * 3)))
        with attrs by (subst attrs; lia).
      exact Hmapped. }
  cbn [fIn_pos fOut stdout].
  erewrite bind_eval by apply tell_eq. cbn [fIn_pos].
  rewrite copy_exact_eq by (cbn [fIn_pos]; lia). cbn [fIn_pos fOut stdout].
  replace (start + 8 + 8 + 4 + 4 + 6 + 2 * 3
           + (start + headerSize header + attrStart
              - (start + 8 + 8 + 4 + 4 + 6 + 2 * 3)))
    with attrs by (subst attrs; lia).
  fold records.
  f_equal. f_equal. f_equal; [lia|].
  unfold patched_application_bytes. cbv zeta.
  fold start header attrStart attrCount attrs records.
  unfold bytes_at. rewrite <- !app_assoc.
  repeat first [reflexivity | lia | f_equal].
Qed.

Lemma len_debuggable_record ns d : len (debuggable_record ns d) = 20.
Proof. unfold debuggable_record, len. by rewrite !length_app, !length_le_encode. Qed.

Lemma length_attribute_record input p n :
  0 ≤ p → p + 20 * Z.of_nat n ≤ len input →
  Forall (λ record : list byte, length record = 20%nat) (attribute_records input p n).
Proof.
  intros Hp Hend. unfold attribute_records. apply Forall_fmap, Forall_forall.
  intros i [_ Hi]%elem_of_seq. simpl.
  unfold len in Hend. rewrite length_take, length_drop. lia.
Qed.

Lemma len_patched_records d (records : list (list byte)) :
  Forall (λ record : list byte, length record = 20%nat) records →
  len (concat (patched_bytes d <$> records)) = 20 * len records.
Proof.
  induction 1 as [|record records Hlen _ IH]; [done|].
  cbn [fmap list_fmap concat]. rewrite len_app, IH.
  destruct (patched_bytes_spec d record Hlen) as [Hlen' _].
  unfold len in *. rewrite length_cons. lia.
Qed.

Lemma u16_at_bytes_at (input : list byte) p :
  u16_at input p = le_decode (bytes_at input p 2).
Proof. done. Qed.

Lemma debuggable_record_fields offset ns d :
  0 ≤ ns < 4294967296 → 0 ≤ d < 4294967296 →
  attribute_of_bytes offset (debuggable_record ns d)
  = {| attr_startOffset := offset; nsId := ns; nameId := d; rawVal := 0xFFFFFFFF;
       size := 8; dataType := 0x12; data := 0xFFFFFFFF |}.
Proof.
  intros Hns Hd. unfold debuggable_record.
  rewrite attribute_of_bytes_parts by apply length_le_encode.
  by rewrite !(le_decode_encode 4) by lia.
Qed.

(** The application element that the slow path writes, read back where
    it stands in an output: [decodeAttributes] finds one attribute more
    than in the input, and the one at the insertion index is the new
    record. *)
Lemma patched_application_read_back input c crm ns d (before after : list byte) t :
  let start := startOffset c in
  let header := commonHeader c in
  let attrStart := u16_at input (start + 24) in
  let attrCount := u16_at input (start + 28) in
  let records := attribute_records input (start + 16 + attrStart) (Z.to_nat attrCount) in
  let k := insertion_index (record_resId input crm <$> records) in
  let seg := patched_application_bytes input c crm ns d in
  let out := before ++ seg ++ after in
  let c' := {| startOffset := len before; commonHeader := header_of_bytes seg |} in
  chunk_in input c → headerSize header = 16 →
  start + chunkSize header ≤ len input →
  chunkSize header + 20 < 4294967296 →
  20 ≤ attrStart →
  16 + attrStart + 20 * attrCount ≤ chunkSize header →
  u16_at input (start + 26) = 20 →
  attrCount + 1 < 65536 →
  0 ≤ ns < 4294967296 → 0 ≤ d < 4294967296 →
  0 ≤ fIn_pos t →
  len seg = chunkSize header + 20
  ∧ header_of_bytes seg
    = {| type := type header; headerSize := 16; chunkSize := chunkSize header + 20 |}
  ∧ ∃ attrs' t',
      decodeAttributes out c' t = Ok (attrs', t')
      ∧ length attrs' = S (Z.to_nat attrCount)
      ∧ attrs' !! k
        = Some {| attr_startOffset := len before + 16 + attrStart + 20 * Z.of_nat k;
                  nsId := ns; nameId := d; rawVal := 0xFFFFFFFF; size := 8;
                  dataType := 0x12; data := 0xFFFFFFFF |}.
Proof.
  intros start header attrStart attrCount records k seg out c' Hin Hhs Hend Hgrow
    HattrStart Hlast Hsize Hcount Hns Hd Ht.
  pose proof (chunk_in_range _ _ Hin) as (Htype & _ & Hcs).
  fold header in Htype, Hcs.
  pose proof Hin as (Hstart & _). fold start in Hstart.
  pose proof (u16_at_range input (start + 28)) as Hcount'. fold attrCount in Hcount'.
  pose proof (u16_at_range input (start + 24)) as HattrStart'.
  fold attrStart in HattrStart'.
  assert (Forall (λ record : list byte, length record = 20%nat) records) as Hrecords.
  { apply length_attribute_record; lia. }
  assert (k ≤ Z.to_nat attrCount)%nat as Hk.
  { pose proof (insertion_index_le (record_resId input crm <$> records)) as Hle.
    fold k in Hle. subst records.
    by rewrite length_fmap, length_attribute_records in Hle. }
  assert (len (concat (patched_bytes d <$> take k records)) = 20 * Z.of_nat k) as HA.
  { rewrite len_patched_records by (by apply Forall_take).
    unfold len. rewrite length_take. subst records.
    rewrite length_attribute_records. lia. }
  assert (len (concat (patched_bytes d <$> drop k records))
          = 20 * (attrCount - Z.of_nat k)) as HB.
  { rewrite len_patched_records by (by apply Forall_drop).
    unfold len. rewrite length_drop. subst records.
    rewrite length_attribute_records. lia. }
  assert (seg
          = header_bytes (type header) 16 (chunkSize header + 20)
            ++ bytes_at input (start + 8) 4
            ++ le_encode 4 (shifted d (u32_at input (start + 12)))
            ++ le_encode 4 (shifted d (u32_at input (start + 16)))
            ++ le_encode 4 (shifted d (u32_at input (start + 20)))
            ++ le_encode 2 attrStart ++ le_encode 2 20 ++ le_encode 2 (attrCount + 1)
            ++ bytes_at input (start + 30) 6
            ++ bytes_at input (start + 36) (attrStart - 20)
            ++ concat (patched_bytes d <$> take k records)
            ++ debuggable_record ns d
            ++ concat (patched_bytes d <$> drop k records)
            ++ bytes_at input (start + 16 + attrStart + 20 * attrCount)
                 (chunkSize header - (16 + attrStart + 20 * attrCount))) as Hseg.
  { subst seg. unfold patched_application_bytes. cbv zeta.
    fold start header attrStart attrCount. rewrite Hhs, Hsize. fold records k.
    rewrite <- !app_assoc.
    repeat first [reflexivity | lia | f_equal]. }
  assert (len seg = chunkSize header + 20) as Hlen.
  { rewrite Hseg. rewrite !len_app, len_header_bytes, !len_le_encode, HA, HB,
      len_debuggable_record.
    rewrite !length_bytes_at by lia. lia. }
  assert (header_of_bytes seg
          = {| type := type header; headerSize := 16;
               chunkSize := chunkSize header + 20 |}) as Hheader.
  { rewrite Hseg. apply header_of_bytes_header_bytes; lia. }
  split; [done|]. split; [done|].
  assert (len out = len before + len seg + len after) as Hout
    by (subst out; rewrite !len_app; lia).
  assert (0 ≤ len before ∧ 0 ≤ len after) as [Hbefore Hafter] by (unfold len; lia).
  assert (∀ q m, 0 ≤ q → 0 ≤ m → q + m ≤ len seg →
                 bytes_at out (len before + q) m = bytes_at seg q m) as Hwindow.
  { intros q m Hq Hm Hqm. by apply bytes_at_middle. }
  assert (u16_at out (len before + 16 + 8) = attrStart) as Hf1.
  { rewrite u16_at_bytes_at.
    replace (len before + 16 + 8) with (len before + 24) by lia.
    rewrite Hwindow by lia. rewrite Hseg.
    skip_seg 8. do 4 skip_seg 4. rewrite bytes_at_here by seg_len.
    apply (le_decode_encode 2). lia. }
  assert (u16_at out (len before + 16 + 10) = 20) as Hf2.
  { rewrite u16_at_bytes_at.
    replace (len before + 16 + 10) with (len before + 26) by lia.
    rewrite Hwindow by lia. rewrite Hseg.
    skip_seg 8. do 4 skip_seg 4. skip_seg 2. rewrite bytes_at_here by seg_len.
    by apply (le_decode_encode 2). }
  assert (u16_at out (len before + 16 + 12) = attrCount + 1) as Hf3.
  { rewrite u16_at_bytes_at.
    replace (len before + 16 + 12) with (len before + 28) by lia.
    rewrite Hwindow by lia. rewrite Hseg.
    skip_seg 8. do 4 skip_seg 4. do 2 skip_seg 2. rewrite bytes_at_here by seg_len.
    apply (le_decode_encode 2). lia. }
  subst c'. rewrite Hheader.
  pose proof (decodeAttributes_eq out
                {| startOffset := len before;
                   commonHeader := {| type := type header; headerSize := 16;
                                      chunkSize := chunkSize header + 20 |} |} t)
    as Hdecode.
  cbv zeta in Hdecode. cbn [startOffset commonHeader headerSize] in Hdecode.
  rewrite Hf1, Hf2, Hf3 in Hdecode.
  rewrite decide_False in Hdecode by lia.
  rewrite decide_True in Hdecode by lia.
  eexists _, _. split; [apply Hdecode; lia|]. split.
  - rewrite length_fmap, length_seq. lia.
  - rewrite list_lookup_fmap, lookup_seq_lt by lia. cbn [fmap option_fmap option_map].
    f_equal. unfold attribute_here.
    change (take 20 (drop (Z.to_nat ?p) out)) with (bytes_at out p 20).
    replace (len before + 16 + attrStart + 20 * Z.of_nat (0 + k))
      with (len before + (16 + attrStart + 20 * Z.of_nat k)) by lia.
    rewrite Hwindow by lia. rewrite Hseg.
    skip_seg 8. do 4 skip_seg 4. do 3 skip_seg 2. skip_seg 6.
    skip_seg (attrStart - 20). skip_seg (20 * Z.of_nat k).
    rewrite bytes_at_here by (apply len_debuggable_record || lia).
    rewrite debuggable_record_fields by done. f_equal. lia.
Qed.

Lemma Forall_or_first {A} (P : A → Prop) (l : list A) :
  (∀ x, P x ∨ ¬ P x) →
  Forall P l ∨ ∃ j x, l !! j = Some x ∧ ¬ P x ∧ Forall P (take j l).
Proof.
  intros Hdec. induction l as [|a l IH]; [by left|].
  destruct (Hdec a) as [Ha|Ha].
  - destruct IH as [IH|(j & x & Hx & Hnot & Hbefore)].
    + left. by constructor.
    + right. exists (S j), x. repeat split; [done..|]. by constructor.
  - right. exists 0%nat, a. repeat split; [done|]. constructor.
Qed.

Lemma mapped_or_not input c l record :
  mapped input c l record ∨ ¬ mapped input c l record.
Proof. unfold mapped. destruct (decide (record_name record < l)); [|tauto].
  destruct (decide (startOffset c + headerSize (commonHeader c)
                    + 4 * record_name record + 4 ≤ len input)); tauto.
Qed.

(** When [patchApplicationElement] returns, the attribute count still
    fitted its 16 bits and every attribute name had an entry in the
    resource map. *)
Lemma patchApplicationElement_Ok_mapped input c crm l ns d s u s' :
  let start := startOffset c in
  let header := commonHeader c in
  let attrStart := u16_at input (start + 24) in
  let attrCount := u16_at input (start + 28) in
  let attrs := start + headerSize header + attrStart in
  let records := attribute_records input attrs (Z.to_nat attrCount) in
  patchApplicationElement input c ns d {| rm_chunkInfo := Some crm; rm_len := l |} s
  = Ok (u, s') →
  chunk_in input c →
  start + chunkSize header ≤ len input →
  start + 36 ≤ attrs →
  attrs + 20 * attrCount ≤ start + chunkSize header →
  0 ≤ startOffset crm + headerSize (commonHeader crm) →
  (∀ name, 0 ≤ name < l →
     startOffset crm + headerSize (commonHeader crm) + 4 * name + 4 ≤ len input) →
  0 ≤ ns < 4294967296 → 0 ≤ d < 4294967296 →
  chunkSize header + 20 < 4294967296
  ∧ attrCount + 1 < 65536
  ∧ Forall (mapped input crm l) records.
Proof.
  intros start header attrStart attrCount attrs records H Hin Hend Hattrs Hlast
    Hmap Hinside Hns Hd.
  pose proof (chunk_in_range _ _ Hin) as (Htype & Hhs & Hcs).
  fold header in Htype, Hhs, Hcs.
  pose proof Hin as (Hstart & _). fold start in Hstart.
  pose proof (u16_at_range input (start + 28)) as Hcount'. fold attrCount in Hcount'.
  pose proof (u16_at_range input (start + 24)) as HattrStart.
  pose proof (u16_at_range input (start + 26)) as HattrSize.
  unfold patchApplicationElement in H. cbv zeta in H. fold start header in H.
  unfold COMMON_HEADER_LEN, ATTRIBUTE_LENGTH in H.
  erewrite bind_eval in H by (apply seek_set_eq; lia).
  bind_inv H as Hhdr. apply writeCommonHeader_Ok in Hhdr as [-> Hgrow].
  erewrite bind_eval in H by (apply patchNode_eq; cbn [fIn_pos]; lia).
  cbn [fIn_pos fOut stdout] in H.
  erewrite bind_eval in H by (apply patchStringRef_eq; cbn [fIn_pos]; lia).
  erewrite bind_eval in H by (apply patchStringRef_eq; cbn [fIn_pos]; lia).
  erewrite bind_eval in H by (apply readShorts3_eq; cbn [fIn_pos]; lia).
  cbv zeta in H. cbn [fIn_pos fOut stdout] in H.
  replace (u16_at input (start + 8 + 8 + 4 + 4)) with attrStart in H
    by (subst attrStart; f_equal; lia).
  replace (u16_at input (start + 8 + 8 + 4 + 4 + 4)) with attrCount in H
    by (subst attrCount; f_equal; lia).
  bind_inv H as Hpack. apply write_pack_Ok in Hpack as (bs & Hpack & ->).
  apply pack_cons_Ok in Hpack as (_ & bs1 & Hpack & _).
  apply pack_cons_Ok in Hpack as (_ & bs2 & Hpack & _).
  apply pack_cons_Ok in Hpack as (Hfits & _).
  apply fits_iff in Hfits. change (2 ^ (8 * Z.of_nat (fmt_size uH))) with 65536 in Hfits.
  split; [lia|]. split; [lia|].
  cbn [fIn_pos fOut stdout] in H. unfold UINT16_LENGTH in H.
  erewrite bind_eval in H by (apply copy_exact_eq; cbn [fIn_pos]; lia).
  cbn [fIn_pos fOut stdout] in H.
  erewrite bind_eval in H by apply tell_eq. cbn [fIn_pos] in H.
  erewrite bind_eval in H by (apply copy_exact_eq; cbn [fIn_pos]; lia).
  cbn [fIn_pos fOut stdout] in H.
  replace (start + 8 + 8 + 4 + 4 + 6 + 2 * 3
           + (start + headerSize header + attrStart
              - (start + 8 + 8 + 4 + 4 + 6 + 2 * 3)))
    with attrs in H by (subst attrs; lia).
  bind_inv H as Hloop. clear H.
  unfold patchApplicationAttributes in Hloop. bind_inv Hloop as Hrun. clear Hloop.
  destruct (Forall_or_first (mapped input crm l) records (mapped_or_not input crm l))
    as [Hall|(j & record & Hrecord & Hnot & Hbefore)]; [done|].
  exfalso.
  assert (l ≤ record_name record) as Hname.
  { destruct (decide (l ≤ record_name record)) as [|Hlt]; [done|].
    destruct Hnot. split; [lia|]. apply Hinside. split; [|lia].
    unfold record_name. apply le_decode_range. }
  erewrite patchApplicationAttributes_loop_raises in Hrun; try done; cbn [fIn_pos]; lia.
Qed.
(** ** The output of the slow path, chunk by chunk *)

Lemma slow_path_takes_string input fuel v s c s1 u s2 :
  locateDebuggable input fuel initial = Ok (v, s) →
  chunks v !! Z.to_nat (stringPoolIdx v) = Some c →
  laid_out input v (stringPoolIdx v) c →
  patchStringPool input (strPoolInfo v) (rm_len (resmapInfo v)) s1 = Ok (u, s2) →
  takes_string input (strPoolInfo v) (rm_len (resmapInfo v)).
Proof.
  intros Hlocate Hc [Hend Hlaid] Hpatch.
  rewrite decide_True in Hlaid by done.
  pose proof (locateDebuggable_indices _ _ _ _ _ Hlocate)
    as ([Hsp (csp & Hcsp & Htsp & Hpool)] & _).
  rewrite Hc in Hcsp. injection Hcsp as <-.
  pose proof (locateDebuggable_chunk_in input fuel initial v s (Z.le_refl 0) Hlocate)
    as Hin.
  rewrite Forall_lookup in Hin. specialize (Hin _ _ Hc).
  destruct (locateDebuggable_decoded input fuel initial v s (Z.le_refl 0) Hlocate)
    as [Hdecoded _].
  pose proof Hin as (Hstart & _).
  pose proof (patchStringPool_Ok_fits _ _ _ _ _ _ Hpatch) as Hfits.
  cbv zeta in Hfits. rewrite Hpool in Hfits.
  destruct (Hfits Hstart Hend Hlaid) as [Hgrow Hoffsets].
  destruct Hlaid as (Hhs & Hstyles & HD & Htable & Hstring).
  rewrite Hpool in Hhs, Hstring.
  unfold takes_string. cbv zeta. rewrite Hpool.
  repeat split; try done; try lia.
  - by destruct Hin as (_ & ? & _).
  - by destruct Hin as (_ & _ & ?).
  - rewrite Hdecoded. cbn [flags pool_at]. apply u32_at_range.
  - rewrite Hdecoded. cbn [flags pool_at]. apply u32_at_range.
  - by rewrite Hdecoded.
Qed.

Lemma segment_in_output (header : list byte) (segs : list (list byte)) k seg :
  segs !! k = Some seg →
  header ++ concat segs
  = (header ++ concat (take k segs)) ++ seg ++ concat (drop (S k) segs).
Proof.
  intros H. rewrite <- (take_drop_middle _ _ _ H) at 1.
  rewrite concat_app. cbn [concat]. by rewrite <- !app_assoc.
Qed.

Lemma laid_out_size input fuel v s i c :
  locateDebuggable input fuel initial = Ok (v, s) →
  0 ≤ i → chunks v !! Z.to_nat i = Some c →
  laid_out input v i c →
  8 ≤ chunkSize (commonHeader c) + inserted_bytes v i.
Proof.
  intros Hlocate Hi Hc [_ Hlaid]. unfold inserted_bytes.
  pose proof (locateDebuggable_indices _ _ _ _ _ Hlocate)
    as ([Hsp (csp & Hcsp & Htsp & Hpool)] & _).
  destruct (decide (i = stringPoolIdx v)) as [->|_].
  { assert (csp = c) as -> by congruence.
    destruct Hlaid as (_ & _ & HD & Htable & Hstring). rewrite Hpool in Hstring.
    pose proof (u32_at_nonneg input (startOffset c + 28 + 4 * rm_len (resmapInfo v))).
    unfold UINT32_LENGTH, DEBUGGABLE_STRING_LENGTH_UTF8, DEBUGGABLE_STRING_LENGTH_UTF16.
    destruct (isUtf8 (strPoolInfo v)); lia. }
  destruct (decide (i = resmapIdx v)) as [_|_]; [unfold UINT32_LENGTH; lia|].
  assert (8 ≤ chunkSize (commonHeader c)) as Hsize.
  { unfold node_laid_out, element_laid_out in Hlaid. cbv zeta in Hlaid.
    pose proof (u16_at_nonneg input (startOffset c + 28)).
    repeat case_decide; lia. }
  case_decide; unfold ATTRIBUTE_LENGTH; lia.
Qed.

(** What the slow path writes, read back with the program's own
    readers: [readChunks] finds the chunks of the input again, the
    string pool, the resource map and the application element where
    they were; the application element has one attribute more, the new
    record; its name index has the resource id of debuggable in the
    resource map of the output and, in a UTF-16 pool, the string
    "debuggable" in the pool of the output. *)
Lemma slowPath_read_back input fuel v s s' :
  locateDebuggable input fuel initial = Ok (v, s) →
  slowPath input fuel v s = Ok ((), s') →
  0 ≤ resmapIdx v →
  (∀ k c, chunks v !! k = Some c → laid_out input v (Z.of_nat k) c) →
  (∀ c, rm_chunkInfo (resmapInfo v) = Some c → resmap_laid_out c) →
  let out := fOut s' in
  let D := rm_len (resmapInfo v) in
  ∃ ns chunks' pool' map' application' strPoolInfo' attrs' k record,
    findAndroidNsIdx input (strPoolInfo v) s = Ok (ns, s)
    ∧ scan (S (length (chunks v))) out = Ok chunks'
    ∧ chunks' !! Z.to_nat (stringPoolIdx v) = Some pool'
    ∧ chunks' !! Z.to_nat (resmapIdx v) = Some map'
    ∧ chunks' !! Z.to_nat (applicationIdx v) = Some application'
    ∧ type (commonHeader pool') = CHUNK_TYPE_STRINGPOOL
    ∧ type (commonHeader map') = CHUNK_TYPE_RESMAP
    ∧ type (commonHeader application') = CHUNK_TYPE_START_ELEMENT
    ∧ (∃ t, decodeStringPoolInfo out pool' initial = Ok (strPoolInfo', t))
    ∧ (∃ t, decodeAttributes out application' initial = Ok (attrs', t))
    ∧ length attrs' = S (length (applicationAttributes v))
    ∧ attrs' !! k = Some record
    ∧ nsId record = (if decide (ns >= D) then ns + 1 else ns)
    ∧ nameId record = D
    ∧ data record = 0xFFFFFFFF
    ∧ dataType record = 0x12
    ∧ readResId out
        {| rm_chunkInfo := Some map'; rm_len := calculateResMapLength map' |}
        D initial
      = Ok (Some DEBUGGABLE_RES_ID, initial)
    ∧ (isUtf8 (strPoolInfo v) = false →
       readString out strPoolInfo' D initial
       = Ok (Some (Decoded utf_16 (utf16le DEBUGGABLE_STRING)), initial)).
Proof.
  intros Hlocate Hslow Hrm0 Hlaid Hmap out D.
  pose proof (locateDebuggable_indices _ _ _ _ _ Hlocate)
    as ([Hsp (csp & Hcsp & Htsp & Hpool)] & Hrm & [Happ (capp & Hcapp & Htapp)]).
  destruct Hrm as [[Hrm _]|[_ (crm & Hcrm & Htrm & Hinfo)]]; [lia|].
  pose proof (locateDebuggable_chunk_in input fuel initial v s (Z.le_refl 0) Hlocate)
    as Hin.
  rewrite Forall_lookup in Hin.
  pose proof (locateDebuggable_Ok _ _ _ _ _ Hlocate) as (Hout & _ & _).
  destruct (locateDebuggable_decoded input fuel initial v s (Z.le_refl 0) Hlocate)
    as (Hdecoded & capp' & sx & sy & Hcapp' & Hattrs).
  rewrite Hcapp in Hcapp'. injection Hcapp' as <-.
  assert (stringPoolIdx v ≠ resmapIdx v) as Hsr.
  { intros Heq. rewrite Heq, Hcrm in Hcsp. injection Hcsp as <-.
    rewrite Htrm in Htsp. discriminate Htsp. }
  assert (stringPoolIdx v ≠ applicationIdx v) as Hsa.
  { intros Heq. rewrite Heq, Hcapp in Hcsp. injection Hcsp as <-.
    rewrite Htapp in Htsp. discriminate Htsp. }
  assert (resmapIdx v ≠ applicationIdx v) as Hra.
  { intros Heq. rewrite Heq, Hcapp in Hcrm. injection Hcrm as <-.
    rewrite Htapp in Htrm. discriminate Htrm. }
  apply slowPath_segments in Hslow
    as (size & ns & segs & Hns & Hnsrange & Hfout & Hsize & Hlen & Hall); [|done].
  cbv zeta in Hall. fold D in Hall.
  set (ns' := if decide (ns >= D) then ns + 1 else ns) in *.
  rewrite Hout in Hfout. cbn [initial fOut app] in Hfout. fold out in Hfout.
  set (header := header_bytes (type (fileHeader v)) (headerSize (fileHeader v)) size)
    in *.
  assert (Forall (λ seg, 8 ≤ len seg ∧ chunkSize_field seg = len seg) segs) as Hsegs.
  { apply Forall_lookup. intros k seg Hseg.
    destruct (lookup_lt_is_Some_2 (chunks v) k) as [c Hc].
    { rewrite <- Hlen. by eapply lookup_lt_Some. }
    destruct (Hall k c seg Hc Hseg) as (s1 & s2 & Hchunk & Hw).
    eapply rebuild_chunk_size in Hchunk as (seg' & Hw' & Hfield & Hlen');
      [|exact Hlocate|lia|by rewrite Nat2Z.id|by eapply Hin|by apply Hlaid].
    rewrite Hw in Hw'. apply app_inv_head in Hw' as <-.
    pose proof (laid_out_size input fuel v s (Z.of_nat k) c Hlocate) as Hmin.
    rewrite Nat2Z.id in Hmin. specialize (Hmin ltac:(lia) Hc (Hlaid _ _ Hc)).
    split; lia. }
  assert (scan (S (length (chunks v))) out = Ok (chunks_of 8 segs)) as Hscan.
  { rewrite Hfout, <- Hlen. by apply scan_segments. }
  assert (∀ k seg, segs !! k = Some seg →
            chunks_of 8 segs !! k
            = Some {| startOffset := len (header ++ concat (take k segs));
                      commonHeader := header_of_bytes seg |}) as Hchunks.
  { intros k seg Hseg. rewrite (chunks_of_lookup _ _ _ _ Hseg).
    subst header. by rewrite len_app, len_header_bytes. }
  assert (∀ k c, chunks v !! k = Some c → ∃ seg, segs !! k = Some seg) as Hsome.
  { intros k c Hc. apply lookup_lt_is_Some_2. rewrite Hlen. by eapply lookup_lt_Some. }
  destruct (Hsome _ _ Hcsp) as [seg_sp Hseg_sp].
  destruct (Hsome _ _ Hcrm) as [seg_rm Hseg_rm].
  destruct (Hsome _ _ Hcapp) as [seg_app Hseg_app].
  (* the string pool *)
  destruct (Hall _ _ _ Hcsp Hseg_sp) as (s1 & s2 & Hchunk & Hw).
  rewrite Z2Nat.id in Hchunk by done. unfold rebuild_chunk in Hchunk.
  rewrite decide_True in Hchunk by done.
  assert (takes_string input (strPoolInfo v) D) as Htakes.
  { eapply slow_path_takes_string; [done..| |done].
    specialize (Hlaid _ _ Hcsp). by rewrite Z2Nat.id in Hlaid. }
  pose proof (patched_pool_read_back input (strPoolInfo v) D s1
                (header ++ concat (take (Z.to_nat (stringPoolIdx v)) segs))
                (concat (drop (S (Z.to_nat (stringPoolIdx v))) segs))
                initial Htakes (Z.le_refl 0)) as Hback_sp.
  cbv zeta in Hback_sp.
  destruct Hback_sp as (Heq & _ & _ & Hdecode_sp & Hread_sp).
  rewrite Hchunk in Heq. injection Heq as Heq. rewrite Heq in Hw.
  apply app_inv_head in Hw as <-. clear Heq Hchunk s1 s2.
  rewrite <- (segment_in_output _ _ _ _ Hseg_sp), <- Hfout in Hdecode_sp, Hread_sp.
  assert (header_of_bytes (patched_pool input (strPoolInfo v) D)
          = commonHeader
              (sp_chunkInfo
                 (with_new_string (strPoolInfo v)
                    (len (header ++ concat (take (Z.to_nat (stringPoolIdx v)) segs))))))
    as Hheader_sp.
  { pose proof (patched_pool_header _ _ _ Htakes []) as Hh.
    rewrite app_nil_r in Hh. rewrite Hh.
    destruct Htakes as (_ & _ & _ & Hhs & _).
    cbn [with_new_string sp_chunkInfo commonHeader]. by rewrite Hhs. }
  (* the resource map *)
  destruct (Hall _ _ _ Hcrm Hseg_rm) as (s1 & s2 & Hchunk & Hw).
  rewrite Z2Nat.id in Hchunk by done. unfold rebuild_chunk in Hchunk.
  rewrite decide_False, decide_True in Hchunk by done.
  pose proof (Hlaid _ _ Hcrm) as [Hend_rm _].
  destruct (Hmap crm) as [Hhs_rm Hmod_rm]; [by rewrite Hinfo|].
  pose proof (chunk_in_range _ _ (Hin _ _ Hcrm)) as (_ & _ & Hcs_rm).
  assert (chunkSize (commonHeader crm) + 4 < 4294967296) as Hgrow_rm.
  { rewrite Hinfo in Hchunk. unfold patchResmap in Hchunk. cbn [rm_chunkInfo] in Hchunk.
    bind_inv Hchunk as Hseek. bind_inv Hchunk as Hhdr.
    apply writeCommonHeader_Ok in Hhdr as [_ Hfits]. unfold UINT32_LENGTH in Hfits. lia. }
  destruct (patchResmap_read_back input crm (calculateResMapLength crm) s1
              (header ++ concat (take (Z.to_nat (resmapIdx v)) segs))
              (concat (drop (S (Z.to_nat (resmapIdx v))) segs))
              (Hin _ _ Hcrm) Hhs_rm Hmod_rm Hend_rm Hgrow_rm)
    as (seg0 & Heq & Hback_rm).
  rewrite <- Hinfo, Hchunk in Heq. injection Heq as Heq. rewrite Heq in Hw.
  apply app_inv_head in Hw as <-. clear Heq Hchunk s1 s2.
  cbv zeta in Hback_rm.
  rewrite <- (segment_in_output _ _ _ _ Hseg_rm), <- Hfout in Hback_rm.
  destruct Hback_rm as (Hheader_rm & _ & _ & Hread_rm).
  destruct (Hread_rm initial (Z.le_refl 0)) as [Hread_D _]. clear Hread_rm.
  (* the application element *)
  destruct (Hall _ _ _ Hcapp Hseg_app) as (s1 & s2 & Hchunk & Hw).
  rewrite Z2Nat.id in Hchunk by done. unfold rebuild_chunk in Hchunk.
  rewrite !decide_False, decide_True in Hchunk by done.
  pose proof (Hlaid _ _ Hcapp) as [Hend_app Hnode].
  rewrite Z2Nat.id, !decide_False in Hnode by done.
  unfold node_laid_out in Hnode. rewrite Htapp, decide_True in Hnode by done.
  destruct Hnode as (Hhs_app & HattrStart & Hlast).
  pose proof (u16_at_nonneg input (startOffset capp + 28)) as Hcount0.
  pose proof (Hin _ _ Hcapp) as Hin_app. pose proof Hin_app as (Hstart_app & _).
  pose proof (Hin _ _ Hcrm) as (Hstart_rm & _).
  assert (0 ≤ D < 4294967296) as HD.
  { subst D. rewrite Hinfo. cbn [rm_len]. unfold calculateResMapLength, UINT32_LENGTH.
    split; [apply Z.div_pos; lia|].
    apply Z.div_lt_upper_bound; lia. }
  assert (0 ≤ ns' < 4294967296) as Hns'.
  { assert (stringCount (strPoolInfo v) < 4294967296) as Hcount.
    { rewrite Hdecoded. cbn [stringCount pool_at]. apply u32_at_range. }
    subst ns'. case_decide; lia. }
  assert (4 * calculateResMapLength crm
          = chunkSize (commonHeader crm) - headerSize (commonHeader crm)) as Hwords.
  { unfold calculateResMapLength, UINT32_LENGTH.
    pose proof (Z.div_mod (chunkSize (commonHeader crm) - headerSize (commonHeader crm)) 4).
    lia. }
  rewrite Hinfo in Hchunk.
  pose proof Hchunk as Hfacts.
  apply patchApplicationElement_Ok_mapped in Hfacts
    as (Hgrow_app & Hcount_app & Hmapped); [|done|done|lia|lia|lia| |done|done].
  2:{ intros name Hname. lia. }
  rewrite patchApplicationElement_eq in Hchunk by (done || lia).
  injection Hchunk as Heq. rewrite <- Heq in Hw. cbn [fOut] in Hw.
  apply app_inv_head in Hw as <-. clear Heq s1 s2.
  assert (u16_at input (startOffset capp + 26) = 20
          ∧ length (applicationAttributes v)
            = Z.to_nat (u16_at input (startOffset capp + 28))) as [Hsize_app Hlength].
  { rewrite decodeAttributes_eq in Hattrs by lia. cbv zeta in Hattrs.
    rewrite Hhs_app in Hattrs.
    replace (startOffset capp + 16 + 10) with (startOffset capp + 26) in Hattrs by lia.
    replace (startOffset capp + 16 + 12) with (startOffset capp + 28) in Hattrs by lia.
    destruct (decide (u16_at input (startOffset capp + 26) ≠ 20)) as [|Hsize_app];
      [done|].
    case_decide; [|done]. injection Hattrs as <- _.
    split; [lia|]. by rewrite length_fmap, length_seq. }
  destruct (patched_application_read_back input capp crm ns' D
              (header ++ concat (take (Z.to_nat (applicationIdx v)) segs))
              (concat (drop (S (Z.to_nat (applicationIdx v))) segs))
              initial Hin_app Hhs_app Hend_app Hgrow_app HattrStart Hlast Hsize_app
              Hcount_app Hns' HD (Z.le_refl 0))
    as (_ & Hheader_app & attrs' & t' & Hdecode_app & Hlength' & Hrecord).
  rewrite <- (segment_in_output _ _ _ _ Hseg_app), <- Hfout in Hdecode_app.
  eexists ns, (chunks_of 8 segs), _, _, _, _, attrs', _, _.
  split; [done|]. split; [done|].
  split; [by apply Hchunks|]. split; [by apply Hchunks|]. split; [by apply Hchunks|].
  cbn [commonHeader].
  cbn [commonHeader] in Hheader_rm.
  split.
  { rewrite Hheader_sp. cbn [with_new_string sp_chunkInfo commonHeader type].
    by rewrite Hpool. }
  split; [by rewrite Hheader_rm|].
  split; [by rewrite Hheader_app|].
  split.
  { eexists. rewrite Hheader_sp. exact Hdecode_sp. }
  split; [by eexists|].
  split; [by rewrite Hlength', Hlength|].
  split; [exact Hrecord|]. cbn [nsId nameId data dataType].
  split; [done|]. split; [done|]. split; [done|]. split; [done|].
  split.
  { subst D. rewrite Hinfo. exact Hread_D. }
  intros Hutf16. by apply Hread_sp.
Qed.
(** ** C1: the attribute in the output *)



